(** * modular-async-di: the generic wiring engine (src/wiring.js)

    A shallow embedding of [WiringBuilder] and [Wiring]: the adjuster
    registry keyed by dotted container types, the lazy expansion of wiring
    adjusters, the cloning checkpoints and the container materializer.

    Modelling conventions.
    - An adjuster is a JavaScript function compared by reference; it is
      represented by a natural number standing for its identity.
    - A plain object used as a dictionary ([_containerAdjusters],
      [_wiringAdjusters]) is an association list of its own properties in
      the order [Object.entries] and [Object.keys] enumerate them: the keys
      that are array indices first, in ascending numeric order, then the
      other keys in insertion order ([addProperty]).
    - A read [adjusterCollection[key]] is modelled as the lookup of an own
      property.  The code reads through the prototype chain: for a key that
      [Object.prototype] defines ([objectPrototypeNames]) it finds a value
      that is truthy and not an array, so that [_ensureContainerTypeExists]
      adds no entry and the first [push], [slice] or [shift] on what was
      read throws a [TypeError].  Such a key can only be met in
      [_wiringAdjusters], for a container type whose first component is one
      of these names (the keys of [_containerAdjusters] start with a dot).
      The model agrees with the code on all other container types
      ([isOwnName]); statements about the entry of a container type in
      [_wiringAdjusters] are made for these.
    - Classes are known by name: [Wiring], [StructuredWiring] and the
      subclass of [Wiring] of the test suite.  A method of
      [StructuredWiring] called on an instance of another class is not a
      function, which is a [TypeError].
    - Every [Wiring] instance owns its arrays: the constructor and
      [_getAncestorAdjusters] copy with [slice()] and [_pushAdjusters] copies
      element by element.  Wiring instances themselves live in a store and
      are addressed by reference, so that cloning, building and mutation
      through [this] are explicit.
    - User callbacks are parameters: a wiring adjuster is described by the
      list of [Wiring] objects it hands to [addWiring]; a container adjuster
      is opaque and leaves an entry in the trace of the creation.  A callback
      does not create containers while it runs: a container wired as a bean
      is created when the bean is fetched, after the creation has returned.
    - Loops and recursions that need not terminate take fuel; running out of
      fuel is the outcome [Exhausted]. *)

From Stdlib Require Import String Ascii List Bool Arith NArith Lia Wf_nat.
Import ListNotations.

Local Open Scope string_scope.
Local Open Scope list_scope.

#[local] Set Warnings "-register-all".

(** ** Strings: [split('.')], [join('.')], [startsWith] *)

Definition dot : ascii := "."%char.

(** [s.split('.')] *)
Fixpoint split (s : string) : list string :=
  match s with
  | EmptyString => [EmptyString]
  | String c s' =>
      if Ascii.eqb c dot then EmptyString :: split s'
      else match split s' with
           | h :: t => String c h :: t
           | [] => [String c EmptyString]
           end
  end.

(** [components.join('.')] *)
Fixpoint join (l : list string) : string :=
  match l with
  | [] => EmptyString
  | x :: rest =>
      match rest with
      | [] => x
      | _ :: _ => String.append x (String dot (join rest))
      end
  end.

(** [s.startsWith(p)] *)
Definition startsWith (s p : string) : bool := String.prefix p s.

(** The template literal [`${t}.`] *)
Definition withDot (t : string) : string := String.append t ".".

(** The template literal [`.${t}`] *)
Definition dotted (t : string) : string := String dot t.

(** [d.startsWith(`${a}.`)]: the test that makes [d] a descendant of [a]. *)
Definition isAncestorOf (a d : string) : bool := startsWith d (withDot a).

(** [s.slice(-1)] *)
Fixpoint lastChar (s : string) : string :=
  match s with
  | EmptyString => EmptyString
  | String c EmptyString => String c EmptyString
  | String _ s' => lastChar s'
  end.

(** [Wiring.isValidContainerType] (the [typeof] test is the type). *)
Definition isValidContainerType (containerType : string) : bool :=
  negb (String.eqb containerType "")
  && negb (startsWith containerType ".")
  && negb (String.eqb (lastChar containerType) ".").

(** ** Adjuster collections *)

Definition Adjuster := nat.

Definition AdjusterCollection := list (string * list Adjuster).

(** [adjusterCollection[containerType]], read among the own properties;
    [None] is [undefined].  (For a key that [Object.prototype] defines the
    code reads the inherited value instead: see the conventions above and
    [isOwnName].) *)
Fixpoint lookup (containerType : string) (c : AdjusterCollection)
  : option (list Adjuster) :=
  match c with
  | [] => None
  | (k, l) :: rest =>
      if String.eqb k containerType then Some l else lookup containerType rest
  end.

Definition keys (c : AdjusterCollection) : list string := map fst c.

(** [_pushAdjusters(adjusterList, adjusters)] *)
Definition _pushAdjusters (adjusterList adjusters : list Adjuster)
  : list Adjuster := adjusterList ++ adjusters.

(** [_pushAdjusters(adjusterCollection[containerType], adjusters)]: the array
    stored under [containerType] grows in place. *)
Definition pushAt (containerType : string) (adjusters : list Adjuster)
  (c : AdjusterCollection) : AdjusterCollection :=
  map (fun e : string * list Adjuster =>
         if String.eqb (fst e) containerType
         then (fst e, _pushAdjusters (snd e) adjusters) else e) c.

(** The [while (ancestorComponents.length > 1)] loop of
    [_getAncestorAdjusters]; [n] bounds the number of iterations by the
    number of components. *)
Fixpoint ancestorLoop (n : nat) (ancestorComponents : list string)
  (c : AdjusterCollection) : list Adjuster :=
  match n with
  | O => []
  | S n' =>
      if Nat.ltb 1 (List.length ancestorComponents) then
        let popped := removelast ancestorComponents in
        match lookup (join popped) c with
        | Some l => l
        | None => ancestorLoop n' popped c
        end
      else []
  end.

Definition _getAncestorAdjusters (c : AdjusterCollection)
  (containerType : string) : list Adjuster :=
  let ancestorComponents := split containerType in
  ancestorLoop (List.length ancestorComponents) ancestorComponents c.

(** The value of a decimal digit. *)
Definition digitValue (c : ascii) : option N :=
  let n := N_of_ascii c in
  if (N.leb 48 n && N.leb n 57)%bool then Some (N.sub n 48) else None.

(** The number written by a string of decimal digits, after [acc]. *)
Fixpoint digitsValue (s : string) (acc : N) : option N :=
  match s with
  | EmptyString => Some acc
  | String c s' =>
      match digitValue c with
      | Some d => digitsValue s' (N.add (N.mul 10 acc) d)
      | None => None
      end
  end.

(** A property key is an array index when it is the canonical decimal
    writing (no leading zero) of an integer below [2^32 - 1]. *)
Definition arrayIndex (key : string) : option N :=
  match key with
  | EmptyString => None
  | String c rest =>
      if Ascii.eqb c "0"
      then match rest with EmptyString => Some 0%N | _ => None end
      else match digitsValue key 0 with
           | Some n => if N.ltb n 4294967295 then Some n else None
           | None => None
           end
  end.

(** The place of a new array index [n] among the own properties. *)
Fixpoint insertIndexed (n : N) (e : string * list Adjuster)
  (c : AdjusterCollection) : AdjusterCollection :=
  match c with
  | [] => [e]
  | e' :: rest =>
      match arrayIndex (fst e') with
      | Some m => if N.ltb m n then e' :: insertIndexed n e rest else e :: c
      | None => e :: c
      end
  end.

(** The assignment [adjusterCollection[key] = adjusters] for a [key] the
    object does not have yet: the new property is enumerated after the
    others, unless it is an array index. *)
Definition addProperty (c : AdjusterCollection) (key : string)
  (adjusters : list Adjuster) : AdjusterCollection :=
  match arrayIndex key with
  | Some n => insertIndexed n (key, adjusters) c
  | None => c ++ [(key, adjusters)]
  end.

Definition _ensureContainerTypeExists (c : AdjusterCollection)
  (containerType : string) : AdjusterCollection :=
  match lookup containerType c with
  | Some _ => c
  | None => addProperty c containerType (_getAncestorAdjusters c containerType)
  end.

Definition _pushAdjustersIntoDescendants (c : AdjusterCollection)
  (containerType : string) (adjusters : list Adjuster) : AdjusterCollection :=
  map (fun e : string * list Adjuster =>
         if startsWith (fst e) (withDot containerType)
         then (fst e, _pushAdjusters (snd e) adjusters) else e) c.

Definition _pushAdjustersIntoUnknownDescendants (c : AdjusterCollection)
  (containerType : string) (adjusters : list Adjuster)
  (referenceCollection : AdjusterCollection) : AdjusterCollection :=
  map (fun e : string * list Adjuster =>
         if startsWith (fst e) (withDot containerType)
         then match lookup (fst e) referenceCollection with
              | None => (fst e, _pushAdjusters (snd e) adjusters)
              | Some _ => e
              end
         else e) c.

Definition _addAdjuster (c : AdjusterCollection) (containerType : string)
  (adjuster : Adjuster) : AdjusterCollection :=
  let adjusters := [adjuster] in
  let c1 := _ensureContainerTypeExists c containerType in
  let c2 := pushAt containerType adjusters c1 in
  _pushAdjustersIntoDescendants c2 containerType adjusters.

(** One iteration of the [forEach] in [_addAdjusters]. *)
Definition addAdjustersEntry (sourceCollection : AdjusterCollection)
  (c : AdjusterCollection) (e : string * list Adjuster) : AdjusterCollection :=
  let c1 := _ensureContainerTypeExists c (fst e) in
  let c2 := pushAt (fst e) (snd e) c1 in
  _pushAdjustersIntoUnknownDescendants c2 (fst e) (snd e) sourceCollection.

Definition _addAdjusters (c sourceCollection : AdjusterCollection)
  : AdjusterCollection :=
  fold_left (addAdjustersEntry sourceCollection) sourceCollection c.

(** ** Wiring objects *)

Inductive Wiring : Type := mkWiring {
  (** the class the instance was constructed from ([this.constructor]) *)
  wiringClass : string;
  _containerAdjusters : AdjusterCollection;
  _wiringAdjusters : AdjusterCollection;
  (** the [Map]: an absent key is [undefined], [None] is [null] *)
  _wiringSuppliedByWiringAdjusters : list (Adjuster * option Wiring)
}.

Definition SuppliedMap := list (Adjuster * option Wiring).

(** [map.get(adjuster)] *)
Fixpoint mapGet (a : Adjuster) (m : SuppliedMap) : option (option Wiring) :=
  match m with
  | [] => None
  | (k, v) :: rest => if Nat.eqb k a then Some v else mapGet a rest
  end.

(** [map.has(adjuster)] *)
Definition mapHas (a : Adjuster) (m : SuppliedMap) : bool :=
  match mapGet a m with Some _ => true | None => false end.

(** [map.set(adjuster, value)]: an existing key keeps its position. *)
Fixpoint mapSet (a : Adjuster) (v : option Wiring) (m : SuppliedMap)
  : SuppliedMap :=
  match m with
  | [] => [(a, v)]
  | (k, v') :: rest =>
      if Nat.eqb k a then (k, v) :: rest else (k, v') :: mapSet a v rest
  end.

Definition setContainerAdjusters (c : AdjusterCollection) (w : Wiring) :=
  mkWiring (wiringClass w) c (_wiringAdjusters w)
           (_wiringSuppliedByWiringAdjusters w).

Definition setWiringAdjusters (c : AdjusterCollection) (w : Wiring) :=
  mkWiring (wiringClass w) (_containerAdjusters w) c
           (_wiringSuppliedByWiringAdjusters w).

Definition setSupplied (m : SuppliedMap) (w : Wiring) :=
  mkWiring (wiringClass w) (_containerAdjusters w) (_wiringAdjusters w) m.

(** The constructor, [new cls(wiring)]: fresh dictionaries, every array
    copied with [slice()], and a fresh [Map] with the source's entries. *)
Definition newWiring (cls : string) (wiring : option Wiring) : Wiring :=
  match wiring with
  | None => mkWiring cls [] [] []
  | Some w =>
      mkWiring cls
        (map (fun e : string * list Adjuster => (fst e, snd e))
             (_containerAdjusters w))
        (map (fun e : string * list Adjuster => (fst e, snd e))
             (_wiringAdjusters w))
        (map (fun e : Adjuster * option Wiring => (fst e, snd e))
             (_wiringSuppliedByWiringAdjusters w))
  end.

(** [new this.constructor(this)] *)
Definition clone (this : Wiring) : Wiring :=
  newWiring (wiringClass this) (Some this).

Definition _ensureSuppliedWiringKeyExists (wiringAdjuster : Adjuster)
  (this : Wiring) : Wiring :=
  if mapHas wiringAdjuster (_wiringSuppliedByWiringAdjusters this) then this
  else setSupplied
         (mapSet wiringAdjuster None (_wiringSuppliedByWiringAdjusters this))
         this.

(** The [forEach] of [_addSuppliedWiring] over the entries of [src]. *)
Definition mergeSupplied (m src : SuppliedMap) : SuppliedMap :=
  fold_left
    (fun (m : SuppliedMap) (e : Adjuster * option Wiring) =>
       if mapHas (fst e) m then m else mapSet (fst e) (snd e) m)
    src m.

Definition _addSuppliedWiring (wiring : Wiring) (this : Wiring) : Wiring :=
  setSupplied
    (mergeSupplied (_wiringSuppliedByWiringAdjusters this)
                   (_wiringSuppliedByWiringAdjusters wiring))
    this.

Definition _adjustContainer (containerType : string)
  (containerAdjuster : Adjuster) (this : Wiring) : Wiring :=
  let this1 :=
    setContainerAdjusters
      (_addAdjuster (_containerAdjusters this) (dotted containerType)
                    containerAdjuster) this in
  setWiringAdjusters
    (_ensureContainerTypeExists (_wiringAdjusters this1) containerType) this1.

Definition _adjustWiringAfter (containerType : string)
  (wiringAdjuster : Adjuster) (this : Wiring) : Wiring :=
  let this1 :=
    setWiringAdjusters
      (_addAdjuster (_wiringAdjusters this) containerType wiringAdjuster)
      this in
  let this2 :=
    if String.eqb containerType "" then this1
    else setContainerAdjusters
           (_ensureContainerTypeExists (_containerAdjusters this1)
                                       (dotted containerType)) this1 in
  let this3 :=
    setContainerAdjusters
      (_addAdjuster (_containerAdjusters this2) "" wiringAdjuster) this2 in
  _ensureSuppliedWiringKeyExists wiringAdjuster this3.

Definition _adjustBaseWiring (wiringAdjuster : Adjuster) (this : Wiring)
  : Wiring := _adjustWiringAfter "" wiringAdjuster this.

Definition _addWiring (wiring : Wiring) (this : Wiring) : Wiring :=
  let this1 :=
    setContainerAdjusters
      (_addAdjusters (_containerAdjusters this) (_containerAdjusters wiring))
      this in
  let this2 :=
    setWiringAdjusters
      (_addAdjusters (_wiringAdjusters this1) (_wiringAdjusters wiring))
      this1 in
  _addSuppliedWiring wiring this2.

(** ** Outcomes of operations that may throw *)

Inductive Result (A : Type) : Type :=
| Ok (a : A)
| TypeError
| RangeError
| Exhausted.

Arguments Ok {A} a.
Arguments TypeError {A}.
Arguments RangeError {A}.
Arguments Exhausted {A}.

Definition bind {A B : Type} (r : Result A) (k : A -> Result B) : Result B :=
  match r with
  | Ok a => k a
  | TypeError => TypeError
  | RangeError => RangeError
  | Exhausted => Exhausted
  end.

Notation "x <- r ;; k" := (bind r (fun x => k))
  (at level 61, r at next level, right associativity).

(** ** Containers and the store of wiring instances *)

(** Arguments handed to container adjusters are opaque to the wiring. *)
Definition Value := string.

(** A reference to a [Wiring] instance. *)
Definition ref := nat.

(** What the wiring does to a container of the underlying DI library: it
    registers the bean [wiring] and calls container adjusters on it. *)
Inductive ContainerOp : Type :=
| RegisterBean (name : string) (wiring : ref)
| Adjust (containerAdjuster : Adjuster) (args : list Value).

(** A container is known by the operations performed on it, oldest first. *)
Definition Container := list ContainerOp.

(** The outcome of one container creation: the container and the wiring
    adjusters that were called, in call order, before ([baseCalls], without
    context) and after ([afterCalls], with the container as context). *)
Record Creation : Type := mkCreation {
  container : Container;
  baseCalls : list Adjuster;
  afterCalls : list Adjuster
}.

Inductive Event : Type :=
| WiringAdjusterCalled (wiringAdjuster : Adjuster) (arg : option Container)
| ContainerChanged (op : ContainerOp).

(** Everything one creation did, in the order it happened. *)
Definition trace (c : Creation) : list Event :=
  map (fun w => WiringAdjusterCalled w None) (baseCalls c)
  ++ map ContainerChanged (container c)
  ++ map (fun w => WiringAdjusterCalled w (Some (container c))) (afterCalls c).

(** The container adjusters called on a container, in call order. *)
Fixpoint adjustersCalled (c : Container) : list Adjuster :=
  match c with
  | [] => []
  | RegisterBean _ _ :: rest => adjustersCalled rest
  | Adjust f _ :: rest => f :: adjustersCalled rest
  end.

Definition Store := list Wiring.

Definition deref (s : Store) (r : ref) : option Wiring := nth_error s r.

(** [new ...]: the fresh instance gets the next reference. *)
Definition alloc (w : Wiring) (s : Store) : ref * Store :=
  (List.length s, s ++ [w]).

(** Mutation of the instance behind [r]. *)
Fixpoint assign (r : ref) (w : Wiring) (s : Store) : Store :=
  match s, r with
  | [], _ => []
  | _ :: rest, O => w :: rest
  | x :: rest, S r' => x :: assign r' w rest
  end.

(** ** Container creation *)

Section Creation.

(** [suppliedBy wiringAdjuster arg]: the [Wiring] objects the wiring adjuster
    passes to its [addWiring] callback, in call order, when called with
    context [arg] (nothing for base wiring, the created container for
    after-wiring). *)
Variable suppliedBy : Adjuster -> option Container -> list Wiring.

(** [array.shift()] on the list stored under [containerType]. *)
Definition replaceAt (containerType : string) (l : list Adjuster)
  (c : AdjusterCollection) : AdjusterCollection :=
  map (fun e : string * list Adjuster =>
         if String.eqb (fst e) containerType then (fst e, l) else e) c.

(** The [addWiring] callback of one wiring adjuster; the state is the pair of
    [suppliedWiring] (the resolution under construction) and [this]. *)
Definition addWiringCallback (st : Wiring * Wiring) (wiringToAdd : Wiring)
  : Wiring * Wiring :=
  let (suppliedWiring, this) := st in
  let suppliedWiring1 :=
    setContainerAdjusters
      (_addAdjusters (_containerAdjusters suppliedWiring)
                     (_containerAdjusters wiringToAdd)) suppliedWiring in
  let this1 :=
    setWiringAdjusters
      (_addAdjusters (_wiringAdjusters this) (_wiringAdjusters wiringToAdd))
      this in
  (suppliedWiring1, _addSuppliedWiring wiringToAdd this1).

Definition ensureAll (c : AdjusterCollection) (containerTypes : list string)
  : AdjusterCollection :=
  fold_left _ensureContainerTypeExists containerTypes c.

(** The two [forEach] loops that synchronise container types. *)
Definition synchronise (st : Wiring * Wiring) : Wiring * Wiring :=
  let (suppliedWiring, this) := st in
  let this1 :=
    setContainerAdjusters
      (ensureAll (_containerAdjusters this)
                 (keys (_containerAdjusters suppliedWiring))) this in
  let suppliedWiring1 :=
    setContainerAdjusters
      (ensureAll (_containerAdjusters suppliedWiring)
                 (keys (_containerAdjusters this1))) suppliedWiring in
  (suppliedWiring1, this1).

(** From [new Wiring()] to the end of [await wiringAdjuster(addWiring, arg)]:
    the fresh [suppliedWiring] is put in the map before the adjuster is
    called, and the adjuster calls [addWiring] on each wiring it supplies. *)
Definition runWiringAdjuster (wiringAdjuster : Adjuster)
  (arg : option Container) (this : Wiring) : Wiring * Wiring :=
  let suppliedWiring := newWiring "Wiring" None in
  let this1 :=
    setSupplied
      (mapSet wiringAdjuster (Some suppliedWiring)
              (_wiringSuppliedByWiringAdjusters this)) this in
  fold_left addWiringCallback (suppliedBy wiringAdjuster arg)
            (suppliedWiring, this1).

(** The body of the [while] loop once [wiringAdjuster] is known not to be
    resolved.  The map holds a reference to [suppliedWiring], so what the
    callback and the synchronisation add to it is what the map holds at the
    end of the iteration. *)
Definition callWiringAdjuster (wiringAdjuster : Adjuster)
  (arg : option Container) (this : Wiring) : Wiring :=
  let (suppliedWiring1, this2) :=
    synchronise (runWiringAdjuster wiringAdjuster arg this) in
  setSupplied
    (mapSet wiringAdjuster (Some suppliedWiring1)
            (_wiringSuppliedByWiringAdjusters this2)) this2.

(** The [while ((wiringAdjuster = ....shift()))] loop.  The result is the
    final state of [this] and the wiring adjusters called, in call order.
    ([undefined.shift()] would throw a [TypeError]; the list exists whenever
    the loop is entered and is never removed.) *)
Fixpoint gatherLoop (fuel : nat) (containerType : string)
  (arg : option Container) (this : Wiring) : Result (Wiring * list Adjuster) :=
  match fuel with
  | O => Exhausted
  | S fuel' =>
      match lookup containerType (_wiringAdjusters this) with
      | None => TypeError
      | Some [] => Ok (this, [])
      | Some (wiringAdjuster :: rest) =>
          let this1 :=
            setWiringAdjusters
              (replaceAt containerType rest (_wiringAdjusters this)) this in
          match mapGet wiringAdjuster
                       (_wiringSuppliedByWiringAdjusters this1) with
          | Some (Some _) => gatherLoop fuel' containerType arg this1
          | _ =>
              r <- gatherLoop fuel' containerType arg
                     (callWiringAdjuster wiringAdjuster arg this1) ;;
              Ok (fst r, wiringAdjuster :: snd r)
          end
      end
  end.

Definition _gatherWiringSuppliedByWiringAdjusters (fuel : nat)
  (containerType : string) (arg : option Container) (this : Wiring)
  : Result (Wiring * list Adjuster) :=
  match lookup containerType (_wiringAdjusters this) with
  | None => Ok (this, [])
  | Some _ => gatherLoop fuel containerType arg this
  end.

(** [_getFlattenedContainerAdjusters]; [fuel] bounds the recursion depth and
    [supplied] is [this._wiringSuppliedByWiringAdjusters].  Both callers make
    sure the list exists ([undefined.forEach] would throw a [TypeError]). *)
Fixpoint _getFlattenedContainerAdjusters (fuel : nat) (supplied : SuppliedMap)
  (c : AdjusterCollection) (containerType : string) : Result (list Adjuster) :=
  match fuel with
  | O => Exhausted
  | S fuel' =>
      match lookup containerType c with
      | None => TypeError
      | Some l =>
          fold_left
            (fun (acc : Result (list Adjuster)) (adjuster : Adjuster) =>
               flattened <- acc ;;
               match mapGet adjuster supplied with
               | None => Ok (flattened ++ [adjuster])
               | Some None => Ok flattened
               | Some (Some suppliedWiring) =>
                   match lookup containerType
                                (_containerAdjusters suppliedWiring) with
                   | Some _ =>
                       sub <- _getFlattenedContainerAdjusters fuel' supplied
                                (_containerAdjusters suppliedWiring)
                                containerType ;;
                       Ok (_pushAdjusters flattened sub)
                   | None => Ok flattened
                   end
               end)
            l (Ok [])
      end
  end.

(** The [for ... of] loop of [_createContainer] with its
    [appliedContainerAdjusters] set: the container adjusters called, in call
    order. *)
Fixpoint applyAdjusters (applied : list Adjuster)
  (containerAdjusters : list Adjuster) : list Adjuster :=
  match containerAdjusters with
  | [] => []
  | f :: rest =>
      if existsb (Nat.eqb f) applied then applyAdjusters applied rest
      else f :: applyAdjusters (f :: applied) rest
  end.

(** [_createContainer], run on the instance [this] whose reference is
    [self].  The second component is the state [this] is left in. *)
Definition _createContainer (fuel : nat) (self : ref) (containerType : string)
  (args : list Value) (this : Wiring) : Result (Creation * Wiring) :=
  g <- _gatherWiringSuppliedByWiringAdjusters fuel "" None this ;;
  let this1 := fst g in
  match lookup (dotted containerType) (_containerAdjusters this1) with
  | None => RangeError
  | Some _ =>
      containerAdjusters <-
        _getFlattenedContainerAdjusters fuel
          (_wiringSuppliedByWiringAdjusters this1)
          (_containerAdjusters this1) (dotted containerType) ;;
      let container :=
        RegisterBean "wiring" self
        :: map (fun f => Adjust f args) (applyAdjusters [] containerAdjusters) in
      h <- _gatherWiringSuppliedByWiringAdjusters fuel containerType
             (Some container) this1 ;;
      Ok (mkCreation container (snd g) (snd h), fst h)
  end.

(** [Wiring#createContainer]: clone, then create on the clone. *)
Definition createContainer (fuel : nat) (this : ref) (containerType : string)
  (args : list Value) (s : Store) : Result (Creation * Store) :=
  if isValidContainerType containerType then
    match deref s this with
    | None => TypeError
    | Some w =>
        let (wiring, s1) := alloc (clone w) s in
        r <- _createContainer fuel wiring containerType args (clone w) ;;
        Ok (fst r, assign wiring (snd r) s1)
    end
  else TypeError.

(** The closure returned by [createContainerFactory]: it captures [this]
    (the clone made by [createContainerFactory]), the container type and the
    factory arguments. *)
Record ContainerFactory : Type := mkFactory {
  factoryWiring : ref;
  factoryType : string;
  factoryArgs : list Value
}.

(** [_createContainerFactory], run on [this] whose reference is [self]. *)
Definition _createContainerFactory (fuel : nat) (self : ref)
  (containerType : string) (factoryArguments : list Value) (this : Wiring)
  : Result (ContainerFactory * list Adjuster * Wiring) :=
  g <- _gatherWiringSuppliedByWiringAdjusters fuel "" None this ;;
  match lookup (dotted containerType) (_containerAdjusters (fst g)) with
  | None => RangeError
  | Some _ =>
      Ok (mkFactory self containerType factoryArguments, snd g, fst g)
  end.

(** [Wiring#createContainerFactory]; the list is the base wiring adjusters
    called while the factory was made. *)
Definition createContainerFactory (fuel : nat) (this : ref)
  (containerType : string) (factoryArguments : list Value) (s : Store)
  : Result (ContainerFactory * list Adjuster * Store) :=
  if isValidContainerType containerType then
    match deref s this with
    | None => TypeError
    | Some w =>
        let (wiring, s1) := alloc (clone w) s in
        r <- _createContainerFactory fuel wiring containerType
               factoryArguments (clone w) ;;
        Ok (fst (fst r), snd (fst r), assign wiring (snd r) s1)
    end
  else TypeError.

(** A call [factory(...callerArgs)]. *)
Definition callFactory (fuel : nat) (factory : ContainerFactory)
  (callerArgs : list Value) (s : Store) : Result (Creation * Store) :=
  match deref s (factoryWiring factory) with
  | None => TypeError
  | Some w =>
      let (wiring, s1) := alloc (clone w) s in
      r <- _createContainer fuel wiring (factoryType factory)
             (factoryArgs factory ++ callerArgs) (clone w) ;;
      Ok (fst r, assign wiring (snd r) s1)
  end.

End Creation.

(** ** WiringBuilder *)

Record WiringBuilder : Type := mkBuilder { _wiring : ref }.

(** [new WiringBuilder(wiring)]; [Wiring.isWiring] is the validity of the
    reference. *)
Definition newWiringBuilder (wiring : option ref) (s : Store)
  : Result (WiringBuilder * Store) :=
  match wiring with
  | None =>
      let (r, s1) := alloc (newWiring "Wiring" None) s in
      Ok (mkBuilder r, s1)
  | Some src =>
      match deref s src with
      | None => TypeError
      | Some w =>
          let (r, s1) := alloc (clone w) s in Ok (mkBuilder r, s1)
      end
  end.

(** A method of the builder that mutates its private wiring. *)
Definition onWiring (b : WiringBuilder) (f : Wiring -> Wiring) (s : Store)
  : Result Store :=
  match deref s (_wiring b) with
  | None => TypeError
  | Some w => Ok (assign (_wiring b) (f w) s)
  end.

Definition adjustBaseWiring (b : WiringBuilder) (wiringAdjuster : Adjuster)
  (s : Store) : Result Store :=
  onWiring b (_adjustBaseWiring wiringAdjuster) s.

Definition adjustContainer (b : WiringBuilder) (containerType : string)
  (containerAdjuster : Adjuster) (s : Store) : Result Store :=
  if isValidContainerType containerType
  then onWiring b (_adjustContainer containerType containerAdjuster) s
  else TypeError.

Definition adjustWiringAfter (b : WiringBuilder) (containerType : string)
  (wiringAdjuster : Adjuster) (s : Store) : Result Store :=
  if isValidContainerType containerType
  then onWiring b (_adjustWiringAfter containerType wiringAdjuster) s
  else TypeError.

Definition addWiring (b : WiringBuilder) (wiring : ref) (s : Store)
  : Result Store :=
  match deref s wiring with
  | None => TypeError
  | Some w => onWiring b (_addWiring w) s
  end.

Definition build (b : WiringBuilder) (s : Store) : Result (ref * Store) :=
  match deref s (_wiring b) with
  | None => TypeError
  | Some w => Ok (alloc (clone w) s)
  end.

(** A call of one of the four mutating methods of a builder. *)
Inductive BuilderCall : Type :=
| AdjustBaseWiring (wiringAdjuster : Adjuster)
| AdjustContainer (containerType : string) (containerAdjuster : Adjuster)
| AdjustWiringAfter (containerType : string) (wiringAdjuster : Adjuster)
| AddWiring (wiring : ref).

Definition call (b : WiringBuilder) (c : BuilderCall) (s : Store)
  : Result Store :=
  match c with
  | AdjustBaseWiring w => adjustBaseWiring b w s
  | AdjustContainer t f => adjustContainer b t f s
  | AdjustWiringAfter t w => adjustWiringAfter b t w s
  | AddWiring r => addWiring b r s
  end.

(** A script of builder calls; a call that throws leaves the store as it
    was, and the script goes on (the caller caught the exception). *)
Definition calls (b : WiringBuilder) (cs : list BuilderCall) (s : Store)
  : Store :=
  fold_left (fun s c => match call b c s with Ok s' => s' | _ => s end) cs s.

(** ** Predicates and derived notions used in the statements *)

(** [inclusiveUpTo P pending c]: whatever the list of a known type holds is
    also in the list of each of its known descendants, except for adjusters
    satisfying [P] and for those still [pending] for that descendant. *)
Definition inclusiveUpTo (P : Adjuster -> Prop)
  (pending : string -> Adjuster -> Prop) (c : AdjusterCollection) : Prop :=
  forall a d la ld x,
    lookup a c = Some la -> lookup d c = Some ld ->
    isAncestorOf a d = true -> In x la ->
    In x ld \/ P x \/ pending d x.

(** A collection is ancestor-inclusive when the list of every known type
    contains the list of each of its known ancestors. *)
Definition ancestorInclusive (c : AdjusterCollection) : Prop :=
  forall a d la ld,
    lookup a c = Some la -> lookup d c = Some ld ->
    isAncestorOf a d = true -> incl la ld.

(** [!referenceCollection[k]] *)
Definition unknownTo (reference : AdjusterCollection) (k : string) : bool :=
  match lookup k reference with None => true | Some _ => false end.

(** During the [forEach] of [_addAdjusters]: [x] is in the list that an
    entry still [todo] will push to the type [d]. *)
Definition pendingIn (todo : AdjusterCollection) (d : string) (x : Adjuster)
  : Prop := exists ls, In (d, ls) todo /\ In x ls.

(** [appendedTo c src r]: [r] knows the types of [c] and of [src]; the list
    of a type of [c] is the beginning of its list in [r]; the list of a type
    of [src] is the end of its list in [r], and what comes before it is the
    whole list of [c] when [c] knows the type. *)
Definition appendedTo (c src r : AdjusterCollection) : Prop :=
  (forall k, In k (keys r) <-> In k (keys c) \/ In k (keys src))
  /\ (forall k l, lookup k c = Some l ->
        exists extra, lookup k r = Some (l ++ extra))
  /\ (forall k ls, lookup k src = Some ls ->
        exists pre, lookup k r = Some (pre ++ ls)
                    /\ forall l, lookup k c = Some l -> pre = l).

(** Every adjuster stored in the collection belongs to [U]. *)
Definition allIn (U : list Adjuster) (c : AdjusterCollection) : Prop :=
  forall k l, In (k, l) c -> incl l U.

(** The wirings of the definition phase: what a [WiringBuilder] can hold
    and what [build()] can return. *)
Inductive DefinitionPhase : Wiring -> Prop :=
| def_new (cls : string) : DefinitionPhase (newWiring cls None)
| def_clone (w : Wiring) : DefinitionPhase w -> DefinitionPhase (clone w)
| def_adjustBaseWiring (a : Adjuster) (w : Wiring) :
    DefinitionPhase w -> DefinitionPhase (_adjustBaseWiring a w)
| def_adjustContainer (t : string) (a : Adjuster) (w : Wiring) :
    isValidContainerType t = true ->
    DefinitionPhase w -> DefinitionPhase (_adjustContainer t a w)
| def_adjustWiringAfter (t : string) (a : Adjuster) (w : Wiring) :
    isValidContainerType t = true ->
    DefinitionPhase w -> DefinitionPhase (_adjustWiringAfter t a w)
| def_addWiring (w' w : Wiring) :
    DefinitionPhase w' -> DefinitionPhase w -> DefinitionPhase (_addWiring w' w).

(** [resolved m a]: the wiring adjuster [a] has been called on the instance
    whose map is [m] (its value in the map is a [Wiring], which is truthy). *)
Definition resolved (m : SuppliedMap) (a : Adjuster) : Prop :=
  exists s, mapGet a m = Some (Some s).

(** [if (alreadySuppliedWiring)]: the value in the map is truthy. *)
Definition isResolved (m : SuppliedMap) (a : Adjuster) : bool :=
  match mapGet a m with Some (Some _) => true | _ => false end.

(** The number of members of [U] not yet resolved: the measure that
    decreases with every call of a wiring adjuster. *)
Definition unresolvedIn (U : list Adjuster) (m : SuppliedMap) : nat :=
  List.length (filter (fun u => negb (isResolved m u)) U).

(** Every wiring adjuster in the map is still to be called. *)
Definition allNull (m : SuppliedMap) : Prop :=
  forall a v, mapGet a m = Some v -> v = None.

(** Every container type known to [_containerAdjusters] is known to
    [_wiringAdjusters]. *)
Definition keysAgree (w : Wiring) : Prop :=
  forall t, In (dotted t) (keys (_containerAdjusters w)) ->
            In t (keys (_wiringAdjusters w)).

(** What holds of every wiring of the definition phase. *)
Record Public (w : Wiring) : Prop := mkPublic {
  public_cA_keys : NoDup (keys (_containerAdjusters w));
  public_wA_keys : NoDup (keys (_wiringAdjusters w));
  public_cA : ancestorInclusive (_containerAdjusters w);
  public_wA : ancestorInclusive (_wiringAdjusters w);
  public_keys : keysAgree w;
  public_null : allNull (_wiringSuppliedByWiringAdjusters w)
}.

(** What holds of every wiring instance, also during the creation phase:
    a wiring adjuster missing from the list of a descendant has been
    called. *)
Record Sound (w : Wiring) : Prop := mkSound {
  sound_cA_keys : NoDup (keys (_containerAdjusters w));
  sound_wA_keys : NoDup (keys (_wiringAdjusters w));
  sound_cA : ancestorInclusive (_containerAdjusters w);
  sound_wA : inclusiveUpTo (resolved (_wiringSuppliedByWiringAdjusters w))
                           (fun _ _ => False) (_wiringAdjusters w);
  sound_keys : keysAgree w
}.

(** [this] after [this._wiringAdjusters[containerType].shift()] left [rest]. *)
Definition shifted (containerType : string) (rest : list Adjuster)
  (this : Wiring) : Wiring :=
  setWiringAdjusters (replaceAt containerType rest (_wiringAdjusters this)) this.

(** The wiring instances a program can hold: the wirings of the definition
    phase, the private clone a creation leaves in its container, and the
    clone a factory captures. *)
Inductive Instance (suppliedBy : Adjuster -> option Container -> list Wiring)
  : Wiring -> Prop :=
| inst_public (w : Wiring) : DefinitionPhase w -> Instance suppliedBy w
| inst_private (fuel : nat) (self : ref) (t : string) (args : list Value)
    (w p : Wiring) (cr : Creation) :
    Instance suppliedBy w ->
    _createContainer suppliedBy fuel self t args (clone w) = Ok (cr, p) ->
    Instance suppliedBy p
| inst_factory (fuel : nat) (self : ref) (t : string) (args : list Value)
    (w p : Wiring) (factory : ContainerFactory) (base : list Adjuster) :
    Instance suppliedBy w ->
    _createContainerFactory suppliedBy fuel self t args (clone w)
    = Ok (factory, base, p) ->
    Instance suppliedBy p.

(** What a caller learns from a creation, the store left aside. *)
Definition creationOf (r : Result (Creation * Store)) : Result Creation :=
  x <- r ;; Ok (fst x).

(** The container adjusters a creation called, in call order. *)
Definition calledBy (r : Result (Creation * Store)) : Result (list Adjuster) :=
  x <- r ;; Ok (adjustersCalled (container (fst x))).

(** [new WiringBuilder(wiring)], a script of calls, then [build()]. *)
Definition buildFrom (wiring : option ref) (cs : list BuilderCall) (s : Store)
  : Result (ref * Store) :=
  bs <- newWiringBuilder wiring s ;;
  build (fst bs) (calls (fst bs) cs (snd bs)).

(** ** The promised order of application, from the specification *)

(** What is written in a builder, as the README asks to imagine it: "you
    inlined all the adjusters and modular wiring so you just had linear code
    on the screen".  A wiring adjuster is written with the wiring it
    supplies, a wiring with the declarations that built it. *)
Inductive Declaration : Type :=
| DeclareContainer (containerType : string) (containerAdjuster : Adjuster)
| DeclareBaseWiring (supplied : list (list Declaration))
| DeclareWiringAfter (containerType : string)
    (supplied : list (list Declaration))
| DeclareAdded (wiring : list Declaration).

(** The container adjusters of one declaration that concern
    [containerType] (the type itself or an ancestor), top to bottom; wiring
    after-adjusters, whose containers have not been created, are removed. *)
Fixpoint inlined (containerType : string) (d : Declaration) : list Adjuster :=
  match d with
  | DeclareContainer t f =>
      if String.eqb t containerType || isAncestorOf t containerType
      then [f] else []
  | DeclareBaseWiring supplied =>
      flat_map (flat_map (inlined containerType)) supplied
  | DeclareWiringAfter _ _ => []
  | DeclareAdded wiring => flat_map (inlined containerType) wiring
  end.

(** "Remove all but the first copy of any adjuster which appears more than
    once." *)
Fixpoint firstCopies (seen l : list Adjuster) : list Adjuster :=
  match l with
  | [] => []
  | f :: rest =>
      if existsb (Nat.eqb f) seen then firstCopies seen rest
      else f :: firstCopies (f :: seen) rest
  end.

(** The order in which the specification says the container adjusters of
    [containerType] are called: inlined registration order, duplicates
    collapsed to the first occurrence. *)
Definition specInlinedOrder (containerType : string)
  (builder : list Declaration) : list Adjuster :=
  firstCopies [] (flat_map (inlined containerType) builder).

(** ** Scenarios used to exercise the model *)

Definition emptyWiring : Wiring := newWiring "Wiring" None.

(** Wiring adjusters that supply nothing. *)
Definition noSupply : Adjuster -> option Container -> list Wiring :=
  fun _ _ => [].

(** The wiring adjuster [10] supplies wiring that registers [10] itself as a
    base wiring adjuster, next to the container adjuster [1] for [T]. *)
Definition selfSupplied : Wiring :=
  _adjustContainer "T" 1 (_adjustBaseWiring 10 emptyWiring).

Definition selfSupply (a : Adjuster) (arg : option Container) : list Wiring :=
  if Nat.eqb a 10 then [selfSupplied] else [].

(** A wiring of a subclass, with one container adjuster for [Test]
    (test "created container has wiring bean the same subclass as imported
    wiring"). *)
Definition subclassedWiring : Wiring :=
  _adjustContainer "Test" 1 (newWiring "SubclassedWiring" None).

(** The wiring adjuster [20], registered to run after [Primer], supplies
    wiring with the container adjuster [1] for [Primer] (test "container
    creation does not affect independent creation"). *)
Definition primerWiring : Wiring := _adjustWiringAfter "Primer" 20 emptyWiring.

Definition primerSupply (a : Adjuster) (arg : option Container) : list Wiring :=
  if Nat.eqb a 20 then [_adjustContainer "Primer" 1 emptyWiring] else [].

(** Only [A.B] is registered (the container adjuster [1]). *)
Definition onlyChildRegistered : Result (ref * Store) :=
  buildFrom None [AdjustContainer "A.B" 1] [].

(** The builder already adjusts [T] (with [0]) and [U] (with [5]); the
    wiring to add adjusts [T] with the same adjuster [0]. *)
Definition importTwice : Result Store :=
  r <- buildFrom None [AdjustContainer "T" 0] [] ;;
  b <- newWiringBuilder None (snd r) ;;
  Ok (calls (fst b) [AdjustContainer "T" 0; AdjustContainer "U" 5;
                     AddWiring (fst r)] (snd b)).

(** A wiring registers [0] for [A], [1] for [A.B], then [2] for [A]; it is
    built ([fst]), and added to an empty builder which is built in turn
    ([snd]). *)
Definition familyAdded : Result (ref * ref * Store) :=
  r1 <- buildFrom None [AdjustContainer "A" 0; AdjustContainer "A.B" 1;
                        AdjustContainer "A" 2] [] ;;
  r2 <- buildFrom None [AddWiring (fst r1)] (snd r1) ;;
  Ok (fst r1, fst r2, snd r2).

(** The same wiring imported by constructing the builder from it. *)
Definition familyImported : Result (ref * ref * Store) :=
  r1 <- buildFrom None [AdjustContainer "A" 0; AdjustContainer "A.B" 1;
                        AdjustContainer "A" 2] [] ;;
  r2 <- buildFrom (Some (fst r1)) [] (snd r1) ;;
  Ok (fst r1, fst r2, snd r2).

(** The base wiring adjuster [10] supplies wiring whose base wiring adjuster
    [11] supplies wiring with the container adjuster [1] for [T]. *)
Definition nestedSupply (a : Adjuster) (arg : option Container) : list Wiring :=
  if Nat.eqb a 10 then [_adjustBaseWiring 11 emptyWiring]
  else if Nat.eqb a 11 then [_adjustContainer "T" 1 emptyWiring]
  else [].

(** The wiring adjusters of the replayed tests: [30] supplies wiring with
    the container adjuster [2] for [Test]; [31] supplies wiring that knows
    [Test] and has [30] as base wiring adjuster; [20] supplies wiring with
    the container adjuster [1] for [Primer]. *)
Definition testSupply (a : Adjuster) (arg : option Container) : list Wiring :=
  if Nat.eqb a 30 then [_adjustContainer "Test" 2 emptyWiring]
  else if Nat.eqb a 31
       then [_adjustBaseWiring 30 (_adjustContainer "Test" 0 emptyWiring)]
  else if Nat.eqb a 20 then [_adjustContainer "Primer" 1 emptyWiring]
  else [].

(** [builder ... .build().createContainer(t)], as [buildAndAssertBeans] of
    the test suite does: the container adjusters called, in call order. *)
Definition buildAndCreate (cs : list BuilderCall) (t : string)
  : Result (list Adjuster) :=
  r <- buildFrom None cs [] ;;
  calledBy (createContainer testSupply 9 (fst r) t [] (snd r)).

(** Test "applies previously-uncalled adjuster to subsequent container" and
    test "container creation does not affect independent creation": a
    [Primer], then a [Primer] created through the [wiring] bean of the
    first, then a [Primer] created from the public wiring again. *)
Definition primerThenEnsuingThenIndependent
  : Result (Creation * Creation * Creation) :=
  r <- buildFrom None [AdjustContainer "Test" 0; AdjustContainer "Primer" 4;
                       AdjustWiringAfter "Primer" 20] [] ;;
  c1 <- createContainer testSupply 9 (fst r) "Primer" [] (snd r) ;;
  match container (fst c1) with
  | RegisterBean _ bean :: _ =>
      c2 <- createContainer testSupply 9 bean "Primer" [] (snd c1) ;;
      c3 <- createContainer testSupply 9 (fst r) "Primer" [] (snd c2) ;;
      Ok (fst c1, fst c2, fst c3)
  | _ => TypeError
  end.

(** ** Structured wiring (src/structured-wiring.js) *)

(** [scopeType.includes('.')] *)
Fixpoint includesDot (s : string) : bool :=
  match s with
  | EmptyString => false
  | String c s' => Ascii.eqb c dot || includesDot s'
  end.

(** [Wiring.isValidScopeType] (the [typeof] test is the type). *)
Definition isValidScopeType (scopeType : string) : bool :=
  negb (String.eqb scopeType "") && negb (includesDot scopeType).

(** The template literal [`Scope.${scopeType}`] *)
Definition scopeContainerType (scopeType : string) : string :=
  String.append "Scope." scopeType.

Definition adjustBootContainer (b : WiringBuilder) (adjuster : Adjuster)
  (s : Store) : Result Store := adjustContainer b "Boot" adjuster s.

Definition adjustWiringAfterBoot (b : WiringBuilder) (adjuster : Adjuster)
  (s : Store) : Result Store := adjustWiringAfter b "Boot" adjuster s.

Definition adjustAppContainer (b : WiringBuilder) (adjuster : Adjuster)
  (s : Store) : Result Store := adjustContainer b "App" adjuster s.

(** [adjustScopeContainer(scopeTypeOrAdjuster, maybeAdjuster)]: the first
    argument is a string ([Some scopeType]) or the adjuster itself
    ([None]). *)
Definition adjustScopeContainer (b : WiringBuilder) (scopeType : option string)
  (adjuster : Adjuster) (s : Store) : Result Store :=
  match scopeType with
  | Some t =>
      if isValidScopeType t
      then adjustContainer b (scopeContainerType t) adjuster s
      else TypeError
  | None => adjustContainer b "Scope" adjuster s
  end.

Section Structured.

(** The two container adjusters of the module, [_populateBootContainer] and
    [_populateAppContainer], known by their identity. *)
Variables _populateBootContainer _populateAppContainer : Adjuster.

(** [new StructuredWiringBuilder(wiring)]: [super(wiring ? wiring : new
    StructuredWiring())], then the two registrations. *)
Definition newStructuredWiringBuilder (wiring : option ref) (s : Store)
  : Result (WiringBuilder * Store) :=
  let (src, s0) :=
    match wiring with
    | Some r => (r, s)
    | None => alloc (newWiring "StructuredWiring" None) s
    end in
  bs <- newWiringBuilder (Some src) s0 ;;
  s1 <- adjustBootContainer (fst bs) _populateBootContainer (snd bs) ;;
  s2 <- adjustAppContainer (fst bs) _populateAppContainer s1 ;;
  Ok (fst bs, s2).

End Structured.

(** A call of one of the adjusting methods of a structured builder. *)
Inductive StructuredCall : Type :=
| AdjustBootContainer (adjuster : Adjuster)
| AdjustWiringAfterBoot (adjuster : Adjuster)
| AdjustAppContainer (adjuster : Adjuster)
| AdjustScopeContainer (scopeType : option string) (adjuster : Adjuster)
| Inherited (c : BuilderCall).

Definition structuredCall (b : WiringBuilder) (c : StructuredCall) (s : Store)
  : Result Store :=
  match c with
  | AdjustBootContainer f => adjustBootContainer b f s
  | AdjustWiringAfterBoot a => adjustWiringAfterBoot b a s
  | AdjustAppContainer f => adjustAppContainer b f s
  | AdjustScopeContainer t f => adjustScopeContainer b t f s
  | Inherited c => call b c s
  end.

(** A script of calls on a structured builder; as for [calls], a call that
    throws leaves the store as it was. *)
Definition structuredCalls (b : WiringBuilder) (cs : list StructuredCall)
  (s : Store) : Store :=
  fold_left
    (fun s c => match structuredCall b c s with Ok s' => s' | _ => s end) cs s.

(** The instances that have the methods of [StructuredWiring]. *)
Definition isStructuredWiring (w : Wiring) : bool :=
  String.eqb (wiringClass w) "StructuredWiring".

(** The call [this.method(...)] of a method that [StructuredWiring]
    defines: on an instance of another class [this.method] is [undefined]
    and the call throws a [TypeError]. *)
Definition structuredMethod {A : Type} (this : ref) (s : Store)
  (method : Result A) : Result A :=
  match deref s this with
  | Some w => if isStructuredWiring w then method else TypeError
  | None => TypeError
  end.

Section StructuredCreation.

Variable suppliedBy : Adjuster -> option Container -> list Wiring.

(** [StructuredWiring#createBootContainer(bootOptions)] *)
Definition createBootContainer (fuel : nat) (this : ref) (bootOptions : Value)
  (s : Store) : Result (Creation * Store) :=
  structuredMethod this s
    (createContainer suppliedBy fuel this "Boot" [bootOptions] s).

(** [StructuredWiring#createScopeContainer(scopeType, ...args)] *)
Definition createScopeContainer (fuel : nat) (this : ref) (scopeType : string)
  (args : list Value) (s : Store) : Result (Creation * Store) :=
  structuredMethod this s
    (createContainer suppliedBy fuel this (scopeContainerType scopeType)
                     args s).

(** [StructuredWiring#createScopeContainerFactory(scopeType, ...args)] *)
Definition createScopeContainerFactory (fuel : nat) (this : ref)
  (scopeType : string) (args : list Value) (s : Store)
  : Result (ContainerFactory * list Adjuster * Store) :=
  structuredMethod this s
    (createContainerFactory suppliedBy fuel this
       (scopeContainerType scopeType) args s).

End StructuredCreation.

(** ** The example application (example/modules.js) *)

Record Config : Type := mkConfig {
  useColour : bool;
  names : list string
}.

(** [parseCommandLine(cliArguments)] *)
Definition parseCommandLine (cliArguments : list string) : Config :=
  mkConfig
    (existsb (String.eqb "--colour") cliArguments
     || existsb (String.eqb "--color") cliArguments)
    (filter (fun cliArgument => negb (startsWith cliArgument "-"))
            cliArguments).

(** ** Further notions used in the statements *)

(** The body of the [forEach] of [_getFlattenedContainerAdjusters]: what one
    entry of the list adds to [flattened]. *)
Definition flattenStep (fuel : nat) (supplied : SuppliedMap)
  (containerType : string) (flattened : list Adjuster) (adjuster : Adjuster)
  : Result (list Adjuster) :=
  match mapGet adjuster supplied with
  | None => Ok (flattened ++ [adjuster])
  | Some None => Ok flattened
  | Some (Some suppliedWiring) =>
      match lookup containerType (_containerAdjusters suppliedWiring) with
      | Some _ =>
          sub <- _getFlattenedContainerAdjusters fuel supplied
                   (_containerAdjusters suppliedWiring) containerType ;;
          Ok (_pushAdjusters flattened sub)
      | None => Ok flattened
      end
  end.

(** [isTrueAdjuster supplied f]: [f] is not a key of the map, so it is a
    container adjuster and not a wiring adjuster. *)
Definition isTrueAdjuster (supplied : SuppliedMap) (f : Adjuster) : bool :=
  negb (mapHas f supplied).

(** The value of an operation that is known to return. *)
Definition returned {A : Type} (r : Result A) (otherwise : A) : A :=
  match r with Ok a => a | _ => otherwise end.

(** [T] is adjusted by [1], then by the wiring adjuster [20] registered to
    run after [T], then by [1] again and by [3]. *)
Definition afterOnlyWiring : Wiring :=
  _adjustContainer "T" 3
    (_adjustContainer "T" 1
       (_adjustWiringAfter "T" 20 (_adjustContainer "T" 1 emptyWiring))).

(** [Test] is adjusted by [1] and the base wiring adjuster [30] supplies the
    container adjuster [2] for [Test]. *)
Definition baseSuppliedWiring : Wiring :=
  _adjustBaseWiring 30 (_adjustContainer "Test" 1 emptyWiring).

(** A registration [adjustContainer(containerType, containerAdjuster)], as a
    call of the builder and as a declaration. *)
Definition registrationCall (e : string * Adjuster) : BuilderCall :=
  AdjustContainer (fst e) (snd e).

Definition registrationDeclared (e : string * Adjuster) : Declaration :=
  DeclareContainer (fst e) (snd e).

(** The adjusters registered for [containerType] or for one of its
    ancestors, in the order of the registrations. *)
Definition registeredFor (containerType : string)
  (regs : list (string * Adjuster)) : list Adjuster :=
  flat_map (fun e : string * Adjuster =>
              if String.eqb (fst e) containerType
                 || isAncestorOf (fst e) containerType
              then [snd e] else []) regs.

(** What a wiring holds after the registrations [regs] and nothing else. *)
Definition holdsRegistrations (regs : list (string * Adjuster)) (w : Wiring)
  : Prop :=
  (forall k, lookup k (_containerAdjusters w) <> None ->
             exists t, k = dotted t /\ In t (map fst regs))
  /\ (forall t, In t (map fst regs) ->
                lookup (dotted t) (_containerAdjusters w)
                = Some (registeredFor t regs))
  /\ (forall k l, lookup k (_wiringAdjusters w) = Some l -> l = [] /\ k <> "")
  /\ _wiringSuppliedByWiringAdjusters w = [].

(** The keys of the two collections: the root or a dotted valid container
    type in [_containerAdjusters], the base key or a valid container type in
    [_wiringAdjusters], and the same container types in both. *)
Definition wellKeyed (w : Wiring) : Prop :=
  (forall k, In k (keys (_containerAdjusters w)) ->
             k = "" \/ exists t, k = dotted t /\ isValidContainerType t = true)
  /\ (forall k, In k (keys (_wiringAdjusters w)) ->
                k = "" \/ isValidContainerType k = true)
  /\ (forall t, t <> "" ->
        (In (dotted t) (keys (_containerAdjusters w)) <->
         In t (keys (_wiringAdjusters w))))
  /\ (In "" (keys (_wiringAdjusters w)) ->
      In "" (keys (_containerAdjusters w))).

(** Every wiring adjuster the wiring knows stands in the list of the root,
    and every wiring adjuster in a pending list is known. *)
Definition rooted (w : Wiring) : Prop :=
  (forall a, mapGet a (_wiringSuppliedByWiringAdjusters w) <> None ->
             exists l, lookup "" (_containerAdjusters w) = Some l /\ In a l)
  /\ (forall k l v, lookup k (_wiringAdjusters w) = Some l -> In v l ->
                    mapGet v (_wiringSuppliedByWiringAdjusters w) <> None).

(** The calls of a structured builder that register a container adjuster. *)
Definition isContainerAdjustment (c : StructuredCall) : bool :=
  match c with
  | AdjustBootContainer _ | AdjustAppContainer _ | AdjustScopeContainer _ _ =>
      true
  | _ => false
  end.

(** The registration such a call makes; [adjustScopeContainer] with a scope
    type that is not valid throws and registers nothing. *)
Definition structuredRegistration (c : StructuredCall)
  : list (string * Adjuster) :=
  match c with
  | AdjustBootContainer f => [("Boot", f)]
  | AdjustAppContainer f => [("App", f)]
  | AdjustScopeContainer None f => [("Scope", f)]
  | AdjustScopeContainer (Some t) f =>
      if isValidScopeType t then [(scopeContainerType t, f)] else []
  | _ => []
  end.

(** The adjusters a script passes to [adjustBootContainer], in order. *)
Definition bootAdjusters (cs : list StructuredCall) : list Adjuster :=
  flat_map (fun c => match c with AdjustBootContainer f => [f] | _ => [] end) cs.

(** The adjusters a script passes to [adjustAppContainer], in order. *)
Definition appAdjusters (cs : list StructuredCall) : list Adjuster :=
  flat_map (fun c => match c with AdjustAppContainer f => [f] | _ => [] end) cs.

(** The adjusters a script passes to [adjustScopeContainer] for all scopes
    or for [scopeType], in order. *)
Definition scopeAdjusters (scopeType : string) (cs : list StructuredCall)
  : list Adjuster :=
  flat_map (fun c => match c with
                     | AdjustScopeContainer None f => [f]
                     | AdjustScopeContainer (Some t) f =>
                         if String.eqb t scopeType then [f] else []
                     | _ => []
                     end) cs.

(** The properties a plain object inherits from [Object.prototype]. *)
Definition objectPrototypeNames : list string :=
  ["constructor"; "__defineGetter__"; "__defineSetter__"; "hasOwnProperty";
   "__lookupGetter__"; "__lookupSetter__"; "isPrototypeOf";
   "propertyIsEnumerable"; "toString"; "valueOf"; "__proto__";
   "toLocaleString"].

(** [isOwnName containerType]: neither the container type nor one of its
    ancestors is a property of [Object.prototype], so that a read of
    [_wiringAdjusters] under one of these keys finds an own property or
    [undefined].  The inherited names have no dot: it is enough that the
    first component of the type is none of them. *)
Definition isOwnName (containerType : string) : bool :=
  negb (existsb (String.eqb (hd "" (split containerType)))
                objectPrototypeNames).

(** [this._wiringSuppliedByWiringAdjusters.get(v)] is not truthy: the wiring
    adjuster [v] is still to be called. *)
Definition isPending (m : SuppliedMap) (v : Adjuster) : bool :=
  negb (isResolved m v).

(** The destination [c] of [_addAdjusters] when its [forEach] has gone
    through the entries [done] of the source [src]. *)
Definition mergedSoFar (src done c : AdjusterCollection) : AdjusterCollection :=
  fold_left (addAdjustersEntry src) done c.

(** The lists that [entries] hold for the ancestors of [k], one after the
    other in the order of the entries. *)
Definition ancestorLists (entries : AdjusterCollection) (k : string)
  : list Adjuster :=
  flat_map (fun e : string * list Adjuster =>
              if isAncestorOf (fst e) k then snd e else []) entries.

(** What the entries [done] of the source [src] append to the list of a
    type [k] that the destination knew before the import: the list of the
    source for [k] when the source knows [k] (once its entry is done), the
    lists of the source for the ancestors of [k] when it does not. *)
Definition importedFor (src done : AdjusterCollection) (k : string)
  : list Adjuster :=
  match lookup k src with
  | Some _ => match lookup k done with Some ls => ls | None => [] end
  | None => ancestorLists done k
  end.

(** [mergedUpTo c src done r]: [r] is the destination [c] after the entries
    [done] of the source [src] have been imported.  It knows the types of
    [c] and of [done]; a type that [c] knew keeps its list, followed by what
    was imported for it; a type new to [c] has the list its nearest known
    ancestor had in the destination when its entry was reached (the empty
    list when it had none), followed by the list of the source. *)
Definition mergedUpTo (c src done r : AdjusterCollection) : Prop :=
  (forall k, In k (keys r) <-> In k (keys c) \/ In k (keys done))
  /\ (forall k l, lookup k c = Some l ->
        lookup k r = Some (l ++ importedFor src done k))
  /\ (forall before k ls after,
        done = before ++ (k, ls) :: after -> lookup k c = None ->
        lookup k r
        = Some (_getAncestorAdjusters (mergedSoFar src before c) k ++ ls)).

(** [r] knows the types of [c] with their lists, and new types seeded with
    the list of their nearest ancestor known to [c]. *)
Definition seededFrom (c r : AdjusterCollection) : Prop :=
  forall d, match lookup d c with
            | Some l => lookup d r = Some l
            | None => lookup d r = None
                      \/ lookup d r = Some (_getAncestorAdjusters c d)
            end.

(** [A] has the wiring adjuster [7] to run after it, then [A.B] is adjusted
    by [1] and [A] by [2]. *)
Definition familyWiring : Wiring :=
  _adjustContainer "A" 2
    (_adjustContainer "A.B" 1 (_adjustWiringAfter "A" 7 emptyWiring)).

(** [A] is adjusted by [3], [A.B.C] by [4], then [A] by [5]; [A.B] is not
    known. *)
Definition grandchildWiring : Wiring :=
  _adjustContainer "A" 5
    (_adjustContainer "A.B.C" 4 (_adjustContainer "A" 3 emptyWiring)).

(** Every adjuster stored in a list of the collection satisfies [P]. *)
Definition allSatisfy (P : Adjuster -> Prop) (c : AdjusterCollection) : Prop :=
  forall k l x, In (k, l) c -> In x l -> P x.

(** [ranked rank m]: whoever stands in a list of the wiring that the map
    [m] holds for a wiring adjuster [v] has a lower rank than [v].  A map
    that is ranked holds no wiring that contains, directly or through the
    wiring of other wiring adjusters, the adjuster that supplied it. *)
Definition ranked (rank : Adjuster -> nat) (m : SuppliedMap) : Prop :=
  forall v S, mapGet v m = Some (Some S) ->
              allSatisfy (fun u => rank u < rank v) (_containerAdjusters S).

(** [FiniteSupply suppliedBy U rank]: the wiring adjusters supply wiring on
    which no wiring adjuster has been called; the wiring adjusters pending
    in the wiring supplied by a member of the finite list [U] are members of
    [U]; and whoever stands in a list of container adjusters of the wiring
    supplied by [v] has a lower rank than [v], so that no wiring adjuster
    supplies, directly or through others, wiring that contains itself. *)
Record FiniteSupply (suppliedBy : Adjuster -> option Container -> list Wiring)
  (U : list Adjuster) (rank : Adjuster -> nat) : Prop := mkFiniteSupply {
  finite_null :
    forall v arg W, In W (suppliedBy v arg) ->
                    allNull (_wiringSuppliedByWiringAdjusters W);
  finite_within :
    forall v arg W, In v U -> In W (suppliedBy v arg) ->
                    allIn U (_wiringAdjusters W);
  finite_lower :
    forall v arg W, In W (suppliedBy v arg) ->
                    allSatisfy (fun u => rank u < rank v)
                               (_containerAdjusters W)
}.

(** [Primer] is adjusted by [4], and the wiring adjuster [20] is registered
    to run after [Primer]. *)
Definition primerAdjustedWiring : Wiring :=
  _adjustWiringAfter "Primer" 20 (_adjustContainer "Primer" 4 emptyWiring).

(** The rank of the adjusters of the scenarios: the wiring adjuster [20]
    supplies container adjusters only. *)
Definition primerRank (a : Adjuster) : nat := if Nat.eqb a 20 then 1 else 0.

(** Every wiring adjuster in a pending list is a key of the map of supplied
    wiring. *)
Definition pendingKnown (w : Wiring) : Prop :=
  allSatisfy (fun v => mapGet v (_wiringSuppliedByWiringAdjusters w) <> None)
             (_wiringAdjusters w).

(** * Properties *)

(** ** Strings *)

Lemma startsWith_iff (s p : string) :
  startsWith s p = true <-> exists r, s = String.append p r.
Proof.
  unfold startsWith. revert s. induction p as [|a p IH]; intros s; simpl.
  - split; [intros _; exists s; reflexivity | intros _; destruct s; reflexivity].
  - destruct s as [|b s]; simpl.
    + split; [discriminate | intros [r H]; discriminate].
    + destruct (ascii_dec a b) as [->|Hne].
      * rewrite IH. split; intros [r H]; exists r; [now rewrite H | now inversion H].
      * split; [discriminate | intros [r H]; congruence].
Qed.

Lemma append_assoc (a b c : string) :
  String.append (String.append a b) c = String.append a (String.append b c).
Proof. induction a; simpl; [reflexivity | now rewrite IHa]. Qed.

Lemma append_nil_r (a : string) : String.append a "" = a.
Proof. induction a; simpl; [reflexivity | now rewrite IHa]. Qed.

Lemma append_length (a b : string) :
  String.length (String.append a b) = String.length a + String.length b.
Proof. induction a; simpl; [reflexivity | now rewrite IHa]. Qed.

Lemma split_nonempty (s : string) : split s <> [].
Proof.
  destruct s as [|c s]; simpl; [discriminate|].
  destruct (Ascii.eqb c dot); [discriminate|].
  destruct (split s); discriminate.
Qed.

Lemma join_cons_char (c : ascii) (h : string) (t : list string) :
  join (String c h :: t) = String c (join (h :: t)).
Proof. destruct t; reflexivity. Qed.

Lemma join_split (s : string) : join (split s) = s.
Proof.
  induction s as [|c s IH]; [reflexivity|].
  simpl. destruct (Ascii.eqb_spec c dot) as [->|Hne].
  - pose proof (split_nonempty s) as Hn.
    simpl. destruct (split s) as [|h t]; [contradiction|].
    simpl in *. now rewrite IH.
  - pose proof (split_nonempty s) as Hn.
    destruct (split s) as [|h t]; [contradiction|].
    rewrite join_cons_char. now rewrite IH.
Qed.

Lemma split_append_dot (a r : string) :
  split (String.append a (String dot r)) = split a ++ split r.
Proof.
  induction a as [|c a IH]; simpl.
  - reflexivity.
  - destruct (Ascii.eqb c dot).
    + now rewrite IH.
    + rewrite IH. pose proof (split_nonempty a) as Hn.
      destruct (split a) as [|h t]; [contradiction|]. reflexivity.
Qed.

Lemma join_app (l r : list string) :
  l <> [] -> r <> [] ->
  join (l ++ r) = String.append (join l) (String dot (join r)).
Proof.
  induction l as [|x l IH]; intros Hl Hr; [contradiction|].
  destruct l as [|y l].
  - simpl. destruct r; [contradiction|]. reflexivity.
  - change ((x :: y :: l) ++ r) with (x :: ((y :: l) ++ r)).
    change (join (x :: (y :: l) ++ r))
      with (String.append x (String dot (join ((y :: l) ++ r)))).
    rewrite IH by (discriminate || assumption).
    change (join (x :: y :: l)) with (String.append x (String dot (join (y :: l)))).
    rewrite append_assoc. reflexivity.
Qed.

Lemma withDot_append (a r : string) :
  String.append (withDot a) r = String.append a (String dot r).
Proof. unfold withDot. now rewrite append_assoc. Qed.

Lemma isAncestorOf_iff (a d : string) :
  isAncestorOf a d = true <-> exists r, d = String.append a (String dot r).
Proof.
  unfold isAncestorOf. rewrite startsWith_iff.
  split; intros [r H]; exists r; [now rewrite <- withDot_append | now rewrite withDot_append].
Qed.

Lemma isAncestorOf_trans (a b c : string) :
  isAncestorOf a b = true -> isAncestorOf b c = true -> isAncestorOf a c = true.
Proof.
  rewrite !isAncestorOf_iff. intros [r1 H1] [r2 H2]. subst.
  exists (String.append r1 (String dot r2)).
  rewrite append_assoc. reflexivity.
Qed.

Lemma isAncestorOf_irrefl (a : string) : isAncestorOf a a = false.
Proof.
  destruct (isAncestorOf a a) eqn:E; [|reflexivity].
  apply isAncestorOf_iff in E. destruct E as [r H].
  apply (f_equal String.length) in H. rewrite append_length in H. simpl in H. lia.
Qed.

Lemma firstn_nonempty {A} (k : nat) (l : list A) :
  1 <= k -> l <> [] -> firstn k l <> [].
Proof. destruct k; [lia|]. destruct l; [contradiction|]. discriminate. Qed.

Lemma join_firstn_ancestor (comps : list string) (j k : nat) :
  1 <= j -> j < k -> k <= List.length comps ->
  isAncestorOf (join (firstn j comps)) (join (firstn k comps)) = true.
Proof.
  intros Hj Hjk Hk. apply isAncestorOf_iff.
  assert (E : firstn k comps = firstn j comps ++ skipn j (firstn k comps)).
  { rewrite <- (firstn_skipn j (firstn k comps)) at 1.
    rewrite firstn_firstn. now replace (Nat.min j k) with j by lia. }
  exists (join (skipn j (firstn k comps))).
  rewrite E at 1. apply join_app.
  - apply firstn_nonempty; [assumption|]. destruct comps; simpl in *; [lia | discriminate].
  - intro H. apply (f_equal (@List.length string)) in H.
    rewrite length_skipn, length_firstn in H. simpl in H. lia.
Qed.

Lemma ancestor_index (a t : string) :
  isAncestorOf a t = true ->
  exists k, 1 <= k /\ k < List.length (split t) /\ a = join (firstn k (split t)).
Proof.
  intros H. apply isAncestorOf_iff in H. destruct H as [r ->].
  rewrite split_append_dot. exists (List.length (split a)).
  pose proof (split_nonempty a) as Ha. pose proof (split_nonempty r) as Hr.
  rewrite length_app. repeat split.
  - destruct (split a); [contradiction | simpl; lia].
  - destruct (split r); [contradiction | simpl; lia].
  - rewrite firstn_app, Nat.sub_diag, firstn_all. simpl. rewrite app_nil_r.
    symmetry. apply join_split.
Qed.

Lemma index_ancestor (t : string) (k : nat) :
  1 <= k -> k < List.length (split t) ->
  isAncestorOf (join (firstn k (split t))) t = true.
Proof.
  intros H1 H2.
  rewrite <- (join_split t) at 2. rewrite <- (firstn_all (split t)) at 2.
  apply join_firstn_ancestor; lia.
Qed.

(** What the loop of [_getAncestorAdjusters] returns, by prefix lengths. *)
Lemma ancestorLoop_spec (c : AdjusterCollection) (comps : list string) :
  forall n m, m <= n -> m <= List.length comps ->
  (exists k l, 1 <= k /\ k < m /\
     lookup (join (firstn k comps)) c = Some l /\
     ancestorLoop n (firstn m comps) c = l /\
     forall j, k < j -> j < m -> lookup (join (firstn j comps)) c = None)
  \/ (ancestorLoop n (firstn m comps) c = [] /\
      forall j, 1 <= j -> j < m -> lookup (join (firstn j comps)) c = None).
Proof.
  induction n as [|n IH]; intros m Hmn Hm.
  - right. split; [reflexivity | intros; lia].
  - simpl. rewrite length_firstn. replace (Nat.min m (List.length comps)) with m by lia.
    destruct (Nat.ltb_spec 1 m) as [H1|H1].
    + assert (E : removelast (firstn m comps) = firstn (m - 1) comps).
      { destruct m; [lia|]. rewrite removelast_firstn by lia.
        now replace (S m - 1) with m by lia. }
      rewrite E.
      destruct (lookup (join (firstn (m - 1) comps)) c) as [l|] eqn:El.
      * left. exists (m - 1), l. repeat split; try lia; try assumption.
      * destruct (IH (m - 1)) as [(k & l & Hk1 & Hk2 & Hl & Hr & Hnone)|[Hr Hnone]]; try lia.
        -- left. exists k, l. repeat split; try lia; try assumption.
           intros j Hj1 Hj2. destruct (Nat.eq_dec j (m - 1)) as [->|]; [assumption|].
           apply Hnone; lia.
        -- right. split; [assumption|].
           intros j Hj1 Hj2. destruct (Nat.eq_dec j (m - 1)) as [->|]; [assumption|].
           apply Hnone; lia.
    + right. split; [reflexivity | intros; lia].
Qed.

(** The list that seeds a new container type is the list of its nearest
    known ancestor, or empty when no ancestor is known. *)
Lemma getAncestorAdjusters_spec (c : AdjusterCollection) (t : string) :
  (exists n, isAncestorOf n t = true /\
     lookup n c = Some (_getAncestorAdjusters c t) /\
     forall a, isAncestorOf a t = true -> lookup a c <> None ->
               a = n \/ isAncestorOf a n = true)
  \/ (_getAncestorAdjusters c t = [] /\
      forall a, isAncestorOf a t = true -> lookup a c = None).
Proof.
  unfold _getAncestorAdjusters.
  pose proof (ancestorLoop_spec c (split t) (List.length (split t))
                (List.length (split t)) (le_n _) (le_n _)) as H.
  rewrite firstn_all in H.
  destruct H as [(k & l & Hk1 & Hk2 & Hl & Hr & Hnone)|[Hr Hnone]].
  - left. exists (join (firstn k (split t))). split; [|split].
    + now apply index_ancestor.
    + now rewrite Hr.
    + intros a Ha Hknown. destruct (ancestor_index a t Ha) as (j & Hj1 & Hj2 & ->).
      destruct (Nat.lt_trichotomy j k) as [Hlt|[->|Hgt]].
      * right. apply join_firstn_ancestor; lia.
      * now left.
      * exfalso. apply Hknown. apply Hnone; lia.
  - right. split; [assumption|].
    intros a Ha. destruct (ancestor_index a t Ha) as (j & Hj1 & Hj2 & ->).
    apply Hnone; lia.
Qed.

(** ** Adjuster collections *)

Lemma lookup_None_iff (k : string) (c : AdjusterCollection) :
  lookup k c = None <-> ~ In k (keys c).
Proof.
  induction c as [|[k' l] c IH]; simpl.
  - tauto.
  - destruct (String.eqb_spec k' k) as [->|Hne].
    + split; [discriminate | intros H; exfalso; apply H; now left].
    + rewrite IH. split; [intros H [E|E]; [congruence | contradiction] | tauto].
Qed.

Lemma lookup_Some_In (k : string) (l : list Adjuster) (c : AdjusterCollection) :
  lookup k c = Some l -> In (k, l) c.
Proof.
  induction c as [|[k' l'] c IH]; simpl; [discriminate|].
  destruct (String.eqb_spec k' k) as [->|Hne].
  - intros [= ->]. now left.
  - intros H. right. now apply IH.
Qed.

Lemma In_lookup_Some (k : string) (l : list Adjuster) (c : AdjusterCollection) :
  NoDup (keys c) -> In (k, l) c -> lookup k c = Some l.
Proof.
  induction c as [|[k' l'] c IH]; simpl; [contradiction|].
  intros Hnd [E|Hin].
  - inversion E; subst. now rewrite String.eqb_refl.
  - inversion Hnd as [|? ? Hnotin Hnd']; subst.
    destruct (String.eqb_spec k' k) as [->|Hne].
    + exfalso. apply Hnotin. change k with (fst (k, l)). now apply in_map.
    + now apply IH.
Qed.

Lemma lookup_known_keys (k : string) (l : list Adjuster) (c : AdjusterCollection) :
  lookup k c = Some l -> In k (keys c).
Proof.
  intros H. apply lookup_Some_In in H. change k with (fst (k, l)). now apply in_map.
Qed.

Lemma lookup_app_one (k t : string) (l : list Adjuster) (c : AdjusterCollection) :
  lookup k (c ++ [(t, l)]) =
  match lookup k c with
  | Some x => Some x
  | None => if String.eqb t k then Some l else None
  end.
Proof.
  induction c as [|[k' l'] c IH]; simpl; [reflexivity|].
  destruct (String.eqb k' k); [reflexivity | apply IH].
Qed.

(** A new property: membership, lookup and keys do not depend on the place
    it takes in the enumeration. *)
Lemma In_insertIndexed (n : N) (e x : string * list Adjuster)
  (c : AdjusterCollection) :
  In x (insertIndexed n e c) <-> In x c \/ x = e.
Proof.
  induction c as [|e' c IH]; simpl.
  - split; [intros [H|[]]; auto | intros [[]|H]; auto].
  - destruct (arrayIndex (fst e')) as [m|]; [destruct (N.ltb m n)|]; simpl;
      rewrite ?IH; intuition auto.
Qed.

Lemma In_addProperty (x : string * list Adjuster) (c : AdjusterCollection)
  (t : string) (l : list Adjuster) :
  In x (addProperty c t l) <-> In x c \/ x = (t, l).
Proof.
  unfold addProperty. destruct (arrayIndex t).
  - apply In_insertIndexed.
  - rewrite in_app_iff. simpl. intuition auto.
Qed.

Lemma lookup_insertIndexed (n : N) (k t : string) (l : list Adjuster)
  (c : AdjusterCollection) :
  lookup t c = None ->
  lookup k (insertIndexed n (t, l) c) =
  match lookup k c with
  | Some x => Some x
  | None => if String.eqb t k then Some l else None
  end.
Proof.
  assert (Hhead : forall c', lookup t c' = None ->
            lookup k ((t, l) :: c') =
            match lookup k c' with
            | Some x => Some x
            | None => if String.eqb t k then Some l else None
            end).
  { intros c' Hc'. cbn [lookup]. destruct (String.eqb_spec t k) as [<-|_].
    - now rewrite Hc'.
    - now destruct (lookup k c'). }
  induction c as [|[k' l'] c IH]; intros Hnone.
  - reflexivity.
  - cbn [insertIndexed fst].
    destruct (arrayIndex k') as [m|]; [destruct (N.ltb m n)|];
      try (now apply Hhead).
    cbn [lookup] in *. destruct (String.eqb k' t); [discriminate|].
    destruct (String.eqb k' k); [reflexivity | now apply IH].
Qed.

Lemma lookup_addProperty (k t : string) (l : list Adjuster)
  (c : AdjusterCollection) :
  lookup t c = None ->
  lookup k (addProperty c t l) =
  match lookup k c with
  | Some x => Some x
  | None => if String.eqb t k then Some l else None
  end.
Proof.
  intros H. unfold addProperty. destruct (arrayIndex t).
  - now apply lookup_insertIndexed.
  - apply lookup_app_one.
Qed.

Lemma In_keys_addProperty (k t : string) (l : list Adjuster)
  (c : AdjusterCollection) :
  In k (keys (addProperty c t l)) <-> In k (keys c) \/ k = t.
Proof.
  unfold keys. rewrite !in_map_iff. split.
  - intros (x & <- & Hx). apply In_addProperty in Hx.
    destruct Hx as [Hx| ->]; [left; eauto | now right].
  - intros [(x & <- & Hx)| ->].
    + exists x. split; [reflexivity|]. apply In_addProperty. now left.
    + exists (t, l). split; [reflexivity|]. apply In_addProperty. now right.
Qed.

Lemma NoDup_keys_insertIndexed (n : N) (t : string) (l : list Adjuster)
  (c : AdjusterCollection) :
  ~ In t (keys c) -> NoDup (keys c) -> NoDup (keys (insertIndexed n (t, l) c)).
Proof.
  induction c as [|[k' l'] c IH]; intros Hnew Hnd.
  - simpl. constructor; [intros [] | constructor].
  - assert (Hhead : NoDup (keys ((t, l) :: (k', l') :: c)))
      by (constructor; assumption).
    cbn [insertIndexed fst].
    destruct (arrayIndex k') as [m|]; [destruct (N.ltb m n)|];
      try exact Hhead.
    simpl in *. inversion Hnd; subst. constructor.
    + intros Hin. fold (keys (insertIndexed n (t, l) c)) in Hin.
      assert (Hin' : In k' (keys c) \/ k' = t).
      { unfold keys in Hin. apply in_map_iff in Hin.
        destruct Hin as (x & <- & Hx). apply In_insertIndexed in Hx.
        destruct Hx as [Hx| ->]; [left; now apply in_map | now right]. }
      destruct Hin' as [Hin'|Hin']; [contradiction|]. apply Hnew. now left.
    + apply IH; [tauto | assumption].
Qed.

Lemma NoDup_keys_addProperty (t : string) (l : list Adjuster)
  (c : AdjusterCollection) :
  ~ In t (keys c) -> NoDup (keys c) -> NoDup (keys (addProperty c t l)).
Proof.
  intros Hnew Hnd. unfold addProperty. destruct (arrayIndex t).
  - now apply NoDup_keys_insertIndexed.
  - unfold keys. rewrite map_app.
    apply NoDup_app; [assumption | repeat constructor; intros [] |].
    intros x Hx [<-|[]]. contradiction.
Qed.

(** Lookup after an in-place update of some of the arrays. *)
Lemma lookup_map_entries (g : string -> list Adjuster -> list Adjuster)
  (F : string * list Adjuster -> string * list Adjuster) :
  (forall e, F e = (fst e, g (fst e) (snd e))) ->
  forall k c, lookup k (map F c) = option_map (g k) (lookup k c).
Proof.
  intros HF k c. induction c as [|[k' l'] c IH]; simpl; [reflexivity|].
  rewrite HF. simpl. destruct (String.eqb_spec k' k) as [->|Hne]; [reflexivity | apply IH].
Qed.

Lemma keys_map_entries (g : string -> list Adjuster -> list Adjuster)
  (F : string * list Adjuster -> string * list Adjuster) :
  (forall e, F e = (fst e, g (fst e) (snd e))) ->
  forall c, keys (map F c) = keys c.
Proof.
  intros HF c. unfold keys. rewrite map_map. apply map_ext. intros e. now rewrite HF.
Qed.

Lemma lookup_pushAt (k t : string) (a : list Adjuster) (c : AdjusterCollection) :
  lookup k (pushAt t a c) =
  option_map (fun l => if String.eqb k t then l ++ a else l) (lookup k c).
Proof.
  unfold pushAt.
  apply (lookup_map_entries (fun k l => if String.eqb k t then l ++ a else l)).
  intros [k' l']. simpl. unfold _pushAdjusters. now destruct (String.eqb k' t).
Qed.

Lemma keys_pushAt (t : string) (a : list Adjuster) (c : AdjusterCollection) :
  keys (pushAt t a c) = keys c.
Proof.
  unfold pushAt.
  apply (keys_map_entries (fun k l => if String.eqb k t then l ++ a else l)).
  intros [k' l']. simpl. unfold _pushAdjusters. now destruct (String.eqb k' t).
Qed.

Lemma lookup_replaceAt (k t : string) (a : list Adjuster) (c : AdjusterCollection) :
  lookup k (replaceAt t a c) =
  option_map (fun l => if String.eqb k t then a else l) (lookup k c).
Proof.
  unfold replaceAt.
  apply (lookup_map_entries (fun k l => if String.eqb k t then a else l)).
  intros [k' l']. simpl. now destruct (String.eqb k' t).
Qed.

Lemma keys_replaceAt (t : string) (a : list Adjuster) (c : AdjusterCollection) :
  keys (replaceAt t a c) = keys c.
Proof.
  unfold replaceAt.
  apply (keys_map_entries (fun k l => if String.eqb k t then a else l)).
  intros [k' l']. simpl. now destruct (String.eqb k' t).
Qed.

Lemma lookup_pushDescendants (k t : string) (a : list Adjuster)
  (c : AdjusterCollection) :
  lookup k (_pushAdjustersIntoDescendants c t a) =
  option_map (fun l => if isAncestorOf t k then l ++ a else l) (lookup k c).
Proof.
  unfold _pushAdjustersIntoDescendants.
  apply (lookup_map_entries (fun k l => if isAncestorOf t k then l ++ a else l)).
  intros [k' l']. simpl. unfold _pushAdjusters, isAncestorOf.
  now destruct (startsWith k' (withDot t)).
Qed.

Lemma keys_pushDescendants (t : string) (a : list Adjuster)
  (c : AdjusterCollection) :
  keys (_pushAdjustersIntoDescendants c t a) = keys c.
Proof.
  unfold _pushAdjustersIntoDescendants.
  apply (keys_map_entries (fun k l => if isAncestorOf t k then l ++ a else l)).
  intros [k' l']. simpl. unfold _pushAdjusters, isAncestorOf.
  now destruct (startsWith k' (withDot t)).
Qed.


Lemma lookup_pushUnknownDescendants (k t : string) (a : list Adjuster)
  (c reference : AdjusterCollection) :
  lookup k (_pushAdjustersIntoUnknownDescendants c t a reference) =
  option_map (fun l => if isAncestorOf t k && unknownTo reference k
                       then l ++ a else l) (lookup k c).
Proof.
  unfold _pushAdjustersIntoUnknownDescendants.
  apply (lookup_map_entries
           (fun k l => if isAncestorOf t k && unknownTo reference k
                       then l ++ a else l)).
  intros [k' l']. simpl. unfold _pushAdjusters, isAncestorOf, unknownTo.
  destruct (startsWith k' (withDot t)); [|reflexivity].
  now destruct (lookup k' reference).
Qed.

Lemma keys_pushUnknownDescendants (t : string) (a : list Adjuster)
  (c reference : AdjusterCollection) :
  keys (_pushAdjustersIntoUnknownDescendants c t a reference) = keys c.
Proof.
  unfold _pushAdjustersIntoUnknownDescendants.
  apply (keys_map_entries
           (fun k l => if isAncestorOf t k && unknownTo reference k
                       then l ++ a else l)).
  intros [k' l']. simpl. unfold _pushAdjusters, isAncestorOf, unknownTo.
  destruct (startsWith k' (withDot t)); [|reflexivity].
  now destruct (lookup k' reference).
Qed.

Lemma lookup_ensure (k t : string) (c : AdjusterCollection) :
  lookup k (_ensureContainerTypeExists c t) =
  match lookup k c with
  | Some x => Some x
  | None => if String.eqb t k then Some (_getAncestorAdjusters c t) else None
  end.
Proof.
  unfold _ensureContainerTypeExists.
  destruct (lookup t c) as [lt|] eqn:Et.
  - destruct (lookup k c) eqn:Ek; [reflexivity|].
    destruct (String.eqb_spec t k) as [->|]; [congruence | reflexivity].
  - now apply lookup_addProperty.
Qed.

Lemma NoDup_keys_ensure (t : string) (c : AdjusterCollection) :
  NoDup (keys c) -> NoDup (keys (_ensureContainerTypeExists c t)).
Proof.
  intros H. unfold _ensureContainerTypeExists.
  destruct (lookup t c) eqn:E; [assumption|].
  apply lookup_None_iff in E. now apply NoDup_keys_addProperty.
Qed.

Lemma lookup_ensure_known (t : string) (c : AdjusterCollection) :
  lookup t (_ensureContainerTypeExists c t) <> None.
Proof.
  rewrite lookup_ensure. destruct (lookup t c); [discriminate|].
  rewrite String.eqb_refl. discriminate.
Qed.

Lemma keys_addAdjuster (t : string) (a : Adjuster) (c : AdjusterCollection) :
  keys (_addAdjuster c t a) = keys (_ensureContainerTypeExists c t).
Proof.
  unfold _addAdjuster. now rewrite keys_pushDescendants, keys_pushAt.
Qed.

Lemma lookup_addAdjuster (k t : string) (a : Adjuster) (c : AdjusterCollection) :
  lookup k (_addAdjuster c t a) =
  option_map (fun l => if String.eqb k t || isAncestorOf t k then l ++ [a] else l)
             (lookup k (_ensureContainerTypeExists c t)).
Proof.
  unfold _addAdjuster. rewrite lookup_pushDescendants, lookup_pushAt.
  destruct (lookup k (_ensureContainerTypeExists c t)) as [l|]; [|reflexivity].
  simpl. destruct (String.eqb_spec k t) as [->|Hne]; simpl.
  - now rewrite isAncestorOf_irrefl.
  - reflexivity.
Qed.

Lemma keys_addAdjustersEntry (src c : AdjusterCollection)
  (e : string * list Adjuster) :
  keys (addAdjustersEntry src c e) = keys (_ensureContainerTypeExists c (fst e)).
Proof.
  unfold addAdjustersEntry. now rewrite keys_pushUnknownDescendants, keys_pushAt.
Qed.

Lemma lookup_addAdjustersEntry (k : string) (src c : AdjusterCollection)
  (e : string * list Adjuster) :
  lookup k (addAdjustersEntry src c e) =
  option_map
    (fun l => if String.eqb k (fst e) || (isAncestorOf (fst e) k && unknownTo src k)
              then l ++ snd e else l)
    (lookup k (_ensureContainerTypeExists c (fst e))).
Proof.
  unfold addAdjustersEntry. rewrite lookup_pushUnknownDescendants, lookup_pushAt.
  destruct (lookup k (_ensureContainerTypeExists c (fst e))) as [l|]; [|reflexivity].
  simpl. destruct (String.eqb_spec k (fst e)) as [->|Hne]; simpl.
  - now rewrite isAncestorOf_irrefl.
  - reflexivity.
Qed.

(** ** Ancestor-inclusive collections *)

Lemma ancestorInclusive_upTo (c : AdjusterCollection) :
  ancestorInclusive c <-> inclusiveUpTo (fun _ => False) (fun _ _ => False) c.
Proof.
  split.
  - intros H a d la ld x Ha Hd Hanc Hx. left. exact (H a d la ld Ha Hd Hanc x Hx).
  - intros H a d la ld Ha Hd Hanc x Hx.
    destruct (H a d la ld x Ha Hd Hanc Hx) as [?|[[]|[]]]. assumption.
Qed.

Lemma inclusiveUpTo_weaken (P Q : Adjuster -> Prop)
  (pend : string -> Adjuster -> Prop) (c : AdjusterCollection) :
  (forall x, P x -> Q x) -> inclusiveUpTo P pend c -> inclusiveUpTo Q pend c.
Proof.
  intros HPQ H a d la ld x Ha Hd Hanc Hx.
  destruct (H a d la ld x Ha Hd Hanc Hx) as [?|[?|?]]; auto.
Qed.

(** Seeding a new type from its nearest known ancestor keeps the property. *)
Lemma inclusiveUpTo_ensure (P : Adjuster -> Prop)
  (pend : string -> Adjuster -> Prop) (c : AdjusterCollection) (t : string) :
  inclusiveUpTo P pend c ->
  (forall a x, isAncestorOf a t = true -> pend a x -> pend t x \/ P x) ->
  inclusiveUpTo P pend (_ensureContainerTypeExists c t).
Proof.
  intros Hinv Hp a d la ld x Ha Hd Hanc Hx.
  rewrite lookup_ensure in Ha, Hd.
  destruct (lookup a c) as [la0|] eqn:Ea; destruct (lookup d c) as [ld0|] eqn:Ed.
  - injection Ha as <-; injection Hd as <-.
    exact (Hinv a d la0 ld0 x Ea Ed Hanc Hx).
  - destruct (String.eqb_spec t d) as [->|]; [|discriminate].
    inversion Ha; inversion Hd; subst.
    destruct (getAncestorAdjusters_spec c d) as [(n & Hn & Hln & Hnear)|[_ Hnone]].
    + destruct (Hnear a Hanc) as [->|Han]; [congruence | |].
      * left. rewrite Hln in Ea. now inversion Ea; subst.
      * destruct (Hinv a n la _ x Ea Hln Han Hx) as [?|[?|Hpend]]; auto.
        destruct (Hp n x Hn Hpend); auto.
    + rewrite (Hnone a Hanc) in Ea. discriminate.
  - destruct (String.eqb_spec t a) as [->|]; [|discriminate].
    inversion Ha; inversion Hd; subst.
    destruct (getAncestorAdjusters_spec c a) as [(n & Hn & Hln & _)|[Hnil _]].
    + eapply (Hinv n d); eauto using isAncestorOf_trans.
    + rewrite Hnil in Hx. contradiction.
  - destruct (String.eqb_spec t a) as [->|]; [|discriminate].
    destruct (String.eqb_spec a d) as [->|]; [|discriminate].
    rewrite isAncestorOf_irrefl in Hanc. discriminate.
Qed.

(** Appending [adjs] to the arrays selected by [p]. *)
Lemma inclusiveUpTo_step (P : Adjuster -> Prop)
  (pend pend' : string -> Adjuster -> Prop) (c c' : AdjusterCollection)
  (p : string -> bool) (adjs : list Adjuster) :
  (forall k, lookup k c' =
             option_map (fun l => if p k then l ++ adjs else l) (lookup k c)) ->
  (forall a d ld x, p a = true -> isAncestorOf a d = true ->
     lookup d c = Some ld -> In x adjs ->
     p d = true \/ In x ld \/ P x \/ pend' d x) ->
  (forall d x, pend d x -> pend' d x \/ (p d = true /\ In x adjs)) ->
  inclusiveUpTo P pend c -> inclusiveUpTo P pend' c'.
Proof.
  intros Hlook Hnew Hpend Hinv a d la ld x Ha Hd Hanc Hx.
  rewrite Hlook in Ha, Hd.
  destruct (lookup a c) as [la0|] eqn:Ea; [|discriminate].
  destruct (lookup d c) as [ld0|] eqn:Ed; [|discriminate].
  simpl in Ha, Hd. inversion Ha; inversion Hd; subst; clear Ha Hd.
  assert (Hold : In x la0 -> In x (if p d then ld0 ++ adjs else ld0) \/ P x \/ pend' d x).
  { intros Hx0. destruct (Hinv a d la0 ld0 x Ea Ed Hanc Hx0) as [H|[H|H]].
    - left. destruct (p d); [apply in_or_app; now left | assumption].
    - auto.
    - destruct (Hpend d x H) as [H'|[Hpd Hin]]; [auto|].
      left. rewrite Hpd. apply in_or_app. now right. }
  destruct (p a) eqn:Hpa; [|auto].
  apply in_app_or in Hx. destruct Hx as [Hx|Hx]; [auto|].
  destruct (Hnew a d ld0 x Hpa Hanc Ed Hx) as [H|[H|[H|H]]]; auto.
  - left. rewrite H. apply in_or_app. now right.
  - left. destruct (p d); [apply in_or_app; now left | assumption].
Qed.

Lemma ancestorInclusive_ensure (c : AdjusterCollection) (t : string) :
  ancestorInclusive c -> ancestorInclusive (_ensureContainerTypeExists c t).
Proof.
  rewrite !ancestorInclusive_upTo. intros H.
  apply inclusiveUpTo_ensure; [assumption | intros ? ? _ []].
Qed.

Lemma ancestorInclusive_addAdjuster (c : AdjusterCollection) (t : string)
  (a : Adjuster) :
  ancestorInclusive c -> ancestorInclusive (_addAdjuster c t a).
Proof.
  intros H. apply (ancestorInclusive_ensure _ t) in H.
  rewrite ancestorInclusive_upTo in *.
  apply (inclusiveUpTo_step _ (fun _ _ => False) _
           (_ensureContainerTypeExists c t) _
           (fun k => String.eqb k t || isAncestorOf t k) [a]);
    [intros k; apply lookup_addAdjuster | | intros ? ? [] | exact H].
  intros a0 d ld x Hp Hanc _ _. left.
  apply orb_true_iff in Hp. apply orb_true_iff. right.
  destruct Hp as [Hp|Hp].
  - apply String.eqb_eq in Hp. now subst.
  - eauto using isAncestorOf_trans.
Qed.


(** The state of the [forEach] of [_addAdjusters] after the entries [done]
    and before the entries [todo]. *)
Lemma addAdjusters_loop (P : Adjuster -> Prop) (src : AdjusterCollection) :
  NoDup (keys src) -> ancestorInclusive src ->
  forall todo done c,
    src = done ++ todo ->
    inclusiveUpTo P (pendingIn todo) c ->
    (forall d ls, In (d, ls) done ->
       exists ld, lookup d c = Some ld /\ incl ls ld) ->
    inclusiveUpTo P (fun _ _ => False)
      (fold_left (addAdjustersEntry src) todo c).
Proof.
  intros Hnd Hsrc todo. induction todo as [|[k l] todo IH]; intros done c Esrc Hinv Hdone.
  - simpl. intros a d la ld x Ha Hd Hanc Hx.
    destruct (Hinv a d la ld x Ha Hd Hanc Hx) as [?|[?|(ls & [] & _)]]; auto.
  - simpl. apply (IH (done ++ [(k, l)])).
    + rewrite <- app_assoc. exact Esrc.
    + assert (Hkl : lookup k src = Some l).
      { apply In_lookup_Some; [assumption|]. rewrite Esrc. apply in_or_app. right. now left. }
      eapply (inclusiveUpTo_step P (pendingIn ((k, l) :: todo)) _
                (_ensureContainerTypeExists c k) _
                (fun k' => String.eqb k' k || (isAncestorOf k k' && unknownTo src k')) l).
      * intros k'. apply (lookup_addAdjustersEntry k' src c (k, l)).
      * intros a d ld x Hp Hanc Hd Hx.
        assert (Hkd : isAncestorOf k d = true).
        { apply orb_true_iff in Hp. destruct Hp as [Hp|Hp].
          - apply String.eqb_eq in Hp. now subst.
          - apply andb_true_iff in Hp. destruct Hp as [Hp _].
            eauto using isAncestorOf_trans. }
        destruct (lookup d src) as [ls|] eqn:Eds.
        -- assert (Hxls : In x ls) by (eapply (Hsrc k d); eauto).
           pose proof (lookup_Some_In _ _ _ Eds) as Hin.
           rewrite Esrc in Hin. apply in_app_or in Hin.
           destruct Hin as [Hin|[Hin|Hin]].
           ++ destruct (Hdone d ls Hin) as (ld' & Hld' & Hincl).
              right. left. rewrite lookup_ensure, Hld' in Hd.
              inversion Hd; subst. now apply Hincl.
           ++ inversion Hin; subst. rewrite isAncestorOf_irrefl in Hkd. discriminate.
           ++ right. right. right. exists ls. auto.
        -- left. apply orb_true_iff. right. rewrite Hkd. unfold unknownTo. now rewrite Eds.
      * intros d x (ls & [Hin|Hin] & Hx).
        -- inversion Hin; subst. right. split; [|assumption].
           now rewrite String.eqb_refl.
        -- left. exists ls. auto.
      * apply inclusiveUpTo_ensure; [assumption|].
        intros a x Hanc (ls & Hin & Hx). left. exists l. split; [now left|].
        assert (Hla : lookup a src = Some ls).
        { apply In_lookup_Some; [assumption|]. rewrite Esrc. apply in_or_app. now right. }
        eapply (Hsrc a k); eauto.
    + intros d ls Hin. apply in_app_or in Hin.
      rewrite (lookup_addAdjustersEntry d src c (k, l)). simpl.
      rewrite lookup_ensure.
      destruct Hin as [Hin|[Hin|[]]].
      * destruct (Hdone d ls Hin) as (ld & -> & Hincl). simpl.
        eexists. split; [reflexivity|].
        destruct (_ || _); [now apply incl_appl | assumption].
      * inversion Hin; subst. rewrite String.eqb_refl. simpl.
        destruct (lookup d c); simpl; eexists; (split; [reflexivity|]);
          now apply incl_appr, incl_refl.
Qed.

Lemma inclusiveUpTo_addAdjusters (P : Adjuster -> Prop)
  (c src : AdjusterCollection) :
  NoDup (keys src) -> ancestorInclusive src ->
  inclusiveUpTo P (fun _ _ => False) c ->
  inclusiveUpTo P (fun _ _ => False) (_addAdjusters c src).
Proof.
  intros Hnd Hsrc Hc. unfold _addAdjusters.
  apply (addAdjusters_loop P src Hnd Hsrc src [] c); [reflexivity | | intros ? ? []].
  intros a d la ld x Ha Hd Hanc Hx.
  destruct (Hc a d la ld x Ha Hd Hanc Hx) as [?|[?|[]]]; auto.
Qed.

Lemma ancestorInclusive_addAdjusters (c src : AdjusterCollection) :
  NoDup (keys src) -> ancestorInclusive src ->
  ancestorInclusive c -> ancestorInclusive (_addAdjusters c src).
Proof.
  intros Hnd Hsrc Hc. apply ancestorInclusive_upTo.
  apply inclusiveUpTo_addAdjusters; [assumption | assumption |].
  now apply ancestorInclusive_upTo.
Qed.

Lemma keys_addAdjusters_NoDup (c src : AdjusterCollection) :
  NoDup (keys c) -> NoDup (keys (_addAdjusters c src)).
Proof.
  unfold _addAdjusters. generalize src at 1. intros ref.
  revert c. induction src as [|e src IH]; intros c H; simpl; [assumption|].
  apply IH. rewrite keys_addAdjustersEntry. now apply NoDup_keys_ensure.
Qed.


(** ** Wiring instances of the definition phase *)

Lemma map_eta_pair {A B : Type} (l : list (A * B)) :
  map (fun e : A * B => (fst e, snd e)) l = l.
Proof. induction l as [|[a b] l IH]; simpl; [reflexivity | now rewrite IH]. Qed.

Lemma clone_eq (w : Wiring) : clone w = w.
Proof. destruct w. unfold clone, newWiring. simpl. now rewrite !map_eta_pair. Qed.

Lemma newWiring_clone (cls : string) (w : Wiring) :
  newWiring cls (Some w) =
  mkWiring cls (_containerAdjusters w) (_wiringAdjusters w)
           (_wiringSuppliedByWiringAdjusters w).
Proof. unfold newWiring. now rewrite !map_eta_pair. Qed.

Lemma In_keys_ensure (k t : string) (c : AdjusterCollection) :
  In k (keys (_ensureContainerTypeExists c t)) <-> In k (keys c) \/ k = t.
Proof.
  unfold _ensureContainerTypeExists.
  destruct (lookup t c) eqn:E.
  - split; [tauto|]. intros [H| ->]; [tauto|]. eauto using lookup_known_keys.
  - apply In_keys_addProperty.
Qed.

Lemma In_keys_addAdjuster (k t : string) (a : Adjuster) (c : AdjusterCollection) :
  In k (keys (_addAdjuster c t a)) <-> In k (keys c) \/ k = t.
Proof. rewrite keys_addAdjuster. apply In_keys_ensure. Qed.

Lemma In_keys_fold_entries (ref : AdjusterCollection) (k : string) :
  forall src c,
    In k (keys (fold_left (addAdjustersEntry ref) src c)) <->
    In k (keys c) \/ In k (keys src).
Proof.
  induction src as [|e src IH]; intros c; simpl; [tauto|].
  rewrite IH, keys_addAdjustersEntry, In_keys_ensure. intuition auto.
Qed.

Lemma In_keys_addAdjusters (k : string) (c src : AdjusterCollection) :
  In k (keys (_addAdjusters c src)) <-> In k (keys c) \/ In k (keys src).
Proof. apply In_keys_fold_entries. Qed.

Lemma In_keys_ensureAll (k : string) (ts : list string) :
  forall c, In k (keys (ensureAll c ts)) <-> In k (keys c) \/ In k ts.
Proof.
  induction ts as [|t ts IH]; intros c; simpl; [tauto|].
  unfold ensureAll in *. simpl. rewrite IH, In_keys_ensure. intuition auto.
Qed.

Lemma NoDup_keys_addAdjuster (t : string) (a : Adjuster) (c : AdjusterCollection) :
  NoDup (keys c) -> NoDup (keys (_addAdjuster c t a)).
Proof. rewrite keys_addAdjuster. apply NoDup_keys_ensure. Qed.

Lemma NoDup_keys_ensureAll (ts : list string) :
  forall c, NoDup (keys c) -> NoDup (keys (ensureAll c ts)).
Proof.
  induction ts as [|t ts IH]; intros c H; [assumption|].
  apply IH. now apply NoDup_keys_ensure.
Qed.

Lemma ancestorInclusive_ensureAll (ts : list string) :
  forall c, ancestorInclusive c -> ancestorInclusive (ensureAll c ts).
Proof.
  induction ts as [|t ts IH]; intros c H; [assumption|].
  apply IH. now apply ancestorInclusive_ensure.
Qed.

Lemma dotted_inj (a b : string) : dotted a = dotted b -> a = b.
Proof. unfold dotted. congruence. Qed.

Lemma dotted_not_root (a : string) : dotted a <> "".
Proof. discriminate. Qed.

(** *** The map of supplied wiring *)

Lemma mapGet_mapSet (a b : Adjuster) (v : option Wiring) (m : SuppliedMap) :
  mapGet a (mapSet b v m) = if Nat.eqb b a then Some v else mapGet a m.
Proof.
  induction m as [|[k v'] m IH]; simpl.
  - reflexivity.
  - destruct (Nat.eqb_spec k b) as [->|Hkb]; simpl.
    + now destruct (Nat.eqb b a).
    + destruct (Nat.eqb_spec k a) as [->|Hka].
      * destruct (Nat.eqb_spec b a); [congruence | reflexivity].
      * apply IH.
Qed.

Lemma mapGet_addSupplied (a : Adjuster) (src : SuppliedMap) :
  forall m,
    mapGet a (mergeSupplied m src) =
    match mapGet a m with Some v => Some v | None => mapGet a src end.
Proof.
  unfold mergeSupplied. induction src as [|[k v] src IH]; intros m; simpl.
  - now destruct (mapGet a m).
  - rewrite IH. unfold mapHas.
    destruct (mapGet k m) as [vk|] eqn:Ek.
    + destruct (mapGet a m) eqn:Ea; [reflexivity|].
      destruct (Nat.eqb_spec k a) as [->|]; [congruence | reflexivity].
    + rewrite mapGet_mapSet.
      destruct (Nat.eqb_spec k a) as [->|]; [now rewrite Ek|].
      reflexivity.
Qed.

Lemma mapGet_addSuppliedWiring (a : Adjuster) (wiring this : Wiring) :
  mapGet a (_wiringSuppliedByWiringAdjusters (_addSuppliedWiring wiring this)) =
  match mapGet a (_wiringSuppliedByWiringAdjusters this) with
  | Some v => Some v
  | None => mapGet a (_wiringSuppliedByWiringAdjusters wiring)
  end.
Proof. unfold _addSuppliedWiring. simpl. apply mapGet_addSupplied. Qed.

Lemma mapGet_ensureKey (a b : Adjuster) (this : Wiring) :
  mapGet a (_wiringSuppliedByWiringAdjusters
              (_ensureSuppliedWiringKeyExists b this)) =
  match mapGet a (_wiringSuppliedByWiringAdjusters this) with
  | Some v => Some v
  | None => if Nat.eqb b a then Some None else None
  end.
Proof.
  unfold _ensureSuppliedWiringKeyExists, mapHas.
  destruct (mapGet b (_wiringSuppliedByWiringAdjusters this)) eqn:Eb.
  - destruct (mapGet a _) eqn:Ea; [reflexivity|].
    destruct (Nat.eqb_spec b a) as [->|]; [congruence | reflexivity].
  - simpl. rewrite mapGet_mapSet.
    destruct (Nat.eqb_spec b a) as [->|]; [now rewrite Eb|].
    now destruct (mapGet a _).
Qed.

Lemma ensureKey_containerAdjusters (a : Adjuster) (this : Wiring) :
  _containerAdjusters (_ensureSuppliedWiringKeyExists a this) =
  _containerAdjusters this.
Proof. unfold _ensureSuppliedWiringKeyExists. now destruct (mapHas _ _). Qed.

Lemma ensureKey_wiringAdjusters (a : Adjuster) (this : Wiring) :
  _wiringAdjusters (_ensureSuppliedWiringKeyExists a this) =
  _wiringAdjusters this.
Proof. unfold _ensureSuppliedWiringKeyExists. now destruct (mapHas _ _). Qed.

(** *** Every wiring of the definition phase is [Public] *)

Lemma Public_new (cls : string) : Public (newWiring cls None).
Proof.
  constructor; simpl.
  - constructor.
  - constructor.
  - intros a d la ld H; discriminate.
  - intros a d la ld H; discriminate.
  - intros t [].
  - intros a v H; discriminate.
Qed.

Lemma Public_adjustContainer (t : string) (f : Adjuster) (w : Wiring) :
  Public w -> Public (_adjustContainer t f w).
Proof.
  intros [H1 H2 H3 H4 H5 H6]. unfold _adjustContainer. constructor; simpl.
  - now apply NoDup_keys_addAdjuster.
  - now apply NoDup_keys_ensure.
  - now apply ancestorInclusive_addAdjuster.
  - now apply ancestorInclusive_ensure.
  - intros t' Ht'. simpl in *. apply In_keys_addAdjuster in Ht'.
    apply In_keys_ensure. destruct Ht' as [Ht'|Ht'].
    + left. now apply H5.
    + right. now apply dotted_inj.
  - exact H6.
Qed.

Lemma Public_adjustWiringAfter (t : string) (a : Adjuster) (w : Wiring) :
  Public w -> Public (_adjustWiringAfter t a w).
Proof.
  intros [H1 H2 H3 H4 H5 H6]. unfold _adjustWiringAfter.
  destruct (String.eqb_spec t "") as [->|Ht]; constructor;
    unfold keysAgree;
    rewrite ?ensureKey_containerAdjusters, ?ensureKey_wiringAdjusters; simpl;
    repeat first [ apply NoDup_keys_addAdjuster | apply NoDup_keys_ensure
                 | apply ancestorInclusive_addAdjuster
                 | apply ancestorInclusive_ensure ]; try assumption.
  - intros t' Ht'. simpl in *. apply In_keys_addAdjuster in Ht'.
    apply In_keys_addAdjuster. destruct Ht' as [Ht'|Ht'].
    + left. now apply H5.
    + now apply dotted_not_root in Ht'.
  - intros x v. rewrite mapGet_ensureKey. simpl.
    destruct (mapGet x _) eqn:E.
    + intros [= <-]. eauto.
    + destruct (Nat.eqb a x); congruence.
  - intros t' Ht'. simpl in *. apply In_keys_addAdjuster in Ht'.
    apply In_keys_addAdjuster. destruct Ht' as [Ht'|Ht'].
    + apply In_keys_ensure in Ht'. destruct Ht' as [Ht'|Ht'].
      * left. now apply H5.
      * right. now apply dotted_inj.
    + now apply dotted_not_root in Ht'.
  - intros x v. rewrite mapGet_ensureKey. simpl.
    destruct (mapGet x _) eqn:E.
    + intros [= <-]. eauto.
    + destruct (Nat.eqb a x); congruence.
Qed.

Lemma Public_addWiring (w' w : Wiring) :
  Public w' -> Public w -> Public (_addWiring w' w).
Proof.
  intros [G1 G2 G3 G4 G5 G6] [H1 H2 H3 H4 H5 H6]. unfold _addWiring.
  constructor; simpl.
  - now apply keys_addAdjusters_NoDup.
  - now apply keys_addAdjusters_NoDup.
  - now apply ancestorInclusive_addAdjusters.
  - now apply ancestorInclusive_addAdjusters.
  - intros t Ht. simpl in *. apply In_keys_addAdjusters in Ht.
    apply In_keys_addAdjusters. destruct Ht; [left; now apply H5 | right; now apply G5].
  - intros x v. rewrite mapGet_addSupplied. simpl.
    destruct (mapGet x (_wiringSuppliedByWiringAdjusters w)) eqn:E.
    + intros [= <-]. eauto.
    + eauto.
Qed.

Lemma DefinitionPhase_Public (w : Wiring) : DefinitionPhase w -> Public w.
Proof.
  induction 1.
  - apply Public_new.
  - now rewrite clone_eq.
  - now apply Public_adjustWiringAfter.
  - now apply Public_adjustContainer.
  - now apply Public_adjustWiringAfter.
  - now apply Public_addWiring.
Qed.

Lemma Public_Sound (w : Wiring) : Public w -> Sound w.
Proof.
  intros [H1 H2 H3 H4 H5 H6]. constructor; try assumption.
  apply ancestorInclusive_upTo in H4.
  eapply inclusiveUpTo_weaken; [|exact H4]. intros x [].
Qed.


(** ** More on collections: lists only grow, and nothing comes from nowhere *)

Lemma fold_left_invariant {A B : Type} (f : A -> B -> A) (Q : A -> Prop)
  (l : list B) :
  (forall a b, In b l -> Q a -> Q (f a b)) ->
  forall a, Q a -> Q (fold_left f l a).
Proof.
  induction l as [|b l IH]; intros Hstep a Ha; simpl; [assumption|].
  apply IH.
  - intros a' b' Hb'. apply Hstep. now right.
  - apply Hstep; [now left | assumption].
Qed.

Lemma lookup_ensure_prefix (k t : string) (l : list Adjuster)
  (c : AdjusterCollection) :
  lookup k c = Some l -> lookup k (_ensureContainerTypeExists c t) = Some l.
Proof. intros H. now rewrite lookup_ensure, H. Qed.

Lemma lookup_ensureAll_prefix (k : string) (l : list Adjuster) (ts : list string) :
  forall c, lookup k c = Some l -> lookup k (ensureAll c ts) = Some l.
Proof.
  induction ts as [|t ts IH]; intros c H; [assumption|].
  apply IH. now apply lookup_ensure_prefix.
Qed.

Lemma lookup_addAdjusters_prefix (k : string) (src : AdjusterCollection) :
  forall c l, lookup k c = Some l ->
  exists extra, lookup k (_addAdjusters c src) = Some (l ++ extra).
Proof.
  unfold _addAdjusters. generalize src at 1. intros ref.
  induction src as [|e src IH]; intros c l H; simpl.
  - exists []. now rewrite app_nil_r.
  - assert (E : exists extra, lookup k (addAdjustersEntry ref c e) = Some (l ++ extra)).
    { rewrite lookup_addAdjustersEntry, (lookup_ensure_prefix _ _ _ _ H). simpl.
      destruct (_ || _); [now exists (snd e) | exists []; now rewrite app_nil_r]. }
    destruct E as [extra1 E]. destruct (IH _ _ E) as [extra2 E2].
    exists (extra1 ++ extra2). now rewrite app_assoc.
Qed.

Lemma In_map_entries (g : string -> list Adjuster -> list Adjuster)
  (F : string * list Adjuster -> string * list Adjuster) :
  (forall e, F e = (fst e, g (fst e) (snd e))) ->
  forall k l c, In (k, l) (map F c) -> exists l0, In (k, l0) c /\ l = g k l0.
Proof.
  intros HF k l c H. apply in_map_iff in H. destruct H as ([k0 l0] & E & Hin).
  rewrite HF in E. simpl in E. inversion E; subst. eauto.
Qed.

Lemma allIn_replaceAt (U : list Adjuster) (t : string) (l : list Adjuster)
  (c : AdjusterCollection) :
  allIn U c -> incl l U -> allIn U (replaceAt t l c).
Proof.
  intros Hc Hl k l' Hin. unfold replaceAt in Hin.
  apply (In_map_entries (fun k l0 => if String.eqb k t then l else l0)) in Hin.
  - destruct Hin as (l0 & Hin & ->). destruct (String.eqb k t); eauto.
  - intros [k0 l0]. simpl. now destruct (String.eqb k0 t).
Qed.

Lemma allIn_ensure (U : list Adjuster) (t : string) (c : AdjusterCollection) :
  allIn U c -> allIn U (_ensureContainerTypeExists c t).
Proof.
  intros Hc. unfold _ensureContainerTypeExists.
  destruct (lookup t c) eqn:E; [assumption|].
  intros k l Hin. apply In_addProperty in Hin. destruct Hin as [Hin|Hin]; [eauto|].
  injection Hin as -> ->.
  destruct (getAncestorAdjusters_spec c t) as [(n & _ & Hn & _)|[-> _]].
  - eauto using lookup_Some_In.
  - intros x [].
Qed.

Lemma allIn_addAdjustersEntry (U : list Adjuster) (ref c : AdjusterCollection)
  (e : string * list Adjuster) :
  allIn U c -> incl (snd e) U -> allIn U (addAdjustersEntry ref c e).
Proof.
  intros Hc He k l Hin. unfold addAdjustersEntry in Hin.
  unfold _pushAdjustersIntoUnknownDescendants in Hin.
  apply (In_map_entries
           (fun k l => if isAncestorOf (fst e) k && unknownTo ref k
                       then l ++ snd e else l)) in Hin.
  2:{ intros [k' l']. simpl. unfold _pushAdjusters, isAncestorOf, unknownTo.
      destruct (startsWith k' (withDot (fst e))); [|reflexivity].
      now destruct (lookup k' ref). }
  destruct Hin as (l1 & Hin & ->). unfold pushAt in Hin.
  apply (In_map_entries
           (fun k l => if String.eqb k (fst e) then l ++ snd e else l)) in Hin.
  2:{ intros [k' l']. simpl. unfold _pushAdjusters. now destruct (String.eqb k' (fst e)). }
  destruct Hin as (l0 & Hin & ->).
  apply (allIn_ensure U (fst e)) in Hc. specialize (Hc k l0 Hin).
  destruct (String.eqb k (fst e)), (isAncestorOf (fst e) k && unknownTo ref k);
    repeat apply incl_app; assumption.
Qed.

Lemma allIn_addAdjusters (U : list Adjuster) (c src : AdjusterCollection) :
  allIn U c -> allIn U src -> allIn U (_addAdjusters c src).
Proof.
  intros Hc Hsrc. unfold _addAdjusters.
  apply fold_left_invariant; [|assumption].
  intros c' [k l] Hin Hc'. apply allIn_addAdjustersEntry; [assumption|].
  simpl. eauto.
Qed.

Lemma lookup_addAdjusters_known (k : string) (c src : AdjusterCollection) :
  lookup k c <> None -> lookup k (_addAdjusters c src) <> None.
Proof.
  intros H. destruct (lookup k c) as [l|] eqn:E; [|congruence].
  destruct (lookup_addAdjusters_prefix k src c l E) as [extra ->]. discriminate.
Qed.

(** ** One call of a wiring adjuster *)

Section Expansion.

Variable suppliedBy : Adjuster -> option Container -> list Wiring.

(** The state after the [addWiring] calls, field by field. *)
Lemma callbacks_fields (ws : list Wiring) :
  forall st,
    let st' := fold_left addWiringCallback ws st in
    _containerAdjusters (snd st') = _containerAdjusters (snd st)
    /\ wiringClass (snd st') = wiringClass (snd st)
    /\ _wiringAdjusters (snd st') =
       fold_left (fun c W => _addAdjusters c (_wiringAdjusters W)) ws
                 (_wiringAdjusters (snd st))
    /\ _containerAdjusters (fst st') =
       fold_left (fun c W => _addAdjusters c (_containerAdjusters W)) ws
                 (_containerAdjusters (fst st))
    /\ _wiringSuppliedByWiringAdjusters (snd st') =
       fold_left (fun m W => mergeSupplied m (_wiringSuppliedByWiringAdjusters W))
                 ws (_wiringSuppliedByWiringAdjusters (snd st)).
Proof.
  induction ws as [|W ws IH]; intros [S this]; simpl.
  - repeat split.
  - specialize (IH (addWiringCallback (S, this) W)). simpl in IH. exact IH.
Qed.

Lemma run_containerAdjusters v arg this :
  _containerAdjusters (snd (runWiringAdjuster suppliedBy v arg this)) =
  _containerAdjusters this.
Proof. unfold runWiringAdjuster. now rewrite (proj1 (callbacks_fields _ _)). Qed.

Lemma run_wiringClass v arg this :
  wiringClass (snd (runWiringAdjuster suppliedBy v arg this)) = wiringClass this.
Proof.
  unfold runWiringAdjuster.
  now rewrite (proj1 (proj2 (callbacks_fields _ _))).
Qed.

Lemma run_wiringAdjusters v arg this :
  _wiringAdjusters (snd (runWiringAdjuster suppliedBy v arg this)) =
  fold_left (fun c W => _addAdjusters c (_wiringAdjusters W))
            (suppliedBy v arg) (_wiringAdjusters this).
Proof.
  unfold runWiringAdjuster.
  now rewrite (proj1 (proj2 (proj2 (callbacks_fields _ _)))).
Qed.

Lemma run_supplied_containerAdjusters v arg this :
  _containerAdjusters (fst (runWiringAdjuster suppliedBy v arg this)) =
  fold_left (fun c W => _addAdjusters c (_containerAdjusters W))
            (suppliedBy v arg) [].
Proof.
  unfold runWiringAdjuster.
  now rewrite (proj1 (proj2 (proj2 (proj2 (callbacks_fields _ _))))).
Qed.

Lemma run_map v arg this :
  _wiringSuppliedByWiringAdjusters (snd (runWiringAdjuster suppliedBy v arg this)) =
  fold_left (fun m W => mergeSupplied m (_wiringSuppliedByWiringAdjusters W))
            (suppliedBy v arg)
            (mapSet v (Some (newWiring "Wiring" None))
                    (_wiringSuppliedByWiringAdjusters this)).
Proof.
  unfold runWiringAdjuster.
  now rewrite (proj2 (proj2 (proj2 (proj2 (callbacks_fields _ _))))).
Qed.

(** The instance after one call, field by field. *)
Lemma call_containerAdjusters v arg this :
  _containerAdjusters (callWiringAdjuster suppliedBy v arg this) =
  ensureAll (_containerAdjusters this)
    (keys (fold_left (fun c W => _addAdjusters c (_containerAdjusters W))
                     (suppliedBy v arg) [])).
Proof.
  unfold callWiringAdjuster, synchronise.
  rewrite <- (run_supplied_containerAdjusters v arg this), <- (run_containerAdjusters v arg this).
  destruct (runWiringAdjuster suppliedBy v arg this) as [S this2]. reflexivity.
Qed.

Lemma call_wiringAdjusters v arg this :
  _wiringAdjusters (callWiringAdjuster suppliedBy v arg this) =
  fold_left (fun c W => _addAdjusters c (_wiringAdjusters W))
            (suppliedBy v arg) (_wiringAdjusters this).
Proof.
  unfold callWiringAdjuster, synchronise.
  rewrite <- (run_wiringAdjusters v arg this).
  destruct (runWiringAdjuster suppliedBy v arg this) as [S this2]. reflexivity.
Qed.

Lemma call_wiringClass v arg this :
  wiringClass (callWiringAdjuster suppliedBy v arg this) = wiringClass this.
Proof.
  unfold callWiringAdjuster, synchronise.
  rewrite <- (run_wiringClass v arg this).
  destruct (runWiringAdjuster suppliedBy v arg this) as [S this2]. reflexivity.
Qed.

Lemma call_map v arg this :
  exists S,
    _wiringSuppliedByWiringAdjusters (callWiringAdjuster suppliedBy v arg this) =
    mapSet v (Some S)
      (fold_left (fun m W => mergeSupplied m (_wiringSuppliedByWiringAdjusters W))
                 (suppliedBy v arg)
                 (mapSet v (Some (newWiring "Wiring" None))
                         (_wiringSuppliedByWiringAdjusters this))).
Proof.
  unfold callWiringAdjuster, synchronise.
  rewrite <- (run_map v arg this).
  destruct (runWiringAdjuster suppliedBy v arg this) as [S this2]. simpl.
  eexists. reflexivity.
Qed.

Lemma mapGet_merge_fold (a : Adjuster) (ws : list Wiring) :
  forall m v, mapGet a m = Some v ->
    mapGet a (fold_left
                (fun m W => mergeSupplied m (_wiringSuppliedByWiringAdjusters W))
                ws m) = Some v.
Proof.
  induction ws as [|W ws IH]; intros m v H; simpl; [assumption|].
  apply IH. now rewrite mapGet_addSupplied, H.
Qed.

Lemma mapGet_merge_fold_null (a : Adjuster) (ws : list Wiring) :
  (forall W, In W ws -> allNull (_wiringSuppliedByWiringAdjusters W)) ->
  forall m v,
    mapGet a (fold_left
                (fun m W => mergeSupplied m (_wiringSuppliedByWiringAdjusters W))
                ws m) = Some v ->
    mapGet a m = Some v \/ v = None.
Proof.
  induction ws as [|W ws IH]; intros Hnull m v H; simpl in H; [now left|].
  apply IH in H; [|intros; apply Hnull; now right].
  destruct H as [H|H]; [|now right].
  rewrite mapGet_addSupplied in H.
  destruct (mapGet a m); [now left|].
  right. eapply Hnull; [now left | eassumption].
Qed.

(** The adjuster is resolved once it was called. *)
Lemma call_resolves v arg this :
  resolved (_wiringSuppliedByWiringAdjusters
              (callWiringAdjuster suppliedBy v arg this)) v.
Proof.
  destruct (call_map v arg this) as [S ->]. exists S.
  now rewrite mapGet_mapSet, Nat.eqb_refl.
Qed.

(** What was resolved stays resolved. *)
Lemma call_keeps_resolved v arg this a :
  resolved (_wiringSuppliedByWiringAdjusters this) a ->
  resolved (_wiringSuppliedByWiringAdjusters
              (callWiringAdjuster suppliedBy v arg this)) a.
Proof.
  intros [S0 H]. destruct (call_map v arg this) as [S ->].
  unfold resolved. rewrite mapGet_mapSet.
  destruct (Nat.eqb_spec v a) as [->|Hne]; [eauto|].
  exists S0. apply mapGet_merge_fold. rewrite mapGet_mapSet.
  destruct (Nat.eqb_spec v a); [congruence | assumption].
Qed.

(** Public wiring resolves nothing: only the adjuster called becomes
    resolved. *)
Lemma call_resolves_only v arg this a :
  (forall W, In W (suppliedBy v arg) ->
             allNull (_wiringSuppliedByWiringAdjusters W)) ->
  resolved (_wiringSuppliedByWiringAdjusters
              (callWiringAdjuster suppliedBy v arg this)) a ->
  a = v \/ resolved (_wiringSuppliedByWiringAdjusters this) a.
Proof.
  intros Hnull [S0 H]. destruct (call_map v arg this) as [S E].
  rewrite E, mapGet_mapSet in H.
  destruct (Nat.eqb_spec v a) as [->|Hne]; [now left|]. right.
  apply mapGet_merge_fold_null in H; [|assumption].
  destruct H as [H|H]; [|discriminate].
  rewrite mapGet_mapSet in H.
  destruct (Nat.eqb_spec v a); [congruence|]. now exists S0.
Qed.

End Expansion.


(** ** The expansion loop *)

Section ExpansionLoop.

Variable suppliedBy : Adjuster -> option Container -> list Wiring.

Lemma resolved_dec (m : SuppliedMap) (a : Adjuster) :
  {resolved m a} + {~ resolved m a}.
Proof.
  unfold resolved. destruct (mapGet a m) as [[s|]|].
  - left. eauto.
  - right. intros [s H]. discriminate.
  - right. intros [s H]. discriminate.
Qed.

(** Induction on the iterations of the loop. *)
Lemma gatherLoop_ind (k : string) (arg : option Container)
  (Q : Wiring -> Wiring -> list Adjuster -> Prop) :
  (forall this, lookup k (_wiringAdjusters this) = Some [] -> Q this this []) ->
  (forall this v rest this' calls,
      lookup k (_wiringAdjusters this) = Some (v :: rest) ->
      resolved (_wiringSuppliedByWiringAdjusters this) v ->
      Q (shifted k rest this) this' calls -> Q this this' calls) ->
  (forall this v rest this' calls,
      lookup k (_wiringAdjusters this) = Some (v :: rest) ->
      ~ resolved (_wiringSuppliedByWiringAdjusters this) v ->
      Q (callWiringAdjuster suppliedBy v arg (shifted k rest this)) this' calls ->
      Q this this' (v :: calls)) ->
  forall fuel this this' calls,
    gatherLoop suppliedBy fuel k arg this = Ok (this', calls) ->
    Q this this' calls.
Proof.
  intros Hnil Hskip Hcall. induction fuel as [|fuel IH]; intros this this' calls H.
  - discriminate.
  - simpl in H.
    destruct (lookup k (_wiringAdjusters this)) as [[|v rest]|] eqn:El.
    + inversion H; subst. now apply Hnil.
    + fold (shifted k rest this) in H.
      change (_wiringSuppliedByWiringAdjusters (shifted k rest this))
        with (_wiringSuppliedByWiringAdjusters this) in H.
      destruct (mapGet v (_wiringSuppliedByWiringAdjusters this)) as [[s|]|] eqn:Ev.
      * eapply Hskip; [eassumption | now exists s | now apply IH].
      * destruct (gatherLoop suppliedBy fuel k arg _) as [[w c]| | |] eqn:Er;
          try discriminate.
        simpl in H. inversion H; subst.
        eapply Hcall; [eassumption | intros [s Hs]; congruence | now apply IH].
      * destruct (gatherLoop suppliedBy fuel k arg _) as [[w c]| | |] eqn:Er;
          try discriminate.
        simpl in H. inversion H; subst.
        eapply Hcall; [eassumption | intros [s Hs]; congruence | now apply IH].
    + discriminate.
Qed.

Lemma gatherLoop_not_RangeError (k : string) (arg : option Container) :
  forall fuel this, gatherLoop suppliedBy fuel k arg this <> RangeError.
Proof.
  induction fuel as [|fuel IH]; intros this; simpl; [discriminate|].
  destruct (lookup k (_wiringAdjusters this)) as [[|v rest]|]; try discriminate.
  destruct (mapGet v _) as [[s|]|]; [apply IH | |].
  - specialize (IH (callWiringAdjuster suppliedBy v arg
       (setWiringAdjusters (replaceAt k rest (_wiringAdjusters this)) this))).
    destruct (gatherLoop suppliedBy fuel k arg _) as [[w c]| | |];
      simpl; congruence.
  - specialize (IH (callWiringAdjuster suppliedBy v arg
       (setWiringAdjusters (replaceAt k rest (_wiringAdjusters this)) this))).
    destruct (gatherLoop suppliedBy fuel k arg _) as [[w c]| | |];
      simpl; congruence.
Qed.

(** The calls of one run of the loop: nobody is called twice, whoever is
    called was not resolved and is resolved afterwards, and what was
    resolved stays resolved. *)
Lemma gatherLoop_calls (k : string) (arg : option Container) :
  forall fuel this this' calls,
    gatherLoop suppliedBy fuel k arg this = Ok (this', calls) ->
    NoDup calls
    /\ (forall v, In v calls ->
          ~ resolved (_wiringSuppliedByWiringAdjusters this) v
          /\ resolved (_wiringSuppliedByWiringAdjusters this') v)
    /\ (forall a, resolved (_wiringSuppliedByWiringAdjusters this) a ->
                  resolved (_wiringSuppliedByWiringAdjusters this') a).
Proof.
  apply gatherLoop_ind.
  - intros this _. repeat split; [constructor | contradiction | contradiction | auto].
  - intros this v rest this' calls _ _ IH. exact IH.
  - intros this v rest this' calls El Hv (Hnd & Hcalls & Hmono).
    assert (Hv2 : resolved (_wiringSuppliedByWiringAdjusters
                    (callWiringAdjuster suppliedBy v arg (shifted k rest this))) v)
      by apply call_resolves.
    assert (Hkeep : forall a, resolved (_wiringSuppliedByWiringAdjusters this) a ->
              resolved (_wiringSuppliedByWiringAdjusters
                (callWiringAdjuster suppliedBy v arg (shifted k rest this))) a).
    { intros a Ha. now apply call_keeps_resolved. }
    repeat split.
    + constructor; [|assumption]. intros Hin. now apply (proj1 (Hcalls v Hin)).
    + destruct H as [<-|Hin]; [assumption|].
      intros Ha. apply (proj1 (Hcalls v0 Hin)). auto.
    + destruct H as [<-|Hin]; [auto|]. now apply Hcalls.
    + auto.
Qed.

(** A wiring adjuster that is resolved is not called. *)
Lemma gatherLoop_skips_resolved (k : string) (arg : option Container)
  (fuel : nat) (this this' : Wiring) (calls : list Adjuster) (v : Adjuster) :
  gatherLoop suppliedBy fuel k arg this = Ok (this', calls) ->
  resolved (_wiringSuppliedByWiringAdjusters this) v -> ~ In v calls.
Proof.
  intros H Hv Hin. apply gatherLoop_calls in H.
  now apply (proj1 (proj1 (proj2 H) v Hin)).
Qed.

Lemma gatherLoop_wiringClass (k : string) (arg : option Container) :
  forall fuel this this' calls,
    gatherLoop suppliedBy fuel k arg this = Ok (this', calls) ->
    wiringClass this' = wiringClass this.
Proof.
  apply (gatherLoop_ind k arg
           (fun this this' _ => wiringClass this' = wiringClass this)).
  - reflexivity.
  - intros this v rest this' calls _ _ IH. exact IH.
  - intros this v rest this' calls _ _ IH. rewrite IH, call_wiringClass. reflexivity.
Qed.

(** The container-adjuster lists stay ancestor-inclusive, whatever the
    wiring adjusters supply. *)
Lemma gatherLoop_containerAdjusters_inclusive (k : string)
  (arg : option Container) :
  forall fuel this this' calls,
    gatherLoop suppliedBy fuel k arg this = Ok (this', calls) ->
    ancestorInclusive (_containerAdjusters this) ->
    ancestorInclusive (_containerAdjusters this').
Proof.
  apply (gatherLoop_ind k arg
           (fun this this' _ =>
              ancestorInclusive (_containerAdjusters this) ->
              ancestorInclusive (_containerAdjusters this'))).
  - auto.
  - intros this v rest this' calls _ _ IH. exact IH.
  - intros this v rest this' calls _ _ IH H. apply IH.
    rewrite call_containerAdjusters. now apply ancestorInclusive_ensureAll.
Qed.

Lemma In_keys_fold_addAdjusters (proj : Wiring -> AdjusterCollection)
  (k : string) (ws : list Wiring) :
  forall c,
    In k (keys (fold_left (fun c W => _addAdjusters c (proj W)) ws c)) <->
    In k (keys c) \/ exists W, In W ws /\ In k (keys (proj W)).
Proof.
  induction ws as [|W ws IH]; intros c; simpl.
  - split; [auto | intros [H|(W & [] & _)]; assumption].
  - rewrite IH, In_keys_addAdjusters. split.
    + intros [[H|H]|(W' & HW' & H)]; eauto 6.
    + intros [H|(W' & [->|HW'] & H)]; eauto 6.
Qed.

(** The container types known after the loop are those known before and
    those of the wiring supplied by the adjusters that were called. *)
Lemma gatherLoop_known_types (k : string) (arg : option Container) :
  forall fuel this this' calls,
    gatherLoop suppliedBy fuel k arg this = Ok (this', calls) ->
    forall t,
      In t (keys (_containerAdjusters this')) <->
      In t (keys (_containerAdjusters this))
      \/ exists v W, In v calls /\ In W (suppliedBy v arg)
                     /\ In t (keys (_containerAdjusters W)).
Proof.
  apply (gatherLoop_ind k arg
           (fun this this' calls =>
              forall t,
                In t (keys (_containerAdjusters this')) <->
                In t (keys (_containerAdjusters this))
                \/ exists v W, In v calls /\ In W (suppliedBy v arg)
                               /\ In t (keys (_containerAdjusters W)))).
  - intros this _ t. split; [auto | intros [H|(v & W & [] & _)]; assumption].
  - intros this v rest this' calls _ _ IH. exact IH.
  - intros this v rest this' calls _ _ IH t. rewrite IH.
    rewrite call_containerAdjusters, In_keys_ensureAll.
    rewrite (In_keys_fold_addAdjusters _containerAdjusters). simpl. split.
    + intros [[H|[[]|(W & HW & H)]]|(v' & W & Hv' & HW & H)]; eauto 8.
    + intros [H|(v' & W & [<-|Hv'] & HW & H)]; eauto 8.
Qed.

End ExpansionLoop.


(** ** Soundness of instances, and termination of the loop *)

Section ExpansionSound.

Variable suppliedBy : Adjuster -> option Container -> list Wiring.

Lemma isResolved_iff (m : SuppliedMap) (a : Adjuster) :
  isResolved m a = true <-> resolved m a.
Proof.
  unfold isResolved, resolved. destruct (mapGet a m) as [[s|]|]; split;
    try discriminate; try (intros [s' H]; discriminate); eauto.
Qed.

Lemma shifted_lookup (k : string) (v : Adjuster) (rest : list Adjuster)
  (this : Wiring) :
  lookup k (_wiringAdjusters this) = Some (v :: rest) ->
  lookup k (_wiringAdjusters (shifted k rest this)) = Some rest.
Proof.
  intros H. unfold shifted. simpl. rewrite lookup_replaceAt, H. simpl.
  now rewrite String.eqb_refl.
Qed.

Lemma shifted_inclusive (k : string) (v : Adjuster) (rest : list Adjuster)
  (this : Wiring) :
  lookup k (_wiringAdjusters this) = Some (v :: rest) ->
  inclusiveUpTo (resolved (_wiringSuppliedByWiringAdjusters this))
                (fun _ _ => False) (_wiringAdjusters this) ->
  inclusiveUpTo
    (fun x => resolved (_wiringSuppliedByWiringAdjusters this) x \/ x = v)
    (fun _ _ => False) (_wiringAdjusters (shifted k rest this)).
Proof.
  intros El Hinv a d la ld x Ha Hd Hanc Hx. unfold shifted in Ha, Hd.
  simpl in Ha, Hd. rewrite lookup_replaceAt in Ha, Hd.
  destruct (lookup a (_wiringAdjusters this)) as [la0|] eqn:Ea; [|discriminate].
  destruct (lookup d (_wiringAdjusters this)) as [ld0|] eqn:Ed; [|discriminate].
  simpl in Ha, Hd. inversion Ha; inversion Hd; subst; clear Ha Hd.
  assert (Hx0 : In x la0).
  { destruct (String.eqb_spec a k) as [->|]; [|assumption].
    rewrite El in Ea. inversion Ea; subst. now right. }
  destruct (Hinv a d la0 ld0 x Ea Ed Hanc Hx0) as [H|[H|[]]]; [|auto].
  destruct (String.eqb_spec d k) as [->|]; [|auto].
  rewrite El in Ed. inversion Ed; subst. destruct H as [<-|H]; auto.
Qed.

Lemma skip_Sound (k : string) (v : Adjuster) (rest : list Adjuster)
  (this : Wiring) :
  Sound this ->
  lookup k (_wiringAdjusters this) = Some (v :: rest) ->
  resolved (_wiringSuppliedByWiringAdjusters this) v ->
  Sound (shifted k rest this).
Proof.
  intros [H1 H2 H3 H4 H5] El Hv. constructor; simpl; try assumption.
  - now rewrite keys_replaceAt.
  - eapply inclusiveUpTo_weaken; [|eapply shifted_inclusive; eassumption].
    intros x [H| ->]; assumption.
  - intros t Ht. simpl. rewrite keys_replaceAt. now apply H5.
Qed.

Lemma call_Sound (k : string) (arg : option Container) (v : Adjuster)
  (rest : list Adjuster) (this : Wiring) :
  (forall W, In W (suppliedBy v arg) -> Public W) ->
  Sound this ->
  lookup k (_wiringAdjusters this) = Some (v :: rest) ->
  Sound (callWiringAdjuster suppliedBy v arg (shifted k rest this)).
Proof.
  intros Hpub [H1 H2 H3 H4 H5] El. constructor.
  - rewrite call_containerAdjusters. now apply NoDup_keys_ensureAll.
  - rewrite call_wiringAdjusters. apply fold_left_invariant.
    + intros c W _ Hc. now apply keys_addAdjusters_NoDup.
    + simpl. now rewrite keys_replaceAt.
  - rewrite call_containerAdjusters. now apply ancestorInclusive_ensureAll.
  - eapply inclusiveUpTo_weaken with
      (P := fun x => resolved (_wiringSuppliedByWiringAdjusters this) x \/ x = v).
    + intros x [H| ->]; [|apply call_resolves].
      now apply call_keeps_resolved.
    + rewrite call_wiringAdjusters. apply fold_left_invariant.
      * intros c W HW Hc. destruct (Hpub W HW).
        now apply inclusiveUpTo_addAdjusters.
      * eapply shifted_inclusive; eassumption.
  - intros t Ht. rewrite call_containerAdjusters in Ht.
    rewrite call_wiringAdjusters.
    apply In_keys_ensureAll in Ht.
    apply (In_keys_fold_addAdjusters _wiringAdjusters). simpl.
    rewrite keys_replaceAt.
    destruct Ht as [Ht|Ht].
    + left. now apply H5.
    + apply (In_keys_fold_addAdjusters _containerAdjusters) in Ht.
      destruct Ht as [[]|(W & HW & Ht)]. right. exists W. split; [assumption|].
      destruct (Hpub W HW) as [_ _ _ _ Hk _]. now apply Hk.
Qed.

(** Every instance stays sound through the loop when the wiring adjusters
    supply public wiring. *)
Lemma gatherLoop_Sound (k : string) (arg : option Container) :
  (forall v W, In W (suppliedBy v arg) -> Public W) ->
  forall fuel this this' calls,
    gatherLoop suppliedBy fuel k arg this = Ok (this', calls) ->
    Sound this -> Sound this'.
Proof.
  intros Hpub.
  apply (gatherLoop_ind suppliedBy k arg (fun this this' _ => Sound this -> Sound this')).
  - auto.
  - intros this v rest this' calls El Hv IH Hs. apply IH. eapply skip_Sound; eassumption.
  - intros this v rest this' calls El Hv IH Hs. apply IH.
    eapply call_Sound; eauto.
Qed.

Lemma call_lookup_prefix (k : string) (arg : option Container) (v : Adjuster)
  (l : list Adjuster) (this : Wiring) :
  lookup k (_wiringAdjusters this) = Some l ->
  exists extra,
    lookup k (_wiringAdjusters (callWiringAdjuster suppliedBy v arg this)) =
    Some (l ++ extra).
Proof.
  intros H. rewrite call_wiringAdjusters.
  apply (fold_left_invariant
           (fun c W => _addAdjusters c (_wiringAdjusters W))
           (fun c => exists extra, lookup k c = Some (l ++ extra))).
  - intros c W _ [extra Hc].
    destruct (lookup_addAdjusters_prefix k (_wiringAdjusters W) c _ Hc) as [extra' E].
    exists (extra ++ extra'). now rewrite app_assoc.
  - exists []. now rewrite app_nil_r.
Qed.

(** Whoever is in the list when the loop starts, and is not resolved, is
    called by the loop. *)
Lemma gatherLoop_calls_pending (k : string) (arg : option Container) :
  (forall v W, In W (suppliedBy v arg) ->
               allNull (_wiringSuppliedByWiringAdjusters W)) ->
  forall fuel this this' calls,
    gatherLoop suppliedBy fuel k arg this = Ok (this', calls) ->
    forall l x, lookup k (_wiringAdjusters this) = Some l -> In x l ->
                ~ resolved (_wiringSuppliedByWiringAdjusters this) x ->
                In x calls.
Proof.
  intros Hnull.
  apply (gatherLoop_ind suppliedBy k arg
           (fun this this' calls =>
              forall l x, lookup k (_wiringAdjusters this) = Some l -> In x l ->
                ~ resolved (_wiringSuppliedByWiringAdjusters this) x ->
                In x calls)).
  - intros this El l x El' Hx. rewrite El in El'. inversion El'; subst. contradiction.
  - intros this v rest this' calls El Hv IH l x El' Hx Hnr.
    rewrite El in El'. inversion El'; subst.
    destruct Hx as [<-|Hx]; [contradiction|].
    apply (IH rest x); [eapply shifted_lookup; eassumption | assumption | assumption].
  - intros this v rest this' calls El Hv IH l x El' Hx Hnr.
    rewrite El in El'. inversion El'; subst.
    destruct (Nat.eq_dec v x) as [->|Hne]; [now left|]. right.
    destruct Hx as [Hx|Hx]; [contradiction|].
    destruct (call_lookup_prefix k arg v rest (shifted k rest this)
                (shifted_lookup k v rest this El)) as [extra E].
    apply (IH _ x E); [apply in_or_app; now left|].
    intros Hr. apply call_resolves_only in Hr; [|now apply Hnull].
    destruct Hr as [->|Hr]; [congruence | contradiction].
Qed.

(** *** Termination *)

Lemma filter_length_le {A : Type} (p q : A -> bool) (l : list A) :
  (forall x, p x = true -> q x = true) ->
  List.length (filter p l) <= List.length (filter q l).
Proof.
  intros H. induction l as [|x l IH]; simpl; [lia|].
  destruct (p x) eqn:Ep.
  - rewrite (H x Ep). simpl. lia.
  - destruct (q x); simpl; lia.
Qed.

Lemma filter_length_lt {A : Type} (p q : A -> bool) (l : list A) (v : A) :
  (forall x, p x = true -> q x = true) ->
  In v l -> p v = false -> q v = true ->
  List.length (filter p l) < List.length (filter q l).
Proof.
  intros H. induction l as [|x l IH]; simpl; [contradiction|].
  intros [->|Hin] Hp Hq.
  - rewrite Hp, Hq. simpl. pose proof (filter_length_le p q l H). lia.
  - specialize (IH Hin Hp Hq). destruct (p x) eqn:Ep.
    + rewrite (H x Ep). simpl. lia.
    + destruct (q x); simpl; lia.
Qed.

Lemma call_decreases (U : list Adjuster) (arg : option Container)
  (v : Adjuster) (this : Wiring) :
  In v U -> ~ resolved (_wiringSuppliedByWiringAdjusters this) v ->
  unresolvedIn U (_wiringSuppliedByWiringAdjusters
                    (callWiringAdjuster suppliedBy v arg this))
  < unresolvedIn U (_wiringSuppliedByWiringAdjusters this).
Proof.
  intros Hin Hnr. unfold unresolvedIn. apply filter_length_lt with (v := v).
  - intros x Hx. apply negb_true_iff in Hx. apply negb_true_iff.
    destruct (isResolved (_wiringSuppliedByWiringAdjusters this) x) eqn:E; [|reflexivity].
    apply isResolved_iff in E. apply (call_keeps_resolved suppliedBy v arg) in E.
    apply isResolved_iff in E. congruence.
  - assumption.
  - apply negb_false_iff. apply isResolved_iff. apply call_resolves.
  - apply negb_true_iff.
    destruct (isResolved (_wiringSuppliedByWiringAdjusters this) v) eqn:E; [|reflexivity].
    apply isResolved_iff in E. contradiction.
Qed.

Lemma call_allIn (U : list Adjuster) (arg : option Container) (v : Adjuster)
  (this : Wiring) :
  (forall W, In W (suppliedBy v arg) -> allIn U (_wiringAdjusters W)) ->
  allIn U (_wiringAdjusters this) ->
  allIn U (_wiringAdjusters (callWiringAdjuster suppliedBy v arg this)).
Proof.
  intros HW H. rewrite call_wiringAdjusters. apply fold_left_invariant; [|assumption].
  intros c W Hin Hc. apply allIn_addAdjusters; auto.
Qed.

(** The loop ends when the wiring adjusters it can meet all belong to a
    finite [U]. *)
Lemma gatherLoop_terminates (U : list Adjuster) (k : string)
  (arg : option Container) :
  (forall v W, In v U -> In W (suppliedBy v arg) ->
               allIn U (_wiringAdjusters W)) ->
  forall n this l,
    unresolvedIn U (_wiringSuppliedByWiringAdjusters this) = n ->
    allIn U (_wiringAdjusters this) ->
    lookup k (_wiringAdjusters this) = Some l ->
    exists fuel r, gatherLoop suppliedBy fuel k arg this = Ok r.
Proof.
  intros Hclosed. induction n as [n IHn] using lt_wf_ind.
  intros this l. revert this. induction l as [|v rest IHl]; intros this Hn Hall El.
  - exists 1, (this, []). simpl. now rewrite El.
  - assert (Hshift : lookup k (_wiringAdjusters (shifted k rest this)) = Some rest)
      by (eapply shifted_lookup; eassumption).
    assert (HallS : allIn U (_wiringAdjusters (shifted k rest this))).
    { apply allIn_replaceAt; [assumption|].
      intros x Hx. apply (Hall k (v :: rest)); [now apply lookup_Some_In | now right]. }
    assert (HvU : In v U).
    { apply (Hall k (v :: rest)); [now apply lookup_Some_In | now left]. }
    destruct (resolved_dec (_wiringSuppliedByWiringAdjusters this) v) as [Hr|Hnr].
    + destruct (IHl (shifted k rest this) Hn HallS Hshift) as (fuel & r & Hrun).
      exists (S fuel), r. simpl. rewrite El. fold (shifted k rest this).
      destruct Hr as [s Hs]. simpl. now rewrite Hs.
    + pose (this2 := callWiringAdjuster suppliedBy v arg (shifted k rest this)).
      destruct (call_lookup_prefix k arg v rest _ Hshift) as [extra E].
      assert (Hlt : unresolvedIn U (_wiringSuppliedByWiringAdjusters this2) < n).
      { subst n. apply (call_decreases U arg v (shifted k rest this)); assumption. }
      destruct (IHn _ Hlt this2 (rest ++ extra) eq_refl) as (fuel & r & Hrun).
      * apply call_allIn; [|assumption]. intros W HW. exact (Hclosed v W HvU HW).
      * exact E.
      * exists (S fuel), (fst r, v :: snd r). simpl. rewrite El.
        fold (shifted k rest this). fold this2. simpl.
        destruct (mapGet v (_wiringSuppliedByWiringAdjusters this)) as [[s|]|] eqn:Ev.
        -- exfalso. apply Hnr. now exists s.
        -- now rewrite Hrun.
        -- now rewrite Hrun.
Qed.

End ExpansionSound.


(** ** [_gatherWiringSuppliedByWiringAdjusters] *)

Lemma gather_cases (suppliedBy : Adjuster -> option Container -> list Wiring)
  (fuel : nat) (k : string) (arg : option Container) (this this' : Wiring)
  (calls : list Adjuster) :
  _gatherWiringSuppliedByWiringAdjusters suppliedBy fuel k arg this
  = Ok (this', calls) ->
  (lookup k (_wiringAdjusters this) = None /\ this' = this /\ calls = [])
  \/ (lookup k (_wiringAdjusters this) <> None
      /\ gatherLoop suppliedBy fuel k arg this = Ok (this', calls)).
Proof.
  unfold _gatherWiringSuppliedByWiringAdjusters.
  destruct (lookup k (_wiringAdjusters this)).
  - intros H. right. split; [discriminate | assumption].
  - intros H. inversion H; subst. now left.
Qed.

Lemma gather_not_RangeError
  (suppliedBy : Adjuster -> option Container -> list Wiring)
  (fuel : nat) (k : string) (arg : option Container) (this : Wiring) :
  _gatherWiringSuppliedByWiringAdjusters suppliedBy fuel k arg this
  <> RangeError.
Proof.
  unfold _gatherWiringSuppliedByWiringAdjusters.
  destruct (lookup k (_wiringAdjusters this));
    [apply gatherLoop_not_RangeError | discriminate].
Qed.

(** ** The two collections after [_adjustContainer] *)

Lemma adjustContainer_containerAdjusters (t : string) (f : Adjuster) (w : Wiring) :
  _containerAdjusters (_adjustContainer t f w)
  = _addAdjuster (_containerAdjusters w) (dotted t) f.
Proof. reflexivity. Qed.

Lemma adjustContainer_wiringAdjusters (t : string) (f : Adjuster) (w : Wiring) :
  _wiringAdjusters (_adjustContainer t f w)
  = _ensureContainerTypeExists (_wiringAdjusters w) t.
Proof. reflexivity. Qed.

(** ** The expansion loop calls nobody twice and terminates (C9) *)

(** C9.  The expansion loop records the (still empty) resolution of a wiring
    adjuster in the map of supplied wiring before the adjuster runs.  In one
    expansion nobody is called twice; whoever is called was unresolved and is
    resolved afterwards, and is never called again by a later expansion of
    the same instance, for whatever scope and context -- also when the wiring
    it supplied contains the adjuster itself.  When every wiring adjuster
    that can be met belongs to a finite list [U] (the pending lists of the
    instance and those of all wiring supplied by members of [U] hold only
    members of [U]), the expansion of a scope terminates: some amount of
    fuel yields a result, although the list grows while it is consumed. *)
Theorem expansion_calls_once_and_terminates
  (suppliedBy : Adjuster -> option Container -> list Wiring)
  (U : list Adjuster) (k : string) (arg : option Container) (this : Wiring)
  (Hthis : allIn U (_wiringAdjusters this))
  (Hclosed : forall v W, In v U -> In W (suppliedBy v arg) ->
                         allIn U (_wiringAdjusters W)) :
  (forall v,
     exists this1,
       runWiringAdjuster suppliedBy v arg this
       = fold_left addWiringCallback (suppliedBy v arg)
                   (newWiring "Wiring" None, this1)
       /\ mapGet v (_wiringSuppliedByWiringAdjusters this1)
          = Some (Some (newWiring "Wiring" None)))
  /\ (forall fuel this' calls,
        _gatherWiringSuppliedByWiringAdjusters suppliedBy fuel k arg this
        = Ok (this', calls) ->
        NoDup calls
        /\ (forall v, In v calls ->
              ~ resolved (_wiringSuppliedByWiringAdjusters this) v
              /\ resolved (_wiringSuppliedByWiringAdjusters this') v)
        /\ (forall fuel' k' arg' this'' calls',
              _gatherWiringSuppliedByWiringAdjusters suppliedBy fuel' k' arg' this'
              = Ok (this'', calls') ->
              forall v, In v calls -> ~ In v calls'))
  /\ (exists fuel r,
        _gatherWiringSuppliedByWiringAdjusters suppliedBy fuel k arg this = Ok r).
Proof.
  split; [|split].
  - intros v. eexists. split; [reflexivity|]. simpl.
    now rewrite mapGet_mapSet, Nat.eqb_refl.
  - intros fuel this' calls Hrun. apply gather_cases in Hrun.
    destruct Hrun as [(_ & -> & ->)|[_ Hrun]].
    + split; [constructor|]. split; contradiction.
    + pose proof (gatherLoop_calls suppliedBy k arg _ _ _ _ Hrun) as (Hnd & Hcalls & _).
      split; [assumption|]. split; [assumption|].
      intros fuel' k' arg' this'' calls' Hrun' v Hv Hv'.
      apply gather_cases in Hrun'. destruct Hrun' as [(_ & _ & ->)|[_ Hrun']]; [contradiction|].
      eapply gatherLoop_skips_resolved; [exact Hrun' | | exact Hv'].
      now apply Hcalls.
  - unfold _gatherWiringSuppliedByWiringAdjusters.
    destruct (lookup k (_wiringAdjusters this)) as [l|] eqn:El.
    + eapply gatherLoop_terminates; eauto.
    + exists 0. eexists. reflexivity.
Qed.

Lemma expansion_calls_once_and_terminates_witness :
  allIn [10] (_wiringAdjusters (_adjustBaseWiring 10 emptyWiring))
  /\ (forall v W, In v [10] -> In W (selfSupply v None) ->
                  allIn [10] (_wiringAdjusters W))
  /\ exists fuel r,
       _gatherWiringSuppliedByWiringAdjusters selfSupply fuel "" None
         (_adjustBaseWiring 10 emptyWiring) = Ok r.
Proof.
  assert (H1 : allIn [10] (_wiringAdjusters (_adjustBaseWiring 10 emptyWiring))).
  { intros k l [E|[]]. inversion E; subst. apply incl_refl. }
  assert (H2 : forall v W, In v [10] -> In W (selfSupply v None) ->
                           allIn [10] (_wiringAdjusters W)).
  { intros v W [<-|[]] [<-|[]] k l [E|[E|[]]]; inversion E; subst.
    - apply incl_refl.
    - intros x []. }
  split; [exact H1|]. split; [exact H2|].
  exact (proj2 (proj2 (expansion_calls_once_and_terminates
                         selfSupply [10] "" None _ H1 H2))).
Defined.


(** ** The store *)

Lemma deref_valid (s : Store) (r : ref) (w : Wiring) :
  deref s r = Some w -> r < List.length s.
Proof. unfold deref. intros H. apply nth_error_Some. congruence. Qed.

Lemma deref_alloc_old (s : Store) (w : Wiring) (r : ref) :
  r < List.length s -> deref (s ++ [w]) r = deref s r.
Proof. unfold deref. intros H. now apply nth_error_app1. Qed.

Lemma deref_alloc_new (s : Store) (w : Wiring) :
  deref (s ++ [w]) (List.length s) = Some w.
Proof.
  unfold deref. rewrite nth_error_app2 by lia. now rewrite Nat.sub_diag.
Qed.

Lemma length_assign (r : ref) (w : Wiring) (s : Store) :
  List.length (assign r w s) = List.length s.
Proof.
  revert r. induction s as [|x s IH]; intros [|r]; simpl; try reflexivity.
  now rewrite IH.
Qed.

Lemma deref_assign_eq (r : ref) (w : Wiring) (s : Store) :
  r < List.length s -> deref (assign r w s) r = Some w.
Proof.
  unfold deref. revert r. induction s as [|x s IH]; intros [|r] H; simpl in *;
    try lia; [reflexivity|]. apply IH. lia.
Qed.

Lemma deref_assign_ne (r r' : ref) (w : Wiring) (s : Store) :
  r <> r' -> deref (assign r w s) r' = deref s r'.
Proof.
  unfold deref. revert r r'.
  induction s as [|x s IH]; intros [|r] [|r'] H; simpl; try reflexivity;
    try congruence.
  apply IH. congruence.
Qed.

(** Creating on a fresh clone touches no instance that existed before. *)
Lemma deref_after_creation (s : Store) (w p : Wiring) (r : ref) :
  r < List.length s ->
  deref (assign (List.length s) p (s ++ [w])) r = deref s r.
Proof.
  intros H. rewrite deref_assign_ne by lia. now apply deref_alloc_old.
Qed.

Lemma deref_private (s : Store) (w p : Wiring) :
  deref (assign (List.length s) p (s ++ [w])) (List.length s) = Some p.
Proof. apply deref_assign_eq. rewrite length_app. simpl. lia. Qed.

(** ** The builder only touches its private wiring *)

Lemma onWiring_frame (b : WiringBuilder) (f : Wiring -> Wiring) (s s' : Store) :
  onWiring b f s = Ok s' ->
  List.length s' = List.length s
  /\ (forall r, r <> _wiring b -> deref s' r = deref s r)
  /\ (exists w, deref s (_wiring b) = Some w /\ deref s' (_wiring b) = Some (f w)).
Proof.
  unfold onWiring. destruct (deref s (_wiring b)) as [w|] eqn:E; [|discriminate].
  intros H. inversion H; subst. split; [apply length_assign|]. split.
  - intros r Hr. now apply deref_assign_ne.
  - exists w. split; [reflexivity|]. apply deref_assign_eq. eauto using deref_valid.
Qed.

Lemma call_frame (b : WiringBuilder) (c : BuilderCall) (s s' : Store) :
  call b c s = Ok s' ->
  List.length s' = List.length s
  /\ (forall r, r <> _wiring b -> deref s' r = deref s r).
Proof.
  intros H.
  assert (G : exists f, onWiring b f s = Ok s').
  { destruct c; simpl in H.
    - eexists; exact H.
    - unfold adjustContainer in H.
      destruct (isValidContainerType containerType); [eexists; exact H | discriminate].
    - unfold adjustWiringAfter in H.
      destruct (isValidContainerType containerType); [eexists; exact H | discriminate].
    - unfold addWiring in H. destruct (deref s wiring); [eexists; exact H | discriminate]. }
  destruct G as [f G]. apply onWiring_frame in G. tauto.
Qed.

Lemma calls_frame (b : WiringBuilder) (cs : list BuilderCall) :
  forall s,
    List.length (calls b cs s) = List.length s
    /\ (forall r, r <> _wiring b -> deref (calls b cs s) r = deref s r).
Proof.
  unfold calls. induction cs as [|c cs IH]; intros s; simpl; [tauto|].
  destruct (call b c s) as [s'| | |] eqn:E; try apply IH.
  apply call_frame in E. destruct E as [E1 E2]. destruct (IH s') as [I1 I2].
  split; [congruence|]. intros r Hr. rewrite I2, E2; auto.
Qed.

(** ** Creation, step by step *)

Section CreationSteps.

Variable suppliedBy : Adjuster -> option Container -> list Wiring.

Lemma createContainer_inv (fuel : nat) (this : ref) (t : string)
  (args : list Value) (s s' : Store) (cr : Creation) :
  createContainer suppliedBy fuel this t args s = Ok (cr, s') ->
  exists w p,
    isValidContainerType t = true
    /\ deref s this = Some w
    /\ _createContainer suppliedBy fuel (List.length s) t args (clone w) = Ok (cr, p)
    /\ s' = assign (List.length s) p (s ++ [clone w]).
Proof.
  unfold createContainer. destruct (isValidContainerType t); [|discriminate].
  destruct (deref s this) as [w|]; [|discriminate]. simpl.
  destruct (_createContainer suppliedBy fuel (List.length s) t args (clone w))
    as [[cr0 p]| | |] eqn:Ec; try discriminate.
  simpl. intros H. inversion H; subst. exists w, p.
  repeat split; solve [reflexivity | assumption].
Qed.

Lemma callFactory_inv (fuel : nat) (factory : ContainerFactory)
  (callerArgs : list Value) (s s' : Store) (cr : Creation) :
  callFactory suppliedBy fuel factory callerArgs s = Ok (cr, s') ->
  exists w p,
    deref s (factoryWiring factory) = Some w
    /\ _createContainer suppliedBy fuel (List.length s) (factoryType factory)
         (factoryArgs factory ++ callerArgs) (clone w) = Ok (cr, p)
    /\ s' = assign (List.length s) p (s ++ [clone w]).
Proof.
  unfold callFactory.
  destruct (deref s (factoryWiring factory)) as [w|]; [|discriminate]. simpl.
  destruct (_createContainer suppliedBy fuel (List.length s) _ _ (clone w))
    as [[cr0 p]| | |] eqn:Ec; try discriminate.
  simpl. intros H. inversion H; subst. exists w, p.
  repeat split; solve [reflexivity | assumption].
Qed.

Lemma createContainerFactory_inv (fuel : nat) (this : ref) (t : string)
  (factoryArguments : list Value) (s s' : Store) (factory : ContainerFactory)
  (base : list Adjuster) :
  createContainerFactory suppliedBy fuel this t factoryArguments s
  = Ok (factory, base, s') ->
  exists w p,
    isValidContainerType t = true
    /\ deref s this = Some w
    /\ _gatherWiringSuppliedByWiringAdjusters suppliedBy fuel "" None (clone w)
       = Ok (p, base)
    /\ lookup (dotted t) (_containerAdjusters p) <> None
    /\ factory = mkFactory (List.length s) t factoryArguments
    /\ s' = assign (List.length s) p (s ++ [clone w]).
Proof.
  unfold createContainerFactory. destruct (isValidContainerType t); [|discriminate].
  destruct (deref s this) as [w|]; [|discriminate]. simpl.
  unfold _createContainerFactory.
  destruct (_gatherWiringSuppliedByWiringAdjusters suppliedBy fuel "" None (clone w))
    as [[p base0]| | |] eqn:Eg; try discriminate.
  simpl. destruct (lookup (dotted t) (_containerAdjusters p)) eqn:E; [|discriminate].
  simpl. intros H. inversion H; subst. exists w, p.
  repeat split; solve [reflexivity | assumption | congruence].
Qed.

Lemma _createContainer_inv (fuel : nat) (self : ref) (t : string)
  (args : list Value) (this p : Wiring) (cr : Creation) :
  _createContainer suppliedBy fuel self t args this = Ok (cr, p) ->
  exists this1 flattened,
    _gatherWiringSuppliedByWiringAdjusters suppliedBy fuel "" None this
    = Ok (this1, baseCalls cr)
    /\ lookup (dotted t) (_containerAdjusters this1) <> None
    /\ _getFlattenedContainerAdjusters fuel
         (_wiringSuppliedByWiringAdjusters this1) (_containerAdjusters this1)
         (dotted t) = Ok flattened
    /\ container cr
       = RegisterBean "wiring" self
         :: map (fun f => Adjust f args) (applyAdjusters [] flattened)
    /\ _gatherWiringSuppliedByWiringAdjusters suppliedBy fuel t
         (Some (container cr)) this1 = Ok (p, afterCalls cr).
Proof.
  unfold _createContainer.
  destruct (_gatherWiringSuppliedByWiringAdjusters suppliedBy fuel "" None this)
    as [[this1 base]| | |] eqn:Eg; try discriminate.
  simpl. destruct (lookup (dotted t) (_containerAdjusters this1)) eqn:E; [|discriminate].
  destruct (_getFlattenedContainerAdjusters fuel _ _ (dotted t)) as [flattened| | |]
    eqn:Ef; try discriminate.
  simpl.
  destruct (_gatherWiringSuppliedByWiringAdjusters suppliedBy fuel t _ this1)
    as [[p0 after]| | |] eqn:Eh; try discriminate.
  simpl. intros H. inversion H; subst. simpl.
  exists this1, flattened.
  repeat split; solve [reflexivity | assumption | congruence].
Qed.

Lemma gather_wiringClass (fuel : nat) (k : string) (arg : option Container)
  (this this' : Wiring) (calls : list Adjuster) :
  _gatherWiringSuppliedByWiringAdjusters suppliedBy fuel k arg this
  = Ok (this', calls) ->
  wiringClass this' = wiringClass this.
Proof.
  intros H. apply gather_cases in H. destruct H as [(_ & -> & _)|[_ H]]; [reflexivity|].
  eapply gatherLoop_wiringClass; eassumption.
Qed.

Lemma _createContainer_wiringClass (fuel : nat) (self : ref) (t : string)
  (args : list Value) (this p : Wiring) (cr : Creation) :
  _createContainer suppliedBy fuel self t args this = Ok (cr, p) ->
  wiringClass p = wiringClass this.
Proof.
  intros H. apply _createContainer_inv in H.
  destruct H as (this1 & fl & H1 & _ & _ & _ & H2).
  apply gather_wiringClass in H1, H2. congruence.
Qed.

End CreationSteps.


(** ** The class of a wiring instance *)

Lemma adjustContainer_wiringClass (t : string) (f : Adjuster) (w : Wiring) :
  wiringClass (_adjustContainer t f w) = wiringClass w.
Proof. reflexivity. Qed.

Lemma adjustWiringAfter_wiringClass (t : string) (a : Adjuster) (w : Wiring) :
  wiringClass (_adjustWiringAfter t a w) = wiringClass w.
Proof.
  unfold _adjustWiringAfter, _ensureSuppliedWiringKeyExists.
  destruct (String.eqb t ""); destruct (mapHas _ _); reflexivity.
Qed.

Lemma addWiring_wiringClass (w' w : Wiring) :
  wiringClass (_addWiring w' w) = wiringClass w.
Proof. reflexivity. Qed.

Lemma call_wiringClass_kept (b : WiringBuilder) (c : BuilderCall) (s s' : Store)
  (w : Wiring) :
  call b c s = Ok s' -> deref s (_wiring b) = Some w ->
  exists w', deref s' (_wiring b) = Some w' /\ wiringClass w' = wiringClass w.
Proof.
  intros H Hw.
  assert (G : exists f, onWiring b f s = Ok s'
                        /\ forall x, wiringClass (f x) = wiringClass x).
  { destruct c; simpl in H.
    - eexists; split; [exact H|]. intros x. apply adjustWiringAfter_wiringClass.
    - unfold adjustContainer in H.
      destruct (isValidContainerType containerType); [|discriminate].
      eexists; split; [exact H|]. intros x. apply adjustContainer_wiringClass.
    - unfold adjustWiringAfter in H.
      destruct (isValidContainerType containerType); [|discriminate].
      eexists; split; [exact H|]. intros x. apply adjustWiringAfter_wiringClass.
    - unfold addWiring in H. destruct (deref s wiring); [|discriminate].
      eexists; split; [exact H|]. intros x. apply addWiring_wiringClass. }
  destruct G as (f & G & Hf). apply onWiring_frame in G.
  destruct G as (_ & _ & w0 & Hw0 & Hw'). rewrite Hw in Hw0. inversion Hw0; subst.
  exists (f w0). split; [assumption | apply Hf].
Qed.

Lemma calls_wiringClass_kept (b : WiringBuilder) (cs : list BuilderCall) :
  forall s w, deref s (_wiring b) = Some w ->
  exists w', deref (calls b cs s) (_wiring b) = Some w'
             /\ wiringClass w' = wiringClass w.
Proof.
  unfold calls. induction cs as [|c cs IH]; intros s w Hw; simpl; [eauto|].
  destruct (call b c s) as [s'| | |] eqn:E; try (now apply IH).
  destruct (call_wiringClass_kept b c s s' w E Hw) as (w1 & Hw1 & Hc1).
  destruct (IH s' w1 Hw1) as (w2 & Hw2 & Hc2). exists w2. split; [assumption | congruence].
Qed.

Lemma clone_wiringClass (w : Wiring) : wiringClass (clone w) = wiringClass w.
Proof. reflexivity. Qed.

(** ** The shape of a created container *)

Lemma created_container_shape
  (suppliedBy : Adjuster -> option Container -> list Wiring)
  (fuel : nat) (self : ref) (t : string) (args : list Value)
  (this p : Wiring) (cr : Creation) :
  _createContainer suppliedBy fuel self t args this = Ok (cr, p) ->
  exists adjusted,
    container cr = RegisterBean "wiring" self :: adjusted
    /\ forall op, In op adjusted -> exists f, op = Adjust f args.
Proof.
  intros H. apply _createContainer_inv in H.
  destruct H as (this1 & fl & _ & _ & _ & Hc & _).
  eexists. split; [exact Hc|].
  intros op Hop. apply in_map_iff in Hop. destruct Hop as (f & <- & _). eauto.
Qed.

(** ** Built wiring behaves as immutable (C4) *)

Lemma createContainer_frame
  (suppliedBy : Adjuster -> option Container -> list Wiring)
  (fuel : nat) (this : ref) (t : string) (args : list Value)
  (s s' : Store) (cr : Creation) :
  createContainer suppliedBy fuel this t args s = Ok (cr, s') ->
  forall r x, deref s r = Some x -> deref s' r = Some x.
Proof.
  intros H r x Hr. apply createContainer_inv in H.
  destruct H as (w & p & _ & _ & _ & ->).
  rewrite deref_after_creation; eauto using deref_valid.
Qed.

Lemma createContainer_from
  (suppliedBy : Adjuster -> option Container -> list Wiring)
  (fuel : nat) (this : ref) (t : string) (args : list Value)
  (s : Store) (w : Wiring) :
  deref s this = Some w ->
  creationOf (createContainer suppliedBy fuel this t args s)
  = if isValidContainerType t
    then x <- _createContainer suppliedBy fuel (List.length s) t args (clone w) ;;
         Ok (fst x)
    else TypeError.
Proof.
  intros Hw. unfold createContainer, creationOf.
  destruct (isValidContainerType t); [|reflexivity].
  rewrite Hw. simpl.
  destruct (_createContainer suppliedBy fuel (List.length s) t args (clone w))
    as [[cr p]| | |]; reflexivity.
Qed.

(** C4.  A wiring obtained from [build()] behaves as immutable.  Whatever
    calls are made on the builder after [build()], the built instance is the
    same object with the same content, and every creation from it yields what
    it would have yielded without those calls.  A creation from a wiring
    leaves every instance that existed before the call as it was -- the
    wiring itself included; a later creation from the same wiring is
    therefore the creation run on a fresh clone of the wiring as it was
    before the first one: what the first creation resolved and registered
    lives only in its own private clone. *)
Theorem built_wiring_is_unaffected_by_builder_and_creations
  (suppliedBy : Adjuster -> option Container -> list Wiring)
  (b : WiringBuilder) (s s1 : Store) (w : ref)
  (Hb : build b s = Ok (w, s1)) :
  (forall cs,
     deref (calls b cs s1) w = deref s1 w
     /\ forall fuel t args,
          creationOf (createContainer suppliedBy fuel w t args (calls b cs s1))
          = creationOf (createContainer suppliedBy fuel w t args s1))
  /\ (forall fuel t args cr s2,
        createContainer suppliedBy fuel w t args s1 = Ok (cr, s2) ->
        (forall r x, deref s1 r = Some x -> deref s2 r = Some x)
        /\ deref s2 w = deref s1 w
        /\ forall w0, deref s1 w = Some w0 ->
           forall fuel' t' args',
             creationOf (createContainer suppliedBy fuel' w t' args' s2)
             = if isValidContainerType t'
               then x <- _createContainer suppliedBy fuel' (List.length s2)
                           t' args' (clone w0) ;;
                    Ok (fst x)
               else TypeError).
Proof.
  unfold build in Hb. destruct (deref s (_wiring b)) as [wb|] eqn:Ewb; [|discriminate].
  inversion Hb; subst w s1; clear Hb.
  assert (Hne : List.length s <> _wiring b).
  { apply deref_valid in Ewb. lia. }
  assert (Hw : deref (s ++ [clone wb]) (List.length s) = Some (clone wb))
    by apply deref_alloc_new.
  split.
  - intros cs. destruct (calls_frame b cs (s ++ [clone wb])) as [Hlen Hframe].
    assert (E : deref (calls b cs (s ++ [clone wb])) (List.length s)
                = deref (s ++ [clone wb]) (List.length s)) by (apply Hframe; exact Hne).
    split; [exact E|]. intros fuel t args.
    rewrite Hw in E.
    rewrite (createContainer_from _ _ _ _ _ _ _ E),
            (createContainer_from _ _ _ _ _ _ _ Hw).
    now rewrite Hlen.
  - intros fuel t args cr s2 H.
    pose proof (createContainer_frame _ _ _ _ _ _ _ _ H) as Hframe.
    split; [exact Hframe|]. split.
    + rewrite Hw. now apply Hframe.
    + intros w0 Hw0 fuel' t' args'. apply createContainer_from. now apply Hframe.
Qed.

Lemma built_wiring_is_unaffected_by_builder_and_creations_witness :
  build (mkBuilder 0) [_adjustContainer "Test" 0 emptyWiring]
  = Ok (1, [_adjustContainer "Test" 0 emptyWiring;
            clone (_adjustContainer "Test" 0 emptyWiring)])
  /\ deref (calls (mkBuilder 0) [AdjustContainer "Test" 1]
                  [_adjustContainer "Test" 0 emptyWiring;
                   clone (_adjustContainer "Test" 0 emptyWiring)]) 1
     = deref [_adjustContainer "Test" 0 emptyWiring;
              clone (_adjustContainer "Test" 0 emptyWiring)] 1.
Proof.
  split; [reflexivity|].
  exact (proj1 (proj1 (built_wiring_is_unaffected_by_builder_and_creations
                         noSupply (mkBuilder 0)
                         [_adjustContainer "Test" 0 emptyWiring] _ 1 eq_refl)
                      [AdjustContainer "Test" 1])).
Defined.

(** ** Expansion after creation *)

Section AfterCreation.

Variable suppliedBy : Adjuster -> option Container -> list Wiring.

(** Wiring adjusters hand public wiring to [addWiring]. *)
Hypothesis supplies_public :
  forall v arg W, In W (suppliedBy v arg) -> DefinitionPhase W.

Lemma gather_Sound (fuel : nat) (k : string) (arg : option Container)
  (this this' : Wiring) (calls : list Adjuster) :
  _gatherWiringSuppliedByWiringAdjusters suppliedBy fuel k arg this
  = Ok (this', calls) ->
  Sound this -> Sound this'.
Proof.
  intros H Hs. apply gather_cases in H. destruct H as [(_ & -> & _)|[_ H]]; [assumption|].
  eapply gatherLoop_Sound; [|eassumption|assumption].
  intros v W HW. apply DefinitionPhase_Public. eauto.
Qed.

Lemma gather_calls (fuel : nat) (k : string) (arg : option Container)
  (this this' : Wiring) (calls : list Adjuster) :
  _gatherWiringSuppliedByWiringAdjusters suppliedBy fuel k arg this
  = Ok (this', calls) ->
  NoDup calls
  /\ (forall v, In v calls ->
        ~ resolved (_wiringSuppliedByWiringAdjusters this) v
        /\ resolved (_wiringSuppliedByWiringAdjusters this') v)
  /\ (forall a, resolved (_wiringSuppliedByWiringAdjusters this) a ->
                resolved (_wiringSuppliedByWiringAdjusters this') a).
Proof.
  intros H. apply gather_cases in H. destruct H as [(_ & -> & ->)|[_ H]].
  - repeat split; [constructor | contradiction | contradiction | auto].
  - eapply gatherLoop_calls; eassumption.
Qed.

Lemma Instance_Sound (w : Wiring) : Instance suppliedBy w -> Sound w.
Proof.
  induction 1 as [w Hw|fuel self t args w p cr _ IH Hc|fuel self t args w p f base _ IH Hc].
  - apply Public_Sound. now apply DefinitionPhase_Public.
  - rewrite clone_eq in Hc. apply _createContainer_inv in Hc.
    destruct Hc as (this1 & fl & H1 & _ & _ & _ & H2).
    eapply gather_Sound; [exact H2|]. eapply gather_Sound; [exact H1 | exact IH].
  - rewrite clone_eq in Hc. unfold _createContainerFactory in Hc.
    destruct (_gatherWiringSuppliedByWiringAdjusters suppliedBy fuel "" None w)
      as [[p0 b0]| | |] eqn:Eg; try discriminate.
    simpl in Hc. destruct (lookup (dotted t) (_containerAdjusters p0)); [|discriminate].
    inversion Hc; subst. eapply gather_Sound; eassumption.
Qed.

Lemma lookup_known_iff (k : string) (c : AdjusterCollection) :
  lookup k c <> None <-> In k (keys c).
Proof.
  rewrite lookup_None_iff. split; [|tauto].
  intros H. destruct (in_dec string_dec k (keys c)); tauto.
Qed.

End AfterCreation.

Lemma primerSupply_public (v : Adjuster) (arg : option Container) (W : Wiring) :
  In W (primerSupply v arg) -> DefinitionPhase W.
Proof.
  unfold primerSupply. destruct (Nat.eqb v 20); [|contradiction].
  intros [<-|[]]. apply def_adjustContainer; [reflexivity | apply def_new].
Qed.

(** ** Which container types can be created (C6) *)

Lemma flatten_not_RangeError (supplied : SuppliedMap) (t : string) :
  forall fuel c, _getFlattenedContainerAdjusters fuel supplied c t <> RangeError.
Proof.
  induction fuel as [|fuel IH]; intros c; simpl; [discriminate|].
  destruct (lookup t c) as [l|]; [|discriminate].
  apply (fold_left_invariant _ (fun r : Result (list Adjuster) => r <> RangeError));
    [|discriminate].
  intros [fl| | |] a _ Hacc; simpl; try congruence.
  destruct (mapGet a supplied) as [[S|]|]; try discriminate.
  destruct (lookup t (_containerAdjusters S)); [|discriminate].
  specialize (IH (_containerAdjusters S)).
  destruct (_getFlattenedContainerAdjusters fuel supplied (_containerAdjusters S) t);
    simpl; congruence.
Qed.

Lemma gather_known_types
  (suppliedBy : Adjuster -> option Container -> list Wiring)
  (fuel : nat) (k : string) (arg : option Container) (this this' : Wiring)
  (calls : list Adjuster) :
  _gatherWiringSuppliedByWiringAdjusters suppliedBy fuel k arg this
  = Ok (this', calls) ->
  forall t,
    In t (keys (_containerAdjusters this')) <->
    In t (keys (_containerAdjusters this))
    \/ exists v W, In v calls /\ In W (suppliedBy v arg)
                   /\ In t (keys (_containerAdjusters W)).
Proof.
  intros H t. apply gather_cases in H. destruct H as [(_ & -> & ->)|[_ H]].
  - split; [auto | intros [H|(v & W & [] & _)]; assumption].
  - eapply gatherLoop_known_types; eassumption.
Qed.

Lemma _createContainer_RangeError
  (suppliedBy : Adjuster -> option Container -> list Wiring)
  (fuel : nat) (self : ref) (t : string) (args : list Value) (this : Wiring) :
  _createContainer suppliedBy fuel self t args this = RangeError <->
  exists this1 base,
    _gatherWiringSuppliedByWiringAdjusters suppliedBy fuel "" None this
    = Ok (this1, base)
    /\ lookup (dotted t) (_containerAdjusters this1) = None.
Proof.
  unfold _createContainer.
  destruct (_gatherWiringSuppliedByWiringAdjusters suppliedBy fuel "" None this)
    as [[this1 base]| | |] eqn:Eg; simpl.
  - destruct (lookup (dotted t) (_containerAdjusters this1)) eqn:El.
    + split; [|intros (x & y & E & H); inversion E; subst; congruence].
      pose proof (flatten_not_RangeError (_wiringSuppliedByWiringAdjusters this1)
                    (dotted t) fuel (_containerAdjusters this1)) as Hf.
      destruct (_getFlattenedContainerAdjusters fuel _ _ (dotted t)) as [fl| | |];
        simpl; try congruence.
      pose proof (gather_not_RangeError suppliedBy fuel t
                    (Some (RegisterBean "wiring" self
                           :: map (fun f => Adjust f args) (applyAdjusters [] fl)))
                    this1) as Hg.
      destruct (_gatherWiringSuppliedByWiringAdjusters suppliedBy fuel t _ this1)
        as [[p after]| | |]; simpl; congruence.
    + split; [intros _; eauto | reflexivity].
  - split; [discriminate | intros (x & y & E & _); discriminate].
  - exfalso. eapply gather_not_RangeError; eassumption.
  - split; [discriminate | intros (x & y & E & _); discriminate].
Qed.

(** C6, as amended.  For a valid type [t], [createContainer] and
    [createContainerFactory] fail with the not-found error exactly when the
    expansion of the pending base wiring adjusters ends and [t] is then not a
    known container type, that is when [t] is neither known to the wiring
    the call is made on nor to any wiring supplied by a base wiring adjuster
    called by the expansion.  A type becomes known when it is itself named:
    [adjustContainer] and [adjustWiringAfter] make known the type they name
    and no other, and adding wiring makes known the types known to the added
    wiring.  Being an ancestor or a descendant of a known type does not make
    a type known. *)
Theorem not_found_iff_type_unknown_after_base_expansion
  (suppliedBy : Adjuster -> option Container -> list Wiring)
  (fuel : nat) (this : ref) (t : string) (s : Store) (w : Wiring)
  (Hw : deref s this = Some w) (Ht : isValidContainerType t = true) :
  (forall args,
     createContainer suppliedBy fuel this t args s = RangeError <->
     exists this1 base,
       _gatherWiringSuppliedByWiringAdjusters suppliedBy fuel "" None (clone w)
       = Ok (this1, base)
       /\ ~ In (dotted t) (keys (_containerAdjusters w))
       /\ forall v W, In v base -> In W (suppliedBy v None) ->
                      ~ In (dotted t) (keys (_containerAdjusters W)))
  /\ (forall args,
        createContainerFactory suppliedBy fuel this t args s = RangeError <->
        exists this1 base,
          _gatherWiringSuppliedByWiringAdjusters suppliedBy fuel "" None (clone w)
          = Ok (this1, base)
          /\ ~ In (dotted t) (keys (_containerAdjusters w))
          /\ forall v W, In v base -> In W (suppliedBy v None) ->
                         ~ In (dotted t) (keys (_containerAdjusters W)))
  /\ (forall u f w0,
        In (dotted t) (keys (_containerAdjusters (_adjustContainer u f w0))) <->
        In (dotted t) (keys (_containerAdjusters w0)) \/ t = u)
  /\ (forall u v w0,
        In (dotted t) (keys (_containerAdjusters (_adjustWiringAfter u v w0))) <->
        In (dotted t) (keys (_containerAdjusters w0)) \/ t = u)
  /\ (forall w' w0,
        In (dotted t) (keys (_containerAdjusters (_addWiring w' w0))) <->
        In (dotted t) (keys (_containerAdjusters w0))
        \/ In (dotted t) (keys (_containerAdjusters w'))).
Proof.
  assert (Hchar : forall this1 base,
    _gatherWiringSuppliedByWiringAdjusters suppliedBy fuel "" None (clone w)
    = Ok (this1, base) ->
    (lookup (dotted t) (_containerAdjusters this1) = None <->
     ~ In (dotted t) (keys (_containerAdjusters w))
     /\ forall v W, In v base -> In W (suppliedBy v None) ->
                    ~ In (dotted t) (keys (_containerAdjusters W)))).
  { intros this1 base Hg. rewrite lookup_None_iff.
    rewrite (gather_known_types _ _ _ _ _ _ _ Hg (dotted t)), (clone_eq w).
    split.
    - intros H. split; [tauto|]. intros v W Hv HW Hin. apply H. eauto 6.
    - intros [H1 H2] [H|(v & W & Hv & HW & Hin)]; [tauto|]. eapply H2; eauto. }
  split; [|split; [|split; [|split]]].
  - intros args. unfold createContainer. rewrite Ht, Hw. simpl.
    pose proof (_createContainer_RangeError suppliedBy fuel (List.length s) t args
                  (clone w)) as Hr.
    destruct (_createContainer suppliedBy fuel (List.length s) t args (clone w))
      as [[cr p]| | |] eqn:Ec; simpl.
    + split; [discriminate|]. intros (this1 & base & Hg & Hk).
      assert (E : Ok (cr, p) = RangeError :> Result (Creation * Wiring)).
      { apply Hr. exists this1, base. split; [assumption|].
        now apply (Hchar this1 base Hg). }
      discriminate.
    + split; [discriminate|]. intros (this1 & base & Hg & Hk).
      assert (E : TypeError = RangeError :> Result (Creation * Wiring)).
      { apply Hr. exists this1, base. split; [assumption|].
        now apply (Hchar this1 base Hg). }
      discriminate.
    + split; [|reflexivity]. intros _.
      destruct (proj1 Hr eq_refl) as (this1 & base & Hg & Hk).
      exists this1, base. split; [assumption|]. now apply (Hchar this1 base Hg).
    + split; [discriminate|]. intros (this1 & base & Hg & Hk).
      assert (E : Exhausted = RangeError :> Result (Creation * Wiring)).
      { apply Hr. exists this1, base. split; [assumption|].
        now apply (Hchar this1 base Hg). }
      discriminate.
  - intros args. unfold createContainerFactory, _createContainerFactory.
    rewrite Ht, Hw. simpl.
    destruct (_gatherWiringSuppliedByWiringAdjusters suppliedBy fuel "" None (clone w))
      as [[this1 base]| | |] eqn:Eg; simpl.
    + pose proof (Hchar this1 base eq_refl) as Hk.
      destruct (lookup (dotted t) (_containerAdjusters this1)) eqn:El; simpl.
      * split; [discriminate|]. intros (x & y & E & H). inversion E; subst.
        apply Hk in H. discriminate.
      * split; [|reflexivity]. intros _. exists this1, base.
        split; [reflexivity|]. now apply Hk.
    + split; [discriminate | intros (x & y & E & _); discriminate].
    + exfalso. eapply gather_not_RangeError; eassumption.
    + split; [discriminate | intros (x & y & E & _); discriminate].
  - intros u f w0. rewrite adjustContainer_containerAdjusters, In_keys_addAdjuster.
    split; (intros [H|H]; [now left | right]); [now apply dotted_inj | now subst].
  - intros u v w0. unfold _adjustWiringAfter.
    rewrite ensureKey_containerAdjusters.
    destruct (String.eqb_spec u "") as [->|Hu]; simpl;
      rewrite In_keys_addAdjuster.
    + split.
      * intros [H|H]; [now left | now apply dotted_not_root in H].
      * intros [H| ->]; [now left | discriminate Ht].
    + rewrite In_keys_ensure. split.
      * intros [[H|H]|H]; [now left | right; now apply dotted_inj |
                           now apply dotted_not_root in H].
      * intros [H| ->]; auto.
  - intros w' w0. unfold _addWiring. simpl. apply In_keys_addAdjusters.
Qed.

Lemma not_found_iff_type_unknown_after_base_expansion_witness :
  deref [_adjustContainer "A.B" 1 emptyWiring] 0
  = Some (_adjustContainer "A.B" 1 emptyWiring)
  /\ isValidContainerType "A" = true
  /\ forall u f w0,
       In (dotted "A") (keys (_containerAdjusters (_adjustContainer u f w0))) <->
       In (dotted "A") (keys (_containerAdjusters w0)) \/ "A" = u.
Proof.
  split; [reflexivity|]. split; [reflexivity|].
  exact (proj1 (proj2 (proj2
           (not_found_iff_type_unknown_after_base_expansion
              noSupply 5 0 "A" [_adjustContainer "A.B" 1 emptyWiring]
              (_adjustContainer "A.B" 1 emptyWiring) eq_refl eq_refl)))).
Defined.

(** The claim as the specification states it fails: with only [A.B]
    registered, creating its ancestor [A] or its descendant [A.B.C] fails
    with the not-found error, while creating [A.B] succeeds. *)
Lemma ancestor_or_descendant_of_registered_type_is_not_found :
  match onlyChildRegistered with
  | Ok (w, s) =>
      isAncestorOf "A" "A.B" = true
      /\ createContainer noSupply 5 w "A" [] s = RangeError
      /\ isAncestorOf "A.B" "A.B.C" = true
      /\ createContainer noSupply 5 w "A.B.C" [] s = RangeError
      /\ creationOf (createContainer noSupply 5 w "A.B" [] s)
         = Ok (mkCreation [RegisterBean "wiring" 2; Adjust 1 []] [] [])
  | _ => False
  end.
Proof. vm_compute. repeat split. Qed.


(** ** Adding wiring: lists are appended *)

Lemma lookup_entry_other (ref c : AdjusterCollection) (e : string * list Adjuster)
  (k : string) :
  lookup k ref <> None -> fst e <> k ->
  lookup k (addAdjustersEntry ref c e) = lookup k c.
Proof.
  intros Hk Hne. rewrite lookup_addAdjustersEntry, lookup_ensure.
  assert (E1 : String.eqb k (fst e) = false) by (apply String.eqb_neq; congruence).
  assert (E2 : unknownTo ref k = false).
  { unfold unknownTo. destruct (lookup k ref); congruence. }
  rewrite E1, E2, andb_false_r. simpl.
  destruct (lookup k c); simpl; [reflexivity|].
  destruct (String.eqb_spec (fst e) k); [contradiction | reflexivity].
Qed.

(** After its own entry was met, the list of a type known to the source
    does not change any more. *)
Lemma lookup_fold_done (ref : AdjusterCollection) (k : string) :
  lookup k ref <> None ->
  forall todo c, ~ In k (keys todo) ->
    lookup k (fold_left (addAdjustersEntry ref) todo c) = lookup k c.
Proof.
  intros Hk. induction todo as [|e todo IH]; intros c Hnot; simpl; [reflexivity|].
  rewrite IH by (intros H; apply Hnot; now right).
  apply lookup_entry_other; [assumption|]. intros E. apply Hnot. now left.
Qed.

Lemma lookup_fold_suffix (ref : AdjusterCollection) (k : string)
  (ls : list Adjuster) :
  lookup k ref <> None ->
  forall todo c, NoDup (keys todo) -> lookup k todo = Some ls ->
    exists pre,
      lookup k (fold_left (addAdjustersEntry ref) todo c) = Some (pre ++ ls)
      /\ forall l, lookup k c = Some l -> pre = l.
Proof.
  intros Hk. induction todo as [|[k' l'] todo IH]; intros c Hnd Hl; [discriminate|].
  simpl in Hl. inversion Hnd as [|? ? Hnotin Hnd']; subst.
  destruct (String.eqb_spec k' k) as [->|Hne].
  - inversion Hl; subst. simpl. rewrite lookup_fold_done by assumption.
    rewrite lookup_addAdjustersEntry, lookup_ensure. simpl.
    rewrite String.eqb_refl. simpl.
    destruct (lookup k c) as [l|]; simpl.
    + exists l. split; [reflexivity|]. now intros l0 [= ->].
    + eexists. split; [reflexivity | discriminate].
  - simpl. destruct (IH (addAdjustersEntry ref c (k', l')) Hnd' Hl) as (pre & E & Hpre).
    exists pre. split; [assumption|]. intros l Hc. apply Hpre.
    now rewrite lookup_entry_other.
Qed.

Lemma addAdjusters_appendedTo (c src : AdjusterCollection) :
  NoDup (keys src) -> appendedTo c src (_addAdjusters c src).
Proof.
  intros Hnd. split; [|split].
  - intros k. apply In_keys_addAdjusters.
  - intros k l. apply lookup_addAdjusters_prefix.
  - intros k ls Hl. unfold _addAdjusters.
    apply lookup_fold_suffix; [congruence | assumption | assumption].
Qed.

(** The claim as the specification states it fails: the adjuster [0], known
    to both sides for [T], is stored twice after the import, and the source
    does not learn the type [U] of the builder. *)
Lemma import_keeps_duplicates_and_does_not_touch_source :
  match importTwice with
  | Ok s =>
      option_map (fun w => lookup ".T" (_containerAdjusters w)) (deref s 2)
      = Some (Some [0; 0])
      /\ ~ NoDup [0; 0]
      /\ option_map (fun w => lookup ".U" (_containerAdjusters w)) (deref s 2)
         = Some (Some [5])
      /\ option_map (fun w => lookup ".U" (_containerAdjusters w)) (deref s 1)
         = Some None
  | _ => False
  end.
Proof.
  vm_compute. repeat split.
  intros H. inversion H as [|x l Hin _]. apply Hin. now left.
Qed.


(** ** Each container adjuster is called at most once *)

Lemma applyAdjusters_spec (l : list Adjuster) :
  forall applied,
    NoDup (applyAdjusters applied l)
    /\ forall f, In f (applyAdjusters applied l) <-> In f l /\ ~ In f applied.
Proof.
  induction l as [|x l IH]; intros applied; simpl.
  - split; [constructor | tauto].
  - destruct (existsb (Nat.eqb x) applied) eqn:E.
    + destruct (IH applied) as [Hnd Hin]. split; [assumption|].
      intros f. rewrite Hin. split; [tauto|].
      intros [[->|H] Hn]; [|tauto]. exfalso. apply Hn.
      apply existsb_exists in E. destruct E as (y & Hy & Exy).
      apply Nat.eqb_eq in Exy. now subst.
    + destruct (IH (x :: applied)) as [Hnd Hin].
      assert (Hx : ~ In x applied).
      { intros H. assert (existsb (Nat.eqb x) applied = true); [|congruence].
        apply existsb_exists. exists x. split; [assumption | apply Nat.eqb_refl]. }
      split.
      * constructor; [|assumption]. rewrite Hin. simpl. tauto.
      * intros f. simpl. rewrite Hin. simpl. split.
        -- intros [<-|[H1 H2]]; tauto.
        -- intros [[<-|H1] H2]; [now left|].
           destruct (Nat.eq_dec x f) as [->|Hne]; [now left | right; tauto].
Qed.

Lemma adjustersCalled_adjusts (args : list Value) (l : list Adjuster) :
  adjustersCalled (map (fun f => Adjust f args) l) = l.
Proof. induction l as [|x l IH]; simpl; [reflexivity | now rewrite IH]. Qed.

(** However often an adjuster is registered, and by whatever path, a created
    container has it called at most once; it is called exactly when it is in
    the flattened list of the type. *)
Lemma container_adjusters_called_at_most_once
  (suppliedBy : Adjuster -> option Container -> list Wiring)
  (fuel : nat) (self : ref) (t : string) (args : list Value)
  (this p : Wiring) (cr : Creation) :
  _createContainer suppliedBy fuel self t args this = Ok (cr, p) ->
  NoDup (adjustersCalled (container cr))
  /\ exists this1 flattened,
       _gatherWiringSuppliedByWiringAdjusters suppliedBy fuel "" None this
       = Ok (this1, baseCalls cr)
       /\ _getFlattenedContainerAdjusters fuel
            (_wiringSuppliedByWiringAdjusters this1)
            (_containerAdjusters this1) (dotted t) = Ok flattened
       /\ forall f, In f (adjustersCalled (container cr)) <-> In f flattened.
Proof.
  intros H. apply _createContainer_inv in H.
  destruct H as (this1 & fl & Hg & _ & Hf & Hc & _).
  rewrite Hc. simpl. rewrite adjustersCalled_adjusts.
  destruct (applyAdjusters_spec fl []) as [Hnd Hin].
  split; [assumption|]. exists this1, fl. split; [assumption|]. split; [assumption|].
  intros f. rewrite Hin. simpl. tauto.
Qed.

(** ** The order of application after [addWiring] (C1) *)

(** C1 fails on the code.  A wiring registers [0] for [A], then [1] for
    [A.B], then [2] for [A].  Created from that wiring, or from a builder
    constructed from it, a container of type [A.B] has its adjusters called
    in the inlined order [0; 1; 2], which is the order the specification
    promises also when the wiring is added with [addWiring].  Added to an
    empty builder with [addWiring], the new type [A.B] is seeded from the
    list of [A] that has just received the whole list of the source, and the
    adjusters are called in the order [0; 2; 1]. *)
Theorem addWiring_breaks_inlined_order :
  match familyAdded, familyImported with
  | Ok (source, added, s), Ok (source', imported, s') =>
      calledBy (createContainer noSupply 5 added "A.B" [] s) = Ok [0; 2; 1]
      /\ calledBy (createContainer noSupply 5 source "A.B" [] s) = Ok [0; 1; 2]
      /\ calledBy (createContainer noSupply 5 imported "A.B" [] s')
         = Ok [0; 1; 2]
      /\ specInlinedOrder "A.B"
           [DeclareAdded [DeclareContainer "A" 0; DeclareContainer "A.B" 1;
                          DeclareContainer "A" 2]]
         = [0; 1; 2]
      /\ option_map (fun w => lookup ".A.B" (_containerAdjusters w))
                    (deref s added)
         = Some (Some [0; 2; 0; 1; 2])
  | _, _ => False
  end.
Proof. vm_compute. repeat split. Qed.

(** ** Container adjusters supplied through nested wiring adjusters (C2) *)

(** C2 fails on the code.  The base wiring adjuster [10] supplies wiring
    whose base wiring adjuster [11] supplies wiring that registers the
    container adjuster [1] for [T].  When [T] is created, both wiring
    adjusters are called (they are resolved), the type [T] is known, yet no
    container adjuster is called: the resolution of [10] was synchronised
    before [T] was known, has no list for [T], and flattening stops there.
    The adjuster [1] is registered for the created type and is called zero
    times instead of once.  When the outer builder already knows [T], the
    same adjuster is called once. *)
Theorem nested_supplied_adjuster_is_never_called :
  creationOf (createContainer nestedSupply 10 0 "T" []
                [_adjustBaseWiring 10 emptyWiring])
  = Ok (mkCreation [RegisterBean "wiring" 1] [10; 11] [])
  /\ count_occ Nat.eq_dec
       (match calledBy (createContainer nestedSupply 10 0 "T" []
                          [_adjustBaseWiring 10 emptyWiring]) with
        | Ok l => l
        | _ => []
        end) 1 = 0
  /\ specInlinedOrder "T"
       [DeclareBaseWiring [[DeclareBaseWiring [[DeclareContainer "T" 1]]]]]
     = [1]
  /\ calledBy (createContainer nestedSupply 10 0 "T" []
                 [_adjustBaseWiring 10 (_adjustContainer "T" 0 emptyWiring)])
     = Ok [0; 1].
Proof. vm_compute. repeat split. Qed.


(** ** Tests of the repository, replayed on the model *)

Example throws_creating_nonexistent_container :
  buildAndCreate [] "Test" = RangeError.
Proof. reflexivity. Qed.

Example throws_creating_container_with_invalid_type :
  buildAndCreate [AdjustContainer "Test" 1] ".Test" = TypeError
  /\ buildAndCreate [AdjustContainer "Test" 1] "" = TypeError
  /\ buildAndCreate [AdjustContainer "Test" 1] "Test." = TypeError.
Proof. repeat split. Qed.

Example includes_ancestor_adjusters_when_a_generation_is_missing :
  buildAndCreate [AdjustContainer "Test" 1;
                  AdjustContainer "Test.Child.Grandchild" 2]
                 "Test.Child.Grandchild" = Ok [1; 2].
Proof. reflexivity. Qed.

Example adjusts_in_correct_order_with_child_first :
  buildAndCreate [AdjustContainer "Test.Child" 1; AdjustContainer "Test" 2]
                 "Test.Child" = Ok [1; 2].
Proof. reflexivity. Qed.

Example adds_adjusters_to_descendants_when_a_generation_is_missing :
  buildAndCreate [AdjustContainer "Test.Child.Grandchild" 1;
                  AdjustContainer "Test" 2]
                 "Test.Child.Grandchild" = Ok [1; 2].
Proof. reflexivity. Qed.

Example does_not_add_adjusters_to_ancestors :
  buildAndCreate [AdjustContainer "Test" 1; AdjustContainer "Test.Child" 2]
                 "Test" = Ok [1].
Proof. reflexivity. Qed.

Example calls_each_adjuster_only_once :
  buildAndCreate [AdjustContainer "Test" 1; AdjustContainer "Test" 1;
                  AdjustContainer "Test.Child" 1; AdjustContainer "Test.Child" 1]
                 "Test.Child" = Ok [1].
Proof. reflexivity. Qed.

Example applies_in_correct_order_with_base_adjuster_then_container_adjuster :
  buildAndCreate [AdjustContainer "Test" 0; AdjustBaseWiring 30;
                  AdjustContainer "Test" 3] "Test" = Ok [0; 2; 3].
Proof. reflexivity. Qed.

Example applies_in_correct_order_with_container_adjuster_then_base_adjuster :
  buildAndCreate [AdjustContainer "Test" 1; AdjustBaseWiring 30] "Test"
  = Ok [1; 2].
Proof. reflexivity. Qed.

Example applies_nested_adjusters :
  buildAndCreate [AdjustContainer "Test" 0; AdjustBaseWiring 31] "Test"
  = Ok [0; 2].
Proof. reflexivity. Qed.

Example applies_wiring_adjuster_only_once :
  (r <- buildFrom None [AdjustContainer "Test" 0; AdjustBaseWiring 30;
                        AdjustBaseWiring 30] [] ;;
   creationOf (createContainer testSupply 9 (fst r) "Test" [] (snd r)))
  = Ok (mkCreation [RegisterBean "wiring" 2; Adjust 0 []; Adjust 2 []] [30] []).
Proof. reflexivity. Qed.

Example creates_container_types_supplied_by_adjuster :
  buildAndCreate [AdjustBaseWiring 30] "Test" = Ok [2].
Proof. reflexivity. Qed.

Example does_not_apply_adjuster_until_after_creating_container :
  buildAndCreate [AdjustContainer "Primer" 0; AdjustWiringAfter "Primer" 20]
                 "Primer" = Ok [0].
Proof. reflexivity. Qed.

Example creates_container_type_by_after_adjustment :
  buildAndCreate [AdjustWiringAfter "Test" 20] "Test" = Ok [].
Proof. reflexivity. Qed.

Example ensuing_container_differs_from_independent_container :
  match primerThenEnsuingThenIndependent with
  | Ok (first, ensuing, independent) =>
      adjustersCalled (container first) = [4] /\ afterCalls first = [20]
      /\ adjustersCalled (container ensuing) = [4; 1] /\ afterCalls ensuing = []
      /\ adjustersCalled (container independent) = [4]
      /\ afterCalls independent = [20]
  | _ => False
  end.
Proof. vm_compute. repeat split. Qed.

Example passes_both_factory_and_caller_arguments_to_adjuster :
  (r <- buildFrom None [AdjustContainer "Test" 1] [] ;;
   f <- createContainerFactory testSupply 9 (fst r) "Test" ["stump"] (snd r) ;;
   creationOf (callFactory testSupply 9 (fst (fst f)) ["trunk"] (snd f)))
  = Ok (mkCreation [RegisterBean "wiring" 3; Adjust 1 ["stump"; "trunk"]] [] []).
Proof. reflexivity. Qed.

(** ** Wiring that contains the adjuster that supplies it *)

Lemma exhausted_fold (f : Result (list Adjuster) -> Adjuster -> Result (list Adjuster))
  (l : list Adjuster) :
  (forall a, f Exhausted a = Exhausted) -> fold_left f l Exhausted = Exhausted.
Proof.
  intros H. induction l as [|a l IH]; simpl; [reflexivity|]. now rewrite H.
Qed.

Lemma createContainer_Exhausted
  (suppliedBy : Adjuster -> option Container -> list Wiring)
  (fuel : nat) (this : ref) (t : string) (args : list Value) (s : Store)
  (w : Wiring) :
  isValidContainerType t = true -> deref s this = Some w ->
  _createContainer suppliedBy fuel (List.length s) t args (clone w) = Exhausted ->
  createContainer suppliedBy fuel this t args s = Exhausted.
Proof.
  intros Ht Hw E. unfold createContainer. rewrite Ht, Hw. simpl. now rewrite E.
Qed.

(** The expansion of [selfSupply] ends (see the witness of C9), but the
    resolution of [10] holds [10] itself in its list for [T]: flattening that
    list never ends, whatever the fuel, and no container of type [T] is
    returned. *)
Lemma self_supplied_wiring_is_never_flattened (fuel : nat) :
  createContainer selfSupply fuel 0 "T" [] [_adjustBaseWiring 10 emptyWiring]
  = Exhausted.
Proof.
  destruct fuel as [|[|[|fuel]]]; try reflexivity.
  apply (createContainer_Exhausted selfSupply _ 0 "T" []
           [_adjustBaseWiring 10 emptyWiring] (_adjustBaseWiring 10 emptyWiring));
    [reflexivity | reflexivity |].
  simpl List.length.
  unfold _createContainer.
  assert (Eg : exists S0,
    _gatherWiringSuppliedByWiringAdjusters selfSupply (S (S (S fuel))) "" None
      (clone (_adjustBaseWiring 10 emptyWiring))
    = Ok (mkWiring "Wiring" [("", [10]); (".T", [10])]
                   [("", []); ("T", [])] [(10, Some S0)], [10])
    /\ lookup ".T" (_containerAdjusters S0) = Some [10; 10; 1]).
  { eexists. split; [vm_compute; reflexivity | reflexivity]. }
  destruct Eg as (S0 & -> & HS0). cbn [bind fst snd].
  change (lookup (dotted "T") (_containerAdjusters
           (mkWiring "Wiring" [("", [10]); (".T", [10])]
                     [("", []); ("T", [])] [(10, Some S0)])))
    with (Some [10]).
  cbv iota.
  assert (Ef : forall n c, lookup ".T" c <> None ->
                 (forall l, lookup ".T" c = Some l -> In 10 l) ->
                 _getFlattenedContainerAdjusters n [(10, Some S0)] c ".T"
                 = Exhausted).
  { induction n as [|n IHn]; intros c Hk Hin; [reflexivity|].
    simpl. destruct (lookup ".T" c) as [l|] eqn:El; [|congruence].
    specialize (Hin l eq_refl). clear Hk El.
    assert (G : forall acc, acc = Exhausted \/ (exists x, acc = Ok x) ->
              fold_left
                (fun (acc : Result (list Adjuster)) (adjuster : Adjuster) =>
                   flattened <- acc ;;
                   match mapGet adjuster [(10, Some S0)] with
                   | None => Ok (flattened ++ [adjuster])
                   | Some None => Ok flattened
                   | Some (Some suppliedWiring) =>
                       match lookup ".T" (_containerAdjusters suppliedWiring) with
                       | Some _ =>
                           sub <- _getFlattenedContainerAdjusters n [(10, Some S0)]
                                    (_containerAdjusters suppliedWiring) ".T" ;;
                           Ok (_pushAdjusters flattened sub)
                       | None => Ok flattened
                       end
                   end) l acc = Exhausted).
    { induction l as [|a l IHl]; intros acc Hacc; [contradiction|].
      cbn [fold_left]. destruct Hacc as [->|[x ->]].
      - cbn [bind]. apply exhausted_fold. reflexivity.
      - destruct (Nat.eq_dec a 10) as [->|Hne].
        + cbn [bind mapGet Nat.eqb]. rewrite HS0.
          rewrite IHn; [|rewrite HS0; discriminate
                        |intros l0; rewrite HS0; intros [= <-]; now left].
          simpl. apply exhausted_fold. reflexivity.
        + destruct Hin as [Hin|Hin]; [congruence|].
          assert (Ea : mapGet a [(10, Some S0)] = None).
          { unfold mapGet. destruct (Nat.eqb_spec 10 a); congruence. }
          cbn [bind]. rewrite Ea. apply IHl; [assumption | right; eauto]. }
    apply G. right. eauto. }
  rewrite Ef; [reflexivity | discriminate | intros l [= <-]; now left].
Qed.


(** ** Scope types *)

Lemma lastChar_append (a s : string) :
  s <> "" -> lastChar (String.append a s) = lastChar s.
Proof.
  intros Hs. induction a as [|c a IH]; [reflexivity|].
  cbn [String.append lastChar]. rewrite IH.
  destruct (String.append a s) eqn:E; [|reflexivity].
  destruct a; cbn in E; [congruence | discriminate].
Qed.

Lemma lastChar_dot_includes (s : string) :
  lastChar s = "." -> includesDot s = true.
Proof.
  induction s as [|c s IH]; [discriminate|].
  cbn [lastChar includesDot]. destruct s as [|c' s'].
  - intros [= ->]. reflexivity.
  - intros H. rewrite (IH H). apply orb_true_r.
Qed.

Lemma includesDot_append_dot (a r : string) :
  includesDot (String.append a (String dot r)) = true.
Proof.
  induction a as [|c a IH]; cbn [String.append includesDot].
  - reflexivity.
  - rewrite IH. apply orb_true_r.
Qed.

Lemma scopeContainerType_valid (s : string) :
  isValidContainerType (scopeContainerType s)
  = negb (String.eqb s "") && negb (String.eqb (lastChar s) ".").
Proof.
  destruct s as [|c s]; [reflexivity|].
  unfold isValidContainerType, scopeContainerType.
  rewrite lastChar_append by discriminate. reflexivity.
Qed.

(** X11 (src/structured-wiring.js, [adjustScopeContainer] and
    [Wiring.isValidScopeType]): a scope type accepted by
    [isValidScopeType] always yields a valid container type
    [Scope.<scopeType>], so [adjustScopeContainer] registers the adjuster
    without a further type check failing; that container type is a
    descendant of [Scope], and no other scope's container type is an
    ancestor of it, so adjusters registered for one scope type never reach
    the containers of another. *)
Theorem valid_scope_type_gives_flat_valid_container_type (scopeType : string)
  (Hvalid : isValidScopeType scopeType = true) :
  isValidContainerType (scopeContainerType scopeType) = true
  /\ isAncestorOf "Scope" (scopeContainerType scopeType) = true
  /\ (forall other,
        isAncestorOf (scopeContainerType other) (scopeContainerType scopeType)
        = false)
  /\ (forall b f s,
        adjustScopeContainer b (Some scopeType) f s
        = onWiring b (_adjustContainer (scopeContainerType scopeType) f) s).
Proof.
  unfold isValidScopeType in Hvalid.
  apply andb_true_iff in Hvalid. destruct Hvalid as [Hne Hdot].
  apply negb_true_iff in Hdot.
  assert (Hv : isValidContainerType (scopeContainerType scopeType) = true).
  { rewrite scopeContainerType_valid, Hne. cbn [andb].
    destruct (String.eqb_spec (lastChar scopeType) ".") as [E|E]; [|reflexivity].
    apply lastChar_dot_includes in E. congruence. }
  split; [exact Hv|]. split; [apply isAncestorOf_iff; exists scopeType; reflexivity|].
  split.
  - intros other.
    destruct (isAncestorOf (scopeContainerType other)
                           (scopeContainerType scopeType)) eqn:E; [|reflexivity].
    apply isAncestorOf_iff in E. destruct E as [r E].
    unfold scopeContainerType in E. rewrite append_assoc in E.
    cbn [String.append] in E. injection E as E.
    rewrite E, includesDot_append_dot in Hdot. discriminate.
  - intros b f s. unfold adjustScopeContainer, isValidScopeType.
    rewrite Hne, Hdot. cbn [negb andb]. unfold adjustContainer.
    rewrite Hv. reflexivity.
Qed.

Lemma valid_scope_type_gives_flat_valid_container_type_witness :
  isValidScopeType "Request" = true
  /\ isValidContainerType (scopeContainerType "Request") = true.
Proof.
  split; [reflexivity|].
  apply (valid_scope_type_gives_flat_valid_container_type "Request").
  reflexivity.
Defined.

(** ** The command line of the example *)

Lemma filter_idempotent {A : Type} (p : A -> bool) (l : list A) :
  filter p (filter p l) = filter p l.
Proof.
  induction l as [|x l IH]; [reflexivity|].
  cbn [filter]. destruct (p x) eqn:E; [|exact IH].
  cbn [filter]. rewrite E, IH. reflexivity.
Qed.

Lemma existsb_eqb_In (x : string) (l : list string) :
  existsb (String.eqb x) l = true <-> In x l.
Proof.
  rewrite existsb_exists. split.
  - intros [y [Hy E]]. apply String.eqb_eq in E. now subst.
  - intros H. exists x. split; [assumption | apply String.eqb_refl].
Qed.

(** X15 (example/modules.js, [parseCommandLine]): the names are exactly
    the arguments that do not start with a dash, in their order; colour is
    requested exactly when [--colour] or [--color] is among the arguments;
    parsing a concatenation concatenates the names; and parsing the names
    again finds the same names and no option. *)
Theorem parseCommandLine_separates_names_from_options
  (cliArguments : list string) :
  (forall a, In a (names (parseCommandLine cliArguments)) <->
             In a cliArguments /\ startsWith a "-" = false)
  /\ (useColour (parseCommandLine cliArguments) = true <->
      In "--colour" cliArguments \/ In "--color" cliArguments)
  /\ (forall more,
        names (parseCommandLine (cliArguments ++ more))
        = names (parseCommandLine cliArguments) ++ names (parseCommandLine more))
  /\ parseCommandLine (names (parseCommandLine cliArguments))
     = mkConfig false (names (parseCommandLine cliArguments)).
Proof.
  split; [|split; [|split]].
  - intros a. cbn [parseCommandLine names]. rewrite filter_In, negb_true_iff.
    reflexivity.
  - cbn [parseCommandLine useColour].
    rewrite orb_true_iff, !existsb_eqb_In. reflexivity.
  - intros more. cbn [parseCommandLine names]. apply filter_app.
  - unfold parseCommandLine at 1. cbn [names parseCommandLine].
    rewrite filter_idempotent. f_equal.
    apply orb_false_iff. split.
    + destruct (existsb (String.eqb "--colour") _) eqn:E; [|reflexivity].
      apply existsb_eqb_In, filter_In in E. destruct E as [_ E]. discriminate.
    + destruct (existsb (String.eqb "--color") _) eqn:E; [|reflexivity].
      apply existsb_eqb_In, filter_In in E. destruct E as [_ E]. discriminate.
Qed.


(** ** Flattening: results do not depend on the fuel *)

Lemma flatten_unfold (fuel : nat) (supplied : SuppliedMap)
  (c : AdjusterCollection) (t : string) :
  _getFlattenedContainerAdjusters (S fuel) supplied c t
  = match lookup t c with
    | None => TypeError
    | Some l =>
        fold_left (fun acc adjuster =>
                     flattened <- acc ;;
                     flattenStep fuel supplied t flattened adjuster)
                  l (Ok [])
    end.
Proof. reflexivity. Qed.

Lemma fold_bind_stuck {A B : Type} (step : A -> B -> Result A) (l : list B)
  (r : Result A) :
  (forall a, r <> Ok a) ->
  fold_left (fun acc x => a <- acc ;; step a x) l r = r.
Proof.
  intros H. induction l as [|x l IH]; [reflexivity|].
  cbn [fold_left]. destruct r; cbn [bind]; try exact IH.
  now destruct (H a).
Qed.

Lemma fold_bind_Ok {A B : Type} (step : A -> B -> Result A) (l : list B)
  (x : B) (r : Result A) (a' : A) :
  fold_left (fun acc x => a <- acc ;; step a x) (x :: l) r = Ok a' ->
  exists a a1, r = Ok a /\ step a x = Ok a1
               /\ fold_left (fun acc x => a <- acc ;; step a x) l (Ok a1) = Ok a'.
Proof.
  cbn [fold_left]. intros H. destruct r as [a| | |].
  - cbn [bind] in H. destruct (step a x) as [a1| | |] eqn:E.
    + eauto.
    + rewrite fold_bind_stuck in H by discriminate. discriminate.
    + rewrite fold_bind_stuck in H by discriminate. discriminate.
    + rewrite fold_bind_stuck in H by discriminate. discriminate.
  - cbn [bind] in H. rewrite fold_bind_stuck in H by discriminate. discriminate.
  - cbn [bind] in H. rewrite fold_bind_stuck in H by discriminate. discriminate.
  - cbn [bind] in H. rewrite fold_bind_stuck in H by discriminate. discriminate.
Qed.

Lemma fold_bind_ext {A B : Type} (step step' : A -> B -> Result A) (l : list B) :
  (forall a x a1, In x l -> step a x = Ok a1 -> step' a x = Ok a1) ->
  forall r a',
    fold_left (fun acc x => a <- acc ;; step a x) l r = Ok a' ->
    fold_left (fun acc x => a <- acc ;; step' a x) l r = Ok a'.
Proof.
  induction l as [|x l IH]; intros Hstep r a' H; [exact H|].
  apply fold_bind_Ok in H. destruct H as (a & a1 & -> & Hs & H).
  cbn [fold_left bind]. rewrite (Hstep a x a1 (or_introl eq_refl) Hs).
  apply IH; [|exact H]. intros; eapply Hstep; eauto. now right.
Qed.

Lemma flatten_more_fuel (supplied : SuppliedMap) (t : string) :
  forall fuel c r,
    _getFlattenedContainerAdjusters fuel supplied c t = Ok r ->
    _getFlattenedContainerAdjusters (S fuel) supplied c t = Ok r.
Proof.
  induction fuel as [|fuel IH]; intros c r H; [discriminate|].
  rewrite flatten_unfold in H |- *.
  destruct (lookup t c) as [l|]; [|discriminate].
  revert H. apply fold_bind_ext. clear - IH.
  intros a x a1 _. unfold flattenStep.
  destruct (mapGet x supplied) as [[W|]|]; try (intros H; exact H).
  destruct (lookup t (_containerAdjusters W)); [|intros H; exact H].
  destruct (_getFlattenedContainerAdjusters fuel supplied
              (_containerAdjusters W) t) as [sub| | |] eqn:E;
    cbn [bind]; try discriminate.
  rewrite (IH _ _ E). cbn [bind]. intros H; exact H.
Qed.

Lemma flatten_fuel_le (supplied : SuppliedMap) (t : string)
  (c : AdjusterCollection) (r : list Adjuster) (fuel fuel' : nat) :
  fuel <= fuel' ->
  _getFlattenedContainerAdjusters fuel supplied c t = Ok r ->
  _getFlattenedContainerAdjusters fuel' supplied c t = Ok r.
Proof.
  induction 1 as [|m _ IH]; [auto|].
  intros H. apply flatten_more_fuel. auto.
Qed.

Lemma flatten_fuel_agree (supplied : SuppliedMap) (t : string)
  (c : AdjusterCollection) (r r' : list Adjuster) (fuel fuel' : nat) :
  _getFlattenedContainerAdjusters fuel supplied c t = Ok r ->
  _getFlattenedContainerAdjusters fuel' supplied c t = Ok r' ->
  r = r'.
Proof.
  intros H H'.
  apply (flatten_fuel_le _ _ _ _ fuel (Nat.max fuel fuel')) in H; [|lia].
  apply (flatten_fuel_le _ _ _ _ fuel' (Nat.max fuel fuel')) in H'; [|lia].
  congruence.
Qed.

(** ** Flattening: what the list of a type contributes *)

Lemma flatten_fold_grows (fuel : nat) (supplied : SuppliedMap) (t : string)
  (l : list Adjuster) :
  forall acc fl,
    fold_left (fun acc adjuster =>
                 flattened <- acc ;; flattenStep fuel supplied t flattened adjuster)
              l (Ok acc) = Ok fl ->
    incl acc fl
    /\ forall f, In f l -> mapGet f supplied = None -> In f fl.
Proof.
  induction l as [|a l IH]; intros acc fl H.
  - cbn in H. injection H as <-. split; [apply incl_refl | intros f []].
  - apply fold_bind_Ok in H. destruct H as (a0 & a1 & [= <-] & Hs & H).
    destruct (IH _ _ H) as [Hincl Hall].
    assert (Hacc : incl acc a1).
    { unfold flattenStep in Hs.
      destruct (mapGet a supplied) as [[W|]|].
      - destruct (lookup t (_containerAdjusters W)).
        + destruct (_getFlattenedContainerAdjusters fuel supplied
                      (_containerAdjusters W) t); cbn [bind] in Hs;
            try discriminate.
          injection Hs as <-. apply incl_appl, incl_refl.
        + injection Hs as <-. apply incl_refl.
      - injection Hs as <-. apply incl_refl.
      - injection Hs as <-. apply incl_appl, incl_refl. }
    split.
    + eapply incl_tran; eassumption.
    + intros f [<-|Hf] Hnone; [|now apply Hall].
      apply Hincl. unfold flattenStep in Hs. rewrite Hnone in Hs.
      injection Hs as <-. apply in_or_app. right. now left.
Qed.

Lemma flatten_contains_true_adjusters (fuel : nat) (supplied : SuppliedMap)
  (c : AdjusterCollection) (t : string) (l fl : list Adjuster) (f : Adjuster) :
  _getFlattenedContainerAdjusters fuel supplied c t = Ok fl ->
  lookup t c = Some l -> In f l -> mapGet f supplied = None -> In f fl.
Proof.
  destruct fuel as [|fuel]; [discriminate|].
  rewrite flatten_unfold. intros H Hl. rewrite Hl in H.
  apply flatten_fold_grows in H. apply H.
Qed.

Lemma flatten_only_true_adjusters (supplied : SuppliedMap) (t : string) :
  forall fuel c fl,
    _getFlattenedContainerAdjusters fuel supplied c t = Ok fl ->
    forall f, In f fl -> mapGet f supplied = None.
Proof.
  induction fuel as [|fuel IH]; intros c fl H; [discriminate|].
  rewrite flatten_unfold in H. destruct (lookup t c) as [l|]; [|discriminate].
  assert (G : forall acc fl,
             (forall f, In f acc -> mapGet f supplied = None) ->
             fold_left (fun acc adjuster =>
                          flattened <- acc ;;
                          flattenStep fuel supplied t flattened adjuster)
                       l (Ok acc) = Ok fl ->
             forall f, In f fl -> mapGet f supplied = None).
  { clear H fl. induction l as [|a l IHl]; intros acc fl Hacc H.
    - cbn in H. injection H as <-. exact Hacc.
    - apply fold_bind_Ok in H. destruct H as (a0 & a1 & [= <-] & Hs & H).
      apply (IHl a1 fl); [|exact H].
      unfold flattenStep in Hs.
      destruct (mapGet a supplied) as [[W|]|] eqn:Ea.
      + destruct (lookup t (_containerAdjusters W)).
        * destruct (_getFlattenedContainerAdjusters fuel supplied
                      (_containerAdjusters W) t) as [sub| | |] eqn:Esub;
            cbn [bind] in Hs; try discriminate.
          injection Hs as <-. intros f Hf.
          apply in_app_or in Hf. destruct Hf as [Hf|Hf]; [auto|].
          exact (IH _ _ Esub f Hf).
        * injection Hs as <-. exact Hacc.
      + injection Hs as <-. exact Hacc.
      + injection Hs as <-. intros f Hf.
        apply in_app_or in Hf. destruct Hf as [Hf|[<-|[]]]; auto. }
  apply (G [] fl); [intros f [] | exact H].
Qed.

Lemma flatten_unresolved (fuel : nat) (supplied : SuppliedMap)
  (c : AdjusterCollection) (t : string) (l : list Adjuster) :
  allNull supplied -> lookup t c = Some l ->
  _getFlattenedContainerAdjusters (S fuel) supplied c t
  = Ok (filter (isTrueAdjuster supplied) l).
Proof.
  intros Hnull Hl. rewrite flatten_unfold, Hl.
  change (filter (isTrueAdjuster supplied) l)
    with ([] ++ filter (isTrueAdjuster supplied) l).
  generalize (@nil Adjuster) as acc. clear Hl.
  induction l as [|a l IH]; intros acc.
  - cbn. now rewrite app_nil_r.
  - cbn [fold_left bind filter]. unfold flattenStep at 2, isTrueAdjuster at 1, mapHas.
    destruct (mapGet a supplied) as [[W|]|] eqn:Ea.
    + now pose proof (Hnull _ _ Ea).
    + cbn [negb]. apply IH.
    + cbn [negb]. rewrite IH, <- app_assoc. reflexivity.
Qed.
(** ** The expansion loop: fuel, missing lists, and the keys of the map *)

Section ExpansionFacts.

Variable suppliedBy : Adjuster -> option Container -> list Wiring.

Lemma gatherLoop_unfold (fuel : nat) (k : string) (arg : option Container)
  (this : Wiring) :
  gatherLoop suppliedBy (S fuel) k arg this
  = match lookup k (_wiringAdjusters this) with
    | None => TypeError
    | Some [] => Ok (this, [])
    | Some (v :: rest) =>
        match mapGet v (_wiringSuppliedByWiringAdjusters (shifted k rest this)) with
        | Some (Some _) => gatherLoop suppliedBy fuel k arg (shifted k rest this)
        | _ =>
            r <- gatherLoop suppliedBy fuel k arg
                   (callWiringAdjuster suppliedBy v arg (shifted k rest this)) ;;
            Ok (fst r, v :: snd r)
        end
    end.
Proof. reflexivity. Qed.

Lemma gatherLoop_more_fuel (k : string) (arg : option Container) :
  forall fuel this r,
    gatherLoop suppliedBy fuel k arg this = Ok r ->
    gatherLoop suppliedBy (S fuel) k arg this = Ok r.
Proof.
  induction fuel as [|fuel IH]; intros this r H; [discriminate|].
  rewrite gatherLoop_unfold in H. rewrite (gatherLoop_unfold (S fuel)).
  destruct (lookup k (_wiringAdjusters this)) as [[|v rest]|]; try exact H.
  destruct (mapGet v (_wiringSuppliedByWiringAdjusters (shifted k rest this)))
    as [[W|]|].
  - apply IH. exact H.
  - destruct (gatherLoop suppliedBy fuel k arg _) as [x| | |] eqn:E;
      cbn [bind] in H; try discriminate.
    rewrite (IH _ _ E). exact H.
  - destruct (gatherLoop suppliedBy fuel k arg _) as [x| | |] eqn:E;
      cbn [bind] in H; try discriminate.
    rewrite (IH _ _ E). exact H.
Qed.

Lemma gatherLoop_fuel_le (k : string) (arg : option Container) (this : Wiring)
  (r : Wiring * list Adjuster) (fuel fuel' : nat) :
  fuel <= fuel' ->
  gatherLoop suppliedBy fuel k arg this = Ok r ->
  gatherLoop suppliedBy fuel' k arg this = Ok r.
Proof.
  induction 1 as [|m _ IH]; [auto|].
  intros H. apply gatherLoop_more_fuel. auto.
Qed.

Lemma gather_fuel_agree (k : string) (arg : option Container) (this : Wiring)
  (r r' : Wiring * list Adjuster) (fuel fuel' : nat) :
  _gatherWiringSuppliedByWiringAdjusters suppliedBy fuel k arg this = Ok r ->
  _gatherWiringSuppliedByWiringAdjusters suppliedBy fuel' k arg this = Ok r' ->
  r = r'.
Proof.
  unfold _gatherWiringSuppliedByWiringAdjusters.
  destruct (lookup k (_wiringAdjusters this)); [|congruence].
  intros H H'.
  apply (gatherLoop_fuel_le _ _ _ _ fuel (Nat.max fuel fuel')) in H; [|lia].
  apply (gatherLoop_fuel_le _ _ _ _ fuel' (Nat.max fuel fuel')) in H'; [|lia].
  congruence.
Qed.

Lemma gatherLoop_empties (k : string) (arg : option Container) :
  forall fuel this this' calls,
    gatherLoop suppliedBy fuel k arg this = Ok (this', calls) ->
    lookup k (_wiringAdjusters this') = Some [].
Proof.
  apply (gatherLoop_ind suppliedBy k arg
           (fun this this' calls => lookup k (_wiringAdjusters this') = Some []));
    auto.
Qed.

Lemma gather_again (fuel fuel' : nat) (k : string) (arg arg' : option Container)
  (this this' : Wiring) (calls : list Adjuster) (r : Wiring * list Adjuster) :
  _gatherWiringSuppliedByWiringAdjusters suppliedBy fuel k arg this
  = Ok (this', calls) ->
  _gatherWiringSuppliedByWiringAdjusters suppliedBy fuel' k arg' this' = Ok r ->
  r = (this', []).
Proof.
  intros H H'. apply gather_cases in H.
  unfold _gatherWiringSuppliedByWiringAdjusters in H'.
  destruct H as [(Hn & -> & _)|[_ H]].
  - rewrite Hn in H'. congruence.
  - apply gatherLoop_empties in H. rewrite H in H'.
    destruct fuel' as [|fuel']; [discriminate|].
    rewrite gatherLoop_unfold, H in H'. congruence.
Qed.

Lemma call_keeps_keys (v : Adjuster) (arg : option Container) (this : Wiring)
  (f : Adjuster) :
  mapGet f (_wiringSuppliedByWiringAdjusters this) <> None ->
  mapGet f (_wiringSuppliedByWiringAdjusters
              (callWiringAdjuster suppliedBy v arg this)) <> None.
Proof.
  intros H. destruct (call_map suppliedBy v arg this) as [S ->].
  rewrite mapGet_mapSet. destruct (Nat.eqb v f); [discriminate|].
  destruct (mapGet f (_wiringSuppliedByWiringAdjusters this)) as [x|] eqn:E;
    [|congruence].
  assert (Hy : exists y,
             mapGet f (mapSet v (Some (newWiring "Wiring" None))
                              (_wiringSuppliedByWiringAdjusters this)) = Some y).
  { rewrite mapGet_mapSet. destruct (Nat.eqb v f); eauto. }
  destruct Hy as [y Hy].
  rewrite (mapGet_merge_fold f (suppliedBy v arg) _ y Hy). discriminate.
Qed.

Lemma mapGet_merge_fold_None (a : Adjuster) (ws : list Wiring) :
  (forall W, In W ws -> mapGet a (_wiringSuppliedByWiringAdjusters W) = None) ->
  forall m, mapGet a m = None ->
    mapGet a (fold_left
                (fun m W => mergeSupplied m (_wiringSuppliedByWiringAdjusters W))
                ws m) = None.
Proof.
  induction ws as [|W ws IH]; intros Hws m H; [exact H|].
  cbn [fold_left]. apply IH; [intros; apply Hws; now right|].
  rewrite mapGet_addSupplied, H. apply Hws. now left.
Qed.

Lemma call_keeps_true_adjuster (v : Adjuster) (arg : option Container)
  (this : Wiring) (f : Adjuster) :
  f <> v ->
  (forall W, In W (suppliedBy v arg) ->
             mapGet f (_wiringSuppliedByWiringAdjusters W) = None) ->
  mapGet f (_wiringSuppliedByWiringAdjusters this) = None ->
  mapGet f (_wiringSuppliedByWiringAdjusters
              (callWiringAdjuster suppliedBy v arg this)) = None.
Proof.
  intros Hne Hws H. destruct (call_map suppliedBy v arg this) as [S ->].
  rewrite mapGet_mapSet.
  destruct (Nat.eqb_spec v f) as [E|_]; [congruence|].
  apply mapGet_merge_fold_None; [exact Hws|].
  rewrite mapGet_mapSet.
  destruct (Nat.eqb_spec v f) as [E|_]; [congruence | exact H].
Qed.

Lemma gather_keeps_keys (fuel : nat) (k : string) (arg : option Container)
  (this this' : Wiring) (calls : list Adjuster) (f : Adjuster) :
  _gatherWiringSuppliedByWiringAdjusters suppliedBy fuel k arg this
  = Ok (this', calls) ->
  mapGet f (_wiringSuppliedByWiringAdjusters this) <> None ->
  mapGet f (_wiringSuppliedByWiringAdjusters this') <> None.
Proof.
  intros H. apply gather_cases in H. destruct H as [(_ & -> & _)|[_ H]]; [auto|].
  revert fuel this this' calls H.
  apply (gatherLoop_ind suppliedBy k arg
           (fun this this' calls =>
              mapGet f (_wiringSuppliedByWiringAdjusters this) <> None ->
              mapGet f (_wiringSuppliedByWiringAdjusters this') <> None)).
  - auto.
  - intros this v rest this' calls _ _ IH H. apply IH. exact H.
  - intros this v rest this' calls _ _ IH H. apply IH.
    apply call_keeps_keys. exact H.
Qed.

Lemma gather_keeps_true_adjuster (fuel : nat) (k : string)
  (arg : option Container) (this this' : Wiring) (calls : list Adjuster)
  (f : Adjuster) :
  _gatherWiringSuppliedByWiringAdjusters suppliedBy fuel k arg this
  = Ok (this', calls) ->
  mapGet f (_wiringSuppliedByWiringAdjusters this) = None ->
  ~ In f calls ->
  (forall v W, In v calls -> In W (suppliedBy v arg) ->
               mapGet f (_wiringSuppliedByWiringAdjusters W) = None) ->
  mapGet f (_wiringSuppliedByWiringAdjusters this') = None.
Proof.
  intros H. apply gather_cases in H. destruct H as [(_ & -> & _)|[_ H]]; [auto|].
  revert fuel this this' calls H.
  apply (gatherLoop_ind suppliedBy k arg
           (fun this this' calls =>
              mapGet f (_wiringSuppliedByWiringAdjusters this) = None ->
              ~ In f calls ->
              (forall v W, In v calls -> In W (suppliedBy v arg) ->
                           mapGet f (_wiringSuppliedByWiringAdjusters W) = None) ->
              mapGet f (_wiringSuppliedByWiringAdjusters this') = None)).
  - auto.
  - intros this v rest this' calls _ _ IH H Hn Hs. apply IH; assumption.
  - intros this v rest this' calls _ _ IH H Hn Hs. apply IH.
    + apply call_keeps_true_adjuster.
      * intros ->. apply Hn. now left.
      * intros W HW. apply (Hs v W); [now left | exact HW].
      * exact H.
    + intros Hf. apply Hn. now right.
    + intros v' W Hv' HW. apply (Hs v' W); [now right | exact HW].
Qed.

Lemma gather_keeps_lists (fuel : nat) (k : string) (arg : option Container)
  (this this' : Wiring) (calls : list Adjuster) (t : string)
  (l : list Adjuster) :
  _gatherWiringSuppliedByWiringAdjusters suppliedBy fuel k arg this
  = Ok (this', calls) ->
  lookup t (_containerAdjusters this) = Some l ->
  lookup t (_containerAdjusters this') = Some l.
Proof.
  intros H. apply gather_cases in H. destruct H as [(_ & -> & _)|[_ H]]; [auto|].
  revert fuel this this' calls H.
  apply (gatherLoop_ind suppliedBy k arg
           (fun this this' calls =>
              lookup t (_containerAdjusters this) = Some l ->
              lookup t (_containerAdjusters this') = Some l)).
  - auto.
  - intros this v rest this' calls _ _ IH H. apply IH. exact H.
  - intros this v rest this' calls _ _ IH H. apply IH.
    rewrite call_containerAdjusters. apply lookup_ensureAll_prefix. exact H.
Qed.

Lemma gatherLoop_not_TypeError (k : string) (arg : option Container) :
  forall fuel this,
    lookup k (_wiringAdjusters this) <> None ->
    gatherLoop suppliedBy fuel k arg this <> TypeError.
Proof.
  induction fuel as [|fuel IH]; intros this Hk; [discriminate|].
  rewrite gatherLoop_unfold.
  destruct (lookup k (_wiringAdjusters this)) as [[|v rest]|] eqn:E;
    [discriminate| |congruence].
  pose proof (shifted_lookup k v rest this E) as Hs.
  assert (Hcall : gatherLoop suppliedBy fuel k arg
                    (callWiringAdjuster suppliedBy v arg (shifted k rest this))
                  <> TypeError).
  { apply IH.
    destruct (call_lookup_prefix suppliedBy k arg v rest (shifted k rest this) Hs)
      as [extra ->]. discriminate. }
  destruct (mapGet v (_wiringSuppliedByWiringAdjusters (shifted k rest this)))
    as [[W|]|].
  - apply IH. rewrite Hs. discriminate.
  - destruct (gatherLoop suppliedBy fuel k arg _); cbn [bind];
      congruence || discriminate.
  - destruct (gatherLoop suppliedBy fuel k arg _); cbn [bind];
      congruence || discriminate.
Qed.

Lemma gather_not_TypeError (fuel : nat) (k : string) (arg : option Container)
  (this : Wiring) :
  _gatherWiringSuppliedByWiringAdjusters suppliedBy fuel k arg this <> TypeError.
Proof.
  unfold _gatherWiringSuppliedByWiringAdjusters.
  destruct (lookup k (_wiringAdjusters this)) eqn:E; [|discriminate].
  apply gatherLoop_not_TypeError. congruence.
Qed.

End ExpansionFacts.

Lemma flatten_not_TypeError (supplied : SuppliedMap) (t : string) :
  forall fuel c,
    lookup t c <> None ->
    _getFlattenedContainerAdjusters fuel supplied c t <> TypeError.
Proof.
  induction fuel as [|fuel IH]; intros c Hc; [discriminate|].
  rewrite flatten_unfold. destruct (lookup t c) as [l|]; [|congruence].
  apply (fold_left_invariant _ (fun acc => acc <> TypeError));
    [|discriminate].
  intros acc a _ Hacc. destruct acc as [fl| | |]; cbn [bind]; try congruence.
  unfold flattenStep. destruct (mapGet a supplied) as [[W|]|]; try discriminate.
  destruct (lookup t (_containerAdjusters W)) eqn:E; [|discriminate].
  assert (H : _getFlattenedContainerAdjusters fuel supplied
                (_containerAdjusters W) t <> TypeError)
    by (apply IH; congruence).
  destruct (_getFlattenedContainerAdjusters fuel supplied
              (_containerAdjusters W) t); cbn [bind]; congruence || discriminate.
Qed.

Lemma _createContainer_not_TypeError
  (suppliedBy : Adjuster -> option Container -> list Wiring)
  (fuel : nat) (self : ref) (t : string) (args : list Value) (this : Wiring) :
  _createContainer suppliedBy fuel self t args this <> TypeError.
Proof.
  unfold _createContainer.
  pose proof (gather_not_TypeError suppliedBy fuel "" None this) as Hg.
  destruct (_gatherWiringSuppliedByWiringAdjusters suppliedBy fuel "" None this)
    as [g| | |]; cbn [bind]; try congruence; try discriminate.
  destruct (lookup (dotted t) (_containerAdjusters (fst g))) eqn:El;
    [|discriminate].
  pose proof (flatten_not_TypeError
                (_wiringSuppliedByWiringAdjusters (fst g)) (dotted t) fuel
                (_containerAdjusters (fst g))) as Hf.
  destruct (_getFlattenedContainerAdjusters fuel _ _ (dotted t)) as [fl| | |];
    cbn [bind]; try discriminate.
  - match goal with
    | |- (h <- ?G ;; _) <> _ =>
        pose proof (gather_not_TypeError suppliedBy fuel t
                      (Some (RegisterBean "wiring" self
                             :: map (fun f => Adjust f args)
                                    (applyAdjusters [] fl))) (fst g)) as Hh;
        destruct G; cbn [bind]; congruence || discriminate
    end.
  - exfalso. apply Hf; congruence.
Qed.
(** ** What a creation throws, and which adjusters it calls *)

Lemma createContainer_unfold
  (suppliedBy : Adjuster -> option Container -> list Wiring)
  (fuel : nat) (this : ref) (t : string) (args : list Value) (s : Store) :
  createContainer suppliedBy fuel this t args s
  = if isValidContainerType t then
      match deref s this with
      | None => TypeError
      | Some w =>
          r <- _createContainer suppliedBy fuel (List.length s) t args (clone w) ;;
          Ok (fst r, assign (List.length s) (snd r) (s ++ [clone w]))
      end
    else TypeError.
Proof. reflexivity. Qed.

Lemma createContainerFactory_unfold
  (suppliedBy : Adjuster -> option Container -> list Wiring)
  (fuel : nat) (this : ref) (t : string) (args : list Value) (s : Store) :
  createContainerFactory suppliedBy fuel this t args s
  = if isValidContainerType t then
      match deref s this with
      | None => TypeError
      | Some w =>
          r <- _createContainerFactory suppliedBy fuel (List.length s) t args
                 (clone w) ;;
          Ok (fst (fst r), snd (fst r),
              assign (List.length s) (snd r) (s ++ [clone w]))
      end
    else TypeError.
Proof. reflexivity. Qed.

Lemma callFactory_unfold
  (suppliedBy : Adjuster -> option Container -> list Wiring)
  (fuel : nat) (factory : ContainerFactory) (callerArgs : list Value)
  (s : Store) :
  callFactory suppliedBy fuel factory callerArgs s
  = match deref s (factoryWiring factory) with
    | None => TypeError
    | Some w =>
        r <- _createContainer suppliedBy fuel (List.length s)
               (factoryType factory) (factoryArgs factory ++ callerArgs)
               (clone w) ;;
        Ok (fst r, assign (List.length s) (snd r) (s ++ [clone w]))
    end.
Proof. reflexivity. Qed.

Lemma isOwnName_scopeContainerType (scopeType : string) :
  isOwnName (scopeContainerType scopeType) = true.
Proof. reflexivity. Qed.

(** X6 ([Wiring#createContainer], [Wiring#createContainerFactory],
    [StructuredWiring#createScopeContainer] and the factory returned by
    [createContainerFactory]).  The callbacks not throwing, a creation on
    a wiring instance, for a container type that is not and does not
    descend from a property of [Object.prototype], throws a [TypeError]
    exactly when the container type is invalid: the lists that the
    expansion loop shifts and the flattening iterates always exist.
    Making a factory, which reads no pending list of the type, throws a
    [TypeError] exactly when the type is invalid, whatever the type.
    [createScopeContainer] does not check the scope type itself and throws
    a [TypeError] exactly when the instance is not a [StructuredWiring] or
    the scope type is empty or ends with a dot, and a call of a container
    factory for such a container type never throws one. *)
Theorem creation_throws_TypeError_only_for_an_invalid_type
  (suppliedBy : Adjuster -> option Container -> list Wiring)
  (fuel : nat) (this : ref) (args : list Value) (s : Store) (w : Wiring)
  (Hw : deref s this = Some w) :
  (forall t,
     isOwnName t = true ->
     (createContainer suppliedBy fuel this t args s = TypeError <->
      isValidContainerType t = false))
  /\ (forall t,
        createContainerFactory suppliedBy fuel this t args s = TypeError <->
        isValidContainerType t = false)
  /\ (forall scopeType,
        createScopeContainer suppliedBy fuel this scopeType args s = TypeError <->
        isStructuredWiring w = false
        \/ scopeType = "" \/ lastChar scopeType = ".")
  /\ (forall t factoryArguments,
        isOwnName t = true ->
        callFactory suppliedBy fuel (mkFactory this t factoryArguments) args s
        <> TypeError).
Proof.
  assert (Hcreate : forall t,
             createContainer suppliedBy fuel this t args s = TypeError <->
             isValidContainerType t = false).
  { intros t. rewrite createContainer_unfold, Hw.
    destruct (isValidContainerType t); [|tauto].
    split; [|discriminate]. intros H. exfalso.
    pose proof (_createContainer_not_TypeError suppliedBy fuel (List.length s)
                  t args (clone w)) as Hn.
    destruct (_createContainer suppliedBy fuel (List.length s) t args (clone w));
      cbn [bind] in H; congruence || discriminate. }
  split; [intros t _; exact (Hcreate t)|]. split; [|split].
  - intros t. rewrite createContainerFactory_unfold, Hw.
    destruct (isValidContainerType t); [|tauto].
    split; [|discriminate]. intros H. exfalso.
    unfold _createContainerFactory in H.
    pose proof (gather_not_TypeError suppliedBy fuel "" None (clone w)) as Hn.
    destruct (_gatherWiringSuppliedByWiringAdjusters suppliedBy fuel "" None
                (clone w)) as [g| | |]; cbn [bind] in H;
      try congruence; try discriminate.
    destruct (lookup (dotted t) (_containerAdjusters (fst g)));
      cbn [bind] in H; discriminate.
  - intros scopeType. unfold createScopeContainer, structuredMethod.
    rewrite Hw. destruct (isStructuredWiring w).
    + rewrite Hcreate, scopeContainerType_valid.
      destruct (String.eqb_spec scopeType "") as [E|E];
        destruct (String.eqb_spec (lastChar scopeType) ".") as [E'|E'];
        cbn [negb andb]; split; auto; try discriminate.
      intros [H|[H|H]]; [discriminate | contradiction | contradiction].
    + split; auto.
  - intros t factoryArguments _ H. rewrite callFactory_unfold in H.
    cbn [factoryWiring factoryType factoryArgs] in H. rewrite Hw in H.
    pose proof (_createContainer_not_TypeError suppliedBy fuel (List.length s)
                  t (factoryArguments ++ args) (clone w)) as Hn.
    destruct (_createContainer suppliedBy fuel (List.length s) t
                (factoryArguments ++ args) (clone w));
      cbn [bind] in H; congruence || discriminate.
Qed.

Lemma creation_throws_TypeError_only_for_an_invalid_type_witness :
  deref [emptyWiring] 0 = Some emptyWiring
  /\ isOwnName "A." = true
  /\ (createContainer noSupply 3 0 "A." [] [emptyWiring] = TypeError <->
      isValidContainerType "A." = false).
Proof.
  split; [reflexivity|]. split; [reflexivity|].
  apply (proj1 (creation_throws_TypeError_only_for_an_invalid_type
                  noSupply 3 0 [] [emptyWiring] emptyWiring eq_refl) "A.").
  reflexivity.
Defined.

(** X2 ([Wiring#_createContainer] and
    [Wiring#_getFlattenedContainerAdjusters]).  A container adjuster that
    stands in the list of the created type on the wiring a container is
    created from, and that is not a wiring adjuster (it is not a key of the
    map of the wiring or of a wiring supplied during the base expansion,
    and it was not called as a base wiring adjuster), is called exactly
    once on the container, with the arguments of the creation. *)
Theorem registered_container_adjuster_is_called_exactly_once
  (suppliedBy : Adjuster -> option Container -> list Wiring)
  (fuel : nat) (this : ref) (t : string) (args : list Value)
  (s s' : Store) (cr : Creation) (w : Wiring) (l : list Adjuster) (f : Adjuster)
  (Hw : deref s this = Some w)
  (Hc : createContainer suppliedBy fuel this t args s = Ok (cr, s'))
  (Hl : lookup (dotted t) (_containerAdjusters w) = Some l)
  (Hf : In f l)
  (Hmap : mapGet f (_wiringSuppliedByWiringAdjusters w) = None)
  (Hbase : ~ In f (baseCalls cr))
  (Hsup : forall v W, In v (baseCalls cr) -> In W (suppliedBy v None) ->
                      mapGet f (_wiringSuppliedByWiringAdjusters W) = None) :
  count_occ Nat.eq_dec (adjustersCalled (container cr)) f = 1
  /\ In (ContainerChanged (Adjust f args)) (trace cr).
Proof.
  apply createContainer_inv in Hc.
  destruct Hc as (w0 & p & _ & Hw0 & Hc & _).
  assert (w0 = w) by congruence. subst w0. rewrite clone_eq in Hc.
  apply _createContainer_inv in Hc.
  destruct Hc as (this1 & fl & Hg & _ & Hfl & Hcont & _).
  assert (Hin : In f (applyAdjusters [] fl)).
  { apply applyAdjusters_spec. split; [|intros []].
    eapply flatten_contains_true_adjusters.
    - exact Hfl.
    - eapply gather_keeps_lists; eassumption.
    - exact Hf.
    - eapply gather_keeps_true_adjuster; eassumption. }
  split.
  - rewrite Hcont. cbn [adjustersCalled]. rewrite adjustersCalled_adjusts.
    apply NoDup_count_occ'; [apply applyAdjusters_spec | exact Hin].
  - unfold trace. apply in_or_app. right. apply in_or_app. left.
    apply in_map. rewrite Hcont. right.
    apply (in_map (fun f => Adjust f args)). exact Hin.
Qed.

Lemma registered_container_adjuster_is_called_exactly_once_witness :
  count_occ Nat.eq_dec
    (adjustersCalled
       (container (mkCreation [RegisterBean "wiring" 1; Adjust 1 ["a"]] [] [])))
    1 = 1.
Proof.
  apply (registered_container_adjuster_is_called_exactly_once
           noSupply 5 0 "T" ["a"]
           [_adjustContainer "T" 1 (_adjustContainer "T" 1 emptyWiring)]
           [_adjustContainer "T" 1 (_adjustContainer "T" 1 emptyWiring);
            _adjustContainer "T" 1 (_adjustContainer "T" 1 emptyWiring)]
           (mkCreation [RegisterBean "wiring" 1; Adjust 1 ["a"]] [] [])
           (_adjustContainer "T" 1 (_adjustContainer "T" 1 emptyWiring))
           [1; 1] 1).
  - reflexivity.
  - vm_compute. reflexivity.
  - reflexivity.
  - simpl. auto.
  - reflexivity.
  - simpl. auto.
  - simpl. intros v W [].
Defined.

(** X3 ([Wiring#_getFlattenedContainerAdjusters] and the comment of the
    [Wiring] constructor: "In the case of a wiring adjuster, it is not
    actually called while iterating the container adjusters").  No adjuster
    that the wiring knows as a wiring adjuster -- a key of its map, which
    [adjustBaseWiring] and [adjustWiringAfter] make it and a later
    [adjustContainer] leaves it -- is called as a container adjuster, even
    when the same function was also registered with [adjustContainer]; nor
    is a wiring adjuster that was called during the base expansion. *)
Theorem wiring_adjuster_is_never_called_as_container_adjuster
  (suppliedBy : Adjuster -> option Container -> list Wiring)
  (fuel : nat) (this : ref) (t : string) (args : list Value)
  (s s' : Store) (cr : Creation) (w : Wiring)
  (Hw : deref s this = Some w)
  (Hc : createContainer suppliedBy fuel this t args s = Ok (cr, s')) :
  (forall f, mapGet f (_wiringSuppliedByWiringAdjusters w) <> None ->
             ~ In f (adjustersCalled (container cr)))
  /\ (forall f, In f (baseCalls cr) -> ~ In f (adjustersCalled (container cr)))
  /\ (forall u a w0,
        mapGet a (_wiringSuppliedByWiringAdjusters (_adjustWiringAfter u a w0))
        <> None)
  /\ (forall u f a w0,
        mapGet a (_wiringSuppliedByWiringAdjusters (_adjustContainer u f w0))
        = mapGet a (_wiringSuppliedByWiringAdjusters w0)).
Proof.
  apply createContainer_inv in Hc.
  destruct Hc as (w0 & p & _ & Hw0 & Hc & _).
  assert (w0 = w) by congruence. subst w0. rewrite clone_eq in Hc.
  apply _createContainer_inv in Hc.
  destruct Hc as (this1 & fl & Hg & _ & Hfl & Hcont & _).
  assert (Hcalled : forall f, In f (adjustersCalled (container cr)) ->
                              mapGet f (_wiringSuppliedByWiringAdjusters this1)
                              = None).
  { intros f. rewrite Hcont. cbn [adjustersCalled].
    rewrite adjustersCalled_adjusts. intros Hf.
    apply applyAdjusters_spec in Hf. destruct Hf as [Hf _].
    eapply flatten_only_true_adjusters; eassumption. }
  split; [|split; [|split]].
  - intros f Hf Hin. apply Hcalled in Hin.
    eapply gather_keeps_keys in Hf; [|exact Hg]. contradiction.
  - intros f Hf Hin. apply Hcalled in Hin.
    destruct (gatherLoop_calls suppliedBy "" None) with (fuel := fuel)
      (this := w) (this' := this1) (calls := baseCalls cr)
      as (_ & Hres & _).
    + apply gather_cases in Hg. destruct Hg as [(_ & _ & E)|[_ Hg]];
        [rewrite E in Hf; contradiction | exact Hg].
    + destruct (Hres f Hf) as [_ [S HS]]. congruence.
  - intros u a w0. unfold _adjustWiringAfter. rewrite mapGet_ensureKey.
    destruct (mapGet a _); [discriminate|].
    rewrite Nat.eqb_refl. discriminate.
  - reflexivity.
Qed.

Lemma wiring_adjuster_is_never_called_as_container_adjuster_witness :
  deref [_adjustContainer "Test" 30 (_adjustBaseWiring 30 emptyWiring)] 0
  = Some (_adjustContainer "Test" 30 (_adjustBaseWiring 30 emptyWiring))
  /\ forall f,
       mapGet f (_wiringSuppliedByWiringAdjusters
                   (_adjustContainer "Test" 30
                      (_adjustBaseWiring 30 emptyWiring)))
       <> None ->
       ~ In f (adjustersCalled
                 (container (mkCreation [RegisterBean "wiring" 1; Adjust 2 []]
                                        [30] []))).
Proof.
  split; [reflexivity|].
  apply (wiring_adjuster_is_never_called_as_container_adjuster
           testSupply 5 0 "Test" []
           [_adjustContainer "Test" 30 (_adjustBaseWiring 30 emptyWiring)]
           (snd (returned
                   (createContainer testSupply 5 0 "Test" []
                      [_adjustContainer "Test" 30
                         (_adjustBaseWiring 30 emptyWiring)])
                   (mkCreation [] [] [], [])))).
  - reflexivity.
  - vm_compute. reflexivity.
Defined.
(** X4 ([Wiring#_createContainer] and
    [Wiring#_getFlattenedContainerAdjusters]).  When the wiring has no base
    wiring adjuster pending and none of its wiring adjusters has been
    called, a creation calls no wiring adjuster beforehand, and the
    container adjusters it calls are the entries of the created type's
    list that are not wiring adjusters, in the order of the list, each at
    its first occurrence: wiring adjusters that wait for a container
    contribute nothing. *)
Theorem without_base_wiring_the_registered_list_is_applied
  (suppliedBy : Adjuster -> option Container -> list Wiring)
  (fuel : nat) (this : ref) (t : string) (args : list Value)
  (s s' : Store) (cr : Creation) (w : Wiring) (l : list Adjuster)
  (Hw : deref s this = Some w)
  (Hc : createContainer suppliedBy fuel this t args s = Ok (cr, s'))
  (Hbase : forall l0, lookup "" (_wiringAdjusters w) = Some l0 -> l0 = [])
  (Hnull : allNull (_wiringSuppliedByWiringAdjusters w))
  (Hl : lookup (dotted t) (_containerAdjusters w) = Some l) :
  baseCalls cr = []
  /\ container cr
     = RegisterBean "wiring" (List.length s)
       :: map (fun f => Adjust f args)
              (applyAdjusters []
                 (filter (isTrueAdjuster (_wiringSuppliedByWiringAdjusters w)) l))
  /\ adjustersCalled (container cr)
     = applyAdjusters []
         (filter (isTrueAdjuster (_wiringSuppliedByWiringAdjusters w)) l).
Proof.
  apply createContainer_inv in Hc.
  destruct Hc as (w0 & p & _ & Hw0 & Hc & _).
  assert (w0 = w) by congruence. subst w0. rewrite clone_eq in Hc.
  apply _createContainer_inv in Hc.
  destruct Hc as (this1 & fl & Hg & _ & Hfl & Hcont & _).
  assert (E : this1 = w /\ baseCalls cr = []).
  { apply gather_cases in Hg. destruct Hg as [(_ & -> & ->)|[Hk Hg]]; [auto|].
    destruct (lookup "" (_wiringAdjusters w)) as [l0|] eqn:E0; [|congruence].
    rewrite (Hbase l0 eq_refl) in E0.
    destruct fuel as [|fuel]; [discriminate|].
    rewrite gatherLoop_unfold, E0 in Hg. injection Hg as <- <-. auto. }
  destruct E as [-> Hb].
  destruct fuel as [|fuel]; [discriminate|].
  rewrite (flatten_unresolved fuel _ _ _ l Hnull Hl) in Hfl.
  injection Hfl as <-.
  split; [exact Hb|]. split; [exact Hcont|].
  rewrite Hcont. cbn [adjustersCalled]. apply adjustersCalled_adjusts.
Qed.

Lemma without_base_wiring_the_registered_list_is_applied_witness :
  baseCalls (mkCreation [RegisterBean "wiring" 1; Adjust 1 []; Adjust 3 []]
                        [] [20]) = [].
Proof.
  apply (without_base_wiring_the_registered_list_is_applied
           noSupply 5 0 "T" [] [afterOnlyWiring]
           (snd (returned (createContainer noSupply 5 0 "T" [] [afterOnlyWiring])
                          (mkCreation [] [] [], [])))
           (mkCreation [RegisterBean "wiring" 1; Adjust 1 []; Adjust 3 []]
                       [] [20])
           afterOnlyWiring [1; 20; 1; 3]).
  - reflexivity.
  - vm_compute. reflexivity.
  - vm_compute. discriminate.
  - intros a v. vm_compute.
    destruct a as [|a]; [discriminate|].
    do 20 (destruct a as [|a]; [try discriminate; congruence|]). discriminate.
  - reflexivity.
Defined.

(** X5 ([Wiring#_createContainerFactory] and the closure it returns).  A
    call of a container factory applies the same container adjusters, in
    the same order and with the same arguments (the factory's followed by
    the caller's), as a direct creation of the type from the same wiring
    with all those arguments; the base wiring adjusters are called when
    the factory is made, and none is called by the factory call. *)
Theorem factory_call_applies_what_a_direct_creation_applies
  (suppliedBy : Adjuster -> option Container -> list Wiring)
  (fuel1 fuel2 fuel3 : nat) (this : ref) (t : string)
  (factoryArguments callerArgs : list Value) (s s1 s2 s3 : Store)
  (factory : ContainerFactory) (base : list Adjuster) (cr1 cr2 : Creation)
  (Hf : createContainerFactory suppliedBy fuel1 this t factoryArguments s
        = Ok (factory, base, s1))
  (Hcall : callFactory suppliedBy fuel2 factory callerArgs s1 = Ok (cr2, s2))
  (Hdirect : createContainer suppliedBy fuel3 this t
               (factoryArguments ++ callerArgs) s = Ok (cr1, s3)) :
  baseCalls cr1 = base
  /\ baseCalls cr2 = []
  /\ adjustersCalled (container cr2) = adjustersCalled (container cr1)
  /\ exists adjusted,
       container cr1 = RegisterBean "wiring" (List.length s) :: adjusted
       /\ container cr2 = RegisterBean "wiring" (List.length s1) :: adjusted
       /\ forall op, In op adjusted ->
            exists f, op = Adjust f (factoryArguments ++ callerArgs).
Proof.
  apply createContainerFactory_inv in Hf.
  destruct Hf as (w & p & _ & Hw & Hg & _ & -> & ->).
  apply callFactory_inv in Hcall.
  destruct Hcall as (w2 & p2 & Hw2 & Hc2 & _).
  cbn [factoryWiring factoryType factoryArgs] in Hw2, Hc2.
  rewrite deref_private in Hw2. injection Hw2 as <-.
  apply createContainer_inv in Hdirect.
  destruct Hdirect as (w1 & p1 & _ & Hw1 & Hc1 & _).
  assert (w1 = w) by congruence. subst w1.
  apply _createContainer_inv in Hc1.
  destruct Hc1 as (this1 & fl1 & Hg1 & _ & Hfl1 & Hcont1 & _).
  apply _createContainer_inv in Hc2.
  destruct Hc2 as (this2 & fl2 & Hg2 & _ & Hfl2 & Hcont2 & _).
  pose proof (gather_fuel_agree _ _ _ _ _ _ _ _ Hg Hg1) as E1.
  injection E1 as <- <-.
  rewrite (clone_eq p) in Hg2.
  pose proof (gather_again _ _ _ _ _ _ _ _ _ _ Hg Hg2) as E2.
  injection E2 as -> E2.
  pose proof (flatten_fuel_agree _ _ _ _ _ _ _ Hfl1 Hfl2) as <-.
  split; [reflexivity|]. split; [exact E2|]. split.
  - rewrite Hcont1, Hcont2. reflexivity.
  - eexists. split; [exact Hcont1|]. split; [exact Hcont2|].
    intros op Hop. apply in_map_iff in Hop. destruct Hop as (f & <- & _).
    eauto.
Qed.

Lemma factory_call_applies_what_a_direct_creation_applies_witness :
  baseCalls (mkCreation [RegisterBean "wiring" 1; Adjust 1 ["stump"; "trunk"];
                         Adjust 2 ["stump"; "trunk"]] [30] []) = [30].
Proof.
  apply (factory_call_applies_what_a_direct_creation_applies
           testSupply 9 9 9 0 "Test" ["stump"] ["trunk"]
           [baseSuppliedWiring]
           (snd (returned (createContainerFactory testSupply 9 0 "Test"
                             ["stump"] [baseSuppliedWiring])
                          (mkFactory 0 "" [], [], [])))
           (snd (returned
                   (callFactory testSupply 9 (mkFactory 1 "Test" ["stump"])
                      ["trunk"]
                      (snd (returned (createContainerFactory testSupply 9 0
                                        "Test" ["stump"] [baseSuppliedWiring])
                                     (mkFactory 0 "" [], [], []))))
                   (mkCreation [] [] [], [])))
           (snd (returned
                   (createContainer testSupply 9 0 "Test" ["stump"; "trunk"]
                      [baseSuppliedWiring])
                   (mkCreation [] [] [], [])))
           (mkFactory 1 "Test" ["stump"]) [30]
           (mkCreation [RegisterBean "wiring" 1; Adjust 1 ["stump"; "trunk"];
                        Adjust 2 ["stump"; "trunk"]] [30] [])
           (mkCreation [RegisterBean "wiring" 2; Adjust 1 ["stump"; "trunk"];
                        Adjust 2 ["stump"; "trunk"]] [] [])).
  - vm_compute. reflexivity.
  - vm_compute. reflexivity.
  - vm_compute. reflexivity.
Defined.


(** ** Registration order *)

Lemma eqb_dotted (a b : string) :
  String.eqb (dotted a) (dotted b) = String.eqb a b.
Proof. unfold dotted. cbn [String.eqb]. now rewrite Ascii.eqb_refl. Qed.

Lemma isAncestorOf_dotted (a b : string) :
  isAncestorOf (dotted a) (dotted b) = isAncestorOf a b.
Proof.
  unfold isAncestorOf, startsWith, withDot, dotted.
  cbn [String.append String.prefix].
  destruct (ascii_dec dot dot); [reflexivity | congruence].
Qed.

Lemma registeredFor_app (t : string) (regs regs' : list (string * Adjuster)) :
  registeredFor t (regs ++ regs')
  = registeredFor t regs ++ registeredFor t regs'.
Proof. apply flat_map_app. Qed.

Lemma registeredFor_inlined (t : string) (regs : list (string * Adjuster)) :
  flat_map (inlined t) (map registrationDeclared regs) = registeredFor t regs.
Proof.
  induction regs as [|e regs IH]; [reflexivity|].
  cbn [map flat_map registeredFor]. rewrite IH. reflexivity.
Qed.

Lemma applyAdjusters_firstCopies (l : list Adjuster) :
  forall seen, applyAdjusters seen l = firstCopies seen l.
Proof.
  induction l as [|f l IH]; intros seen; [reflexivity|].
  cbn [applyAdjusters firstCopies]. now rewrite !IH.
Qed.

Lemma registeredFor_ext (t t' : string) (regs : list (string * Adjuster)) :
  (forall u f, In (u, f) regs ->
     String.eqb u t || isAncestorOf u t = String.eqb u t' || isAncestorOf u t') ->
  registeredFor t regs = registeredFor t' regs.
Proof.
  induction regs as [|[u f] regs IH]; intros H; [reflexivity|].
  cbn [registeredFor flat_map fst snd].
  rewrite (H u f (or_introl eq_refl)).
  f_equal. apply IH. intros u' f' Hin. apply (H u' f'). now right.
Qed.

Lemma registeredFor_nil (t : string) (regs : list (string * Adjuster)) :
  (forall u f, In (u, f) regs ->
     String.eqb u t || isAncestorOf u t = false) ->
  registeredFor t regs = [].
Proof.
  induction regs as [|[u f] regs IH]; intros H; [reflexivity|].
  cbn [registeredFor flat_map fst snd].
  rewrite (H u f (or_introl eq_refl)).
  apply IH. intros u' f' Hin. apply (H u' f'). now right.
Qed.

Lemma In_map_fst {A B : Type} (a : A) (b : B) (l : list (A * B)) :
  In (a, b) l -> In a (map fst l).
Proof. intros H. apply (in_map fst) in H. exact H. Qed.

Lemma seed_is_registeredFor (regs : list (string * Adjuster)) (w : Wiring)
  (u : string) :
  holdsRegistrations regs w ->
  lookup (dotted u) (_containerAdjusters w) = None ->
  _getAncestorAdjusters (_containerAdjusters w) (dotted u)
  = registeredFor u regs.
Proof.
  intros (Hkeys & Hlists & _ & _) Hu.
  assert (Hnot : forall f, ~ In (u, f) regs).
  { intros f Hf. apply In_map_fst in Hf. rewrite (Hlists u Hf) in Hu.
    discriminate. }
  destruct (getAncestorAdjusters_spec (_containerAdjusters w) (dotted u))
    as [(n & Hn & Hl & Hnear)|[Hnil Hnone]].
  - destruct (Hkeys n) as (tn & -> & Htn); [congruence|].
    rewrite (Hlists tn Htn) in Hl. injection Hl as Hl. rewrite <- Hl.
    rewrite isAncestorOf_dotted in Hn.
    apply registeredFor_ext. intros u' f' Hin.
    destruct (String.eqb_spec u' u) as [->|Hne]; [now destruct (Hnot f')|].
    cbn [orb].
    destruct (isAncestorOf u' u) eqn:Ea.
    + destruct (Hnear (dotted u')) as [E|E].
      * now rewrite isAncestorOf_dotted.
      * rewrite (Hlists u' (In_map_fst _ _ _ Hin)). discriminate.
      * apply dotted_inj in E. subst u'. rewrite String.eqb_refl. reflexivity.
      * rewrite isAncestorOf_dotted in E. rewrite E. apply orb_true_r.
    + destruct (String.eqb_spec u' tn) as [->|Hne'].
      * congruence.
      * cbn [orb]. destruct (isAncestorOf u' tn) eqn:Eb; [|reflexivity].
        rewrite (isAncestorOf_trans _ _ _ Eb Hn) in Ea. discriminate.
  - rewrite Hnil. symmetry. apply registeredFor_nil. intros u' f' Hin.
    destruct (String.eqb_spec u' u) as [->|Hne]; [now destruct (Hnot f')|].
    cbn [orb]. destruct (isAncestorOf u' u) eqn:Ea; [|reflexivity].
    rewrite <- isAncestorOf_dotted in Ea. apply Hnone in Ea.
    rewrite (Hlists u' (In_map_fst _ _ _ Hin)) in Ea. discriminate.
Qed.

Lemma holdsRegistrations_new (cls : string) :
  holdsRegistrations [] (newWiring cls None).
Proof.
  split; [|split; [|split]].
  - intros k H. now destruct H.
  - intros t [].
  - intros k l H. discriminate.
  - reflexivity.
Qed.

Lemma holdsRegistrations_adjustContainer (regs : list (string * Adjuster))
  (w : Wiring) (u : string) (f : Adjuster) :
  isValidContainerType u = true ->
  holdsRegistrations regs w ->
  holdsRegistrations (regs ++ [(u, f)]) (_adjustContainer u f w).
Proof.
  intros Hu H. pose proof H as (Hkeys & Hlists & HwA & Hmap).
  split; [|split; [|split]].
  - intros k Hk. rewrite adjustContainer_containerAdjusters in Hk.
    apply lookup_known_iff, In_keys_addAdjuster in Hk.
    rewrite map_app, <- lookup_known_iff in *. destruct Hk as [Hk| ->].
    + destruct (Hkeys k Hk) as (t & -> & Ht). exists t.
      split; [reflexivity | apply in_or_app; now left].
    + exists u. split; [reflexivity | apply in_or_app; right; now left].
  - intros t Ht. rewrite adjustContainer_containerAdjusters, lookup_addAdjuster,
      lookup_ensure, registeredFor_app.
    cbn [registeredFor flat_map fst snd app].
    rewrite !eqb_dotted, isAncestorOf_dotted, app_nil_r.
    rewrite (String.eqb_sym t u).
    destruct (lookup (dotted t) (_containerAdjusters w)) as [l|] eqn:El.
    + destruct (Hkeys (dotted t)) as (t' & E & Ht'); [congruence|].
      apply dotted_inj in E. subst t'. rewrite (Hlists t Ht') in El.
      injection El as <-. cbn [option_map].
      destruct (String.eqb u t || isAncestorOf u t);
        [reflexivity | now rewrite app_nil_r].
    + rewrite map_app in Ht. apply in_app_or in Ht.
      destruct Ht as [Ht|[<-|[]]]; [rewrite (Hlists t Ht) in El; discriminate|].
      cbn [fst]. rewrite String.eqb_refl. cbn [option_map orb].
      rewrite (seed_is_registeredFor regs w u H El). reflexivity.
  - intros k l Hk. rewrite adjustContainer_wiringAdjusters, lookup_ensure in Hk.
    destruct (lookup k (_wiringAdjusters w)) as [l0|] eqn:El.
    + injection Hk as <-. exact (HwA k l0 El).
    + destruct (String.eqb_spec u k) as [<-|_]; [|discriminate].
      injection Hk as <-. split.
      * destruct (getAncestorAdjusters_spec (_wiringAdjusters w) u)
          as [(n & _ & Hl & _)|[Hnil _]]; [|exact Hnil].
        apply HwA in Hl. apply Hl.
      * intros ->. discriminate.
  - exact Hmap.
Qed.

Lemma filter_all {A : Type} (p : A -> bool) (l : list A) :
  (forall x, In x l -> p x = true) -> filter p l = l.
Proof.
  induction l as [|x l IH]; intros H; [reflexivity|].
  cbn [filter]. rewrite (H x (or_introl eq_refl)), IH; [reflexivity|].
  intros; apply H; now right.
Qed.

Lemma _createContainer_registrations
  (suppliedBy : Adjuster -> option Container -> list Wiring)
  (fuel : nat) (self : ref) (t : string) (args : list Value)
  (regs : list (string * Adjuster)) (this : Wiring) :
  holdsRegistrations regs this -> In t (map fst regs) ->
  _createContainer suppliedBy (S fuel) self t args this
  = Ok (mkCreation
          (RegisterBean "wiring" self
           :: map (fun f => Adjust f args)
                  (applyAdjusters [] (registeredFor t regs))) [] [],
        this).
Proof.
  intros (Hkeys & Hlists & HwA & Hmap) Ht.
  unfold _createContainer, _gatherWiringSuppliedByWiringAdjusters.
  destruct (lookup "" (_wiringAdjusters this)) as [l0|] eqn:E0;
    [now destruct (HwA _ _ E0)|].
  cbn [bind fst snd]. rewrite (Hlists t Ht).
  rewrite (flatten_unresolved fuel _ _ _ (registeredFor t regs));
    [|rewrite Hmap; intros a v; discriminate | exact (Hlists t Ht)].
  rewrite Hmap, filter_all by reflexivity.
  cbn [bind].
  destruct (lookup t (_wiringAdjusters this)) as [l|] eqn:El.
  - destruct (HwA _ _ El) as [-> _].
    rewrite gatherLoop_unfold, El. reflexivity.
  - reflexivity.
Qed.

Lemma calls_registrations (b : WiringBuilder)
  (regs : list (string * Adjuster)) :
  (forall u f, In (u, f) regs -> isValidContainerType u = true) ->
  forall regs0 s w,
    deref s (_wiring b) = Some w -> holdsRegistrations regs0 w ->
    exists w',
      deref (calls b (map registrationCall regs) s) (_wiring b) = Some w'
      /\ holdsRegistrations (regs0 ++ regs) w'
      /\ List.length (calls b (map registrationCall regs) s) = List.length s.
Proof.
  induction regs as [|[u f] regs IH]; intros Hvalid regs0 s w Hw H.
  - exists w. rewrite app_nil_r. auto.
  - cbn [map calls fold_left registrationCall fst snd call].
    unfold adjustContainer, onWiring.
    rewrite (Hvalid u f (or_introl eq_refl)), Hw.
    destruct (IH (fun u' f' Hin => Hvalid u' f' (or_intror Hin))
                 (regs0 ++ [(u, f)])
                 (assign (_wiring b) (_adjustContainer u f w) s)
                 (_adjustContainer u f w)) as (w' & Hw' & H' & Hlen).
    + apply deref_assign_eq. eauto using deref_valid.
    + apply holdsRegistrations_adjustContainer;
        [exact (Hvalid u f (or_introl eq_refl)) | exact H].
    + exists w'. rewrite <- app_assoc in H'. split; [exact Hw'|].
      split; [exact H'|]. unfold calls in Hlen. rewrite Hlen.
      apply length_assign.
Qed.

(** X1 ([WiringBuilder#adjustContainer], [Wiring#_adjustContainer],
    [Wiring#_addAdjuster], [Wiring#_createContainer]).  A builder on which
    only [adjustContainer] is called, with valid container types none of
    which is or descends from a property of [Object.prototype], builds a
    wiring from which a container of any registered type is created by
    calling the adjusters registered for that type or for one of its
    ancestors, in the order of registration whatever the depth of the
    hierarchy and whatever the order in which the types became known, each
    adjuster at its first occurrence, and nothing else; no wiring adjuster
    is called.  This is the inlined registration order of the README. *)
Theorem container_adjusters_are_called_in_registration_order
  (suppliedBy : Adjuster -> option Container -> list Wiring)
  (fuel : nat) (s : Store) (regs : list (string * Adjuster)) (t : string)
  (args : list Value)
  (Hvalid : forall u f, In (u, f) regs -> isValidContainerType u = true)
  (Hown : forall u f, In (u, f) regs -> isOwnName u = true)
  (Ht : In t (map fst regs)) :
  (r <- buildFrom None (map registrationCall regs) s ;;
   creationOf (createContainer suppliedBy (S fuel) (fst r) t args (snd r)))
  = Ok (mkCreation
          (RegisterBean "wiring" (2 + List.length s)
           :: map (fun f => Adjust f args)
                  (applyAdjusters [] (registeredFor t regs))) [] [])
  /\ applyAdjusters [] (registeredFor t regs)
     = specInlinedOrder t (map registrationDeclared regs).
Proof.
  split.
  - unfold buildFrom, newWiringBuilder, alloc. cbn [bind fst snd].
    destruct (calls_registrations (mkBuilder (List.length s)) regs Hvalid []
                (s ++ [newWiring "Wiring" None]) (newWiring "Wiring" None))
      as (w' & Hw' & H' & Hlen).
    + apply deref_alloc_new.
    + apply holdsRegistrations_new.
    + cbn [_wiring] in Hw'. unfold build. cbn [_wiring]. rewrite Hw'.
      unfold alloc. cbn [bind fst snd].
      rewrite createContainer_from with (w := clone w')
        by apply deref_alloc_new.
      assert (Hvt : isValidContainerType t = true).
      { apply in_map_iff in Ht. destruct Ht as ([u f] & <- & Hin).
        exact (Hvalid u f Hin). }
      rewrite Hvt, !clone_eq.
      rewrite (_createContainer_registrations suppliedBy fuel _ t args regs w'
                 H' Ht).
      cbn [bind fst]. rewrite length_app, Hlen, length_app. cbn [List.length].
      do 4 f_equal. lia.
  - unfold specInlinedOrder. rewrite registeredFor_inlined.
    apply applyAdjusters_firstCopies.
Qed.

Lemma container_adjusters_are_called_in_registration_order_witness :
  (r <- buildFrom None
          (map registrationCall [("A.B", 1); ("A", 2); ("A.B.C", 3); ("A", 1)])
          [] ;;
   creationOf (createContainer noSupply 1 (fst r) "A.B.C" ["x"] (snd r)))
  = Ok (mkCreation
          (RegisterBean "wiring" 2
           :: map (fun f => Adjust f ["x"])
                  (applyAdjusters []
                     (registeredFor "A.B.C"
                        [("A.B", 1); ("A", 2); ("A.B.C", 3); ("A", 1)])))
          [] []).
Proof.
  apply (container_adjusters_are_called_in_registration_order
           noSupply 0 [] [("A.B", 1); ("A", 2); ("A.B.C", 3); ("A", 1)]
           "A.B.C" ["x"]).
  - intros u f H. simpl in H.
    repeat (destruct H as [[= <- <-]|H]; [reflexivity|]). destruct H.
  - intros u f H. simpl in H.
    repeat (destruct H as [[= <- <-]|H]; [reflexivity|]). destruct H.
  - simpl. auto.
Defined.


(** ** The keys of the collections *)

Lemma adjustWiringAfter_containerAdjusters (t : string) (a : Adjuster)
  (w : Wiring) :
  _containerAdjusters (_adjustWiringAfter t a w)
  = _addAdjuster
      (if String.eqb t "" then _containerAdjusters w
       else _ensureContainerTypeExists (_containerAdjusters w) (dotted t))
      "" a.
Proof.
  unfold _adjustWiringAfter. rewrite ensureKey_containerAdjusters.
  destruct (String.eqb t ""); reflexivity.
Qed.

Lemma adjustWiringAfter_wiringAdjusters (t : string) (a : Adjuster)
  (w : Wiring) :
  _wiringAdjusters (_adjustWiringAfter t a w)
  = _addAdjuster (_wiringAdjusters w) t a.
Proof.
  unfold _adjustWiringAfter. rewrite ensureKey_wiringAdjusters.
  destruct (String.eqb t ""); reflexivity.
Qed.

Lemma addWiring_containerAdjusters (w' w : Wiring) :
  _containerAdjusters (_addWiring w' w)
  = _addAdjusters (_containerAdjusters w) (_containerAdjusters w').
Proof. reflexivity. Qed.

Lemma addWiring_wiringAdjusters (w' w : Wiring) :
  _wiringAdjusters (_addWiring w' w)
  = _addAdjusters (_wiringAdjusters w) (_wiringAdjusters w').
Proof. reflexivity. Qed.

Lemma In_keys_cA_adjustWiringAfter (k t : string) (a : Adjuster) (w : Wiring) :
  In k (keys (_containerAdjusters (_adjustWiringAfter t a w))) <->
  In k (keys (_containerAdjusters w)) \/ (t <> "" /\ k = dotted t) \/ k = "".
Proof.
  rewrite adjustWiringAfter_containerAdjusters, In_keys_addAdjuster.
  destruct (String.eqb_spec t "") as [->|Ht].
  - intuition congruence.
  - rewrite In_keys_ensure. intuition congruence.
Qed.

Lemma isValidContainerType_not_root (t : string) :
  isValidContainerType t = true -> t <> "".
Proof. intros H ->. discriminate. Qed.

Lemma wellKeyed_new (cls : string) : wellKeyed (newWiring cls None).
Proof.
  repeat split; cbn; intros; try contradiction.
Qed.

Lemma wellKeyed_adjustContainer (t : string) (f : Adjuster) (w : Wiring) :
  isValidContainerType t = true -> wellKeyed w ->
  wellKeyed (_adjustContainer t f w).
Proof.
  intros Ht (H1 & H2 & H3 & H4).
  pose proof (isValidContainerType_not_root t Ht) as Hne.
  repeat split.
  - intros k. rewrite adjustContainer_containerAdjusters, In_keys_addAdjuster.
    intros [Hk| ->]; [auto | eauto].
  - intros k. rewrite adjustContainer_wiringAdjusters, In_keys_ensure.
    intros [Hk| ->]; auto.
  - rewrite adjustContainer_containerAdjusters, In_keys_addAdjuster,
      adjustContainer_wiringAdjusters, In_keys_ensure.
    intros [Hk|E]; [left; now apply H3 | right; now apply dotted_inj].
  - rewrite adjustContainer_containerAdjusters, In_keys_addAdjuster,
      adjustContainer_wiringAdjusters, In_keys_ensure.
    intros [Hk| ->]; [left; now apply H3 | now right].
  - rewrite adjustContainer_containerAdjusters, In_keys_addAdjuster,
      adjustContainer_wiringAdjusters, In_keys_ensure.
    intros [Hk|E]; [left; auto | congruence].
Qed.

Lemma wellKeyed_adjustWiringAfter (t : string) (a : Adjuster) (w : Wiring) :
  t = "" \/ isValidContainerType t = true -> wellKeyed w ->
  wellKeyed (_adjustWiringAfter t a w).
Proof.
  intros Ht (H1 & H2 & H3 & H4). repeat split.
  - intros k. rewrite In_keys_cA_adjustWiringAfter.
    intros [Hk|[[Hne ->]| ->]]; auto.
    right. exists t. split; [reflexivity|]. destruct Ht; congruence.
  - intros k. rewrite adjustWiringAfter_wiringAdjusters, In_keys_addAdjuster.
    intros [Hk| ->]; auto.
  - rewrite In_keys_cA_adjustWiringAfter, adjustWiringAfter_wiringAdjusters,
      In_keys_addAdjuster.
    intros [Hk|[[Hne E]|E]].
    + left. now apply H3.
    + right. now apply dotted_inj.
    + now apply dotted_not_root in E.
  - rewrite In_keys_cA_adjustWiringAfter, adjustWiringAfter_wiringAdjusters,
      In_keys_addAdjuster.
    intros [Hk| ->]; [left; now apply H3 | right; left; auto].
  - intros _. apply In_keys_cA_adjustWiringAfter. auto.
Qed.

Lemma wellKeyed_addWiring (w' w : Wiring) :
  wellKeyed w' -> wellKeyed w -> wellKeyed (_addWiring w' w).
Proof.
  intros (S1 & S2 & S3 & S4) (H1 & H2 & H3 & H4). repeat split.
  - intros k. rewrite addWiring_containerAdjusters, In_keys_addAdjusters.
    intros [Hk|Hk]; auto.
  - intros k. rewrite addWiring_wiringAdjusters, In_keys_addAdjusters.
    intros [Hk|Hk]; auto.
  - rewrite addWiring_containerAdjusters, In_keys_addAdjusters,
      addWiring_wiringAdjusters, In_keys_addAdjusters.
    intros [Hk|Hk]; [left; now apply H3 | right; now apply S3].
  - rewrite addWiring_containerAdjusters, In_keys_addAdjusters,
      addWiring_wiringAdjusters, In_keys_addAdjusters.
    intros [Hk|Hk]; [left; now apply H3 | right; now apply S3].
  - rewrite addWiring_containerAdjusters, In_keys_addAdjusters,
      addWiring_wiringAdjusters, In_keys_addAdjusters.
    intros [Hk|Hk]; auto.
Qed.

Lemma wellKeyed_DefinitionPhase (w : Wiring) :
  DefinitionPhase w -> wellKeyed w.
Proof.
  induction 1 as [cls|w _ IH|a w _ IH|t a w Ht _ IH|t a w Ht _ IH
                  |w' w _ IH' _ IH].
  - apply wellKeyed_new.
  - now rewrite clone_eq.
  - apply wellKeyed_adjustWiringAfter; auto.
  - apply wellKeyed_adjustContainer; auto.
  - apply wellKeyed_adjustWiringAfter; auto.
  - apply wellKeyed_addWiring; auto.
Qed.

Section KeysOfInstances.

Variable suppliedBy : Adjuster -> option Container -> list Wiring.

Hypothesis supplies_public :
  forall v arg W, In W (suppliedBy v arg) -> DefinitionPhase W.

Lemma wellKeyed_call (v : Adjuster) (arg : option Container) (this : Wiring) :
  wellKeyed this -> wellKeyed (callWiringAdjuster suppliedBy v arg this).
Proof.
  intros (H1 & H2 & H3 & H4).
  assert (HW : forall W, In W (suppliedBy v arg) -> wellKeyed W)
    by (intros W HW; eapply wellKeyed_DefinitionPhase, supplies_public; eauto).
  assert (Hc : forall k,
             In k (keys (_containerAdjusters
                           (callWiringAdjuster suppliedBy v arg this))) <->
             In k (keys (_containerAdjusters this))
             \/ exists W, In W (suppliedBy v arg)
                          /\ In k (keys (_containerAdjusters W))).
  { intros k. rewrite call_containerAdjusters, In_keys_ensureAll,
      (In_keys_fold_addAdjusters _containerAdjusters). cbn [keys map In].
    tauto. }
  assert (Hq : forall k,
             In k (keys (_wiringAdjusters
                           (callWiringAdjuster suppliedBy v arg this))) <->
             In k (keys (_wiringAdjusters this))
             \/ exists W, In W (suppliedBy v arg)
                          /\ In k (keys (_wiringAdjusters W))).
  { intros k. rewrite call_wiringAdjusters.
    apply (In_keys_fold_addAdjusters _wiringAdjusters). }
  repeat split.
  - intros k Hk. apply Hc in Hk. destruct Hk as [Hk|(W & HWin & Hk)]; auto.
    destruct (HW W HWin) as (S1 & _). auto.
  - intros k Hk. apply Hq in Hk. destruct Hk as [Hk|(W & HWin & Hk)]; auto.
    destruct (HW W HWin) as (_ & S2 & _). auto.
  - intros Hk. apply Hq. apply Hc in Hk.
    destruct Hk as [Hk|(W & HWin & Hk)]; [left; now apply H3|].
    right. exists W. split; [exact HWin|].
    destruct (HW W HWin) as (_ & _ & S3 & _). now apply S3.
  - intros Hk. apply Hc. apply Hq in Hk.
    destruct Hk as [Hk|(W & HWin & Hk)]; [left; now apply H3|].
    right. exists W. split; [exact HWin|].
    destruct (HW W HWin) as (_ & _ & S3 & _). now apply S3.
  - intros Hk. apply Hc. apply Hq in Hk.
    destruct Hk as [Hk|(W & HWin & Hk)]; [left; auto|].
    right. exists W. split; [exact HWin|].
    destruct (HW W HWin) as (_ & _ & _ & S4). auto.
Qed.

Lemma wellKeyed_shifted (k : string) (rest : list Adjuster) (this : Wiring) :
  wellKeyed this -> wellKeyed (shifted k rest this).
Proof.
  unfold wellKeyed, shifted. cbn [_containerAdjusters _wiringAdjusters
                                   setWiringAdjusters].
  now rewrite keys_replaceAt.
Qed.

Lemma wellKeyed_gather (fuel : nat) (k : string) (arg : option Container)
  (this this' : Wiring) (calls : list Adjuster) :
  _gatherWiringSuppliedByWiringAdjusters suppliedBy fuel k arg this
  = Ok (this', calls) ->
  wellKeyed this -> wellKeyed this'.
Proof.
  intros H. apply gather_cases in H. destruct H as [(_ & -> & _)|[_ H]]; [auto|].
  revert fuel this this' calls H.
  apply (gatherLoop_ind suppliedBy k arg
           (fun this this' calls => wellKeyed this -> wellKeyed this')).
  - auto.
  - intros this v rest this' calls _ _ IH H. apply IH.
    now apply wellKeyed_shifted.
  - intros this v rest this' calls _ _ IH H. apply IH.
    now apply wellKeyed_call, wellKeyed_shifted.
Qed.

Lemma wellKeyed_Instance (w : Wiring) : Instance suppliedBy w -> wellKeyed w.
Proof.
  induction 1 as [w Hw|fuel self t args w p cr _ IH Hc
                  |fuel self t args w p factory base _ IH Hc].
  - now apply wellKeyed_DefinitionPhase.
  - rewrite clone_eq in Hc. apply _createContainer_inv in Hc.
    destruct Hc as (this1 & fl & Hg & _ & _ & _ & Hh).
    eapply wellKeyed_gather; [exact Hh|].
    eapply wellKeyed_gather; [exact Hg | exact IH].
  - rewrite clone_eq in Hc. unfold _createContainerFactory in Hc.
    destruct (_gatherWiringSuppliedByWiringAdjusters suppliedBy fuel "" None w)
      as [g| | |] eqn:Hg; cbn [bind] in Hc; try discriminate.
    destruct (lookup (dotted t) (_containerAdjusters (fst g)));
      [|discriminate].
    injection Hc as _ _ <-. destruct g as [this1 calls].
    eapply wellKeyed_gather; [exact Hg | exact IH].
Qed.

(** X7 ([Wiring#_adjustContainer], [Wiring#_adjustWiringAfter],
    [Wiring#_addWiring], [Wiring#_gatherWiringSuppliedByWiringAdjusters]).
    On every wiring instance a program can hold -- built, or left in a
    container or a factory by a creation whose wiring adjusters supply
    public wiring -- on which no container type with a list of container
    adjusters is or descends from a property of [Object.prototype], the two
    registries know the same container types: a type has a list of
    container adjusters exactly when it has a list of pending wiring
    adjusters; every type known is a valid container type and none is, or
    descends from, a property of [Object.prototype]; and the only other
    keys are the root of the container adjusters and the key of the base
    wiring adjusters, the root being known whenever the base key is. *)
Theorem both_registries_know_the_same_valid_types (w : Wiring)
  (Hw : Instance suppliedBy w)
  (Hown : forall t, In (dotted t) (keys (_containerAdjusters w)) ->
                    isOwnName t = true) :
  (forall k, In k (keys (_containerAdjusters w)) ->
             k = "" \/ exists t, k = dotted t /\ isValidContainerType t = true)
  /\ (forall k, In k (keys (_wiringAdjusters w)) ->
                k = "" \/ isValidContainerType k = true)
  /\ (forall t, t <> "" ->
        (In (dotted t) (keys (_containerAdjusters w)) <->
         In t (keys (_wiringAdjusters w))))
  /\ (In "" (keys (_wiringAdjusters w)) ->
      In "" (keys (_containerAdjusters w)))
  /\ (forall k, In k (keys (_wiringAdjusters w)) -> isOwnName k = true).
Proof.
  destruct (wellKeyed_Instance w Hw) as (H1 & H2 & H3 & H4).
  repeat split; auto; try (now apply H3).
  intros k Hk. destruct (String.eqb_spec k "") as [->|Hne]; [reflexivity|].
  apply Hown. now apply H3.
Qed.

End KeysOfInstances.

Lemma both_registries_know_the_same_valid_types_witness :
  (forall v arg W, In W (primerSupply v arg) -> DefinitionPhase W)
  /\ Instance primerSupply primerWiring
  /\ (forall t, In (dotted t) (keys (_containerAdjusters primerWiring)) ->
                isOwnName t = true)
  /\ forall t, t <> "" ->
       (In (dotted t) (keys (_containerAdjusters primerWiring)) <->
        In t (keys (_wiringAdjusters primerWiring))).
Proof.
  assert (H : Instance primerSupply primerWiring).
  { apply inst_public. unfold primerWiring, emptyWiring.
    apply def_adjustWiringAfter; [reflexivity | apply def_new]. }
  assert (Hown : forall t,
             In (dotted t) (keys (_containerAdjusters primerWiring)) ->
             isOwnName t = true).
  { intros t Ht. simpl in Ht. destruct Ht as [E|[E|[]]];
      [injection E as <-; reflexivity | discriminate E]. }
  split; [exact primerSupply_public|]. split; [exact H|].
  split; [exact Hown|].
  apply (both_registries_know_the_same_valid_types primerSupply
           primerSupply_public primerWiring H Hown).
Defined.
(** ** Wiring adjusters stand in every list *)

Lemma mapGet_known_iff (a : Adjuster) (m : SuppliedMap) :
  mapGet a m <> None <-> In a (map fst m).
Proof.
  induction m as [|[k v] m IH]; cbn [mapGet map fst In].
  - split; [congruence | intros []].
  - destruct (Nat.eqb_spec k a) as [->|Hne].
    + split; [auto | discriminate].
    + rewrite IH. split; [auto | intros [E|H]; [congruence | exact H]].
Qed.

Lemma isAncestorOf_root_dotted (t : string) : isAncestorOf "" (dotted t) = true.
Proof. apply isAncestorOf_iff. exists t. reflexivity. Qed.

Lemma lookup_root_addAdjuster_dotted (c : AdjusterCollection) (t : string)
  (f : Adjuster) (l : list Adjuster) :
  lookup "" c = Some l -> lookup "" (_addAdjuster c (dotted t) f) = Some l.
Proof.
  intros H. rewrite lookup_addAdjuster.
  rewrite (lookup_ensure_prefix _ _ _ _ H). reflexivity.
Qed.

Lemma lookup_root_addAdjuster_root (c : AdjusterCollection) (a : Adjuster) :
  exists l, lookup "" (_addAdjuster c "" a) = Some (l ++ [a])
            /\ forall l0, lookup "" c = Some l0 -> l = l0.
Proof.
  rewrite lookup_addAdjuster, lookup_ensure. cbn [String.eqb orb].
  destruct (lookup "" c) as [l0|].
  - exists l0. split; [reflexivity | congruence].
  - eexists. split; [reflexivity | discriminate].
Qed.

Lemma rooted_new (cls : string) : rooted (newWiring cls None).
Proof.
  split.
  - intros a H. now destruct H.
  - intros k l v H. discriminate.
Qed.

Lemma rooted_adjustContainer (t : string) (f : Adjuster) (w : Wiring) :
  rooted w -> rooted (_adjustContainer t f w).
Proof.
  intros [H1 H2]. split.
  - intros a Ha. destruct (H1 a Ha) as (l & Hl & Hin). exists l.
    split; [|exact Hin]. rewrite adjustContainer_containerAdjusters.
    now apply lookup_root_addAdjuster_dotted.
  - intros k l v Hl Hv. rewrite adjustContainer_wiringAdjusters, lookup_ensure in Hl.
    change (mapGet v (_wiringSuppliedByWiringAdjusters w) <> None).
    destruct (lookup k (_wiringAdjusters w)) as [l0|] eqn:E.
    + injection Hl as <-. eauto.
    + destruct (String.eqb t k); [|discriminate]. injection Hl as <-.
      destruct (getAncestorAdjusters_spec (_wiringAdjusters w) t)
        as [(n & _ & Hn & _)|[Hnil _]].
      * eauto.
      * rewrite Hnil in Hv. destruct Hv.
Qed.

Lemma rooted_adjustWiringAfter (t : string) (a : Adjuster) (w : Wiring) :
  rooted w -> rooted (_adjustWiringAfter t a w).
Proof.
  intros [H1 H2].
  assert (Hmap : forall x,
             mapGet x (_wiringSuppliedByWiringAdjusters (_adjustWiringAfter t a w))
             <> None <->
             mapGet x (_wiringSuppliedByWiringAdjusters w) <> None \/ x = a).
  { intros x. unfold _adjustWiringAfter. rewrite mapGet_ensureKey.
    replace (_wiringSuppliedByWiringAdjusters _)
      with (_wiringSuppliedByWiringAdjusters w)
      by (destruct (String.eqb t ""); reflexivity).
    destruct (mapGet x (_wiringSuppliedByWiringAdjusters w)).
    - split; [left; discriminate | discriminate].
    - destruct (Nat.eqb_spec a x) as [->|Hne].
      + split; [auto | discriminate].
      + split; [congruence | intros [H|H]; congruence]. }
  split.
  - intros x Hx. apply Hmap in Hx.
    rewrite adjustWiringAfter_containerAdjusters.
    destruct (lookup_root_addAdjuster_root
                (if String.eqb t "" then _containerAdjusters w
                 else _ensureContainerTypeExists (_containerAdjusters w) (dotted t))
                a) as (l & Hl & Hold).
    exists (l ++ [a]). split; [exact Hl|]. apply in_or_app.
    destruct Hx as [Hx| ->]; [left | right; now left].
    destruct (H1 x Hx) as (l0 & Hl0 & Hin).
    rewrite (Hold l0); [exact Hin|].
    destruct (String.eqb t ""); [exact Hl0 | now apply lookup_ensure_prefix].
  - intros k l v Hl Hv. apply Hmap.
    rewrite adjustWiringAfter_wiringAdjusters, lookup_addAdjuster, lookup_ensure
      in Hl.
    assert (Hseed : forall l0,
               match lookup k (_wiringAdjusters w) with
               | Some x => Some x
               | None => if String.eqb t k
                         then Some (_getAncestorAdjusters (_wiringAdjusters w) t)
                         else None
               end = Some l0 ->
               forall x, In x l0 ->
                 mapGet x (_wiringSuppliedByWiringAdjusters w) <> None).
    { intros l0 E x Hx. destruct (lookup k (_wiringAdjusters w)) as [l1|] eqn:E1.
      - injection E as <-. eauto.
      - destruct (String.eqb t k); [|discriminate]. injection E as <-.
        destruct (getAncestorAdjusters_spec (_wiringAdjusters w) t)
          as [(n & _ & Hn & _)|[Hnil _]].
        + eauto.
        + rewrite Hnil in Hx. destruct Hx. }
    destruct (match lookup k (_wiringAdjusters w) with
              | Some x => Some x
              | None => _
              end) as [l0|] eqn:E; [|discriminate].
    cbn [option_map] in Hl. injection Hl as <-.
    destruct (String.eqb k t || isAncestorOf t k).
    + apply in_app_or in Hv. destruct Hv as [Hv|[<-|[]]]; [left | now right].
      exact (Hseed l0 eq_refl v Hv).
    + left. exact (Hseed l0 eq_refl v Hv).
Qed.

Lemma rooted_addWiring (w' w : Wiring) :
  Public w' -> Public w -> rooted w' -> rooted w -> rooted (_addWiring w' w).
Proof.
  intros P' P [S1 S2] [H1 H2].
  assert (Hmap : forall x,
             mapGet x (_wiringSuppliedByWiringAdjusters (_addWiring w' w)) <> None
             <-> mapGet x (_wiringSuppliedByWiringAdjusters w) <> None
                 \/ mapGet x (_wiringSuppliedByWiringAdjusters w') <> None).
  { intros x. unfold _addWiring. rewrite mapGet_addSuppliedWiring.
    cbn [_wiringSuppliedByWiringAdjusters setWiringAdjusters
         setContainerAdjusters].
    destruct (mapGet x (_wiringSuppliedByWiringAdjusters w)).
    - split; [left; discriminate | discriminate].
    - split; [auto | intros [H|H]; [congruence | exact H]]. }
  split.
  - intros x Hx. apply Hmap in Hx. rewrite addWiring_containerAdjusters.
    destruct (addAdjusters_appendedTo (_containerAdjusters w)
                (_containerAdjusters w') (public_cA_keys w' P'))
      as (_ & Hold & Hsrc).
    destruct Hx as [Hx|Hx].
    + destruct (H1 x Hx) as (l & Hl & Hin).
      destruct (Hold "" l Hl) as (extra & ->). eexists.
      split; [reflexivity | apply in_or_app; now left].
    + destruct (S1 x Hx) as (l & Hl & Hin).
      destruct (Hsrc "" l Hl) as (pre & -> & _). eexists.
      split; [reflexivity | apply in_or_app; now right].
  - intros k l v Hl Hv. apply Hmap.
    rewrite addWiring_wiringAdjusters in Hl.
    set (U := map fst (_wiringSuppliedByWiringAdjusters w)
              ++ map fst (_wiringSuppliedByWiringAdjusters w')).
    assert (HU : allIn U (_addAdjusters (_wiringAdjusters w)
                                        (_wiringAdjusters w'))).
    { apply allIn_addAdjusters.
      - intros k0 l0 Hin x Hx. apply in_or_app. left. apply mapGet_known_iff.
        apply (H2 k0 l0 x); [|exact Hx].
        apply In_lookup_Some; [exact (public_wA_keys w P) | exact Hin].
      - intros k0 l0 Hin x Hx. apply in_or_app. right. apply mapGet_known_iff.
        apply (S2 k0 l0 x); [|exact Hx].
        apply In_lookup_Some; [exact (public_wA_keys w' P') | exact Hin]. }
    apply lookup_Some_In in Hl. apply (HU k l Hl) in Hv.
    apply in_app_or in Hv. rewrite <- !mapGet_known_iff in Hv. exact Hv.
Qed.

Lemma rooted_DefinitionPhase (w : Wiring) : DefinitionPhase w -> rooted w.
Proof.
  induction 1 as [cls|w _ IH|a w _ IH|t a w Ht _ IH|t a w Ht _ IH
                  |w' w Hw' IH' Hw IH].
  - apply rooted_new.
  - now rewrite clone_eq.
  - now apply rooted_adjustWiringAfter.
  - now apply rooted_adjustContainer.
  - now apply rooted_adjustWiringAfter.
  - apply rooted_addWiring; auto using DefinitionPhase_Public.
Qed.

(** X8 ([Wiring#_adjustWiringAfter], "Add to all container types", and the
    comments of the [Wiring] constructor).  On a wiring of the definition
    phase, every wiring adjuster the wiring knows (every key of its map)
    stands in the container adjuster list of the root and of every known
    container type, so that what it supplies can reach a container of any
    type; and every wiring adjuster waiting in a list of pending wiring
    adjusters is a key of the map. *)
Theorem wiring_adjusters_stand_in_every_list (w : Wiring)
  (Hw : DefinitionPhase w) :
  (forall a, mapGet a (_wiringSuppliedByWiringAdjusters w) <> None ->
     (exists l, lookup "" (_containerAdjusters w) = Some l /\ In a l)
     /\ forall k l, lookup k (_containerAdjusters w) = Some l -> In a l)
  /\ (forall k l v, lookup k (_wiringAdjusters w) = Some l -> In v l ->
                    mapGet v (_wiringSuppliedByWiringAdjusters w) <> None).
Proof.
  destruct (rooted_DefinitionPhase w Hw) as [H1 H2].
  split; [|exact H2].
  intros a Ha. destruct (H1 a Ha) as (l0 & Hl0 & Hin).
  split; [eauto|].
  intros k l Hl.
  destruct (wellKeyed_DefinitionPhase w Hw) as (K1 & _).
  destruct (K1 k (lookup_known_keys _ _ _ Hl)) as [->|(t & -> & _)].
  - congruence.
  - apply (public_cA w (DefinitionPhase_Public w Hw) "" (dotted t) l0 l Hl0 Hl
             (isAncestorOf_root_dotted t)).
    exact Hin.
Qed.

Lemma wiring_adjusters_stand_in_every_list_witness :
  DefinitionPhase
    (_adjustContainer "B" 2
       (_adjustWiringAfter "A" 7 (_adjustContainer "A.C" 1 emptyWiring)))
  /\ forall k l v,
       lookup k (_wiringAdjusters
                   (_adjustContainer "B" 2
                      (_adjustWiringAfter "A" 7
                         (_adjustContainer "A.C" 1 emptyWiring)))) = Some l ->
       In v l ->
       mapGet v (_wiringSuppliedByWiringAdjusters
                   (_adjustContainer "B" 2
                      (_adjustWiringAfter "A" 7
                         (_adjustContainer "A.C" 1 emptyWiring)))) <> None.
Proof.
  assert (H : DefinitionPhase
                (_adjustContainer "B" 2
                   (_adjustWiringAfter "A" 7
                      (_adjustContainer "A.C" 1 emptyWiring)))).
  { apply def_adjustContainer; [reflexivity|].
    apply def_adjustWiringAfter; [reflexivity|].
    apply def_adjustContainer; [reflexivity|]. apply def_new. }
  split; [exact H|].
  apply (wiring_adjusters_stand_in_every_list _ H).
Defined.


(** ** Structured builders *)

Lemma scopeContainerType_of_valid (t : string) :
  isValidScopeType t = true -> isValidContainerType (scopeContainerType t) = true.
Proof.
  unfold isValidScopeType. intros H. apply andb_true_iff in H.
  destruct H as [Hne Hdot]. apply negb_true_iff in Hdot.
  rewrite scopeContainerType_valid, Hne. cbn [andb].
  destruct (String.eqb_spec (lastChar t) ".") as [E|E]; [|reflexivity].
  apply lastChar_dot_includes in E. congruence.
Qed.

Lemma scopeContainerTypes_unrelated (t t' : string) :
  isValidScopeType t' = true ->
  isAncestorOf (scopeContainerType t) (scopeContainerType t') = false.
Proof.
  unfold isValidScopeType. intros H. apply andb_true_iff in H.
  destruct H as [_ Hdot]. apply negb_true_iff in Hdot.
  destruct (isAncestorOf (scopeContainerType t) (scopeContainerType t')) eqn:E;
    [|reflexivity].
  apply isAncestorOf_iff in E. destruct E as [r E].
  unfold scopeContainerType in E. rewrite append_assoc in E.
  cbn [String.append] in E. injection E as E.
  rewrite E, includesDot_append_dot in Hdot. discriminate.
Qed.

Lemma isAncestorOf_Scope (t : string) :
  isAncestorOf "Scope" (scopeContainerType t) = true.
Proof. apply isAncestorOf_iff. exists t. reflexivity. Qed.

Lemma eqb_scopeContainerType (t t' : string) :
  String.eqb (scopeContainerType t) (scopeContainerType t') = String.eqb t t'.
Proof. reflexivity. Qed.

Lemma structuredCalls_registrations (b : WiringBuilder)
  (cs : list StructuredCall) :
  forallb isContainerAdjustment cs = true ->
  forall s,
    structuredCalls b cs s
    = calls b (map registrationCall (flat_map structuredRegistration cs)) s.
Proof.
  unfold structuredCalls, calls.
  induction cs as [|c cs IH]; intros Hcs s; [reflexivity|].
  cbn [forallb] in Hcs. apply andb_true_iff in Hcs. destruct Hcs as [Hc Hcs].
  cbn [fold_left flat_map]. rewrite map_app, fold_left_app, (IH Hcs).
  f_equal.
  destruct c as [f|a|f|[t|] f|c]; try discriminate; try reflexivity.
  cbn [structuredCall structuredRegistration adjustScopeContainer].
  destruct (isValidScopeType t); reflexivity.
Qed.

Lemma structuredRegistrations_valid (cs : list StructuredCall) (u : string)
  (f : Adjuster) :
  In (u, f) (flat_map structuredRegistration cs) ->
  isValidContainerType u = true.
Proof.
  intros H. apply in_flat_map in H. destruct H as (c & _ & H).
  destruct c as [g|a|g|[t|] g|c]; cbn [structuredRegistration In] in H.
  - destruct H as [[= <- _]|[]]. reflexivity.
  - destruct H.
  - destruct H as [[= <- _]|[]]. reflexivity.
  - destruct (isValidScopeType t) eqn:E; [|destruct H].
    destruct H as [[= <- _]|[]]. now apply scopeContainerType_of_valid.
  - destruct H as [[= <- _]|[]]. reflexivity.
  - destruct H.
Qed.

Lemma registeredFor_flat_map {A : Type} (t : string)
  (g : A -> list (string * Adjuster)) (l : list A) :
  registeredFor t (flat_map g l) = flat_map (fun x => registeredFor t (g x)) l.
Proof.
  induction l as [|x l IH]; [reflexivity|].
  cbn [flat_map]. now rewrite registeredFor_app, IH.
Qed.

Lemma registeredFor_Boot (cs : list StructuredCall) :
  registeredFor "Boot" (flat_map structuredRegistration cs) = bootAdjusters cs.
Proof.
  rewrite registeredFor_flat_map. unfold bootAdjusters.
  apply flat_map_ext. intros c.
  destruct c as [g|a|g|[t|] g|c]; try reflexivity.
  cbn [structuredRegistration]. destruct (isValidScopeType t); reflexivity.
Qed.

Lemma registeredFor_App (cs : list StructuredCall) :
  registeredFor "App" (flat_map structuredRegistration cs) = appAdjusters cs.
Proof.
  rewrite registeredFor_flat_map. unfold appAdjusters.
  apply flat_map_ext. intros c.
  destruct c as [g|a|g|[t|] g|c]; try reflexivity.
  cbn [structuredRegistration]. destruct (isValidScopeType t); reflexivity.
Qed.

Lemma registeredFor_Scope (scopeType : string) (cs : list StructuredCall) :
  isValidScopeType scopeType = true ->
  registeredFor (scopeContainerType scopeType)
                (flat_map structuredRegistration cs)
  = scopeAdjusters scopeType cs.
Proof.
  intros Hv. rewrite registeredFor_flat_map. unfold scopeAdjusters.
  apply flat_map_ext. intros c.
  destruct c as [g|a|g|[t|] g|c]; try reflexivity.
  - cbn [structuredRegistration].
    destruct (isValidScopeType t) eqn:E.
    + cbn [registeredFor flat_map fst snd].
      rewrite eqb_scopeContainerType, scopeContainerTypes_unrelated by exact Hv.
      rewrite orb_false_r, app_nil_r. reflexivity.
    + destruct (String.eqb_spec t scopeType) as [->|_]; [congruence|].
      reflexivity.
  - cbn [structuredRegistration registeredFor flat_map fst snd].
    rewrite isAncestorOf_Scope, orb_true_r. reflexivity.
Qed.

Lemma newStructuredWiringBuilder_fresh (pB pA : Adjuster) (s : Store) :
  exists s1 w,
    newStructuredWiringBuilder pB pA None s
    = Ok (mkBuilder (S (List.length s)), s1)
    /\ deref s1 (S (List.length s)) = Some w
    /\ holdsRegistrations [("Boot", pB); ("App", pA)] w
    /\ wiringClass w = "StructuredWiring"
    /\ List.length s1 = 2 + List.length s.
Proof.
  set (new := newWiring "StructuredWiring" None).
  set (s0 := (s ++ [new]) ++ [clone new]).
  assert (Hlen : List.length (s ++ [new]) = S (List.length s))
    by (rewrite length_app; cbn; lia).
  assert (H0 : deref s0 (S (List.length s)) = Some new).
  { unfold s0. rewrite <- Hlen, clone_eq. apply deref_alloc_new. }
  assert (Hl0 : List.length s0 = 2 + List.length s).
  { unfold s0. rewrite length_app, Hlen. cbn. lia. }
  exists (assign (S (List.length s))
            (_adjustContainer "App" pA (_adjustContainer "Boot" pB new))
            (assign (S (List.length s)) (_adjustContainer "Boot" pB new) s0)).
  exists (_adjustContainer "App" pA (_adjustContainer "Boot" pB new)).
  split; [|split; [|split; [|split]]].
  - unfold newStructuredWiringBuilder, alloc, newWiringBuilder.
    fold new. rewrite deref_alloc_new. unfold alloc. rewrite Hlen.
    fold s0. cbn [bind fst snd].
    unfold adjustBootContainer, adjustAppContainer, adjustContainer, onWiring.
    cbn [isValidContainerType _wiring]. change (isValidContainerType "Boot") with true.
    cbn iota. rewrite H0. cbn [bind].
    change (isValidContainerType "App") with true. cbn iota.
    rewrite deref_assign_eq by lia. reflexivity.
  - apply deref_assign_eq. rewrite length_assign. lia.
  - apply (holdsRegistrations_adjustContainer [("Boot", pB)] _ "App" pA);
      [reflexivity|].
    apply (holdsRegistrations_adjustContainer [] _ "Boot" pB); [reflexivity|].
    apply holdsRegistrations_new.
  - reflexivity.
  - rewrite !length_assign. exact Hl0.
Qed.
Lemma creation_of_registered
  (suppliedBy : Adjuster -> option Container -> list Wiring)
  (fuel : nat) (r : ref) (t : string) (args : list Value) (s : Store)
  (regs : list (string * Adjuster)) (w : Wiring) :
  deref s r = Some w -> holdsRegistrations regs w ->
  isValidContainerType t = true -> In t (map fst regs) ->
  creationOf (createContainer suppliedBy (S fuel) r t args s)
  = Ok (mkCreation
          (RegisterBean "wiring" (List.length s)
           :: map (fun f => Adjust f args)
                  (applyAdjusters [] (registeredFor t regs))) [] []).
Proof.
  intros Hw H Hv Ht.
  rewrite (createContainer_from suppliedBy (S fuel) r t args s w Hw), Hv, clone_eq.
  rewrite (_createContainer_registrations suppliedBy fuel _ t args regs w H Ht).
  reflexivity.
Qed.

Lemma structuredMethod_eq {A : Type} (this : ref) (s : Store) (w : Wiring)
  (method : Result A) :
  deref s this = Some w -> isStructuredWiring w = true ->
  structuredMethod this s method = method.
Proof. intros Hw Hc. unfold structuredMethod. now rewrite Hw, Hc. Qed.

(** X12 ([StructuredWiringBuilder], its constructor and its
    [adjustBootContainer], [adjustAppContainer] and
    [adjustScopeContainer]; [StructuredWiring#createBootContainer] and
    [createScopeContainer]).  A structured builder made without a wiring, on
    which only container adjusters are registered, builds a
    [StructuredWiring] whose Boot container is populated by
    [_populateBootContainer] and then adjusted by the boot adjusters in
    registration order, whose App container is populated by
    [_populateAppContainer] and then adjusted by the app adjusters, and
    whose scope container of a valid scope type that has an adjuster of
    its own is adjusted, in registration order, by the adjusters registered
    for all scopes and those registered for that scope type, and by no
    adjuster of another scope type; each adjuster is called at its first
    occurrence only. *)
Theorem structured_containers_are_populated_then_adjusted_in_order
  (_populateBootContainer _populateAppContainer : Adjuster)
  (suppliedBy : Adjuster -> option Container -> list Wiring)
  (fuel : nat) (s : Store) (cs : list StructuredCall)
  (Hcs : forallb isContainerAdjustment cs = true) :
  exists b s1 r s2,
    newStructuredWiringBuilder _populateBootContainer _populateAppContainer
                               None s = Ok (b, s1)
    /\ build b (structuredCalls b cs s1) = Ok (r, s2)
    /\ (exists wb, deref s2 r = Some wb
                   /\ wiringClass wb = "StructuredWiring")
    /\ (forall bootOptions,
          creationOf (createBootContainer suppliedBy (S fuel) r bootOptions s2)
          = Ok (mkCreation
                  (RegisterBean "wiring" (List.length s2)
                   :: map (fun f => Adjust f [bootOptions])
                          (applyAdjusters []
                             (_populateBootContainer :: bootAdjusters cs)))
                  [] []))
    /\ (forall args,
          creationOf (createContainer suppliedBy (S fuel) r "App" args s2)
          = Ok (mkCreation
                  (RegisterBean "wiring" (List.length s2)
                   :: map (fun f => Adjust f args)
                          (applyAdjusters []
                             (_populateAppContainer :: appAdjusters cs)))
                  [] []))
    /\ (forall scopeType f args,
          isValidScopeType scopeType = true ->
          In (AdjustScopeContainer (Some scopeType) f) cs ->
          creationOf (createScopeContainer suppliedBy (S fuel) r scopeType
                                           args s2)
          = Ok (mkCreation
                  (RegisterBean "wiring" (List.length s2)
                   :: map (fun f => Adjust f args)
                          (applyAdjusters [] (scopeAdjusters scopeType cs)))
                  [] [])).
Proof.
  destruct (newStructuredWiringBuilder_fresh _populateBootContainer
              _populateAppContainer s) as (s1 & w & Hb & Hw & H & Hcls & Hlen).
  set (b := mkBuilder (S (List.length s))) in *.
  set (regs := flat_map structuredRegistration cs).
  destruct (calls_registrations b regs
              (structuredRegistrations_valid cs)
              [("Boot", _populateBootContainer); ("App", _populateAppContainer)]
              s1 w Hw H) as (w' & Hw' & H' & Hlen').
  rewrite <- (structuredCalls_registrations b cs Hcs) in Hw', Hlen'.
  destruct (calls_wiringClass_kept b (map registrationCall regs) s1 w Hw)
    as (w'' & Hw'' & Hcls').
  rewrite <- (structuredCalls_registrations b cs Hcs) in Hw''.
  assert (w'' = w') by congruence. subst w''.
  exists b, s1, (List.length (structuredCalls b cs s1)),
    (structuredCalls b cs s1 ++ [clone w']).
  assert (Hr : deref (structuredCalls b cs s1 ++ [clone w'])
                     (List.length (structuredCalls b cs s1)) = Some w').
  { rewrite deref_alloc_new, clone_eq. reflexivity. }
  assert (Hsw : isStructuredWiring w' = true).
  { unfold isStructuredWiring. rewrite Hcls', Hcls. reflexivity. }
  split; [exact Hb|]. split; [|split; [|split; [|split]]].
  - unfold build. rewrite Hw'. reflexivity.
  - exists w'. split; [exact Hr | congruence].
  - intros bootOptions. unfold createBootContainer.
    rewrite (structuredMethod_eq _ _ w' _ Hr Hsw).
    rewrite (creation_of_registered suppliedBy fuel _ "Boot" [bootOptions] _ _
               w' Hr H'); [|reflexivity | cbn; auto].
    cbn [registeredFor flat_map app fst snd]. fold (registeredFor "Boot" regs).
    unfold regs. rewrite registeredFor_Boot. reflexivity.
  - intros args.
    rewrite (creation_of_registered suppliedBy fuel _ "App" args _ _
               w' Hr H'); [|reflexivity | cbn; auto].
    cbn [registeredFor flat_map app fst snd]. fold (registeredFor "App" regs).
    unfold regs. rewrite registeredFor_App. reflexivity.
  - intros scopeType f args Hv Hin. unfold createScopeContainer.
    rewrite (structuredMethod_eq _ _ w' _ Hr Hsw).
    rewrite (creation_of_registered suppliedBy fuel _
               (scopeContainerType scopeType) args _ _ w' Hr H').
    + rewrite registeredFor_app.
      replace (registeredFor (scopeContainerType scopeType)
                 [("Boot", _populateBootContainer);
                  ("App", _populateAppContainer)]) with (@nil Adjuster)
        by reflexivity.
      cbn [app]. unfold regs. rewrite registeredFor_Scope by exact Hv.
      reflexivity.
    + now apply scopeContainerType_of_valid.
    + rewrite map_app. apply in_or_app. right.
      apply in_map_iff. exists (scopeContainerType scopeType, f).
      split; [reflexivity|]. apply in_flat_map.
      exists (AdjustScopeContainer (Some scopeType) f).
      split; [exact Hin|]. cbn [structuredRegistration]. rewrite Hv. now left.
Qed.

Lemma structured_containers_are_populated_then_adjusted_in_order_witness :
  forallb isContainerAdjustment
    [AdjustScopeContainer (Some "Request") 7; AdjustBootContainer 5;
     AdjustScopeContainer None 6; AdjustScopeContainer (Some "Session") 8;
     AdjustScopeContainer (Some "Request") 9] = true
  /\ exists b s1 r s2,
       newStructuredWiringBuilder 0 1 None [] = Ok (b, s1)
       /\ build b (structuredCalls b
                     [AdjustScopeContainer (Some "Request") 7;
                      AdjustBootContainer 5; AdjustScopeContainer None 6;
                      AdjustScopeContainer (Some "Session") 8;
                      AdjustScopeContainer (Some "Request") 9] s1) = Ok (r, s2)
       /\ (exists wb, deref s2 r = Some wb
                      /\ wiringClass wb = "StructuredWiring")
       /\ (forall bootOptions,
             creationOf (createBootContainer noSupply 1 r bootOptions s2)
             = Ok (mkCreation
                     (RegisterBean "wiring" (List.length s2)
                      :: map (fun f => Adjust f [bootOptions])
                             (applyAdjusters [] [0; 5])) [] [])).
Proof.
  split; [reflexivity|].
  destruct (structured_containers_are_populated_then_adjusted_in_order
              0 1 noSupply 0 []
              [AdjustScopeContainer (Some "Request") 7; AdjustBootContainer 5;
               AdjustScopeContainer None 6;
               AdjustScopeContainer (Some "Session") 8;
               AdjustScopeContainer (Some "Request") 9] eq_refl)
    as (b & s1 & r & s2 & H1 & H2 & H3 & H4 & _).
  exists b, s1, r, s2. auto.
Defined.

(** ** Boot and App are always known *)

Lemma call_keeps_types (b : WiringBuilder) (c : BuilderCall) (s s' : Store)
  (w : Wiring) :
  call b c s = Ok s' -> deref s (_wiring b) = Some w ->
  exists w', deref s' (_wiring b) = Some w'
             /\ forall k, In k (keys (_containerAdjusters w)) ->
                          In k (keys (_containerAdjusters w')).
Proof.
  intros H Hw.
  assert (G : exists f, onWiring b f s = Ok s'
                        /\ forall x k, In k (keys (_containerAdjusters x)) ->
                                       In k (keys (_containerAdjusters (f x)))).
  { destruct c; simpl in H.
    - eexists; split; [exact H|]. intros x k Hk.
      apply In_keys_cA_adjustWiringAfter. now left.
    - unfold adjustContainer in H.
      destruct (isValidContainerType containerType); [|discriminate].
      eexists; split; [exact H|]. intros x k Hk.
      rewrite adjustContainer_containerAdjusters. apply In_keys_addAdjuster.
      now left.
    - unfold adjustWiringAfter in H.
      destruct (isValidContainerType containerType); [|discriminate].
      eexists; split; [exact H|]. intros x k Hk.
      apply In_keys_cA_adjustWiringAfter. now left.
    - unfold addWiring in H. destruct (deref s wiring); [|discriminate].
      eexists; split; [exact H|]. intros x k Hk.
      rewrite addWiring_containerAdjusters. apply In_keys_addAdjusters.
      now left. }
  destruct G as (f & G & Hf). apply onWiring_frame in G.
  destruct G as (_ & _ & w0 & Hw0 & Hw'). rewrite Hw in Hw0.
  injection Hw0 as <-. exists (f w). split; [assumption | apply Hf].
Qed.

Lemma structuredCall_is_call (b : WiringBuilder) (c : StructuredCall)
  (s s' : Store) :
  structuredCall b c s = Ok s' -> exists c', call b c' s = Ok s'.
Proof.
  destruct c as [f|a|f|[t|] f|c]; cbn [structuredCall]; intros H.
  - exists (AdjustContainer "Boot" f). exact H.
  - exists (AdjustWiringAfter "Boot" a). exact H.
  - exists (AdjustContainer "App" f). exact H.
  - unfold adjustScopeContainer in H.
    destruct (isValidScopeType t); [|discriminate].
    exists (AdjustContainer (scopeContainerType t) f). exact H.
  - exists (AdjustContainer "Scope" f). exact H.
  - exists c. exact H.
Qed.

Lemma structuredCalls_keep_types (b : WiringBuilder)
  (cs : list StructuredCall) :
  forall s w, deref s (_wiring b) = Some w ->
  exists w', deref (structuredCalls b cs s) (_wiring b) = Some w'
             /\ forall k, In k (keys (_containerAdjusters w)) ->
                          In k (keys (_containerAdjusters w')).
Proof.
  unfold structuredCalls.
  induction cs as [|c cs IH]; intros s w Hw; cbn [fold_left]; [eauto|].
  destruct (structuredCall b c s) as [s'| | |] eqn:E; try (now apply IH).
  destruct (structuredCall_is_call b c s s' E) as [c' E'].
  destruct (call_keeps_types b c' s s' w E' Hw) as (w1 & Hw1 & Hk1).
  destruct (IH s' w1 Hw1) as (w2 & Hw2 & Hk2). exists w2. split; auto.
Qed.

Lemma known_type_is_found
  (suppliedBy : Adjuster -> option Container -> list Wiring)
  (fuel : nat) (this : ref) (t : string) (s : Store) (w : Wiring) :
  deref s this = Some w -> In (dotted t) (keys (_containerAdjusters w)) ->
  (forall args, createContainer suppliedBy fuel this t args s <> RangeError)
  /\ (forall args,
        createContainerFactory suppliedBy fuel this t args s <> RangeError).
Proof.
  intros Hw Hk.
  assert (G : forall this1 base,
             _gatherWiringSuppliedByWiringAdjusters suppliedBy fuel "" None
               (clone w) = Ok (this1, base) ->
             lookup (dotted t) (_containerAdjusters this1) <> None).
  { intros this1 base Hg. rewrite clone_eq in Hg. apply lookup_known_iff.
    apply (gather_known_types _ _ _ _ _ _ _ Hg). now left. }
  split; intros args H.
  - rewrite createContainer_unfold, Hw in H.
    destruct (isValidContainerType t); [|discriminate].
    destruct (_createContainer suppliedBy fuel (List.length s) t args (clone w))
      as [x| | |] eqn:E; cbn [bind] in H; try discriminate.
    apply _createContainer_RangeError in E.
    destruct E as (this1 & base & Hg & Hnone). exact (G _ _ Hg Hnone).
  - rewrite createContainerFactory_unfold, Hw in H.
    destruct (isValidContainerType t); [|discriminate].
    unfold _createContainerFactory in H.
    destruct (_gatherWiringSuppliedByWiringAdjusters suppliedBy fuel "" None
                (clone w)) as [[this1 base]| | |] eqn:Hg; cbn [bind] in H;
      try discriminate.
    + cbn [fst snd] in H. pose proof (G _ _ eq_refl) as Hn.
      destruct (lookup (dotted t) (_containerAdjusters this1));
        [discriminate | congruence].
    + now apply gather_not_RangeError in Hg.
Qed.

(** X13 ([StructuredWiringBuilder], constructor; [WiringBuilder#build];
    [StructuredWiring#createBootContainer]).  Whatever wiring a structured
    builder is made from and whatever is called on it afterwards -- container
    adjusters, wiring adjusters, [addWiring], calls that throw -- the wiring
    it builds knows the container types [Boot] and [App]: creating the Boot
    container, the App container or a factory for either never fails with
    "container type not found". *)
Theorem structured_wiring_always_knows_Boot_and_App
  (_populateBootContainer _populateAppContainer : Adjuster)
  (suppliedBy : Adjuster -> option Container -> list Wiring)
  (wiring : option ref) (s s1 s2 : Store) (b : WiringBuilder)
  (cs : list StructuredCall) (r : ref)
  (Hb : newStructuredWiringBuilder _populateBootContainer
          _populateAppContainer wiring s = Ok (b, s1))
  (Hr : build b (structuredCalls b cs s1) = Ok (r, s2)) :
  forall fuel,
    (forall bootOptions,
       createBootContainer suppliedBy fuel r bootOptions s2 <> RangeError)
    /\ (forall args, createContainer suppliedBy fuel r "App" args s2
                     <> RangeError)
    /\ (forall args, createContainerFactory suppliedBy fuel r "Boot" args s2
                     <> RangeError)
    /\ (forall args, createContainerFactory suppliedBy fuel r "App" args s2
                     <> RangeError).
Proof.
  assert (H1 : exists w1, deref s1 (_wiring b) = Some w1
                          /\ In ".Boot" (keys (_containerAdjusters w1))
                          /\ In ".App" (keys (_containerAdjusters w1))).
  { unfold newStructuredWiringBuilder in Hb.
    destruct (match wiring with
              | Some r0 => (r0, s)
              | None => alloc (newWiring "StructuredWiring" None) s
              end) as [src s0].
    destruct (newWiringBuilder (Some src) s0) as [[b0 s0']| | |] eqn:Eb;
      cbn [bind fst snd] in Hb; try discriminate.
    destruct (adjustBootContainer b0 _populateBootContainer s0')
      as [sa| | |] eqn:Ea; cbn [bind] in Hb; try discriminate.
    destruct (adjustAppContainer b0 _populateAppContainer sa)
      as [sb| | |] eqn:Eapp; cbn [bind] in Hb; try discriminate.
    injection Hb as <- <-.
    unfold adjustBootContainer, adjustContainer in Ea.
    change (isValidContainerType "Boot") with true in Ea. cbn iota in Ea.
    unfold adjustAppContainer, adjustContainer in Eapp.
    change (isValidContainerType "App") with true in Eapp. cbn iota in Eapp.
    apply onWiring_frame in Ea. destruct Ea as (_ & _ & w0 & _ & Hwa).
    apply onWiring_frame in Eapp. destruct Eapp as (_ & _ & wa & Hwa' & Hwb).
    assert (wa = _adjustContainer "Boot" _populateBootContainer w0)
      by congruence. subst wa.
    eexists. split; [exact Hwb|]. split.
    - rewrite adjustContainer_containerAdjusters. apply In_keys_addAdjuster.
      left. rewrite adjustContainer_containerAdjusters.
      apply In_keys_addAdjuster. now right.
    - rewrite adjustContainer_containerAdjusters. apply In_keys_addAdjuster.
      now right. }
  destruct H1 as (w1 & Hw1 & HB & HA).
  destruct (structuredCalls_keep_types b cs s1 w1 Hw1) as (w2 & Hw2 & Hk).
  unfold build in Hr. rewrite Hw2 in Hr. unfold alloc in Hr.
  injection Hr as <- <-.
  assert (Hd : deref (structuredCalls b cs s1 ++ [clone w2])
                     (List.length (structuredCalls b cs s1)) = Some w2).
  { rewrite deref_alloc_new, clone_eq. reflexivity. }
  intros fuel.
  destruct (known_type_is_found suppliedBy fuel _ "Boot" _ w2 Hd (Hk _ HB))
    as [B1 B2].
  destruct (known_type_is_found suppliedBy fuel _ "App" _ w2 Hd (Hk _ HA))
    as [A1 A2].
  split; [|split; [|split]]; auto.
  intros bootOptions. unfold createBootContainer, structuredMethod.
  rewrite Hd. destruct (isStructuredWiring w2); [apply B1 | discriminate].
Qed.

Lemma structured_wiring_always_knows_Boot_and_App_witness :
  (exists s1,
     newStructuredWiringBuilder 0 1 (Some 0) [baseSuppliedWiring]
     = Ok (mkBuilder 1, s1))
  /\ forall bootOptions,
       createBootContainer testSupply 5 2 bootOptions
         (returned
            (bs <- newStructuredWiringBuilder 0 1 (Some 0)
                     [baseSuppliedWiring] ;;
             r <- build (fst bs)
                    (structuredCalls (fst bs)
                       [AdjustWiringAfterBoot 20;
                        AdjustScopeContainer (Some "a.b") 4;
                        Inherited (AddWiring 0)] (snd bs)) ;;
             Ok (snd r)) [])
       <> RangeError.
Proof.
  split; [eexists; vm_compute; reflexivity|].
  intros bootOptions.
  refine (proj1 (structured_wiring_always_knows_Boot_and_App 0 1 testSupply
                   (Some 0) [baseSuppliedWiring]
                   (snd (returned (newStructuredWiringBuilder 0 1 (Some 0)
                                     [baseSuppliedWiring]) (mkBuilder 0, [])))
                   _ (mkBuilder 1)
                   [AdjustWiringAfterBoot 20;
                    AdjustScopeContainer (Some "a.b") 4;
                    Inherited (AddWiring 0)] 2 _ _ 5) bootOptions).
  - vm_compute. reflexivity.
  - vm_compute. reflexivity.
Defined.

(** ** Base wiring adjusters and the hierarchy *)

Lemma getAncestorAdjusters_ext (c c' : AdjusterCollection) (t : string) :
  (forall k, isAncestorOf k t = true -> lookup k c = lookup k c') ->
  _getAncestorAdjusters c t = _getAncestorAdjusters c' t.
Proof.
  intros H.
  destruct (getAncestorAdjusters_spec c t)
    as [(n & Hn & Hl & Hnear)|[Hnil Hnone]];
    destruct (getAncestorAdjusters_spec c' t)
      as [(n' & Hn' & Hl' & Hnear')|[Hnil' Hnone']].
  - assert (E : n = n').
    { destruct (Hnear' n Hn) as [E|E]; [rewrite <- (H n Hn); congruence | exact E|].
      destruct (Hnear n' Hn') as [E'|E'];
        [rewrite (H n' Hn'); congruence | now symmetry|].
      pose proof (isAncestorOf_trans _ _ _ E E') as C.
      rewrite isAncestorOf_irrefl in C. discriminate. }
    subst n'. rewrite (H n Hn) in Hl. congruence.
  - rewrite (H n Hn), (Hnone' n Hn) in Hl. discriminate.
  - rewrite <- (H n' Hn'), (Hnone n' Hn') in Hl'. discriminate.
  - congruence.
Qed.

Lemma ancestor_keeps_first_char (k t : string) :
  isAncestorOf k t = true -> startsWith t "." = false ->
  k <> "" /\ startsWith k "." = false.
Proof.
  intros Hk Ht. apply isAncestorOf_iff in Hk. destruct Hk as [r ->].
  destruct k as [|c k].
  - exfalso.
    assert (E : startsWith (String.append "" (String dot r)) "." = true)
      by (apply startsWith_iff; exists r; reflexivity).
    congruence.
  - split; [discriminate|].
    destruct (startsWith (String c k) ".") eqn:E; [|reflexivity].
    apply startsWith_iff in E. destruct E as [r' E]. cbn in E.
    injection E as -> _.
    assert (E : startsWith (String.append (String dot k) (String dot r)) "."
                = true)
      by (apply startsWith_iff; eexists; reflexivity).
    pose proof (eq_trans (eq_sym E) Ht) as C. discriminate C.
Qed.

(** X9 ([Wiring#_adjustBaseWiring], [Wiring#_adjustWiringAfter],
    [Wiring#_pushAdjustersIntoDescendants], [Wiring#_getAncestorAdjusters]
    and [Wiring.isValidContainerType]).  In [_wiringAdjusters] the empty
    key holds the base wiring adjusters "as a distinct top-level value (not
    the root)": registering a base wiring adjuster leaves the pending list
    of every valid container type as it was, and a type that becomes known
    later is seeded with the same adjusters as if the base wiring adjuster
    had not been registered.  In [_containerAdjusters] the empty key is the
    root: the same registration appends the wiring adjuster to the list of
    every known container type. *)
Theorem base_wiring_adjusters_are_not_inherited (t : string)
  (Ht : isValidContainerType t = true) (a : Adjuster) (w : Wiring) :
  lookup t (_wiringAdjusters (_adjustBaseWiring a w))
  = lookup t (_wiringAdjusters w)
  /\ _getAncestorAdjusters (_wiringAdjusters (_adjustBaseWiring a w)) t
     = _getAncestorAdjusters (_wiringAdjusters w) t
  /\ (forall l, lookup (dotted t) (_containerAdjusters w) = Some l ->
        lookup (dotted t) (_containerAdjusters (_adjustBaseWiring a w))
        = Some (l ++ [a])).
Proof.
  assert (Hdot : startsWith t "." = false).
  { unfold isValidContainerType in Ht.
    apply andb_true_iff in Ht. destruct Ht as [Ht _].
    apply andb_true_iff in Ht. destruct Ht as [_ Ht].
    now apply negb_true_iff in Ht. }
  assert (Hne : t <> "") by (now apply isValidContainerType_not_root).
  assert (Hk : forall k, k <> "" -> startsWith k "." = false ->
                 lookup k (_wiringAdjusters (_adjustBaseWiring a w))
                 = lookup k (_wiringAdjusters w)).
  { intros k Hk1 Hk2. unfold _adjustBaseWiring.
    rewrite adjustWiringAfter_wiringAdjusters, lookup_addAdjuster, lookup_ensure.
    assert (E : String.eqb k "" || isAncestorOf "" k = false).
    { destruct (String.eqb_spec k ""); [contradiction | exact Hk2]. }
    rewrite E.
    destruct (lookup k (_wiringAdjusters w)); [reflexivity|].
    destruct (String.eqb_spec "" k); [congruence | reflexivity]. }
  split; [|split].
  - now apply Hk.
  - apply getAncestorAdjusters_ext. intros k Hanc.
    destruct (ancestor_keeps_first_char k t Hanc Hdot). now apply Hk.
  - intros l Hl. unfold _adjustBaseWiring.
    rewrite adjustWiringAfter_containerAdjusters. cbn [String.eqb].
    rewrite lookup_addAdjuster, (lookup_ensure_prefix _ _ _ _ Hl).
    cbn [option_map]. rewrite isAncestorOf_root_dotted, orb_true_r.
    reflexivity.
Qed.

Lemma base_wiring_adjusters_are_not_inherited_witness :
  isValidContainerType "A.B" = true
  /\ lookup "A.B" (_wiringAdjusters
                     (_adjustBaseWiring 10 (_adjustWiringAfter "A.B" 7 emptyWiring)))
     = lookup "A.B" (_wiringAdjusters (_adjustWiringAfter "A.B" 7 emptyWiring)).
Proof.
  split; [reflexivity|].
  apply (base_wiring_adjusters_are_not_inherited "A.B" eq_refl 10
           (_adjustWiringAfter "A.B" 7 emptyWiring)).
Defined.

(** ** Scope types without an adjuster of their own *)

Lemma creation_of_unregistered
  (suppliedBy : Adjuster -> option Container -> list Wiring)
  (fuel : nat) (r : ref) (t : string) (args : list Value) (s : Store)
  (regs : list (string * Adjuster)) (w : Wiring) :
  deref s r = Some w -> holdsRegistrations regs w ->
  isValidContainerType t = true -> ~ In t (map fst regs) ->
  createContainer suppliedBy fuel r t args s = RangeError
  /\ createContainerFactory suppliedBy fuel r t args s = RangeError.
Proof.
  intros Hw (Hkeys & _ & HwA & _) Hv Ht.
  assert (Hg : _gatherWiringSuppliedByWiringAdjusters suppliedBy fuel "" None
                 (clone w) = Ok (w, [])).
  { rewrite clone_eq. unfold _gatherWiringSuppliedByWiringAdjusters.
    destruct (lookup "" (_wiringAdjusters w)) as [l0|] eqn:E0;
      [now destruct (HwA _ _ E0) | reflexivity]. }
  assert (Hl : lookup (dotted t) (_containerAdjusters w) = None).
  { destruct (lookup (dotted t) (_containerAdjusters w)) eqn:E; [|reflexivity].
    destruct (Hkeys (dotted t)) as (t' & Et & Hin); [congruence|].
    apply dotted_inj in Et. subst t'. contradiction. }
  split.
  - rewrite createContainer_unfold, Hv, Hw. unfold _createContainer.
    rewrite Hg. cbn [bind fst]. rewrite Hl. reflexivity.
  - rewrite createContainerFactory_unfold, Hv, Hw.
    unfold _createContainerFactory.
    rewrite Hg. cbn [bind fst]. rewrite Hl. reflexivity.
Qed.

(** X14 ([StructuredWiringBuilder#adjustScopeContainer],
    [StructuredWiring#createScopeContainer] and
    [createScopeContainerFactory], [Wiring#_createContainer]).  On a wiring
    built by a structured builder on which only container adjusters were
    registered, a scope type for which no adjuster of its own was
    registered cannot be created, nor can a factory for it: the creation
    fails with "container type not found", however many adjusters were
    registered for all scopes. *)
Theorem scope_type_without_own_adjuster_is_not_found
  (_populateBootContainer _populateAppContainer : Adjuster)
  (suppliedBy : Adjuster -> option Container -> list Wiring)
  (s s1 s2 : Store) (b : WiringBuilder) (cs : list StructuredCall) (r : ref)
  (scopeType : string)
  (Hb : newStructuredWiringBuilder _populateBootContainer
          _populateAppContainer None s = Ok (b, s1))
  (Hcs : forallb isContainerAdjustment cs = true)
  (Hr : build b (structuredCalls b cs s1) = Ok (r, s2))
  (Hvalid : isValidScopeType scopeType = true)
  (Hnone : forall f, ~ In (AdjustScopeContainer (Some scopeType) f) cs) :
  forall fuel args,
    createScopeContainer suppliedBy fuel r scopeType args s2 = RangeError
    /\ createScopeContainerFactory suppliedBy fuel r scopeType args s2
       = RangeError.
Proof.
  destruct (newStructuredWiringBuilder_fresh _populateBootContainer
              _populateAppContainer s) as (s1' & w & Hb' & Hw & H & Hcls & _).
  rewrite Hb' in Hb. injection Hb as <- <-.
  set (b := mkBuilder (S (List.length s))) in *.
  destruct (calls_registrations b (flat_map structuredRegistration cs)
              (structuredRegistrations_valid cs)
              [("Boot", _populateBootContainer); ("App", _populateAppContainer)]
              s1' w Hw H) as (w' & Hw' & H' & _).
  rewrite <- (structuredCalls_registrations b cs Hcs) in Hw'.
  destruct (calls_wiringClass_kept b
              (map registrationCall (flat_map structuredRegistration cs))
              s1' w Hw) as (w'' & Hw'' & Hcls').
  rewrite <- (structuredCalls_registrations b cs Hcs) in Hw''.
  assert (w'' = w') by congruence. subst w''.
  assert (Hsw : isStructuredWiring w' = true).
  { unfold isStructuredWiring. rewrite Hcls', Hcls. reflexivity. }
  unfold build in Hr. rewrite Hw' in Hr. unfold alloc in Hr.
  injection Hr as <- <-.
  assert (Hd : deref (structuredCalls b cs s1' ++ [clone w'])
                     (List.length (structuredCalls b cs s1')) = Some w').
  { rewrite deref_alloc_new, clone_eq. reflexivity. }
  intros fuel args. unfold createScopeContainer, createScopeContainerFactory.
  rewrite !(structuredMethod_eq _ _ w' _ Hd Hsw).
  apply (creation_of_unregistered suppliedBy fuel _ _ args _
           ([("Boot", _populateBootContainer); ("App", _populateAppContainer)]
            ++ flat_map structuredRegistration cs) w').
  - rewrite deref_alloc_new, clone_eq. reflexivity.
  - exact H'.
  - now apply scopeContainerType_of_valid.
  - rewrite map_app. intros Hin. apply in_app_or in Hin.
    destruct Hin as [Hin|Hin].
    + cbn in Hin. destruct Hin as [E|[E|[]]]; discriminate E.
    + apply in_map_iff in Hin. destruct Hin as ([u f] & Eu & Hin).
      cbn [fst] in Eu. subst u.
      apply in_flat_map in Hin. destruct Hin as (c & Hc & Hin).
      destruct c as [g|a|g|[t|] g|c]; cbn [structuredRegistration In] in Hin.
      * destruct Hin as [[= E _]|[]]; try discriminate E.
      * destruct Hin.
      * destruct Hin as [[= E _]|[]]; try discriminate E.
      * destruct (isValidScopeType t); [|destruct Hin].
        destruct Hin as [[= E <-]|[]].
        subst t. exact (Hnone _ Hc).
      * destruct Hin as [[= E _]|[]]; try discriminate E.
      * destruct Hin.
Qed.

Lemma scope_type_without_own_adjuster_is_not_found_witness :
  createScopeContainer noSupply 5 2 "Request" []
    (returned
       (bs <- newStructuredWiringBuilder 0 1 None [] ;;
        r <- build (fst bs)
               (structuredCalls (fst bs)
                  [AdjustScopeContainer None 6;
                   AdjustScopeContainer (Some "Session") 8] (snd bs)) ;;
        Ok (snd r)) [])
  = RangeError.
Proof.
  refine (proj1 (scope_type_without_own_adjuster_is_not_found 0 1 noSupply []
                   (snd (returned (newStructuredWiringBuilder 0 1 None [])
                                  (mkBuilder 0, [])))
                   _ (mkBuilder 1)
                   [AdjustScopeContainer None 6;
                    AdjustScopeContainer (Some "Session") 8] 2 "Request"
                   _ _ _ _ _ 5 [])).
  - vm_compute. reflexivity.
  - reflexivity.
  - vm_compute. reflexivity.
  - reflexivity.
  - intros f H. simpl in H. destruct H as [H|[H|[]]]; discriminate H.
Defined.


(** ** The order in which wiring adjusters are called *)

Lemma firstCopies_ext (l : list Adjuster) :
  forall seen seen',
    (forall x, existsb (Nat.eqb x) seen = existsb (Nat.eqb x) seen') ->
    firstCopies seen l = firstCopies seen' l.
Proof.
  induction l as [|f l IH]; intros seen seen' H; [reflexivity|].
  cbn [firstCopies]. rewrite (H f).
  destruct (existsb (Nat.eqb f) seen'); [now apply IH|].
  f_equal. apply IH. intros x. cbn [existsb]. now rewrite H.
Qed.

Lemma firstCopies_seen (v : Adjuster) (l : list Adjuster) :
  forall seen,
    firstCopies (v :: seen) l
    = firstCopies seen (filter (fun u => negb (Nat.eqb u v)) l).
Proof.
  induction l as [|f l IH]; intros seen; [reflexivity|].
  cbn [firstCopies filter existsb].
  destruct (Nat.eqb f v) eqn:E; cbn [orb negb].
  - apply IH.
  - cbn [firstCopies]. destruct (existsb (Nat.eqb f) seen); [apply IH|].
    f_equal. rewrite <- IH. apply firstCopies_ext.
    intros x. cbn [existsb]. now rewrite !orb_assoc, (orb_comm (Nat.eqb x f)).
Qed.

Lemma filter_and {A : Type} (p q : A -> bool) (l : list A) :
  filter q (filter p l) = filter (fun x => p x && q x) l.
Proof.
  induction l as [|x l IH]; [reflexivity|].
  cbn [filter]. destruct (p x); cbn [andb filter]; [|exact IH].
  destruct (q x); now rewrite IH.
Qed.

Lemma isAncestorOf_base (x : string) : isAncestorOf x "" = false.
Proof.
  unfold isAncestorOf, startsWith, withDot.
  destruct x; reflexivity.
Qed.

Lemma lookup_fold_entries_stable (ref : AdjusterCollection) (k : string)
  (l : list Adjuster) (todo : AdjusterCollection) :
  (forall e, In e todo ->
             fst e = k \/ isAncestorOf (fst e) k = true -> snd e = []) ->
  forall c, lookup k c = Some l ->
    lookup k (fold_left (addAdjustersEntry ref) todo c) = Some l.
Proof.
  induction todo as [|e todo IH]; intros H c Hc; [exact Hc|].
  cbn [fold_left]. apply IH; [intros e' He'; apply H; now right|].
  pose proof (H e (or_introl eq_refl)) as He.
  rewrite lookup_addAdjustersEntry, (lookup_ensure_prefix _ _ _ _ Hc).
  cbn [option_map].
  destruct (String.eqb_spec k (fst e)) as [E|_]; cbn [orb].
  - rewrite He by (now left). now rewrite app_nil_r.
  - destruct (isAncestorOf (fst e) k) eqn:Ea; cbn [andb]; [|reflexivity].
    rewrite He by (now right). destruct (unknownTo ref k);
      [now rewrite app_nil_r | reflexivity].
Qed.

Section CallOrder.

Variable suppliedBy : Adjuster -> option Container -> list Wiring.
Variable k : string.
Variable arg : option Container.

Hypothesis supplied_null :
  forall v W, In W (suppliedBy v arg) ->
              allNull (_wiringSuppliedByWiringAdjusters W).

Hypothesis supplied_elsewhere :
  forall v W e, In W (suppliedBy v arg) -> In e (_wiringAdjusters W) ->
                fst e = k \/ isAncestorOf (fst e) k = true -> snd e = [].

Lemma call_keeps_pending_list (v : Adjuster) (this : Wiring)
  (l : list Adjuster) :
  lookup k (_wiringAdjusters this) = Some l ->
  lookup k (_wiringAdjusters (callWiringAdjuster suppliedBy v arg this))
  = Some l.
Proof.
  rewrite call_wiringAdjusters.
  generalize (_wiringAdjusters this) as c.
  assert (H : forall W, In W (suppliedBy v arg) ->
                forall e, In e (_wiringAdjusters W) ->
                          fst e = k \/ isAncestorOf (fst e) k = true ->
                          snd e = [])
    by (intros W HW e He; exact (supplied_elsewhere v W e HW He)).
  induction (suppliedBy v arg) as [|W ws IH]; intros c Hc; [exact Hc|].
  cbn [fold_left]. apply IH; [intros; eapply H; eauto; now right|].
  apply lookup_fold_entries_stable; [|exact Hc].
  apply H. now left.
Qed.

Lemma isPending_after_call (v u : Adjuster) (this : Wiring) :
  isPending (_wiringSuppliedByWiringAdjusters
               (callWiringAdjuster suppliedBy v arg this)) u
  = isPending (_wiringSuppliedByWiringAdjusters this) u && negb (Nat.eqb u v).
Proof.
  unfold isPending.
  destruct (isResolved (_wiringSuppliedByWiringAdjusters
                          (callWiringAdjuster suppliedBy v arg this)) u) eqn:E.
  - apply isResolved_iff in E.
    apply call_resolves_only in E; [|exact (supplied_null v)].
    destruct E as [->|E].
    + rewrite Nat.eqb_refl. cbn. now rewrite andb_false_r.
    + apply isResolved_iff in E. rewrite E. reflexivity.
  - destruct (Nat.eqb_spec u v) as [->|Hne].
    + pose proof (call_resolves suppliedBy v arg this) as C.
      apply isResolved_iff in C. congruence.
    + destruct (isResolved (_wiringSuppliedByWiringAdjusters this) u) eqn:E0;
        [|reflexivity].
      apply isResolved_iff in E0.
      apply (call_keeps_resolved suppliedBy v arg) in E0.
      apply isResolved_iff in E0. congruence.
Qed.

Lemma gatherLoop_call_order :
  forall fuel this this' calls,
    gatherLoop suppliedBy fuel k arg this = Ok (this', calls) ->
    forall l, lookup k (_wiringAdjusters this) = Some l ->
      calls = firstCopies []
                (filter (isPending (_wiringSuppliedByWiringAdjusters this)) l).
Proof.
  apply (gatherLoop_ind suppliedBy k arg
           (fun this this' calls =>
              forall l, lookup k (_wiringAdjusters this) = Some l ->
                calls = firstCopies []
                          (filter (isPending
                                     (_wiringSuppliedByWiringAdjusters this)) l))).
  - intros this H l Hl. rewrite H in Hl. injection Hl as <-. reflexivity.
  - intros this v rest this' calls H Hres IH l Hl.
    rewrite H in Hl. injection Hl as <-.
    cbn [filter]. unfold isPending at 1.
    apply isResolved_iff in Hres. rewrite Hres. cbn [negb].
    apply (IH rest). now apply (shifted_lookup k v).
  - intros this v rest this' calls H Hres IH l Hl.
    rewrite H in Hl. injection Hl as <-.
    cbn [filter]. unfold isPending at 1.
    destruct (isResolved (_wiringSuppliedByWiringAdjusters this) v) eqn:E;
      [apply isResolved_iff in E; contradiction|].
    cbn [negb firstCopies existsb]. f_equal.
    rewrite (IH rest);
      [|apply call_keeps_pending_list; now apply (shifted_lookup k v)].
    rewrite firstCopies_seen, filter_and.
    f_equal. apply filter_ext. intros u.
    exact (isPending_after_call v u (shifted k rest this)).
Qed.

End CallOrder.

(** X10 ([Wiring#_gatherWiringSuppliedByWiringAdjusters],
    [Wiring#_adjustWiringAfter]).  [adjustBaseWiring] and
    [adjustWiringAfter] append the wiring adjuster to the end of the pending
    list of its key.  When the wiring adjusters of a key are called, and
    the wiring they supply is public and holds no pending wiring adjuster
    for that key or an ancestor of it (it may know the key and its
    ancestors, with empty pending lists), they are called in the order of
    the pending list, that is in registration order, each at its first
    occurrence, those already called on this instance being skipped. *)
Theorem wiring_adjusters_are_called_in_registration_order
  (suppliedBy : Adjuster -> option Container -> list Wiring)
  (fuel : nat) (k : string) (arg : option Container) (this this' : Wiring)
  (calls l : list Adjuster)
  (Hg : _gatherWiringSuppliedByWiringAdjusters suppliedBy fuel k arg this
        = Ok (this', calls))
  (Hl : lookup k (_wiringAdjusters this) = Some l)
  (Hnull : forall v W, In W (suppliedBy v arg) ->
                       allNull (_wiringSuppliedByWiringAdjusters W))
  (Hnopending : forall v W a la,
      In W (suppliedBy v arg) -> In (a, la) (_wiringAdjusters W) ->
      a = k \/ isAncestorOf a k = true -> la = []) :
  calls = firstCopies []
            (filter (isPending (_wiringSuppliedByWiringAdjusters this)) l)
  /\ forall a, lookup k (_wiringAdjusters (_adjustWiringAfter k a this))
               = Some (l ++ [a]).
Proof.
  split.
  - apply gather_cases in Hg. destruct Hg as [(Hn & _)|[_ Hg]]; [congruence|].
    apply (gatherLoop_call_order suppliedBy k arg Hnull) with (fuel := fuel)
      (this' := this'); [|exact Hg | exact Hl].
    intros v W [a la] HW He Ha. exact (Hnopending v W a la HW He Ha).
  - intros a.
    rewrite adjustWiringAfter_wiringAdjusters, lookup_addAdjuster,
      (lookup_ensure_prefix _ _ _ _ Hl).
    cbn [option_map]. now rewrite String.eqb_refl.
Qed.

Lemma wiring_adjusters_are_called_in_registration_order_witness :
  lookup "Primer" (_wiringAdjusters (_adjustContainer "Primer" 1 emptyWiring))
  = Some []
  /\ [20; 22]
     = firstCopies []
         (filter (isPending
                    (_wiringSuppliedByWiringAdjusters
                       (_adjustWiringAfter "Primer" 20
                          (_adjustWiringAfter "Primer" 22
                             (_adjustWiringAfter "Primer" 20 emptyWiring)))))
                 [20; 22; 20]).
Proof.
  split; [reflexivity|].
  refine (proj1 (wiring_adjusters_are_called_in_registration_order
                   primerSupply 5 "Primer" (Some [])
                   (_adjustWiringAfter "Primer" 20
                      (_adjustWiringAfter "Primer" 22
                         (_adjustWiringAfter "Primer" 20 emptyWiring)))
                   (fst (returned
                           (_gatherWiringSuppliedByWiringAdjusters primerSupply
                              5 "Primer" (Some [])
                              (_adjustWiringAfter "Primer" 20
                                 (_adjustWiringAfter "Primer" 22
                                    (_adjustWiringAfter "Primer" 20
                                       emptyWiring))))
                           (emptyWiring, [])))
                   [20; 22] [20; 22; 20] _ _ _ _)).
  - vm_compute. reflexivity.
  - reflexivity.
  - intros v W HW. unfold primerSupply in HW.
    destruct (Nat.eqb v 20); [|destruct HW].
    destruct HW as [<-|[]]. intros a x. vm_compute. discriminate.
  - intros v W a la HW He _. unfold primerSupply in HW.
    destruct (Nat.eqb v 20); [|destruct HW].
    destruct HW as [<-|[]]. vm_compute in He.
    destruct He as [[= _ <-]|[]]. reflexivity.
Defined.

(** ** Container adjusters supplied by a wiring adjuster *)

Lemma lookup_fold_addAdjusters_prefix (proj : Wiring -> AdjusterCollection)
  (k : string) (ws : list Wiring) :
  forall c l, lookup k c = Some l ->
    exists extra,
      lookup k (fold_left (fun c W => _addAdjusters c (proj W)) ws c)
      = Some (l ++ extra).
Proof.
  induction ws as [|W ws IH]; intros c l H.
  - exists []. now rewrite app_nil_r.
  - cbn [fold_left].
    destruct (lookup_addAdjusters_prefix k (proj W) c l H) as [e1 H1].
    destruct (IH _ _ H1) as [e2 H2]. exists (e1 ++ e2).
    now rewrite app_assoc.
Qed.

Lemma lookup_fold_addAdjusters_supplied (k : string) (lw : list Adjuster)
  (W : Wiring) (ws : list Wiring) :
  (forall W', In W' ws -> NoDup (keys (_containerAdjusters W'))) ->
  In W ws -> lookup k (_containerAdjusters W) = Some lw ->
  forall c,
    exists ls,
      lookup k (fold_left (fun c W => _addAdjusters c (_containerAdjusters W))
                          ws c) = Some ls
      /\ incl lw ls.
Proof.
  intros Hnd HW Hlw. induction ws as [|W0 ws IH]; intros c; [destruct HW|].
  cbn [fold_left]. destruct HW as [->|HW].
  - destruct (addAdjusters_appendedTo c (_containerAdjusters W)
                (Hnd W (or_introl eq_refl))) as (_ & _ & Hsrc).
    destruct (Hsrc k lw Hlw) as (pre & Hpre & _).
    destruct (lookup_fold_addAdjusters_prefix _containerAdjusters k ws _ _ Hpre)
      as [extra He].
    eexists. split; [exact He|].
    intros x Hx. apply in_or_app. left. apply in_or_app. now right.
  - apply IH; [intros; apply Hnd; now right | exact HW].
Qed.

Section SuppliedAdjusters.

Variable suppliedBy : Adjuster -> option Container -> list Wiring.

Hypothesis supplies_public :
  forall v arg W, In W (suppliedBy v arg) -> DefinitionPhase W.

Lemma call_resolution_lists (v : Adjuster) (arg : option Container)
  (this W : Wiring) (t : string) (lw : list Adjuster) :
  In W (suppliedBy v arg) ->
  lookup t (_containerAdjusters W) = Some lw ->
  exists S ls,
    mapGet v (_wiringSuppliedByWiringAdjusters
                (callWiringAdjuster suppliedBy v arg this)) = Some (Some S)
    /\ lookup t (_containerAdjusters S) = Some ls
    /\ incl lw ls.
Proof.
  intros HW Hlw.
  destruct (lookup_fold_addAdjusters_supplied t lw W (suppliedBy v arg))
    with (c := @nil (string * list Adjuster)) as (ls & Hls & Hincl);
    [|exact HW | exact Hlw|].
  { intros W' HW'.
    exact (public_cA_keys W' (DefinitionPhase_Public W'
                                (supplies_public v arg W' HW'))). }
  rewrite <- (run_supplied_containerAdjusters suppliedBy v arg this) in Hls.
  unfold callWiringAdjuster, synchronise.
  destruct (runWiringAdjuster suppliedBy v arg this) as [S0 this2].
  cbn [fst] in Hls.
  eexists. exists ls. split; [|split; [|exact Hincl]].
  - cbn [_wiringSuppliedByWiringAdjusters setSupplied].
    rewrite mapGet_mapSet, Nat.eqb_refl. reflexivity.
  - cbn [_containerAdjusters setContainerAdjusters].
    now apply lookup_ensureAll_prefix.
Qed.

Lemma call_keeps_resolution (v u : Adjuster) (arg : option Container)
  (this S : Wiring) :
  u <> v ->
  mapGet u (_wiringSuppliedByWiringAdjusters this) = Some (Some S) ->
  mapGet u (_wiringSuppliedByWiringAdjusters
              (callWiringAdjuster suppliedBy v arg this)) = Some (Some S).
Proof.
  intros Hne H. destruct (call_map suppliedBy v arg this) as [S' ->].
  rewrite mapGet_mapSet.
  destruct (Nat.eqb_spec v u) as [E|_]; [congruence|].
  apply mapGet_merge_fold. rewrite mapGet_mapSet.
  destruct (Nat.eqb_spec v u) as [E|_]; [congruence | exact H].
Qed.

Lemma gatherLoop_resolutions (k : string) (arg : option Container) (t : string) :
  forall fuel this this' calls,
    gatherLoop suppliedBy fuel k arg this = Ok (this', calls) ->
    (forall u S,
       mapGet u (_wiringSuppliedByWiringAdjusters this) = Some (Some S) ->
       mapGet u (_wiringSuppliedByWiringAdjusters this') = Some (Some S))
    /\ (forall v W lw,
          In v calls -> In W (suppliedBy v arg) ->
          lookup t (_containerAdjusters W) = Some lw ->
          exists S ls,
            mapGet v (_wiringSuppliedByWiringAdjusters this') = Some (Some S)
            /\ lookup t (_containerAdjusters S) = Some ls
            /\ incl lw ls).
Proof.
  apply (gatherLoop_ind suppliedBy k arg
           (fun this this' calls =>
              (forall u S,
                 mapGet u (_wiringSuppliedByWiringAdjusters this)
                 = Some (Some S) ->
                 mapGet u (_wiringSuppliedByWiringAdjusters this')
                 = Some (Some S))
              /\ (forall v W lw,
                    In v calls -> In W (suppliedBy v arg) ->
                    lookup t (_containerAdjusters W) = Some lw ->
                    exists S ls,
                      mapGet v (_wiringSuppliedByWiringAdjusters this')
                      = Some (Some S)
                      /\ lookup t (_containerAdjusters S) = Some ls
                      /\ incl lw ls))).
  - intros this _. split; [auto | intros v W lw []].
  - intros this v rest this' calls _ _ [IH1 IH2]. split; [|exact IH2].
    intros u S H. apply IH1. exact H.
  - intros this v rest this' calls _ Hres [IH1 IH2]. split.
    + intros u S H. apply IH1. apply call_keeps_resolution; [|exact H].
      intros ->. apply Hres. now exists S.
    + intros v' W lw [<-|Hin] HW Hlw; [|eauto].
      destruct (call_resolution_lists v arg (shifted k rest this) W t lw HW Hlw)
        as (S & ls & HS & Hls & Hincl).
      exists S, ls. split; [now apply IH1 | auto].
Qed.

Lemma flatten_includes_supplied (supplied : SuppliedMap) (t : string)
  (fuel : nat) (c : AdjusterCollection) (l fl ls : list Adjuster)
  (v f : Adjuster) (S : Wiring) :
  _getFlattenedContainerAdjusters fuel supplied c t = Ok fl ->
  lookup t c = Some l -> In v l ->
  mapGet v supplied = Some (Some S) ->
  lookup t (_containerAdjusters S) = Some ls -> In f ls ->
  mapGet f supplied = None ->
  In f fl.
Proof.
  destruct fuel as [|fuel]; [discriminate|].
  rewrite flatten_unfold. intros H Hl Hv HS Hls Hf Hnone. rewrite Hl in H.
  clear Hl. revert H. generalize (@nil Adjuster) as acc.
  induction l as [|a l IH]; intros acc H; [destruct Hv|].
  apply fold_bind_Ok in H. destruct H as (a0 & a1 & [= <-] & Hs & H).
  destruct Hv as [->|Hv]; [|exact (IH Hv _ H)].
  unfold flattenStep in Hs. rewrite HS, Hls in Hs.
  destruct (_getFlattenedContainerAdjusters fuel supplied
              (_containerAdjusters S) t) as [sub| | |] eqn:Esub;
    cbn [bind] in Hs; try discriminate.
  injection Hs as <-.
  apply (proj1 (flatten_fold_grows fuel supplied t l _ _ H)).
  apply in_or_app. right.
  exact (flatten_contains_true_adjusters fuel supplied _ t ls sub f Esub Hls
           Hf Hnone).
Qed.

(** X16 ([Wiring#_gatherWiringSuppliedByWiringAdjusters],
    [Wiring#_getFlattenedContainerAdjusters], [Wiring#_createContainer]).
    Let a container be created from a wiring of the definition phase whose
    wiring adjusters supply public wiring.  A container adjuster that a
    supplied wiring registers for the created type, supplied by a base
    wiring adjuster that the wiring itself knows and that is called during
    the creation, is called exactly once on the container -- whether or
    not the wiring knew the type before -- provided the adjuster is not
    itself a wiring adjuster. *)
Theorem supplied_container_adjuster_is_called_exactly_once
  (fuel : nat) (this : ref) (t : string) (args : list Value)
  (s s' : Store) (cr : Creation) (w W : Wiring) (v f : Adjuster)
  (lw : list Adjuster)
  (Hw : deref s this = Some w) (Hdef : DefinitionPhase w)
  (Hc : createContainer suppliedBy fuel this t args s = Ok (cr, s'))
  (Hv : In v (baseCalls cr))
  (Hknown : mapGet v (_wiringSuppliedByWiringAdjusters w) <> None)
  (HW : In W (suppliedBy v None))
  (Hlw : lookup (dotted t) (_containerAdjusters W) = Some lw)
  (Hf : In f lw)
  (Hmap : mapGet f (_wiringSuppliedByWiringAdjusters w) = None)
  (Hbase : ~ In f (baseCalls cr))
  (Hsup : forall v' W', In v' (baseCalls cr) -> In W' (suppliedBy v' None) ->
                        mapGet f (_wiringSuppliedByWiringAdjusters W') = None) :
  count_occ Nat.eq_dec (adjustersCalled (container cr)) f = 1
  /\ In (ContainerChanged (Adjust f args)) (trace cr).
Proof.
  apply createContainer_inv in Hc.
  destruct Hc as (w0 & p & _ & Hw0 & Hc & _).
  assert (w0 = w) by congruence. subst w0. rewrite clone_eq in Hc.
  apply _createContainer_inv in Hc.
  destruct Hc as (this1 & fl & Hg & Hknown1 & Hfl & Hcont & _).
  pose proof (DefinitionPhase_Public w Hdef) as Pw.
  assert (Hloop : gatherLoop suppliedBy fuel "" None w
                  = Ok (this1, baseCalls cr)).
  { pose proof Hg as Hg'. apply gather_cases in Hg'.
    destruct Hg' as [(_ & _ & E)|[_ Hg']];
      [rewrite E in Hv; destruct Hv | exact Hg']. }
  destruct (gatherLoop_resolutions "" None (dotted t) fuel w this1
              (baseCalls cr) Hloop) as [_ Hres].
  destruct (Hres v W lw Hv HW Hlw) as (S & ls & HS & Hls & Hincl).
  destruct (lookup (dotted t) (_containerAdjusters this1)) as [l|] eqn:El;
    [|congruence].
  assert (Hvl : In v l).
  { destruct (rooted_DefinitionPhase w Hdef) as [Hroot _].
    destruct (Hroot v Hknown) as (l0 & Hl0 & Hin0).
    pose proof (gather_keeps_lists suppliedBy fuel "" None w this1
                  (baseCalls cr) "" l0 Hg Hl0) as Hl1.
    pose proof (gatherLoop_containerAdjusters_inclusive suppliedBy "" None
                  fuel w this1 (baseCalls cr) Hloop (public_cA w Pw)) as Hinc.
    exact (Hinc "" (dotted t) l0 l Hl1 El (isAncestorOf_root_dotted t) v Hin0). }
  assert (Hnone : mapGet f (_wiringSuppliedByWiringAdjusters this1) = None)
    by (eapply gather_keeps_true_adjuster; eassumption).
  assert (Hin : In f (applyAdjusters [] fl)).
  { apply applyAdjusters_spec. split; [|intros []].
    exact (flatten_includes_supplied _ (dotted t) fuel _ l fl ls v f S
             Hfl El Hvl HS Hls (Hincl f Hf) Hnone). }
  split.
  - rewrite Hcont. cbn [adjustersCalled]. rewrite adjustersCalled_adjusts.
    apply NoDup_count_occ'; [apply applyAdjusters_spec | exact Hin].
  - unfold trace. apply in_or_app. right. apply in_or_app. left.
    apply in_map. rewrite Hcont. right.
    apply (in_map (fun f => Adjust f args)). exact Hin.
Qed.

End SuppliedAdjusters.

Lemma supplied_container_adjuster_is_called_exactly_once_witness :
  DefinitionPhase (_adjustBaseWiring 20 emptyWiring)
  /\ count_occ Nat.eq_dec
       (adjustersCalled
          (container (mkCreation [RegisterBean "wiring" 1; Adjust 1 ["x"]]
                                 [20] []))) 1 = 1.
Proof.
  assert (Hdef : DefinitionPhase (_adjustBaseWiring 20 emptyWiring))
    by (apply def_adjustBaseWiring, def_new).
  split; [exact Hdef|].
  refine (proj1 (supplied_container_adjuster_is_called_exactly_once
                   primerSupply primerSupply_public 5 0 "Primer" ["x"]
                   [_adjustBaseWiring 20 emptyWiring]
                   (snd (returned
                           (createContainer primerSupply 5 0 "Primer" ["x"]
                              [_adjustBaseWiring 20 emptyWiring])
                           (mkCreation [] [] [], [])))
                   (mkCreation [RegisterBean "wiring" 1; Adjust 1 ["x"]]
                               [20] [])
                   (_adjustBaseWiring 20 emptyWiring)
                   (_adjustContainer "Primer" 1 emptyWiring) 20 1 [1]
                   _ Hdef _ _ _ _ _ _ _ _ _)).
  - reflexivity.
  - vm_compute. reflexivity.
  - simpl. auto.
  - vm_compute. discriminate.
  - simpl. auto.
  - reflexivity.
  - simpl. auto.
  - reflexivity.
  - simpl. intros [H|[]]. discriminate H.
  - intros v' W' Hv' HW'. simpl in Hv'. destruct Hv' as [<-|[]].
    simpl in HW'. destruct HW' as [<-|[]]. reflexivity.
Defined.


(** ** The import of a collection, entry by entry *)

Lemma mergedSoFar_snoc (src done c : AdjusterCollection)
  (e : string * list Adjuster) :
  mergedSoFar src (done ++ [e]) c
  = addAdjustersEntry src (mergedSoFar src done c) e.
Proof. unfold mergedSoFar. now rewrite fold_left_app. Qed.

Lemma addAdjusters_mergedSoFar (c src : AdjusterCollection) :
  _addAdjusters c src = mergedSoFar src src c.
Proof. reflexivity. Qed.

Lemma ancestorLists_snoc (done : AdjusterCollection)
  (e : string * list Adjuster) (k : string) :
  ancestorLists (done ++ [e]) k
  = ancestorLists done k ++ (if isAncestorOf (fst e) k then snd e else []).
Proof.
  unfold ancestorLists. rewrite flat_map_app. cbn [flat_map].
  now rewrite app_nil_r.
Qed.

Lemma lookup_app_None (k : string) (c c' : AdjusterCollection) :
  lookup k c = None -> lookup k (c ++ c') = lookup k c'.
Proof.
  induction c as [|[k' l'] c IH]; [reflexivity|]. cbn [lookup app].
  destruct (String.eqb k' k); [discriminate | exact IH].
Qed.

Lemma lookup_app_Some (k : string) (l : list Adjuster)
  (c c' : AdjusterCollection) :
  lookup k c = Some l -> lookup k (c ++ c') = Some l.
Proof.
  induction c as [|[k' l'] c IH]; [discriminate|]. cbn [lookup app].
  destruct (String.eqb k' k); [auto | exact IH].
Qed.

Lemma NoDup_keys_app_inv (c c' : AdjusterCollection) :
  NoDup (keys (c ++ c')) ->
  NoDup (keys c) /\ NoDup (keys c')
  /\ forall k, In k (keys c) -> ~ In k (keys c').
Proof.
  unfold keys. rewrite map_app. intros H.
  split; [eapply NoDup_app_remove_r; exact H|].
  split; [eapply NoDup_app_remove_l; exact H|].
  intros k Hk Hk'. revert H Hk. generalize (map fst c) as l.
  induction l as [|x l IH]; intros H Hk; [destruct Hk|].
  cbn [app] in H. inversion H as [|? ? Hx Hl]; subst.
  destruct Hk as [->|Hk]; [|now apply IH].
  apply Hx. apply in_or_app. now right.
Qed.

Lemma mergedSoFar_mergedUpTo (c src : AdjusterCollection) :
  NoDup (keys src) ->
  forall done todo, src = done ++ todo ->
    mergedUpTo c src done (mergedSoFar src done c).
Proof.
  intros Hnd done. induction done as [|e done IH] using rev_ind;
    intros todo Hsrc.
  - split; [|split].
    + intros k. cbn. tauto.
    + intros k l Hl. unfold importedFor. cbn [lookup ancestorLists flat_map].
      destruct (lookup k src); now rewrite app_nil_r.
    + intros before k ls after E. destruct before; discriminate E.
  - rewrite <- app_assoc in Hsrc. cbn [app] in Hsrc.
    destruct (IH _ Hsrc) as (K & Hknown & Hnew).
    destruct e as [k' ls'].
    assert (Hk'src : lookup k' src = Some ls').
    { apply In_lookup_Some; [exact Hnd|]. rewrite Hsrc.
      apply in_or_app. right. now left. }
    assert (Hk'done : ~ In k' (keys done)).
    { rewrite Hsrc in Hnd. apply NoDup_keys_app_inv in Hnd.
      destruct Hnd as (_ & _ & Hdisj). intros Hin.
      apply (Hdisj k' Hin). now left. }
    rewrite mergedSoFar_snoc.
    set (r := mergedSoFar src done c) in *.
    split; [|split].
    + intros k. unfold keys at 1.
      fold (keys (addAdjustersEntry src r (k', ls'))).
      rewrite keys_addAdjustersEntry, In_keys_ensure, K. cbn [fst].
      unfold keys. rewrite map_app, in_app_iff. cbn [map In fst].
      intuition auto.
    + intros k l Hl.
      rewrite lookup_addAdjustersEntry,
        (lookup_ensure_prefix _ _ _ _ (Hknown k l Hl)).
      cbn [option_map fst snd]. f_equal.
      unfold importedFor, unknownTo.
      destruct (lookup k src) as [lk|] eqn:Ek.
      * rewrite andb_false_r, orb_false_r.
        destruct (String.eqb_spec k k') as [->|Hne].
        -- apply lookup_None_iff in Hk'done. rewrite Hk'done.
           rewrite (lookup_app_None _ _ _ Hk'done). cbn [lookup].
           rewrite String.eqb_refl. now rewrite app_nil_r.
        -- destruct (lookup k done) as [ld|] eqn:Ed.
           ++ now rewrite (lookup_app_Some _ _ _ _ Ed).
           ++ rewrite (lookup_app_None _ _ _ Ed). cbn [lookup].
              destruct (String.eqb_spec k' k); [congruence | reflexivity].
      * destruct (String.eqb_spec k k') as [->|Hne]; [congruence|].
        cbn [orb]. rewrite andb_true_r, ancestorLists_snoc. cbn [fst snd].
        destruct (isAncestorOf k' k);
          [now rewrite app_assoc | now rewrite app_nil_r].
    + intros before k ls after E Hc.
      destruct after as [|x after] using rev_ind.
      * apply app_inj_tail in E. destruct E as [<- [= <- <-]].
        assert (Hr : lookup k' r = None).
        { apply lookup_None_iff. rewrite K. apply lookup_None_iff in Hc.
          tauto. }
        rewrite lookup_addAdjustersEntry, lookup_ensure, Hr. cbn [fst snd].
        rewrite !String.eqb_refl. reflexivity.
      * clear IHafter. rewrite app_comm_cons, app_assoc in E.
        apply app_inj_tail in E. destruct E as [Ed <-].
        assert (Hne : k <> k').
        { intros ->. apply Hk'done. rewrite Ed. unfold keys. rewrite map_app.
          apply in_or_app. right. now left. }
        assert (Hks : lookup k src <> None).
        { apply lookup_known_iff. rewrite Hsrc, Ed. unfold keys.
          rewrite !map_app. apply in_or_app. left. apply in_or_app. right.
          now left. }
        rewrite lookup_entry_other; [|exact Hks | cbn [fst]; congruence].
        exact (Hnew before k ls after Ed Hc).
Qed.

(** ** Seeds: the list of the nearest known ancestor *)

Lemma getAncestorAdjusters_root (c : AdjusterCollection) :
  _getAncestorAdjusters c "" = [].
Proof. reflexivity. Qed.

(** Two types with the same known ancestors get the same seed. *)
Lemma getAncestorAdjusters_same_ancestors (c : AdjusterCollection)
  (t n : string) :
  (forall a, lookup a c <> None ->
             isAncestorOf a t = true <-> isAncestorOf a n = true) ->
  _getAncestorAdjusters c t = _getAncestorAdjusters c n.
Proof.
  intros H.
  destruct (getAncestorAdjusters_spec c t)
    as [(nt & Ht & Hlt & Hnt)|[Et Hnone]];
    destruct (getAncestorAdjusters_spec c n)
      as [(nn & Hn & Hln & Hnn)|[En Hnone']].
  - assert (Kt : lookup nt c <> None) by congruence.
    assert (Kn : lookup nn c <> None) by congruence.
    assert (E : nt = nn).
    { destruct (Hnt nn (proj2 (H nn Kn) Hn) Kn) as [E|E]; [now symmetry|].
      destruct (Hnn nt (proj1 (H nt Kt) Ht) Kt) as [E'|E']; [exact E'|].
      pose proof (isAncestorOf_trans _ _ _ E E') as C.
      rewrite isAncestorOf_irrefl in C. discriminate. }
    subst nn. congruence.
  - assert (Kt : lookup nt c <> None) by congruence.
    rewrite (Hnone' nt (proj1 (H nt Kt) Ht)) in Hlt. discriminate.
  - assert (Kn : lookup nn c <> None) by congruence.
    rewrite (Hnone nn (proj2 (H nn Kn) Hn)) in Hln. discriminate.
  - congruence.
Qed.

Lemma getAncestorAdjusters_seededFrom (c r : AdjusterCollection) (t : string) :
  seededFrom c r -> _getAncestorAdjusters r t = _getAncestorAdjusters c t.
Proof.
  intros Hs.
  assert (Hsub : forall a, lookup a c <> None -> lookup a r = lookup a c).
  { intros a Ha. specialize (Hs a). destruct (lookup a c); congruence. }
  destruct (getAncestorAdjusters_spec r t)
    as [(n & Hn & Hl & Hnear)|[E Hnone]].
  - destruct (lookup n c) as [ln|] eqn:En.
    + assert (Hrn : lookup n r = Some ln)
        by (rewrite Hsub; congruence).
      destruct (getAncestorAdjusters_spec c t)
        as [(n' & Hn' & Hl' & Hnear')|[E' Hnone']].
      * assert (n' = n).
        { destruct (Hnear' n Hn) as [E|E]; [congruence | now symmetry|].
          destruct (Hnear n' Hn') as [E'|E'];
            [rewrite Hsub; congruence | exact E'|].
          pose proof (isAncestorOf_trans _ _ _ E E') as C.
          rewrite isAncestorOf_irrefl in C. discriminate. }
        subst n'. congruence.
      * rewrite (Hnone' n Hn) in En. discriminate.
    + pose proof (Hs n) as Hsn. rewrite En in Hsn.
      destruct Hsn as [Hsn|Hsn]; [congruence|].
      rewrite Hl in Hsn. injection Hsn as ->.
      symmetry. apply getAncestorAdjusters_same_ancestors.
      intros a Ha. split.
      * intros Hat.
        destruct (Hnear a Hat) as [->|Han];
          [rewrite Hsub; exact Ha | congruence | exact Han].
      * intros Han. exact (isAncestorOf_trans _ _ _ Han Hn).
  - rewrite E. symmetry.
    destruct (getAncestorAdjusters_spec c t)
      as [(n' & Hn' & Hl' & _)|[E' _]]; [|exact E'].
    assert (K : lookup n' c <> None) by congruence.
    rewrite <- (Hsub n' K), (Hnone n' Hn') in K. congruence.
Qed.

Lemma seededFrom_refl (c : AdjusterCollection) : seededFrom c c.
Proof. intros d. destruct (lookup d c); auto. Qed.

Lemma seededFrom_ensure (c r : AdjusterCollection) (t : string) :
  seededFrom c r -> seededFrom c (_ensureContainerTypeExists r t).
Proof.
  intros Hs d. rewrite lookup_ensure. pose proof (Hs d) as Hd.
  destruct (lookup d c) as [l|] eqn:Ed.
  - now rewrite Hd.
  - destruct (lookup d r) as [lr|] eqn:Er.
    + destruct Hd as [Hd|Hd]; [discriminate | now right].
    + destruct (String.eqb_spec t d) as [->|_]; [right | now left].
      f_equal. now apply getAncestorAdjusters_seededFrom.
Qed.

Lemma seededFrom_ensureAll (c : AdjusterCollection) (ts : list string) :
  forall r, seededFrom c r -> seededFrom c (ensureAll r ts).
Proof.
  induction ts as [|t ts IH]; intros r Hr; [exact Hr|].
  unfold ensureAll in *. cbn [fold_left]. apply IH.
  now apply seededFrom_ensure.
Qed.

Lemma lookup_ensureAll (d : string) (ts : list string)
  (c : AdjusterCollection) :
  lookup d (ensureAll c ts)
  = match lookup d c with
    | Some l => Some l
    | None => if existsb (String.eqb d) ts
              then Some (_getAncestorAdjusters c d) else None
    end.
Proof.
  pose proof (seededFrom_ensureAll c ts c (seededFrom_refl c) d) as H.
  destruct (lookup d c) as [l|] eqn:Ed; [exact H|].
  assert (K : In d (keys (ensureAll c ts)) <-> In d ts).
  { rewrite In_keys_ensureAll. apply lookup_None_iff in Ed. tauto. }
  destruct (existsb (String.eqb d) ts) eqn:Ex.
  - destruct H as [H|H]; [|exact H].
    apply lookup_None_iff in H. exfalso. apply H, K.
    apply existsb_exists in Ex. destruct Ex as (x & Hx & E).
    apply String.eqb_eq in E. now subst x.
  - destruct H as [H|H]; [exact H|].
    assert (Hin : In d (keys (ensureAll c ts)))
      by (eapply lookup_known_keys; exact H).
    apply K in Hin. exfalso.
    assert (Ex' : existsb (String.eqb d) ts = true).
    { apply existsb_exists. exists d. split; [exact Hin|].
      apply String.eqb_refl. }
    congruence.
Qed.

(** ** What a registration of a wiring adjuster leaves in the lists *)

Lemma lookup_adjustWiringAfter_wiringAdjusters (t : string) (a : Adjuster)
  (w : Wiring) (d : string) :
  lookup d (_wiringAdjusters (_adjustWiringAfter t a w))
  = option_map
      (fun l => if String.eqb d t || isAncestorOf t d then l ++ [a] else l)
      (match lookup d (_wiringAdjusters w) with
       | Some l => Some l
       | None => if String.eqb t d
                 then Some (_getAncestorAdjusters (_wiringAdjusters w) t)
                 else None
       end).
Proof.
  now rewrite adjustWiringAfter_wiringAdjusters, lookup_addAdjuster,
    lookup_ensure.
Qed.

Lemma lookup_adjustWiringAfter_containerAdjusters (t : string) (a : Adjuster)
  (w : Wiring) (d : string) :
  lookup d (_containerAdjusters (_adjustWiringAfter t a w))
  = option_map
      (fun l => if String.eqb d "" || isAncestorOf "" d then l ++ [a] else l)
      (match
          match lookup d (_containerAdjusters w) with
          | Some l => Some l
          | None =>
              if negb (String.eqb t "") && String.eqb (dotted t) d
              then Some (_getAncestorAdjusters (_containerAdjusters w)
                                               (dotted t))
              else None
          end
        with
        | Some l => Some l
        | None => if String.eqb "" d then Some [] else None
        end).
Proof.
  rewrite adjustWiringAfter_containerAdjusters, lookup_addAdjuster,
    lookup_ensure, getAncestorAdjusters_root.
  destruct (String.eqb t ""); cbn [negb andb].
  - now destruct (lookup d (_containerAdjusters w)).
  - now rewrite lookup_ensure.
Qed.

Lemma lookup_adjustContainer_wiringAdjusters (t : string) (f : Adjuster)
  (w : Wiring) (d : string) :
  lookup d (_wiringAdjusters (_adjustContainer t f w))
  = match lookup d (_wiringAdjusters w) with
    | Some l => Some l
    | None => if String.eqb t d
              then Some (_getAncestorAdjusters (_wiringAdjusters w) t)
              else None
    end.
Proof. now rewrite adjustContainer_wiringAdjusters, lookup_ensure. Qed.

Lemma lookup_adjustContainer_containerAdjusters (t : string) (f : Adjuster)
  (w : Wiring) (d : string) :
  lookup d (_containerAdjusters (_adjustContainer t f w))
  = option_map
      (fun l => if String.eqb d (dotted t) || isAncestorOf (dotted t) d
                then l ++ [f] else l)
      (match lookup d (_containerAdjusters w) with
       | Some l => Some l
       | None => if String.eqb (dotted t) d
                 then Some (_getAncestorAdjusters (_containerAdjusters w)
                                                  (dotted t))
                 else None
       end).
Proof.
  now rewrite adjustContainer_containerAdjusters, lookup_addAdjuster,
    lookup_ensure.
Qed.

Section ExpansionExact.

Variable suppliedBy : Adjuster -> option Container -> list Wiring.

(** The container types of the wiring supplied by one call. *)
Lemma lookup_call_containerAdjusters (v : Adjuster) (arg : option Container)
  (this : Wiring) (d : string) :
  lookup d (_containerAdjusters (callWiringAdjuster suppliedBy v arg this))
  = match lookup d (_containerAdjusters this) with
    | Some l => Some l
    | None =>
        if existsb (String.eqb d)
             (keys (fold_left
                      (fun c W => _addAdjusters c (_containerAdjusters W))
                      (suppliedBy v arg) []))
        then Some (_getAncestorAdjusters (_containerAdjusters this) d)
        else None
    end.
Proof. now rewrite call_containerAdjusters, lookup_ensureAll. Qed.

End ExpansionExact.

(** ** The adjuster lists of the definition phase (C3) *)

(** C3.  The stored adjuster lists are complete and ancestor-inclusive.  For
    every wiring [w] of the definition phase -- whatever sequence of
    [adjustContainer], [adjustBaseWiring], [adjustWiringAfter], [addWiring],
    imports and builds produced it -- the list of every known type contains
    the list of each of its known ancestors, in [_containerAdjusters] and in
    [_wiringAdjusters].  The seed of a type referenced for the first time is
    the list of its nearest known ancestor, the empty list when no ancestor
    is known.  Every registration is stated exactly, for every key [d] of
    either collection: [adjustContainer] seeds the type in both collections
    and appends the adjuster to the list of the type and of every known
    descendant, and to no other list; [adjustWiringAfter] and
    [adjustBaseWiring] do the same with the wiring adjuster in the pending
    lists, make the type known to the container adjusters and append the
    wiring adjuster to the list of the root and of every type under it;
    [addWiring] imports the two collections of the source entry by entry,
    each entry seeding a type new to the destination, appending the list of
    the source, and appending it to the descendants the source does not
    know.  The methods of a builder apply these registrations to the wiring
    of the builder.  A call of a wiring adjuster seeds, in the container
    adjusters of the instance, the types of the wiring it supplied, and
    imports the pending lists of that wiring; the expansion keeps the
    container-adjuster lists ancestor-inclusive, whatever the wiring
    adjusters supply.  (The statements about the pending list of a
    container type, and about the methods of a builder, are for types that
    are not and do not descend from a property of [Object.prototype].) *)
Theorem adjuster_lists_are_ancestor_inclusive
  (suppliedBy : Adjuster -> option Container -> list Wiring)
  (w : Wiring) (Hw : DefinitionPhase w) :
  (ancestorInclusive (_containerAdjusters w)
   /\ ancestorInclusive (_wiringAdjusters w))
  /\ (forall c t,
        (exists n,
           isAncestorOf n t = true
           /\ lookup n c = Some (_getAncestorAdjusters c t)
           /\ forall a, isAncestorOf a t = true -> lookup a c <> None ->
                        a = n \/ isAncestorOf a n = true)
        \/ (_getAncestorAdjusters c t = []
            /\ forall a, isAncestorOf a t = true -> lookup a c = None))
  /\ (forall t f d,
        lookup d (_containerAdjusters (_adjustContainer t f w))
        = option_map
            (fun l => if String.eqb d (dotted t) || isAncestorOf (dotted t) d
                      then l ++ [f] else l)
            (match lookup d (_containerAdjusters w) with
             | Some l => Some l
             | None =>
                 if String.eqb (dotted t) d
                 then Some (_getAncestorAdjusters (_containerAdjusters w)
                                                  (dotted t))
                 else None
             end)
        /\ (isOwnName t = true ->
            lookup d (_wiringAdjusters (_adjustContainer t f w))
            = match lookup d (_wiringAdjusters w) with
              | Some l => Some l
              | None =>
                  if String.eqb t d
                  then Some (_getAncestorAdjusters (_wiringAdjusters w) t)
                  else None
              end))
  /\ (forall t a d,
        isOwnName t = true ->
        lookup d (_wiringAdjusters (_adjustWiringAfter t a w))
        = option_map
            (fun l => if String.eqb d t || isAncestorOf t d
                      then l ++ [a] else l)
            (match lookup d (_wiringAdjusters w) with
             | Some l => Some l
             | None =>
                 if String.eqb t d
                 then Some (_getAncestorAdjusters (_wiringAdjusters w) t)
                 else None
             end)
        /\ lookup d (_containerAdjusters (_adjustWiringAfter t a w))
           = option_map
               (fun l => if String.eqb d "" || isAncestorOf "" d
                         then l ++ [a] else l)
               (match
                   match lookup d (_containerAdjusters w) with
                   | Some l => Some l
                   | None =>
                       if negb (String.eqb t "") && String.eqb (dotted t) d
                       then Some (_getAncestorAdjusters
                                    (_containerAdjusters w) (dotted t))
                       else None
                   end
                 with
                 | Some l => Some l
                 | None => if String.eqb "" d then Some [] else None
                 end))
  /\ (forall a, _adjustBaseWiring a w = _adjustWiringAfter "" a w)
  /\ (forall c src,
        _addAdjusters c src = mergedSoFar src src c
        /\ (NoDup (keys src) ->
            forall done todo, src = done ++ todo ->
              mergedUpTo c src done (mergedSoFar src done c)))
  /\ (forall wsrc,
        _containerAdjusters (_addWiring wsrc w)
        = _addAdjusters (_containerAdjusters w) (_containerAdjusters wsrc)
        /\ _wiringAdjusters (_addWiring wsrc w)
           = _addAdjusters (_wiringAdjusters w) (_wiringAdjusters wsrc))
  /\ (forall b s,
        deref s (_wiring b) = Some w ->
        (forall t f,
           isValidContainerType t = true -> isOwnName t = true ->
           adjustContainer b t f s
           = Ok (assign (_wiring b) (_adjustContainer t f w) s))
        /\ (forall t a,
              isValidContainerType t = true -> isOwnName t = true ->
              adjustWiringAfter b t a s
              = Ok (assign (_wiring b) (_adjustWiringAfter t a w) s))
        /\ (forall a,
              adjustBaseWiring b a s
              = Ok (assign (_wiring b) (_adjustBaseWiring a w) s))
        /\ (forall src wsrc,
              deref s src = Some wsrc ->
              addWiring b src s
              = Ok (assign (_wiring b) (_addWiring wsrc w) s)))
  /\ (forall this v arg,
        (forall d,
           lookup d (_containerAdjusters
                       (callWiringAdjuster suppliedBy v arg this))
           = match lookup d (_containerAdjusters this) with
             | Some l => Some l
             | None =>
                 if existsb (String.eqb d)
                      (keys (fold_left
                               (fun c W =>
                                  _addAdjusters c (_containerAdjusters W))
                               (suppliedBy v arg) []))
                 then Some (_getAncestorAdjusters (_containerAdjusters this) d)
                 else None
             end)
        /\ _wiringAdjusters (callWiringAdjuster suppliedBy v arg this)
           = fold_left (fun c W => _addAdjusters c (_wiringAdjusters W))
                       (suppliedBy v arg) (_wiringAdjusters this))
  /\ (forall fuel k arg this' calls,
        _gatherWiringSuppliedByWiringAdjusters suppliedBy fuel k arg (clone w)
        = Ok (this', calls) ->
        ancestorInclusive (_containerAdjusters this')).
Proof.
  pose proof (DefinitionPhase_Public w Hw) as [H1 H2 H3 H4 H5 H6].
  split; [now split|].
  split; [intros c t; apply getAncestorAdjusters_spec|].
  split.
  { intros t f d. split.
    - apply lookup_adjustContainer_containerAdjusters.
    - intros _. apply lookup_adjustContainer_wiringAdjusters. }
  split.
  { intros t a d _. split.
    - apply lookup_adjustWiringAfter_wiringAdjusters.
    - apply lookup_adjustWiringAfter_containerAdjusters. }
  split; [reflexivity|].
  split.
  { intros c src. split; [reflexivity|].
    intros Hnd done todo E. now apply mergedSoFar_mergedUpTo with (todo := todo). }
  split; [intros wsrc; split; reflexivity|].
  split.
  { intros b s Hb. split; [|split; [|split]].
    - intros t f Hv _. unfold adjustContainer, onWiring. now rewrite Hv, Hb.
    - intros t a Hv _. unfold adjustWiringAfter, onWiring. now rewrite Hv, Hb.
    - intros a. unfold adjustBaseWiring, onWiring. now rewrite Hb.
    - intros src wsrc Hsrc. unfold addWiring, onWiring. now rewrite Hsrc, Hb. }
  split.
  { intros this v arg. split.
    - intros d. apply lookup_call_containerAdjusters.
    - apply call_wiringAdjusters. }
  intros fuel k arg this' calls Hrun. rewrite clone_eq in Hrun.
  apply gather_cases in Hrun.
  destruct Hrun as [(_ & -> & _)|[_ Hrun]]; [assumption|].
  eapply gatherLoop_containerAdjusters_inclusive; eassumption.
Qed.

Lemma adjuster_lists_are_ancestor_inclusive_witness :
  DefinitionPhase familyWiring
  /\ ancestorInclusive (_containerAdjusters familyWiring)
  /\ adjustWiringAfter (mkBuilder 0) "A.B.C" 8 [familyWiring]
     = Ok [_adjustWiringAfter "A.B.C" 8 familyWiring]
  /\ lookup "A.B.C" (_wiringAdjusters (_adjustWiringAfter "A.B.C" 8 familyWiring))
     = Some [7; 8]
  /\ lookup ".A.B" (_containerAdjusters (_adjustBaseWiring 9 familyWiring))
     = Some [7; 1; 2; 9]
  /\ lookup ".A.B.C" (_containerAdjusters (_addWiring grandchildWiring familyWiring))
     = Some ([7; 1; 2; 3; 5] ++ [3; 4; 5])
  /\ lookup ".A.B" (_containerAdjusters (_addWiring grandchildWiring familyWiring))
     = Some ([7; 1; 2] ++ [3; 5]).
Proof.
  assert (H : DefinitionPhase familyWiring).
  { apply def_adjustContainer; [reflexivity|].
    apply def_adjustContainer; [reflexivity|].
    apply def_adjustWiringAfter; [reflexivity|]. apply def_new. }
  split; [exact H|].
  destruct (adjuster_lists_are_ancestor_inclusive noSupply familyWiring H)
    as ([Hincl _] & _ & _ & Hafter & Hbase & Hmerge & Hadd & Hbuilder & _).
  split; [exact Hincl|].
  split.
  { exact (proj1 (proj2 (Hbuilder (mkBuilder 0) [familyWiring] eq_refl))
             "A.B.C" 8 eq_refl eq_refl). }
  split; [exact (proj1 (Hafter "A.B.C" 8 "A.B.C" eq_refl))|].
  split.
  { rewrite (Hbase 9). exact (proj2 (Hafter "" 9 ".A.B" eq_refl)). }
  assert (Hnd : NoDup (keys (_containerAdjusters grandchildWiring))).
  { repeat constructor; simpl; intuition discriminate. }
  destruct (proj2 (Hmerge (_containerAdjusters familyWiring)
                          (_containerAdjusters grandchildWiring))
              Hnd (_containerAdjusters grandchildWiring) [] eq_refl)
    as (_ & Hknown & Hnew).
  rewrite (proj1 (Hadd grandchildWiring)),
    (proj1 (Hmerge (_containerAdjusters familyWiring)
                   (_containerAdjusters grandchildWiring))).
  split.
  - exact (Hnew [(".A", [3; 5])] ".A.B.C" [3; 4; 5] [] eq_refl eq_refl).
  - exact (Hknown ".A.B" [7; 1; 2] eq_refl).
Defined.

(** ** Adding wiring (C7) *)

Lemma importedFor_all (src : AdjusterCollection) (k : string) :
  importedFor src src k
  = match lookup k src with
    | Some ls => ls
    | None => ancestorLists src k
    end.
Proof. unfold importedFor. now destruct (lookup k src). Qed.

(** C7, as amended.  [addWiring] of a wiring [src] to a builder goes through
    the types of the source in the order of enumeration and merges, for
    every type known to either side, the complete lists of the source into
    the lists of the builder, in both collections and without skipping any
    identity.  A type known to both sides keeps the list of the builder,
    followed by the list of the source.  A type known to the source only is
    first seeded with the list that its nearest known ancestor has in the
    builder when the type is reached, the empty list when no ancestor is
    known there; the list of the source is appended to the seed.  A type
    known to the builder only gets the lists that the source has for its
    ancestors, one after the other.  The builder ends up knowing the types
    of both sides; an adjuster present on both sides is stored as often as
    it occurs on both sides together (duplicates are only collapsed when a
    container is created).  Wiring adjusters of the source that the builder
    does not know are added to the map of supplied wiring with the source's
    value, those it knows keep their value.  The source is not modified and
    learns nothing about the types of the builder.  Importing by
    constructing a builder makes a structural copy of the source in a new
    instance and leaves the source as it was. *)
Theorem addWiring_appends_and_leaves_source_unchanged
  (s : Store) (b : WiringBuilder) (src : ref) (w wsrc : Wiring)
  (Hb : deref s (_wiring b) = Some w) (Hsrc : deref s src = Some wsrc)
  (Hne : src <> _wiring b)
  (HcA : NoDup (keys (_containerAdjusters wsrc)))
  (HwA : NoDup (keys (_wiringAdjusters wsrc))) :
  (exists s',
     addWiring b src s = Ok s'
     /\ deref s' src = Some wsrc
     /\ deref s' (_wiring b) = Some (_addWiring wsrc w))
  /\ (_containerAdjusters (_addWiring wsrc w)
      = mergedSoFar (_containerAdjusters wsrc) (_containerAdjusters wsrc)
                    (_containerAdjusters w)
      /\ _wiringAdjusters (_addWiring wsrc w)
         = mergedSoFar (_wiringAdjusters wsrc) (_wiringAdjusters wsrc)
                       (_wiringAdjusters w))
  /\ (forall done todo,
        _containerAdjusters wsrc = done ++ todo ->
        mergedUpTo (_containerAdjusters w) (_containerAdjusters wsrc) done
                   (mergedSoFar (_containerAdjusters wsrc) done
                                (_containerAdjusters w)))
  /\ (forall done todo,
        _wiringAdjusters wsrc = done ++ todo ->
        mergedUpTo (_wiringAdjusters w) (_wiringAdjusters wsrc) done
                   (mergedSoFar (_wiringAdjusters wsrc) done
                                (_wiringAdjusters w)))
  /\ (forall source k,
        importedFor source source k
        = match lookup k source with
          | Some ls => ls
          | None => ancestorLists source k
          end)
  /\ (forall c t,
        (exists n,
           isAncestorOf n t = true
           /\ lookup n c = Some (_getAncestorAdjusters c t)
           /\ forall a, isAncestorOf a t = true -> lookup a c <> None ->
                        a = n \/ isAncestorOf a n = true)
        \/ (_getAncestorAdjusters c t = []
            /\ forall a, isAncestorOf a t = true -> lookup a c = None))
  /\ appendedTo (_containerAdjusters w) (_containerAdjusters wsrc)
                (_containerAdjusters (_addWiring wsrc w))
  /\ appendedTo (_wiringAdjusters w) (_wiringAdjusters wsrc)
                (_wiringAdjusters (_addWiring wsrc w))
  /\ (forall k l ls f,
        lookup k (_containerAdjusters w) = Some l ->
        lookup k (_containerAdjusters wsrc) = Some ls ->
        exists r, lookup k (_containerAdjusters (_addWiring wsrc w)) = Some r
                  /\ count_occ Nat.eq_dec r f
                     = count_occ Nat.eq_dec l f + count_occ Nat.eq_dec ls f)
  /\ (forall a,
        mapGet a (_wiringSuppliedByWiringAdjusters (_addWiring wsrc w))
        = match mapGet a (_wiringSuppliedByWiringAdjusters w) with
          | Some v => Some v
          | None => mapGet a (_wiringSuppliedByWiringAdjusters wsrc)
          end)
  /\ (forall b' s1,
        newWiringBuilder (Some src) s = Ok (b', s1) ->
        _wiring b' = List.length s
        /\ deref s1 (_wiring b') = Some wsrc
        /\ deref s1 src = Some wsrc).
Proof.
  assert (Happ : appendedTo (_containerAdjusters w) (_containerAdjusters wsrc)
                   (_containerAdjusters (_addWiring wsrc w)))
    by (apply addAdjusters_appendedTo; exact HcA).
  split; [|split; [|split; [|split; [|split; [|split; [|split; [|split;
    [|split; [|split]]]]]]]]].
  - unfold addWiring, onWiring. rewrite Hsrc, Hb. eexists. split; [reflexivity|].
    split.
    + rewrite deref_assign_ne by congruence. exact Hsrc.
    + apply deref_assign_eq. eauto using deref_valid.
  - split; reflexivity.
  - intros done todo E. now apply mergedSoFar_mergedUpTo with (todo := todo).
  - intros done todo E. now apply mergedSoFar_mergedUpTo with (todo := todo).
  - intros source k. apply importedFor_all.
  - intros c t. apply getAncestorAdjusters_spec.
  - exact Happ.
  - apply addAdjusters_appendedTo. exact HwA.
  - intros k l ls f Hl Hls.
    destruct (proj2 (proj2 Happ) k ls Hls) as (pre & E & Hpre).
    rewrite (Hpre l Hl) in E. exists (l ++ ls). split; [exact E|].
    apply count_occ_app.
  - intros a. unfold _addWiring. rewrite mapGet_addSuppliedWiring. reflexivity.
  - intros b' s1 H. unfold newWiringBuilder in H. rewrite Hsrc in H.
    inversion H; subst. simpl. split; [reflexivity|]. split.
    + rewrite deref_alloc_new. now rewrite clone_eq.
    + rewrite deref_alloc_old; eauto using deref_valid.
Qed.

Lemma addWiring_appends_and_leaves_source_unchanged_witness :
  deref [grandchildWiring; familyWiring] 1 = Some familyWiring
  /\ deref [grandchildWiring; familyWiring] 0 = Some grandchildWiring
  /\ 0 <> 1
  /\ NoDup (keys (_containerAdjusters grandchildWiring))
  /\ NoDup (keys (_wiringAdjusters grandchildWiring))
  /\ (exists s',
        addWiring (mkBuilder 1) 0 [grandchildWiring; familyWiring] = Ok s'
        /\ deref s' 0 = Some grandchildWiring
        /\ deref s' 1 = Some (_addWiring grandchildWiring familyWiring))
  /\ lookup ".A" (_containerAdjusters (_addWiring grandchildWiring familyWiring))
     = Some ([7; 2] ++ [3; 5])
  /\ lookup ".A.B" (_containerAdjusters (_addWiring grandchildWiring familyWiring))
     = Some ([7; 1; 2] ++ [3; 5])
  /\ lookup ".A.B.C" (_containerAdjusters (_addWiring grandchildWiring familyWiring))
     = Some ([7; 1; 2; 3; 5] ++ [3; 4; 5]).
Proof.
  assert (HcA : NoDup (keys (_containerAdjusters grandchildWiring)))
    by (repeat constructor; simpl; intuition discriminate).
  assert (HwA : NoDup (keys (_wiringAdjusters grandchildWiring)))
    by (repeat constructor; simpl; intuition discriminate).
  split; [reflexivity|]. split; [reflexivity|]. split; [discriminate|].
  split; [exact HcA|]. split; [exact HwA|].
  destruct (addWiring_appends_and_leaves_source_unchanged
              [grandchildWiring; familyWiring] (mkBuilder 1) 0
              familyWiring grandchildWiring eq_refl eq_refl
              (fun E : 0 = 1 => O_S 0 E) HcA HwA)
    as (Hs & [Hc _] & Hmerged & _).
  split; [exact Hs|].
  destruct (Hmerged (_containerAdjusters grandchildWiring) [] eq_refl)
    as (_ & Hknown & Hnew).
  rewrite Hc. split; [|split].
  - exact (Hknown ".A" [7; 2] eq_refl).
  - exact (Hknown ".A.B" [7; 1; 2] eq_refl).
  - exact (Hnew [(".A", [3; 5])] ".A.B.C" [3; 4; 5] [] eq_refl eq_refl).
Defined.


(** ** Creations that return *)

Lemma allSatisfy_nil (P : Adjuster -> Prop) : allSatisfy P [].
Proof. intros k l x []. Qed.

Lemma allSatisfy_ensure (P : Adjuster -> Prop) (t : string)
  (c : AdjusterCollection) :
  allSatisfy P c -> allSatisfy P (_ensureContainerTypeExists c t).
Proof.
  intros Hc. unfold _ensureContainerTypeExists.
  destruct (lookup t c) eqn:E; [assumption|].
  intros k l x Hin Hx. apply In_addProperty in Hin.
  destruct Hin as [Hin|Hin]; [eauto|].
  injection Hin as -> ->.
  destruct (getAncestorAdjusters_spec c t) as [(n & _ & Hn & _)|[E' _]].
  - apply lookup_Some_In in Hn. eauto.
  - rewrite E' in Hx. destruct Hx.
Qed.

Lemma allSatisfy_ensureAll (P : Adjuster -> Prop) (ts : list string) :
  forall c, allSatisfy P c -> allSatisfy P (ensureAll c ts).
Proof.
  induction ts as [|t ts IH]; intros c Hc; [exact Hc|].
  unfold ensureAll in *. cbn [fold_left]. apply IH.
  now apply allSatisfy_ensure.
Qed.

Lemma allSatisfy_addAdjustersEntry (P : Adjuster -> Prop)
  (ref c : AdjusterCollection) (e : string * list Adjuster) :
  allSatisfy P c -> (forall x, In x (snd e) -> P x) ->
  allSatisfy P (addAdjustersEntry ref c e).
Proof.
  intros Hc He k l x Hin Hx. unfold addAdjustersEntry in Hin.
  unfold _pushAdjustersIntoUnknownDescendants in Hin.
  apply (In_map_entries
           (fun k l => if isAncestorOf (fst e) k && unknownTo ref k
                       then l ++ snd e else l)) in Hin.
  2:{ intros [k' l']. simpl. unfold _pushAdjusters, isAncestorOf, unknownTo.
      destruct (startsWith k' (withDot (fst e))); [|reflexivity].
      now destruct (lookup k' ref). }
  destruct Hin as (l1 & Hin & ->). unfold pushAt in Hin.
  apply (In_map_entries
           (fun k l => if String.eqb k (fst e) then l ++ snd e else l)) in Hin.
  2:{ intros [k' l']. simpl. unfold _pushAdjusters.
      now destruct (String.eqb k' (fst e)). }
  destruct Hin as (l0 & Hin & ->).
  apply (allSatisfy_ensure P (fst e)) in Hc.
  assert (H0 : forall y, In y l0 -> P y) by (intros y Hy; eauto).
  destruct (String.eqb k (fst e)), (isAncestorOf (fst e) k && unknownTo ref k);
    repeat (apply in_app_or in Hx; destruct Hx as [Hx|Hx]); auto.
Qed.

Lemma allSatisfy_addAdjusters (P : Adjuster -> Prop)
  (c src : AdjusterCollection) :
  allSatisfy P c -> allSatisfy P src -> allSatisfy P (_addAdjusters c src).
Proof.
  intros Hc Hsrc. unfold _addAdjusters.
  apply fold_left_invariant; [|assumption].
  intros c' [k l] Hin Hc'. apply allSatisfy_addAdjustersEntry; [assumption|].
  cbn [snd]. intros x Hx. eauto.
Qed.

Section Termination.

Variable suppliedBy : Adjuster -> option Container -> list Wiring.
Variable U : list Adjuster.
Variable rank : Adjuster -> nat.

Hypothesis supplies_null :
  forall v arg W, In W (suppliedBy v arg) ->
                  allNull (_wiringSuppliedByWiringAdjusters W).

Hypothesis supplies_within :
  forall v arg W, In v U -> In W (suppliedBy v arg) ->
                  allIn U (_wiringAdjusters W).

Hypothesis supplies_lower :
  forall v arg W, In W (suppliedBy v arg) ->
                  allSatisfy (fun u => rank u < rank v) (_containerAdjusters W).

Lemma call_resolution (v : Adjuster) (arg : option Container) (this : Wiring) :
  exists S,
    _wiringSuppliedByWiringAdjusters (callWiringAdjuster suppliedBy v arg this)
    = mapSet v (Some S)
        (fold_left
           (fun m W => mergeSupplied m (_wiringSuppliedByWiringAdjusters W))
           (suppliedBy v arg)
           (mapSet v (Some (newWiring "Wiring" None))
                   (_wiringSuppliedByWiringAdjusters this)))
    /\ _containerAdjusters S
       = ensureAll
           (fold_left (fun c W => _addAdjusters c (_containerAdjusters W))
                      (suppliedBy v arg) [])
           (keys (_containerAdjusters
                    (callWiringAdjuster suppliedBy v arg this))).
Proof.
  rewrite call_containerAdjusters.
  unfold callWiringAdjuster, synchronise.
  rewrite <- (run_map suppliedBy v arg this),
    <- (run_supplied_containerAdjusters suppliedBy v arg this),
    <- (run_containerAdjusters suppliedBy v arg this).
  destruct (runWiringAdjuster suppliedBy v arg this) as [S this2].
  cbn [fst snd]. eexists. split; reflexivity.
Qed.

Lemma call_ranked (v : Adjuster) (arg : option Container) (this : Wiring) :
  ranked rank (_wiringSuppliedByWiringAdjusters this) ->
  ranked rank (_wiringSuppliedByWiringAdjusters
                 (callWiringAdjuster suppliedBy v arg this)).
Proof.
  intros Hr u S' Hu.
  destruct (call_resolution v arg this) as (S & Hmap & HcA).
  rewrite Hmap, mapGet_mapSet in Hu.
  destruct (Nat.eqb_spec v u) as [->|Hne].
  - injection Hu as <-. rewrite HcA. apply allSatisfy_ensureAll.
    apply fold_left_invariant; [|apply allSatisfy_nil].
    intros c W HW Hc. apply allSatisfy_addAdjusters; [exact Hc|].
    exact (supplies_lower u arg W HW).
  - apply mapGet_merge_fold_null in Hu;
      [|intros W HW; exact (supplies_null v arg W HW)].
    destruct Hu as [Hu|Hu]; [|discriminate].
    rewrite mapGet_mapSet in Hu.
    destruct (Nat.eqb_spec v u); [contradiction|]. exact (Hr u S' Hu).
Qed.

Lemma gatherLoop_ranked (k : string) (arg : option Container) :
  forall fuel this this' calls,
    gatherLoop suppliedBy fuel k arg this = Ok (this', calls) ->
    ranked rank (_wiringSuppliedByWiringAdjusters this) ->
    allIn U (_wiringAdjusters this) ->
    ranked rank (_wiringSuppliedByWiringAdjusters this')
    /\ allIn U (_wiringAdjusters this').
Proof.
  apply (gatherLoop_ind suppliedBy k arg
           (fun this this' calls =>
              ranked rank (_wiringSuppliedByWiringAdjusters this) ->
              allIn U (_wiringAdjusters this) ->
              ranked rank (_wiringSuppliedByWiringAdjusters this')
              /\ allIn U (_wiringAdjusters this'))).
  - auto.
  - intros this v rest this' calls Hl _ IH Hr Hall. apply IH; [exact Hr|].
    apply allIn_replaceAt; [exact Hall|].
    intros x Hx. apply (Hall k (v :: rest)); [now apply lookup_Some_In|].
    now right.
  - intros this v rest this' calls Hl _ IH Hr Hall.
    assert (HvU : In v U).
    { apply (Hall k (v :: rest)); [now apply lookup_Some_In | now left]. }
    apply IH.
    + apply call_ranked. exact Hr.
    + apply call_allIn; [intros W HW; exact (supplies_within v arg W HvU HW)|].
      apply allIn_replaceAt; [exact Hall|].
      intros x Hx. apply (Hall k (v :: rest)); [now apply lookup_Some_In|].
      now right.
Qed.

Lemma gather_ranked (fuel : nat) (k : string) (arg : option Container)
  (this this' : Wiring) (calls : list Adjuster) :
  _gatherWiringSuppliedByWiringAdjusters suppliedBy fuel k arg this
  = Ok (this', calls) ->
  ranked rank (_wiringSuppliedByWiringAdjusters this) ->
  allIn U (_wiringAdjusters this) ->
  ranked rank (_wiringSuppliedByWiringAdjusters this')
  /\ allIn U (_wiringAdjusters this').
Proof.
  intros H. apply gather_cases in H.
  destruct H as [(_ & -> & _)|[_ H]]; [auto|].
  eapply gatherLoop_ranked; exact H.
Qed.

Lemma gather_terminates (k : string) (arg : option Container) (this : Wiring) :
  allIn U (_wiringAdjusters this) ->
  exists fuel r,
    forall fuel', fuel <= fuel' ->
      _gatherWiringSuppliedByWiringAdjusters suppliedBy fuel' k arg this = Ok r.
Proof.
  intros Hall. unfold _gatherWiringSuppliedByWiringAdjusters.
  destruct (lookup k (_wiringAdjusters this)) as [l|] eqn:El.
  - destruct (gatherLoop_terminates suppliedBy U k arg
                (fun v W => supplies_within v arg W) _ this l eq_refl Hall El)
      as (fuel & r & H).
    exists fuel, r. intros fuel' Hle.
    exact (gatherLoop_fuel_le suppliedBy k arg this r fuel fuel' Hle H).
  - exists 0. eexists. reflexivity.
Qed.

Lemma flatten_terminates (supplied : SuppliedMap) (t : string) :
  ranked rank supplied ->
  forall n c l,
    lookup t c = Some l -> (forall u, In u l -> rank u < n) ->
    exists fl, _getFlattenedContainerAdjusters (S n) supplied c t = Ok fl.
Proof.
  intros Hr. induction n as [|n IH]; intros c l Hl Hlt.
  - destruct l as [|u l]; [|exfalso; specialize (Hlt u (or_introl eq_refl)); lia].
    rewrite flatten_unfold, Hl. eexists. reflexivity.
  - rewrite flatten_unfold, Hl. clear Hl.
    generalize (@nil Adjuster) as acc.
    induction l as [|u l IHl]; intros acc; [eexists; reflexivity|].
    cbn [fold_left bind].
    assert (Hstep : exists acc', flattenStep (S n) supplied t acc u = Ok acc').
    { unfold flattenStep.
      destruct (mapGet u supplied) as [[S'|]|] eqn:Eu; [|eauto|eauto].
      destruct (lookup t (_containerAdjusters S')) as [l'|] eqn:El'; [|eauto].
      destruct (IH (_containerAdjusters S') l' El') as [sub Hsub].
      - intros u' Hu'.
        pose proof (Hr u S' Eu t l' u' (lookup_Some_In _ _ _ El') Hu') as H1.
        cbn beta in H1. specialize (Hlt u (or_introl eq_refl)). lia.
      - rewrite Hsub. cbn [bind]. eauto. }
    destruct Hstep as [acc' ->].
    apply IHl. intros u' Hu'. apply Hlt. now right.
Qed.

Lemma list_rank_bound (l : list Adjuster) :
  exists n, forall u, In u l -> rank u < n.
Proof.
  induction l as [|x l [n Hn]]; [exists 0; intros u []|].
  exists (S (Nat.max n (rank x))). intros u [<-|Hu]; [lia|].
  specialize (Hn u Hu). lia.
Qed.

(** A creation for a known type returns, given enough fuel. *)
Lemma _createContainer_terminates (self : ref) (t : string)
  (args : list Value) (this : Wiring) :
  ranked rank (_wiringSuppliedByWiringAdjusters this) ->
  allIn U (_wiringAdjusters this) ->
  lookup (dotted t) (_containerAdjusters this) <> None ->
  exists fuel r,
    forall fuel', fuel <= fuel' ->
      _createContainer suppliedBy fuel' self t args this = Ok r.
Proof.
  intros Hr Hall Hknown.
  destruct (gather_terminates "" None this Hall) as (f1 & [this1 base] & H1).
  destruct (gather_ranked f1 "" None this this1 base (H1 f1 (le_n _)) Hr Hall)
    as [Hr1 Hall1].
  destruct (lookup (dotted t) (_containerAdjusters this)) as [l|] eqn:El;
    [|congruence].
  pose proof (gather_keeps_lists suppliedBy f1 "" None this this1 base
                (dotted t) l (H1 f1 (le_n _)) El) as El1.
  destruct (list_rank_bound l) as [n Hn].
  destruct (flatten_terminates _ (dotted t) Hr1 n _ l El1 Hn) as [fl Hfl].
  set (cont := RegisterBean "wiring" self
               :: map (fun f => Adjust f args) (applyAdjusters [] fl)).
  destruct (gather_terminates t (Some cont) this1 Hall1)
    as (f3 & [p after] & H3).
  exists (Nat.max f1 (Nat.max (S n) f3)), (mkCreation cont base after, p).
  intros fuel' Hle. unfold _createContainer.
  rewrite (H1 fuel') by lia. cbn [bind fst snd]. rewrite El1.
  rewrite (flatten_fuel_le _ _ _ _ (S n) fuel' ltac:(lia) Hfl).
  cbn [bind]. fold cont. rewrite (H3 fuel') by lia. reflexivity.
Qed.

End Termination.


(** ** Creations and factory calls that return *)

Section Returns.

Variable suppliedBy : Adjuster -> option Container -> list Wiring.
Variable U : list Adjuster.
Variable rank : Adjuster -> nat.
Hypothesis finite : FiniteSupply suppliedBy U rank.

Lemma createContainer_terminates (s : Store) (this : ref) (w : Wiring)
  (t : string) (args : list Value) :
  deref s this = Some w ->
  ranked rank (_wiringSuppliedByWiringAdjusters w) ->
  allIn U (_wiringAdjusters w) ->
  isValidContainerType t = true ->
  lookup (dotted t) (_containerAdjusters w) <> None ->
  exists fuel cr s',
    forall fuel', fuel <= fuel' ->
      createContainer suppliedBy fuel' this t args s = Ok (cr, s').
Proof.
  intros Hw Hr Hall Hv Hk. destruct finite as [F1 F2 F3].
  destruct (_createContainer_terminates suppliedBy U rank F1 F2 F3
              (List.length s) t args w Hr Hall Hk) as (fuel & [cr p] & H).
  exists fuel, cr, (assign (List.length s) p (s ++ [clone w])).
  intros fuel' Hle. rewrite createContainer_unfold, Hv, Hw, clone_eq.
  rewrite (H fuel' Hle). reflexivity.
Qed.

Lemma createContainerFactory_terminates (s : Store) (this : ref) (w : Wiring)
  (t : string) (factoryArguments : list Value) :
  deref s this = Some w ->
  allIn U (_wiringAdjusters w) ->
  isValidContainerType t = true ->
  exists fuel,
    forall fuel', fuel <= fuel' ->
      createContainerFactory suppliedBy fuel' this t factoryArguments s
      = RangeError
      \/ exists base s1,
           createContainerFactory suppliedBy fuel' this t factoryArguments s
           = Ok (mkFactory (List.length s) t factoryArguments, base, s1).
Proof.
  intros Hw Hall Hv. destruct finite as [F1 F2 F3].
  destruct (gather_terminates suppliedBy U F2 "" None w Hall)
    as (fuel & [this1 base] & H).
  exists fuel. intros fuel' Hle.
  rewrite createContainerFactory_unfold, Hv, Hw, clone_eq.
  unfold _createContainerFactory. rewrite (H fuel' Hle). cbn [bind fst snd].
  destruct (lookup (dotted t) (_containerAdjusters this1)); cbn [bind].
  - right. eauto.
  - now left.
Qed.

Lemma callFactory_terminates (fuel : nat) (s s1 : Store) (this : ref)
  (w : Wiring) (t : string) (factoryArguments : list Value)
  (factory : ContainerFactory) (base : list Adjuster) :
  deref s this = Some w ->
  ranked rank (_wiringSuppliedByWiringAdjusters w) ->
  allIn U (_wiringAdjusters w) ->
  createContainerFactory suppliedBy fuel this t factoryArguments s
  = Ok (factory, base, s1) ->
  forall sx wf callerArgs,
    deref s1 (factoryWiring factory) = Some wf ->
    deref sx (factoryWiring factory) = Some wf ->
    exists fuel' cr sx',
      forall fuel'', fuel' <= fuel'' ->
        callFactory suppliedBy fuel'' factory callerArgs sx = Ok (cr, sx').
Proof.
  intros Hw Hr Hall Hc sx wf callerArgs Hwf Hsx. destruct finite as [F1 F2 F3].
  apply createContainerFactory_inv in Hc.
  destruct Hc as (w0 & p & _ & Hw0 & Hg & Hk & -> & ->).
  assert (w0 = w) by congruence. subst w0. rewrite clone_eq in Hg.
  cbn [factoryWiring] in *. rewrite deref_private in Hwf.
  injection Hwf as <-.
  destruct (gather_ranked suppliedBy U rank F1 F2 F3 fuel "" None w p base
              Hg Hr Hall) as [Hrp Hallp].
  destruct (_createContainer_terminates suppliedBy U rank F1 F2 F3
              (List.length sx) t (factoryArguments ++ callerArgs) p
              Hrp Hallp Hk) as (fuel' & [cr p2] & H).
  exists fuel', cr, (assign (List.length sx) p2 (sx ++ [clone p])).
  intros fuel'' Hle. rewrite callFactory_unfold.
  cbn [factoryWiring factoryType factoryArgs]. rewrite Hsx, clone_eq.
  rewrite (H fuel'' Hle). reflexivity.
Qed.

End Returns.

Lemma allNull_ranked (rank : Adjuster -> nat) (m : SuppliedMap) :
  allNull m -> ranked rank m.
Proof. intros H v S Hv. apply H in Hv. discriminate. Qed.

Lemma primerSupply_finite : FiniteSupply primerSupply [20] primerRank.
Proof.
  split.
  - intros v arg W HW. unfold primerSupply in HW.
    destruct (Nat.eqb v 20); [|destruct HW].
    destruct HW as [<-|[]]. intros a x. vm_compute. discriminate.
  - intros v arg W _ HW. unfold primerSupply in HW.
    destruct (Nat.eqb v 20); [|destruct HW].
    destruct HW as [<-|[]]. intros k l Hin. vm_compute in Hin.
    destruct Hin as [[= _ <-]|[]]. intros x [].
  - intros v arg W HW. unfold primerSupply in HW.
    destruct (Nat.eqb_spec v 20) as [->|]; [|destruct HW].
    destruct HW as [<-|[]]. intros k l x Hin Hx. vm_compute in Hin.
    destruct Hin as [[= _ <-]|[]]. destruct Hx as [<-|[]]. vm_compute. lia.
Qed.

Lemma noSupply_finite : FiniteSupply noSupply [] (fun _ => 0).
Proof.
  split.
  - intros v arg W [].
  - intros v arg W _ [].
  - intros v arg W [].
Qed.

Section ReturnsFactory.

Variable suppliedBy : Adjuster -> option Container -> list Wiring.
Variable U : list Adjuster.
Variable rank : Adjuster -> nat.
Hypothesis finite : FiniteSupply suppliedBy U rank.

Lemma createContainerFactory_returns (s : Store) (this : ref) (w : Wiring)
  (t : string) (factoryArguments : list Value) :
  deref s this = Some w ->
  allIn U (_wiringAdjusters w) ->
  isValidContainerType t = true ->
  lookup (dotted t) (_containerAdjusters w) <> None ->
  exists fuel base s1,
    forall fuel', fuel <= fuel' ->
      createContainerFactory suppliedBy fuel' this t factoryArguments s
      = Ok (mkFactory (List.length s) t factoryArguments, base, s1).
Proof.
  intros Hw Hall Hv Hk. destruct finite as [F1 F2 F3].
  destruct (gather_terminates suppliedBy U F2 "" None w Hall)
    as (fuel & [this1 base] & H).
  destruct (lookup (dotted t) (_containerAdjusters w)) as [l|] eqn:El;
    [|congruence].
  pose proof (gather_keeps_lists suppliedBy fuel "" None w this1 base
                (dotted t) l (H fuel (le_n _)) El) as El1.
  exists fuel, base, (assign (List.length s) this1 (s ++ [clone w])).
  intros fuel' Hle.
  rewrite createContainerFactory_unfold, Hv, Hw, clone_eq.
  unfold _createContainerFactory. rewrite (H fuel' Hle). cbn [bind fst snd].
  rewrite El1. reflexivity.
Qed.

End ReturnsFactory.

(** ** The [wiring] bean of a created container (C10) *)



(** ** Container factories (C8) *)




(** ** Pending wiring adjusters are known to the map *)

Lemma mapGet_merge_fold_known (a : Adjuster) (ws : list Wiring) :
  (exists W, In W ws /\ mapGet a (_wiringSuppliedByWiringAdjusters W) <> None) ->
  forall m,
    mapGet a (fold_left
                (fun m W => mergeSupplied m (_wiringSuppliedByWiringAdjusters W))
                ws m) <> None.
Proof.
  induction ws as [|W0 ws IH]; intros (W & HW & Ha) m; [destruct HW|].
  cbn [fold_left]. destruct HW as [->|HW]; [|apply IH; eauto].
  destruct (mapGet a (mergeSupplied m (_wiringSuppliedByWiringAdjusters W)))
    as [x|] eqn:E.
  - rewrite (mapGet_merge_fold a ws _ x E). discriminate.
  - rewrite mapGet_addSupplied in E. destruct (mapGet a m); congruence.
Qed.

Lemma pendingKnown_DefinitionPhase (w : Wiring) :
  DefinitionPhase w -> pendingKnown w.
Proof.
  intros Hw k l v Hin Hv.
  destruct (rooted_DefinitionPhase w Hw) as [_ H].
  apply (H k l v); [|exact Hv].
  apply In_lookup_Some; [|exact Hin].
  exact (public_wA_keys w (DefinitionPhase_Public w Hw)).
Qed.

Lemma pendingKnown_shifted (k : string) (v : Adjuster) (rest : list Adjuster)
  (this : Wiring) :
  lookup k (_wiringAdjusters this) = Some (v :: rest) ->
  pendingKnown this -> pendingKnown (shifted k rest this).
Proof.
  intros Hl H k' l' x Hin Hx. unfold shifted in Hin.
  cbn [_wiringAdjusters setWiringAdjusters] in Hin. unfold replaceAt in Hin.
  apply (In_map_entries (fun k0 l0 => if String.eqb k0 k then rest else l0))
    in Hin.
  2:{ intros [k0 l0]. simpl. now destruct (String.eqb k0 k). }
  destruct Hin as (l0 & Hin & ->).
  change (_wiringSuppliedByWiringAdjusters (shifted k rest this))
    with (_wiringSuppliedByWiringAdjusters this).
  destruct (String.eqb k' k).
  - apply (H k (v :: rest) x); [now apply lookup_Some_In | now right].
  - exact (H k' l0 x Hin Hx).
Qed.

Section PendingKnown.

Variable suppliedBy : Adjuster -> option Container -> list Wiring.

Hypothesis supplies_public :
  forall v arg W, In W (suppliedBy v arg) -> DefinitionPhase W.

Lemma call_knows_supplied (v a : Adjuster) (arg : option Container)
  (this W : Wiring) :
  In W (suppliedBy v arg) ->
  mapGet a (_wiringSuppliedByWiringAdjusters W) <> None ->
  mapGet a (_wiringSuppliedByWiringAdjusters
              (callWiringAdjuster suppliedBy v arg this)) <> None.
Proof.
  intros HW Ha. destruct (call_map suppliedBy v arg this) as [S ->].
  rewrite mapGet_mapSet. destruct (Nat.eqb v a); [discriminate|].
  apply mapGet_merge_fold_known. eauto.
Qed.

Lemma pendingKnown_call (v : Adjuster) (arg : option Container)
  (this : Wiring) :
  pendingKnown this -> pendingKnown (callWiringAdjuster suppliedBy v arg this).
Proof.
  intros H. unfold pendingKnown. rewrite call_wiringAdjusters.
  apply fold_left_invariant.
  - intros c W HW Hc. apply allSatisfy_addAdjusters; [exact Hc|].
    intros k l x Hin Hx. apply (call_knows_supplied v x arg this W HW).
    exact (pendingKnown_DefinitionPhase W (supplies_public v arg W HW)
             k l x Hin Hx).
  - intros k l x Hin Hx. apply call_keeps_keys. exact (H k l x Hin Hx).
Qed.

Lemma gatherLoop_not_called (k : string) (arg : option Container)
  (f : Adjuster) :
  (forall v W, In W (suppliedBy v arg) ->
               mapGet f (_wiringSuppliedByWiringAdjusters W) = None) ->
  forall fuel this this' calls,
    gatherLoop suppliedBy fuel k arg this = Ok (this', calls) ->
    pendingKnown this ->
    mapGet f (_wiringSuppliedByWiringAdjusters this) = None ->
    pendingKnown this'
    /\ mapGet f (_wiringSuppliedByWiringAdjusters this') = None
    /\ ~ In f calls.
Proof.
  intros Hsup.
  apply (gatherLoop_ind suppliedBy k arg
           (fun this this' calls =>
              pendingKnown this ->
              mapGet f (_wiringSuppliedByWiringAdjusters this) = None ->
              pendingKnown this'
              /\ mapGet f (_wiringSuppliedByWiringAdjusters this') = None
              /\ ~ In f calls)).
  - intros this _ HK Hf. auto.
  - intros this v rest this' calls Hl _ IH HK Hf.
    apply IH; [now apply (pendingKnown_shifted k v) | exact Hf].
  - intros this v rest this' calls Hl _ IH HK Hf.
    assert (Hne : f <> v).
    { intros ->. apply (HK k (v :: rest) v);
        [now apply lookup_Some_In | now left | exact Hf]. }
    destruct IH as (HK' & Hf' & Hnot).
    + apply pendingKnown_call. now apply (pendingKnown_shifted k v).
    + apply call_keeps_true_adjuster; [exact Hne | apply Hsup | exact Hf].
    + split; [exact HK'|]. split; [exact Hf'|].
      intros [E|Hin]; [congruence | contradiction].
Qed.

Lemma gather_not_called (fuel : nat) (k : string) (arg : option Container)
  (this this' : Wiring) (calls : list Adjuster) (f : Adjuster) :
  (forall v W, In W (suppliedBy v arg) ->
               mapGet f (_wiringSuppliedByWiringAdjusters W) = None) ->
  _gatherWiringSuppliedByWiringAdjusters suppliedBy fuel k arg this
  = Ok (this', calls) ->
  pendingKnown this ->
  mapGet f (_wiringSuppliedByWiringAdjusters this) = None ->
  pendingKnown this'
  /\ mapGet f (_wiringSuppliedByWiringAdjusters this') = None
  /\ ~ In f calls.
Proof.
  intros Hsup H. apply gather_cases in H.
  destruct H as [(_ & -> & ->)|[_ H]]; [auto|].
  exact (gatherLoop_not_called k arg f Hsup fuel this this' calls H).
Qed.

Lemma gather_pendingKnown (fuel : nat) (k : string) (arg : option Container)
  (this this' : Wiring) (calls : list Adjuster) :
  _gatherWiringSuppliedByWiringAdjusters suppliedBy fuel k arg this
  = Ok (this', calls) ->
  pendingKnown this -> pendingKnown this'.
Proof.
  intros H. apply gather_cases in H.
  destruct H as [(_ & -> & _)|[_ H]]; [auto|].
  revert fuel this this' calls H.
  apply (gatherLoop_ind suppliedBy k arg
           (fun this this' calls => pendingKnown this -> pendingKnown this')).
  - auto.
  - intros this v rest this' calls Hl _ IH HK. apply IH.
    now apply (pendingKnown_shifted k v).
  - intros this v rest this' calls Hl _ IH HK. apply IH.
    apply pendingKnown_call. now apply (pendingKnown_shifted k v).
Qed.

Lemma Instance_pendingKnown (w : Wiring) :
  Instance suppliedBy w -> pendingKnown w.
Proof.
  induction 1 as [w Hw|fuel self t args w p cr _ IH Hc
                  |fuel self t args w p factory base _ IH Hc].
  - now apply pendingKnown_DefinitionPhase.
  - rewrite clone_eq in Hc. apply _createContainer_inv in Hc.
    destruct Hc as (this1 & fl & Hg & _ & _ & _ & Hh).
    eapply gather_pendingKnown; [exact Hh|].
    eapply gather_pendingKnown; [exact Hg | exact IH].
  - rewrite clone_eq in Hc. unfold _createContainerFactory in Hc.
    destruct (_gatherWiringSuppliedByWiringAdjusters suppliedBy fuel "" None w)
      as [g| | |] eqn:Hg; cbn [bind] in Hc; try discriminate.
    destruct (lookup (dotted t) (_containerAdjusters (fst g)));
      [|discriminate].
    injection Hc as _ _ <-. destruct g as [this1 calls].
    eapply gather_pendingKnown; [exact Hg | exact IH].
Qed.

End PendingKnown.

(** ** Expansion after creation (C5) *)


